(** * Bit-level serialization (tier1/bitbuf.cpp): a shallow embedding

    The writer [bf_write] and the reader [bf_read] of [src/tier1/bitbuf.cpp]
    are embedded as pure state-passing functions over records that carry the
    fields of the C++ classes.  The caller-owned buffer is a list of 32-bit
    words in little-endian order: the byte at offset [k] is bits
    [8*(k mod 4) .. 8*(k mod 4)+7] of word [k / 4], and the stream bit at
    offset [i] is bit [i mod 32] of word [i / 32].

    Machine integers are [Z] with the wrap-around written out ([u32], [i32],
    [u64], [i64], [u8], [i8]).  Binary32 floating point is the Standard
    Library's executable IEEE-754 specification ([SpecFloat]) at precision 24
    and maximal exponent 128; binary64 is the same at 53 and 1024. *)

From Stdlib Require Import ZArith Lia Bool List Ascii String Btauto.
From Stdlib Require Import Floats.SpecFloat.
From stdpp Require Import base list.

Local Open Scope Z_scope.

(** ** Machine integers *)

Definition u8 (x : Z) : Z := x mod 2 ^ 8.
Definition u32 (x : Z) : Z := x mod 2 ^ 32.
Definition u64 (x : Z) : Z := x mod 2 ^ 64.
Definition i8 (x : Z) : Z := (x + 2 ^ 7) mod 2 ^ 8 - 2 ^ 7.
Definition i32 (x : Z) : Z := (x + 2 ^ 31) mod 2 ^ 32 - 2 ^ 31.
Definition i64 (x : Z) : Z := (x + 2 ^ 63) mod 2 ^ 64 - 2 ^ 63.

(** C truth value of an integer, and the integer of a C comparison. *)
Definition truthy (x : Z) : bool := negb (x =? 0).
Definition b2z (b : bool) : Z := if b then 1 else 0.

(** ** The caller-owned buffer *)

Abbreviation buffer := (list Z).

Definition wf_buffer (b : buffer) : Prop := Forall (fun w => 0 <= w < 2 ^ 32) b.

Definition LoadLittleDWord (base : buffer) (dwordIndex : Z) : Z :=
  default 0 (base !! Z.to_nat dwordIndex).

Definition StoreLittleDWord (base : buffer) (dwordIndex : Z) (dword : Z) : buffer :=
  <[Z.to_nat dwordIndex := dword]> base.

(** Byte view of the buffer (the [uint8] pointer cast of [m_pData]) on a
    little-endian machine. *)
Definition load_byte (base : buffer) (k : Z) : Z :=
  Z.land (Z.shiftr (LoadLittleDWord base (k / 4)) (8 * (k mod 4))) 255.

Definition store_byte (base : buffer) (k : Z) (v : Z) : buffer :=
  let sh := 8 * (k mod 4) in
  let old := LoadLittleDWord base (k / 4) in
  StoreLittleDWord base (k / 4)
    (Z.lor (Z.land old (u32 (Z.lnot (Z.shiftl 255 sh)))) (Z.shiftl (u8 v) sh)).

(** The stream bit at absolute offset [i]. *)
Definition bit_at (base : buffer) (i : Z) : bool :=
  Z.testbit (LoadLittleDWord base (i / 32)) (i mod 32).

(** ** Precomputed masks ([CBitWriteMasksInit]) *)

(** Modelled from the spec: [GetBitForBitnum] of bitvec.h is not among the
    sources; it is the single-bit mask [1 << (bitnum & 31)] behind the
    spec's "bit-mask precomputation tables". *)
Definition BitForBitnum (bitnum : Z) : Z := Z.shiftl 1 (Z.land bitnum 31).

Definition BitWriteMask (startBit bitsLeft : Z) : Z :=
  let endBit := startBit + bitsLeft in
  let m := BitForBitnum startBit - 1 in
  u32 (if endBit <? 32 then Z.lor m (Z.lnot (BitForBitnum endBit - 1)) else m).

Definition g_BitWriteMasks : list (list Z) :=
  map (fun startBit => map (fun bitsLeft => BitWriteMask startBit bitsLeft) (seqZ 0 33))
      (seqZ 0 32).

Definition g_ExtraMasks : list Z :=
  map (fun maskBit => u32 (BitForBitnum maskBit - 1)) (seqZ 0 32) ++ [u32 (Z.lnot 0)].

Definition BitWriteMasks_at (startBit bitsLeft : Z) : Z :=
  default 0 (default [] (g_BitWriteMasks !! Z.to_nat startBit) !! Z.to_nat bitsLeft).

Definition ExtraMasks_at (n : Z) : Z := default 0 (g_ExtraMasks !! Z.to_nat n).

(** ** Protocol constants *)

(** Modelled from the spec: [bitbuf::kMaxVarint32Bytes] and
    [bitbuf::kMaxVarintBytes] of bitbuf.h ("up to 5 bytes (32-bit) or 10
    bytes (64-bit)"). *)
Definition kMaxVarint32Bytes : Z := 5.
Definition kMaxVarintBytes : Z := 10.

(** Modelled from the spec: the widths of coordsize.h, "[intPart:14 if
    hasInt][fracPart:5 if hasFrac]", the denominator a power of two. *)
Definition COORD_INTEGER_BITS : Z := 14.
Definition COORD_FRACTIONAL_BITS : Z := 5.
Definition COORD_DENOMINATOR : Z := Z.shiftl 1 COORD_FRACTIONAL_BITS.

(** Modelled from the spec: the zig-zag mapping of bitbuf.h,
    [encode(n) = (n << 1) ^ (n >> (bits-1))] and
    [decode(z) = (z >> 1) ^ -(z & 1)]. *)
Definition ZigZagEncode32 (n : Z) : Z := u32 (Z.lxor (Z.shiftl n 1) (Z.shiftr n 31)).
Definition ZigZagDecode32 (n : Z) : Z := i32 (Z.lxor (Z.shiftr n 1) (- Z.land n 1)).
Definition ZigZagEncode64 (n : Z) : Z := u64 (Z.lxor (Z.shiftl n 1) (Z.shiftr n 63)).
Definition ZigZagDecode64 (n : Z) : Z := i64 (Z.lxor (Z.shiftr n 1) (- Z.land n 1)).

(** ** Loops

    A [while] loop of the source runs on fuel and yields [None] when the fuel
    runs out; the theorems show how much fuel is enough. *)

Section While.
Context {S : Type}.
Variable cond : S -> bool.
Variable body : S -> S.

Fixpoint while (fuel : nat) (s : S) : option S :=
  match fuel with
  | O => None
  | Datatypes.S fuel' => if cond s then while fuel' (body s) else Some s
  end.
End While.

(** ** The source of a bulk write

    [pInData] of [WriteBits]: the address decides the alignment loop, the
    bytes are what the pointer sees. *)

Record inptr : Type := mk_inptr { in_addr : Z; in_bytes : list Z }.

Definition byte_of (l : list Z) (k : nat) : Z := u8 (default 0 (l !! k)).

Definition deref8 (p : inptr) : Z := byte_of (in_bytes p) 0.

Definition deref32 (p : inptr) : Z :=
  Z.lor (Z.lor (byte_of (in_bytes p) 0) (Z.shiftl (byte_of (in_bytes p) 1) 8))
        (Z.lor (Z.shiftl (byte_of (in_bytes p) 2) 16)
               (Z.shiftl (byte_of (in_bytes p) 3) 24)).

Definition ptr_add (p : inptr) (k : Z) : inptr :=
  mk_inptr (in_addr p + k) (drop (Z.to_nat k) (in_bytes p)).

(** [Q_memcpy] into the byte view of the buffer. *)
Fixpoint memcpy_bytes (base : buffer) (dst : Z) (src : list Z) (n : nat) : buffer :=
  match n with
  | O => base
  | Datatypes.S n' =>
      memcpy_bytes (store_byte base dst (byte_of src 0)) (dst + 1) (drop 1 src) n'
  end.

(** ** Binary32 arithmetic *)

Definition f32_of_int (n : Z) : spec_float := binary_normalize 24 128 n 0 false.
Definition f32_mul : spec_float -> spec_float -> spec_float := SFmul 24 128.
Definition f32_add : spec_float -> spec_float -> spec_float := SFadd 24 128.
Definition f32_sub : spec_float -> spec_float -> spec_float := SFsub 24 128.
Definition f32_div : spec_float -> spec_float -> spec_float := SFdiv 24 128.
Definition f32_sqrt : spec_float -> spec_float := SFsqrt 24 128.
Definition f32_zero : spec_float := S754_zero false.
Definition f32_one : spec_float := f32_of_int 1.

(** Binary64, for the expressions that the usual arithmetic conversions
    evaluate in [double]: the conversion of a [float] to [double] is exact,
    the conversion back rounds to the nearest [float]. *)
Definition f64_of_int (n : Z) : spec_float := binary_normalize 53 1024 n 0 false.
Definition f64_mul : spec_float -> spec_float -> spec_float := SFmul 53 1024.
Definition f64_div : spec_float -> spec_float -> spec_float := SFdiv 53 1024.
Definition f64_one : spec_float := f64_of_int 1.

Definition f64_of_f32 (x : spec_float) : spec_float :=
  match x with
  | S754_finite s m e => binary_normalize 53 1024 (if s then Z.neg m else Z.pos m) e s
  | _ => x
  end.

Definition f32_of_f64 (x : spec_float) : spec_float :=
  match x with
  | S754_finite s m e => binary_normalize 24 128 (if s then Z.neg m else Z.pos m) e s
  | _ => x
  end.

(** The conversion [(int)x]: truncation toward zero; outside the range of
    [int] (and for infinities and NaN) the x86 conversion yields
    [0x80000000]. *)
Definition int_of_f32 (x : spec_float) : Z :=
  match x with
  | S754_zero _ => 0
  | S754_finite s m e =>
      let mag := if 0 <=? e then Z.pos m * 2 ^ e else Z.pos m / 2 ^ (- e) in
      let v := if s then - mag else mag in
      if (- 2 ^ 31 <=? v) && (v <? 2 ^ 31) then v else - 2 ^ 31
  | _ => - 2 ^ 31
  end.

(** [abs] on [int]. *)
Definition c_abs (x : Z) : Z := i32 (Z.abs x).

(** Modelled from the spec: [COORD_RESOLUTION] of coordsize.h, one
    fractional step [1.0 / COORD_DENOMINATOR]. *)
Definition COORD_RESOLUTION : spec_float := f32_div f32_one (f32_of_int COORD_DENOMINATOR).

(** ** An [int64] seen as two [uint]s

    [WriteLongLong] and [ReadLongLong] view an [int64] through
    [uint* pLongs] and pick the halves with the bytes of
    [const short endianIndex = 0x0100]: on a little-endian host these bytes
    are 0 then 1 and [pLongs[0]] is the low half; on a big-endian host they
    are 1 then 0 and [pLongs[1]] is the low half. *)

Definition pLongs_of (BigEndian : bool) (val : Z) : list Z :=
  if BigEndian then [u32 (Z.shiftr val 32); u32 val]
  else [u32 val; u32 (Z.shiftr val 32)].

Definition int64_of_pLongs (BigEndian : bool) (pLongs : list Z) : Z :=
  let p0 := default 0 (pLongs !! 0%nat) in
  let p1 := default 0 (pLongs !! 1%nat) in
  if BigEndian then i64 (Z.lor (Z.shiftl p0 32) p1) else i64 (Z.lor p0 (Z.shiftl p1 32)).

Definition endianIndex (BigEndian : bool) : list Z := if BigEndian then [1; 0] else [0; 1].

(** ** The destination of a bulk read

    [pOutData] of [ReadBits]: the address of the pointer decides the
    alignment loop, [out_index] is how far the pointer has moved into the
    destination array [out_bytes]. *)

Record outptr : Type := mk_outptr { out_addr : Z; out_index : Z; out_bytes : list Z }.

(** A store of [v] through the [unsigned char] pointer [pOut]. *)
Definition store8 (p : outptr) (v : Z) : outptr :=
  mk_outptr (out_addr p) (out_index p) (<[Z.to_nat (out_index p) := u8 v]> (out_bytes p)).

(** A store of [v] through [pOut] cast to a [uint32] pointer, on a
    little-endian machine. *)
Definition store32 (p : outptr) (v : Z) : outptr :=
  let k := Z.to_nat (out_index p) in
  mk_outptr (out_addr p) (out_index p)
    (<[(k + 3)%nat := u8 (Z.shiftr v 24)]>
       (<[(k + 2)%nat := u8 (Z.shiftr v 16)]>
          (<[(k + 1)%nat := u8 (Z.shiftr v 8)]>
             (<[k := u8 v]> (out_bytes p))))).

Definition out_add (p : outptr) (k : Z) : outptr :=
  mk_outptr (out_addr p + k) (out_index p + k) (out_bytes p).

(** ** bf_write *)

Module bf_write.

Record t : Type := mk {
  m_pData : buffer;
  m_nDataBytes : Z;
  m_nDataBits : Z;
  m_iCurBit : Z;
  m_bOverflow : bool;
  m_bAssertOnOverflow : bool;
  m_pDebugName : option string
}.

Definition with_data (w : t) (d : buffer) : t :=
  mk d (m_nDataBytes w) (m_nDataBits w) (m_iCurBit w) (m_bOverflow w)
     (m_bAssertOnOverflow w) (m_pDebugName w).

Definition with_cur (w : t) (c : Z) : t :=
  mk (m_pData w) (m_nDataBytes w) (m_nDataBits w) c (m_bOverflow w)
     (m_bAssertOnOverflow w) (m_pDebugName w).

(** The default constructor. *)
Definition init : t := mk [] 0 (-1) 0 false true None.

Definition StartWriting (w : t) (pData : buffer) (nBytes iStartBit nBits : Z) : t :=
  let nBytes := Z.land nBytes (Z.lnot 3) in
  let nDataBits := if nBits =? -1 then Z.shiftl nBytes 3 else nBits in
  mk pData nBytes nDataBits iStartBit false (m_bAssertOnOverflow w) (m_pDebugName w).

(** [bf_write(pData, nBytes, nBits)]. *)
Definition create (pData : buffer) (nBytes nBits : Z) : t :=
  StartWriting (mk [] 0 (-1) 0 false true None) pData nBytes 0 nBits.

Definition Reset (w : t) : t :=
  mk (m_pData w) (m_nDataBytes w) (m_nDataBits w) 0 false
     (m_bAssertOnOverflow w) (m_pDebugName w).

Definition SetAssertOnOverflow (w : t) (bAssert : bool) : t :=
  mk (m_pData w) (m_nDataBytes w) (m_nDataBits w) (m_iCurBit w) (m_bOverflow w)
     bAssert (m_pDebugName w).

Definition SetDebugName (w : t) (pDebugName : option string) : t :=
  mk (m_pData w) (m_nDataBytes w) (m_nDataBits w) (m_iCurBit w) (m_bOverflow w)
     (m_bAssertOnOverflow w) pDebugName.

Definition SeekToBit (w : t) (bitPos : Z) : t := with_cur w bitPos.

(** Modelled from the spec: [SetOverflowFlag] and [IsOverflowed] of bitbuf.h
    (the sticky overflow flag and its query); the reader's
    [SetOverflowFlag], which is among the sources, does the same. *)
Definition SetOverflowFlag (w : t) : t :=
  mk (m_pData w) (m_nDataBytes w) (m_nDataBits w) (m_iCurBit w) true
     (m_bAssertOnOverflow w) (m_pDebugName w).

Definition IsOverflowed (w : t) : bool := m_bOverflow w.

(** Modelled from the spec: [WriteUBitLong] of bitbuf.h.  "Writes the low
    numBits bits of value, least-significant-bit-first, packed across 32-bit
    word boundaries with a precomputed mask table keyed by
    (startBitWithinWord, bitsRemaining) to merge without clobbering adjacent
    bits.  If curBit + numBits > capacityBits, sets overflow". *)
Definition WriteUBitLong (w : t) (curData : Z) (numbits : Z) : t :=
  if m_iCurBit w + numbits >? m_nDataBits w then SetOverflowFlag w
  else
    let curData := Z.land curData (ExtraMasks_at numbits) in
    let iCurBit := m_iCurBit w in
    let iDWord := Z.shiftr iCurBit 5 in
    let iCurBitMasked := Z.land iCurBit 31 in
    let dword := LoadLittleDWord (m_pData w) iDWord in
    let dword := Z.land dword (BitWriteMasks_at iCurBitMasked numbits) in
    let dword := Z.lor dword (u32 (Z.shiftl curData iCurBitMasked)) in
    let data := StoreLittleDWord (m_pData w) iDWord dword in
    let nBitsWritten := 32 - iCurBitMasked in
    let data :=
      if nBitsWritten <? numbits then
        let nBitsLeft := numbits - nBitsWritten in
        let curData := Z.shiftr curData nBitsWritten in
        let dword := LoadLittleDWord data (iDWord + 1) in
        let dword := Z.land dword (BitWriteMasks_at 0 nBitsLeft) in
        let dword := Z.lor dword curData in
        StoreLittleDWord data (iDWord + 1) dword
      else data in
    with_cur (with_data w data) (iCurBit + numbits).

(** Modelled from the spec: [WriteOneBit] of bitbuf.h, the single-bit
    primitive: one bit, set when the argument is nonzero, under the same
    capacity check. *)
Definition WriteOneBit (w : t) (nValue : Z) : t :=
  if m_iCurBit w >=? m_nDataBits w then SetOverflowFlag w
  else
    let i := Z.shiftr (m_iCurBit w) 5 in
    let m := Z.shiftl 1 (Z.land (m_iCurBit w) 31) in
    let old := LoadLittleDWord (m_pData w) i in
    let new := if truthy nValue then Z.lor old m else Z.land old (u32 (Z.lnot m)) in
    with_cur (with_data w (StoreLittleDWord (m_pData w) i new)) (m_iCurBit w + 1).

(** [data] is an [int]; the [AssertMsg2] is a debug-build check. *)
Definition WriteSBitLong (w : t) (data : Z) (numbits : Z) : t :=
  let nValue := data in
  let nPreserveBits := Z.shiftr 0x7FFFFFFF (32 - numbits) in
  let nSignExtension := Z.land (Z.shiftr nValue 31) (Z.lnot nPreserveBits) in
  let nValue := Z.land nValue nPreserveBits in
  let nValue := Z.lor nValue nSignExtension in
  WriteUBitLong w (u32 nValue) numbits.

Definition WriteChar (w : t) (val : Z) : t := WriteSBitLong w val 8.


(** [target[k] = v], [target] being the byte pointer at the cursor. *)
Definition poke (w : t) (target k v : Z) : t :=
  with_data w (store_byte (m_pData w) (target + k) v).

(** [target[k] &= 0x7F]. *)
Definition clear_top (w : t) (target k : Z) : t :=
  poke w target k (Z.land (load_byte (m_pData w) (target + k)) 0x7F).

Definition advance (w : t) (nbits : Z) : t := with_cur w (m_iCurBit w + nbits).

(** The byte-at-a-time loop shared by both varint writers:
    [while (data > 0x7F) { WriteUBitLong((data & 0x7F) | 0x80, 8); data >>= 7; }]. *)
Definition varint_loop (fuel : nat) (w : t) (data : Z) : option (t * Z) :=
  while (fun '(w, data) => data >? 0x7F)
        (fun '(w, data) =>
           (WriteUBitLong w (Z.lor (Z.land data 0x7F) 0x80) 8, Z.shiftr data 7))
        fuel (w, data).

Definition WriteVarInt32 (fuel : nat) (w : t) (data : Z) : option t :=
  if (Z.land (m_iCurBit w) 7 =? 0) &&
     (m_iCurBit w + kMaxVarint32Bytes * 8 <=? m_nDataBits w)
  then
    let target := Z.shiftr (m_iCurBit w) 3 in
    let w := poke w target 0 (u8 (Z.lor data 0x80)) in
    if data >=? Z.shiftl 1 7 then
      let w := poke w target 1 (u8 (Z.lor (Z.shiftr data 7) 0x80)) in
      if data >=? Z.shiftl 1 14 then
        let w := poke w target 2 (u8 (Z.lor (Z.shiftr data 14) 0x80)) in
        if data >=? Z.shiftl 1 21 then
          let w := poke w target 3 (u8 (Z.lor (Z.shiftr data 21) 0x80)) in
          if data >=? Z.shiftl 1 28 then
            let w := poke w target 4 (u8 (Z.shiftr data 28)) in
            Some (advance w (5 * 8))
          else
            Some (advance (clear_top w target 3) (4 * 8))
        else
          Some (advance (clear_top w target 2) (3 * 8))
      else
        Some (advance (clear_top w target 1) (2 * 8))
    else
      Some (advance (clear_top w target 0) (1 * 8))
  else
    '(w, data) ← varint_loop fuel w data;
    Some (WriteUBitLong w (Z.land data 0x7F) 8).

Definition WriteVarInt64 (fuel : nat) (w : t) (data : Z) : option t :=
  if (Z.land (m_iCurBit w) 7 =? 0) &&
     (m_iCurBit w + kMaxVarintBytes * 8 <=? m_nDataBits w)
  then
    let target := Z.shiftr (m_iCurBit w) 3 in
    let part0 := u32 data in
    let part1 := u32 (Z.shiftr data 28) in
    let part2 := u32 (Z.shiftr data 56) in
    let size :=
      if part2 =? 0 then
        if part1 =? 0 then
          (if part0 <? Z.shiftl 1 7 then 1 else 2)
        else
          (if part1 <? Z.shiftl 1 7 then 5
           else if part1 <? Z.shiftl 1 14 then 6
           else if part1 <? Z.shiftl 1 21 then 7 else 8)
      else
        (if part2 <? Z.shiftl 1 7 then 9 else 10) in
    (* the switch falls through from [case size] down to [case 1] *)
    let w := if 10 <=? size then poke w target 9 (u8 (Z.lor (Z.shiftr part2 7) 0x80)) else w in
    let w := if 9 <=? size then poke w target 8 (u8 (Z.lor part2 0x80)) else w in
    let w := if 8 <=? size then poke w target 7 (u8 (Z.lor (Z.shiftr part1 21) 0x80)) else w in
    let w := if 7 <=? size then poke w target 6 (u8 (Z.lor (Z.shiftr part1 14) 0x80)) else w in
    let w := if 6 <=? size then poke w target 5 (u8 (Z.lor (Z.shiftr part1 7) 0x80)) else w in
    let w := if 5 <=? size then poke w target 4 (u8 (Z.lor part1 0x80)) else w in
    let w := if 4 <=? size then poke w target 3 (u8 (Z.lor (Z.shiftr part0 21) 0x80)) else w in
    let w := if 3 <=? size then poke w target 2 (u8 (Z.lor (Z.shiftr part0 14) 0x80)) else w in
    let w := if 2 <=? size then poke w target 1 (u8 (Z.lor (Z.shiftr part0 7) 0x80)) else w in
    let w := if 1 <=? size then poke w target 0 (u8 (Z.lor part0 0x80)) else w in
    let w := clear_top w target (size - 1) in
    Some (advance w (size * 8))
  else
    '(w, data) ← varint_loop fuel w data;
    Some (WriteUBitLong w (Z.land data 0x7F) 8).

Definition WriteSignedVarInt32 (fuel : nat) (w : t) (data : Z) : option t :=
  WriteVarInt32 fuel w (ZigZagEncode32 data).

Definition WriteSignedVarInt64 (fuel : nat) (w : t) (data : Z) : option t :=
  WriteVarInt64 fuel w (ZigZagEncode64 data).

(** [while (data > 0x7F) { size++; data >>= 7; }] *)
Definition ByteSize_loop (fuel : nat) (size data : Z) : option (Z * Z) :=
  while (fun '(size, data) => data >? 0x7F)
        (fun '(size, data) => (size + 1, Z.shiftr data 7))
        fuel (size, data).

Definition ByteSizeVarInt32 (fuel : nat) (data : Z) : option Z :=
  '(size, _) ← ByteSize_loop fuel 1 data; Some size.

Definition ByteSizeVarInt64 (fuel : nat) (data : Z) : option Z :=
  '(size, _) ← ByteSize_loop fuel 1 data; Some size.

(** [IsPC] is a platform constant of the build; the source pointer's address
    decides the alignment loop.  The capacity test adds two [int]s: the sum
    wraps around at [2^31]. *)
Definition WriteBits (IsPC : bool) (fuel : nat) (w : t) (pInData : inptr) (nBits : Z)
  : option (bool * t) :=
  let pOut := pInData in
  let nBitsLeft := nBits in
  if i32 (m_iCurBit w + nBits) >? m_nDataBits w then Some (false, SetOverflowFlag w)
  else
    '(w, pOut, nBitsLeft) ←
      while (fun '(w, pOut, nBitsLeft) =>
               negb (Z.land (in_addr pOut) 3 =? 0) && (nBitsLeft >=? 8))
            (fun '(w, pOut, nBitsLeft) =>
               (WriteUBitLong w (deref8 pOut) 8, ptr_add pOut 1, nBitsLeft - 8))
            fuel (w, pOut, nBitsLeft);
    let '(w, pOut, nBitsLeft) :=
      if IsPC && (nBitsLeft >=? 32) && (Z.land (m_iCurBit w) 7 =? 0) then
        let numbytes := Z.shiftr nBitsLeft 3 in
        let numbits := Z.shiftl numbytes 3 in
        let w := with_data w (memcpy_bytes (m_pData w) (Z.shiftr (m_iCurBit w) 3)
                                (in_bytes pOut) (Z.to_nat numbytes)) in
        (advance w numbits, ptr_add pOut numbytes, nBitsLeft - numbits)
      else (w, pOut, nBitsLeft) in
    '(w, pOut, nBitsLeft) ←
      (if IsPC && (nBitsLeft >=? 32) then
         let iBitsRight := Z.land (m_iCurBit w) 31 in
         let iBitsLeft := 32 - iBitsRight in
         let bitMaskLeft := BitWriteMasks_at iBitsRight 32 in
         let bitMaskRight := BitWriteMasks_at 0 iBitsRight in
         let pData := Z.shiftr (m_iCurBit w) 5 in
         '(w, _, pOut, nBitsLeft) ←
           while (fun '(w, pData, pOut, nBitsLeft) => nBitsLeft >=? 32)
                 (fun '(w, pData, pOut, nBitsLeft) =>
                    let curData := deref32 pOut in
                    let pOut := ptr_add pOut 4 in
                    let d := m_pData w in
                    let d := StoreLittleDWord d pData
                               (Z.land (LoadLittleDWord d pData) bitMaskLeft) in
                    let d := StoreLittleDWord d pData
                               (Z.lor (LoadLittleDWord d pData)
                                      (u32 (Z.shiftl curData iBitsRight))) in
                    let pData := pData + 1 in
                    let d :=
                      if iBitsLeft <? 32 then
                        let curData := Z.shiftr curData iBitsLeft in
                        let d := StoreLittleDWord d pData
                                   (Z.land (LoadLittleDWord d pData) bitMaskRight) in
                        StoreLittleDWord d pData (Z.lor (LoadLittleDWord d pData) curData)
                      else d in
                    (advance (with_data w d) 32, pData, pOut, nBitsLeft - 32))
                 fuel (w, pData, pOut, nBitsLeft);
         Some (w, pOut, nBitsLeft)
       else Some (w, pOut, nBitsLeft));
    '(w, pOut, nBitsLeft) ←
      while (fun '(w, pOut, nBitsLeft) => nBitsLeft >=? 8)
            (fun '(w, pOut, nBitsLeft) =>
               (WriteUBitLong w (deref8 pOut) 8, ptr_add pOut 1, nBitsLeft - 8))
            fuel (w, pOut, nBitsLeft);
    let w := if truthy nBitsLeft then WriteUBitLong w (deref8 pOut) nBitsLeft else w in
    Some (negb (IsOverflowed w), w).

Definition WriteBytes (IsPC : bool) (fuel : nat) (w : t) (pBuf : inptr) (nBytes : Z)
  : option (bool * t) :=
  WriteBits IsPC fuel w pBuf (nBytes * 8).

Definition WriteBitCoord (w : t) (f : spec_float) : t :=
  let signBit := b2z (SFleb f (SFopp COORD_RESOLUTION)) in
  let intVal := int_of_f32 (SFabs f) in
  let fractVal :=
    Z.land (c_abs (int_of_f32 (f32_mul f (f32_of_int COORD_DENOMINATOR))))
           (COORD_DENOMINATOR - 1) in
  let w := WriteOneBit w intVal in
  let w := WriteOneBit w fractVal in
  if truthy intVal || truthy fractVal then
    let w := WriteOneBit w signBit in
    let w := if truthy intVal
             then WriteUBitLong w (u32 (i32 (intVal - 1))) COORD_INTEGER_BITS else w in
    if truthy fractVal then WriteUBitLong w (u32 fractVal) COORD_FRACTIONAL_BITS else w
  else w.

(** [pStr] is the characters the pointer sees ([None] for a null pointer);
    the loop stops at the first zero. *)
Fixpoint WriteString_loop (w : t) (pStr : list Z) : t :=
  match pStr with
  | [] => w
  | c :: rest => if truthy c then WriteString_loop (WriteChar w c) rest else w
  end.

Definition WriteString (w : t) (pStr : option (list Z)) : bool * t :=
  let w := match pStr with Some s => WriteString_loop w s | None => w end in
  let w := WriteChar w 0 in
  (negb (IsOverflowed w), w).

Definition ByteSizeSignedVarInt32 (fuel : nat) (data : Z) : option Z :=
  ByteSizeVarInt32 fuel (ZigZagEncode32 data).


(** [data] is an [unsigned int]; the signed branch passes [(int)data]. *)
Definition WriteBitLong (w : t) (data numbits : Z) (bSigned : bool) : t :=
  if bSigned then WriteSBitLong w (i32 data) numbits else WriteUBitLong w data numbits.




Definition WriteLongLong (BigEndian : bool) (w : t) (val : Z) : t :=
  let pLongs := pLongs_of BigEndian val in
  let idx := endianIndex BigEndian in
  let w := WriteUBitLong w (default 0 (pLongs !! Z.to_nat (default 0 (idx !! 0%nat)))) 32 in
  WriteUBitLong w (default 0 (pLongs !! Z.to_nat (default 0 (idx !! 1%nat)))) 32.

(** [fa] is the triple of its components. *)
Definition WriteBitVec3Coord (w : t) (fa : spec_float * spec_float * spec_float) : t :=
  let '(fa0, fa1, fa2) := fa in
  let xflag := b2z (SFleb COORD_RESOLUTION fa0 || SFleb fa0 (SFopp COORD_RESOLUTION)) in
  let yflag := b2z (SFleb COORD_RESOLUTION fa1 || SFleb fa1 (SFopp COORD_RESOLUTION)) in
  let zflag := b2z (SFleb COORD_RESOLUTION fa2 || SFleb fa2 (SFopp COORD_RESOLUTION)) in
  let w := WriteOneBit w xflag in
  let w := WriteOneBit w yflag in
  let w := WriteOneBit w zflag in
  let w := if truthy xflag then WriteBitCoord w fa0 else w in
  let w := if truthy yflag then WriteBitCoord w fa1 else w in
  if truthy zflag then WriteBitCoord w fa2 else w.

(** [WriteBitVec3Coord(Vector(fa.x, fa.y, fa.z))]. *)
Definition WriteBitAngles (w : t) (fa : spec_float * spec_float * spec_float) : t :=
  let '(x, y, z) := fa in WriteBitVec3Coord w (x, y, z).

Section Normal.
(** The constants of coordsize.h for normals are not among the sources:
    they are parameters, [NORMAL_DENOMINATOR] an [int] and
    [NORMAL_RESOLUTION] a [double] (coordsize.h has
    [1.0 / NORMAL_DENOMINATOR]), given as a binary64 value. *)
Variable NORMAL_FRACTIONAL_BITS : Z.
Variable NORMAL_DENOMINATOR : Z.
Variable NORMAL_RESOLUTION : spec_float.

(** [fractVal] is an [unsigned int].  The sign test compares [f] with a
    [double], so in binary64; the product [f * NORMAL_DENOMINATOR] is a
    [float] times an [int], so in binary32. *)
Definition WriteBitNormal (w : t) (f : spec_float) : t :=
  let signBit := b2z (SFleb (f64_of_f32 f) (SFopp NORMAL_RESOLUTION)) in
  let fractVal := u32 (c_abs (int_of_f32 (f32_mul f (f32_of_int NORMAL_DENOMINATOR)))) in
  let fractVal :=
    if fractVal >? u32 NORMAL_DENOMINATOR then u32 NORMAL_DENOMINATOR else fractVal in
  let w := WriteOneBit w signBit in
  WriteUBitLong w fractVal NORMAL_FRACTIONAL_BITS.

Definition WriteBitVec3Normal (w : t) (fa : spec_float * spec_float * spec_float) : t :=
  let '(x, y, z) := fa in
  let w := WriteBitNormal w x in
  let w := WriteBitNormal w y in
  WriteBitNormal w z.
End Normal.



Section CoordMP.
(** The multiplayer constants of coordsize.h are not among the sources:
    they are parameters, the two bit counts and the low-precision
    denominator integers, the low-precision resolution a [double], given
    as a binary64 value. *)
Variable COORD_INTEGER_BITS_MP : Z.
Variable COORD_FRACTIONAL_BITS_MP_LOWPRECISION : Z.
Variable COORD_DENOMINATOR_LOWPRECISION : Z.
Variable COORD_RESOLUTION_LOWPRECISION : spec_float.

End CoordMP.

Section LittleFloat.
(** [LittleFloat] of the byte-order macros is not among the sources: it
    is a parameter, what it makes of the four bytes of a [float]. *)
Variable LittleFloat : list Z -> list Z.

End LittleFloat.

End bf_write.

(** ** bf_read *)

Module bf_read.

Record t : Type := mk {
  m_pData : buffer;
  m_nDataBytes : Z;
  m_nDataBits : Z;
  m_iCurBit : Z;
  m_bOverflow : bool;
  m_bAssertOnOverflow : bool;
  m_pDebugName : option string
}.

Definition with_cur (r : t) (c : Z) : t :=
  mk (m_pData r) (m_nDataBytes r) (m_nDataBits r) c (m_bOverflow r)
     (m_bAssertOnOverflow r) (m_pDebugName r).

Definition init : t := mk [] 0 (-1) 0 false true None.

Definition StartReading (r : t) (pData : buffer) (nBytes iStartBit nBits : Z) : t :=
  let nDataBits := if nBits =? -1 then nBytes * 8 else nBits in
  mk pData nBytes nDataBits iStartBit false (m_bAssertOnOverflow r) (m_pDebugName r).

(** [bf_read(pData, nBytes, nBits)]. *)
Definition create (pData : buffer) (nBytes nBits : Z) : t :=
  StartReading (mk [] 0 (-1) 0 false true None) pData nBytes 0 nBits.

Definition Reset (r : t) : t :=
  mk (m_pData r) (m_nDataBytes r) (m_nDataBits r) 0 false
     (m_bAssertOnOverflow r) (m_pDebugName r).

Definition SetAssertOnOverflow (r : t) (bAssert : bool) : t :=
  mk (m_pData r) (m_nDataBytes r) (m_nDataBits r) (m_iCurBit r) (m_bOverflow r)
     bAssert (m_pDebugName r).

Definition SetDebugName (r : t) (pName : option string) : t :=
  mk (m_pData r) (m_nDataBytes r) (m_nDataBits r) (m_iCurBit r) (m_bOverflow r)
     (m_bAssertOnOverflow r) pName.

(** The [Assert(false)] under [m_bAssertOnOverflow] is a debug-build check. *)
Definition SetOverflowFlag (r : t) : t :=
  mk (m_pData r) (m_nDataBytes r) (m_nDataBits r) (m_iCurBit r) true
     (m_bAssertOnOverflow r) (m_pDebugName r).

Definition IsOverflowed (r : t) : bool := m_bOverflow r.

(** Modelled from the spec: [ReadUBitLong] of bitbuf.h.  "If
    cursor+numBits exceeds dataBits, sets overflow and returns 0"; otherwise
    the field is taken from the word holding its first bit and the word
    holding its last bit, "packed LSB-first into successive bit positions". *)
Definition ReadUBitLong (r : t) (numbits : Z) : Z * t :=
  if m_iCurBit r + numbits >? m_nDataBits r then (0, SetOverflowFlag r)
  else
    let iStartBit := Z.land (m_iCurBit r) 31 in
    let iLastBit := m_iCurBit r + numbits - 1 in
    let iWordOffset1 := Z.shiftr (m_iCurBit r) 5 in
    let iWordOffset2 := Z.shiftr iLastBit 5 in
    let bitmask := ExtraMasks_at numbits in
    let dw1 := Z.shiftr (LoadLittleDWord (m_pData r) iWordOffset1) iStartBit in
    let dw2 := u32 (Z.shiftl (LoadLittleDWord (m_pData r) iWordOffset2) (32 - iStartBit)) in
    (Z.land (Z.lor dw1 dw2) bitmask, with_cur r (m_iCurBit r + numbits)).

(** Modelled from the spec: [ReadOneBit] of bitbuf.h, the single-bit
    primitive under the same check against the valid bit length. *)
Definition ReadOneBit (r : t) : Z * t :=
  if m_iCurBit r >=? m_nDataBits r then (0, SetOverflowFlag r)
  else
    let w := LoadLittleDWord (m_pData r) (Z.shiftr (m_iCurBit r) 5) in
    (Z.land (Z.shiftr w (Z.land (m_iCurBit r) 31)) 1, with_cur r (m_iCurBit r + 1)).

(** The result is an [int]. *)
Definition ReadSBitLong (r : t) (numbits : Z) : Z * t :=
  let '(r0, rd) := ReadUBitLong r numbits in
  let s := u32 (Z.shiftl 1 (numbits - 1)) in
  let r1 := if r0 >=? s then u32 (r0 - s - s) else r0 in
  (i32 r1, rd).

(** [for (int i = 0; i < numbits; i++) r |= ReadOneBit() << i;] with [n]
    iterations left. *)
Fixpoint PeekUBitLong_loop (n : nat) (i : Z) (acc : Z) (r : t) : Z * t :=
  match n with
  | O => (acc, r)
  | Datatypes.S n' =>
      let '(b, r) := ReadOneBit r in
      PeekUBitLong_loop n' (i + 1) (Z.lor acc (u32 (Z.shiftl b i))) r
  end.

Definition PeekUBitLong (r : t) (numbits : Z) : Z * t :=
  let savebf := r in
  let '(v, _) := PeekUBitLong_loop (Z.to_nat numbits) 0 0 r in
  (v, savebf).

(** The [do ... while (b & 0x80)] loop of [ReadVarInt32]; [count] groups
    have been read. *)
Fixpoint ReadVarInt32_loop (fuel : nat) (result count : Z) (r : t) : option (Z * t) :=
  match fuel with
  | O => None
  | Datatypes.S fuel' =>
      if count =? kMaxVarint32Bytes then Some (result, r)
      else
        let '(b, r) := ReadUBitLong r 8 in
        let result := Z.lor result (u32 (Z.shiftl (Z.land b 0x7F) (7 * count))) in
        let count := count + 1 in
        if truthy (Z.land b 0x80) then ReadVarInt32_loop fuel' result count r
        else Some (result, r)
  end.

Definition ReadVarInt32 (fuel : nat) (r : t) : option (Z * t) :=
  ReadVarInt32_loop fuel 0 0 r.

Fixpoint ReadVarInt64_loop (fuel : nat) (result count : Z) (r : t) : option (Z * t) :=
  match fuel with
  | O => None
  | Datatypes.S fuel' =>
      if count =? kMaxVarintBytes then Some (result, r)
      else
        let '(b, r) := ReadUBitLong r 8 in
        let result := Z.lor result (u64 (Z.shiftl (Z.land b 0x7F) (7 * count))) in
        let count := count + 1 in
        if truthy (Z.land b 0x80) then ReadVarInt64_loop fuel' result count r
        else Some (result, r)
  end.

Definition ReadVarInt64 (fuel : nat) (r : t) : option (Z * t) :=
  ReadVarInt64_loop fuel 0 0 r.

Definition ReadSignedVarInt32 (fuel : nat) (r : t) : option (Z * t) :=
  '(value, r) ← ReadVarInt32 fuel r;
  Some (ZigZagDecode32 value, r).

(** [uint32 value = ReadVarInt64();] *)
Definition ReadSignedVarInt64 (fuel : nat) (r : t) : option (Z * t) :=
  '(v, r) ← ReadVarInt64 fuel r;
  let value := u32 v in
  Some (ZigZagDecode64 value, r).

Definition ReadBitCoord (r : t) : spec_float * t :=
  let value := f32_zero in
  let '(intval, r) := ReadOneBit r in
  let '(fractval, r) := ReadOneBit r in
  if truthy intval || truthy fractval then
    let '(signbit, r) := ReadOneBit r in
    let '(intval, r) :=
      if truthy intval
      then let '(v, r) := ReadUBitLong r COORD_INTEGER_BITS in (i32 (v + 1), r)
      else (intval, r) in
    let '(fractval, r) :=
      if truthy fractval
      then let '(v, r) := ReadUBitLong r COORD_FRACTIONAL_BITS in (i32 v, r)
      else (fractval, r) in
    let value := f32_add (f32_of_int intval) (f32_mul (f32_of_int fractval) COORD_RESOLUTION) in
    let value := if truthy signbit then SFopp value else value in
    (value, r)
  else (value, r).

Section Normal.
(** The constants of coordsize.h for normals are not among the sources
    and the spec leaves the width open ("N a fixed protocol constant"):
    they are parameters.  [NORMAL_RESOLUTION] is a [double] (coordsize.h
    has [1.0 / NORMAL_DENOMINATOR]), given as a binary64 value. *)
Variable NORMAL_FRACTIONAL_BITS : Z.
Variable NORMAL_RESOLUTION : spec_float.

(** [(float)fractVal * NORMAL_RESOLUTION] is a [float] times a [double]:
    the product is formed in binary64 and rounded to [float] by the
    assignment to [value]. *)
Definition ReadBitNormal (r : t) : spec_float * t :=
  let '(signBit, r) := ReadOneBit r in
  let '(fractVal, r) := ReadUBitLong r NORMAL_FRACTIONAL_BITS in
  let value := f32_of_f64 (f64_mul (f64_of_f32 (f32_of_int fractVal)) NORMAL_RESOLUTION) in
  let value := if truthy signBit then SFopp value else value in
  (value, r).

(** [fa] is returned as the triple of its components. *)
Definition ReadBitVec3Normal (r : t) : (spec_float * spec_float * spec_float) * t :=
  let '(xflag, r) := ReadOneBit r in
  let '(yflag, r) := ReadOneBit r in
  let '(fa0, r) := if truthy xflag then ReadBitNormal r else (f32_zero, r) in
  let '(fa1, r) := if truthy yflag then ReadBitNormal r else (f32_zero, r) in
  let '(zNegative, r) := ReadOneBit r in
  let sumSq := f32_add (f32_mul fa0 fa0) (f32_mul fa1 fa1) in
  let fa2 := if SFltb sumSq f32_one then f32_sqrt (f32_sub f32_one sumSq) else f32_zero in
  let fa2 := if truthy zNegative then SFopp fa2 else fa2 in
  ((fa0, fa1, fa2), r).
End Normal.

(** Modelled from the spec: [ReadChar] of bitbuf.h, the 8-bit signed read
    that mirrors the writer's [WriteChar]. *)
Definition ReadChar (r : t) : Z * t :=
  let '(v, r) := ReadUBitLong r 8 in (i8 v, r).

(** The [while (true)] loop of [ReadString]; [pStr] is the destination
    array. *)
Fixpoint ReadString_loop (fuel : nat) (r : t) (pStr : list Z) (maxLen : Z) (bLine : bool)
    (bTooSmall : bool) (iChar : Z) : option (t * list Z * bool * Z) :=
  match fuel with
  | O => None
  | Datatypes.S fuel' =>
      let '(val, r) := ReadChar r in
      if val =? 0 then Some (r, pStr, bTooSmall, iChar)
      else if bLine && (val =? 10) then Some (r, pStr, bTooSmall, iChar)
      else if iChar <? maxLen - 1
           then ReadString_loop fuel' r (<[Z.to_nat iChar := val]> pStr) maxLen bLine
                                bTooSmall (iChar + 1)
           else ReadString_loop fuel' r pStr maxLen bLine true iChar
  end.

(** Returns the truth value, the destination array, [*pOutNumChars] and the
    reader. *)
Definition ReadString (fuel : nat) (r : t) (pStr : list Z) (maxLen : Z) (bLine : bool)
  : option (bool * list Z * Z * t) :=
  '(r, pStr, bTooSmall, iChar) ← ReadString_loop fuel r pStr maxLen bLine false 0;
  let pStr := <[Z.to_nat iChar := 0]> pStr in
  Some (negb (IsOverflowed r) && negb bTooSmall, pStr, iChar, r).

Definition with_data (r : t) (d : buffer) : t :=
  mk d (m_nDataBytes r) (m_nDataBits r) (m_iCurBit r) (m_bOverflow r)
     (m_bAssertOnOverflow r) (m_pDebugName r).


(** [encodingType] is an [int]; [>>] on it is the arithmetic shift. *)
Definition ReadUBitVarInternal (r : t) (encodingType : Z) : Z * t :=
  let r := with_cur r (m_iCurBit r - 4) in
  let bits := 4 + encodingType * 4 + Z.land (Z.shiftr (2 - encodingType) 31) 16 in
  ReadUBitLong r bits.

(** The result is an [unsigned int]. *)
Definition ReadBitLong (r : t) (numbits : Z) (bSigned : bool) : Z * t :=
  if bSigned then let '(v, r) := ReadSBitLong r numbits in (u32 v, r)
  else ReadUBitLong r numbits.

Definition ReadBitCoordBits (r : t) : Z * t :=
  let '(flags, r) := ReadUBitLong r 2 in
  if flags =? 0 then (0, r)
  else
    let numbits_table :=
      [COORD_INTEGER_BITS + 1; COORD_FRACTIONAL_BITS + 1;
       COORD_INTEGER_BITS + COORD_FRACTIONAL_BITS + 1] in
    let '(v, r) := ReadUBitLong r (default 0 (numbits_table !! Z.to_nat (flags - 1))) in
    (u32 (v * 4 + flags), r).

(** [fa] is returned as the triple of its components. *)
Definition ReadBitVec3Coord (r : t) : (spec_float * spec_float * spec_float) * t :=
  let '(xflag, r) := ReadOneBit r in
  let '(yflag, r) := ReadOneBit r in
  let '(zflag, r) := ReadOneBit r in
  let '(fa0, r) := if truthy xflag then ReadBitCoord r else (f32_zero, r) in
  let '(fa1, r) := if truthy yflag then ReadBitCoord r else (f32_zero, r) in
  let '(fa2, r) := if truthy zflag then ReadBitCoord r else (f32_zero, r) in
  ((fa0, fa1, fa2), r).

Definition ReadBitAngles (r : t) : (spec_float * spec_float * spec_float) * t :=
  let '((x, y, z), r) := ReadBitVec3Coord r in ((x, y, z), r).

(** [retval] starts uninitialized; both halves are assigned. *)
Definition ReadLongLong (BigEndian : bool) (r : t) : Z * t :=
  let idx := endianIndex BigEndian in
  let pLongs := [0; 0] in
  let '(v, r) := ReadUBitLong r 32 in
  let pLongs := <[Z.to_nat (default 0 (idx !! 0%nat)) := v]> pLongs in
  let '(v, r) := ReadUBitLong r 32 in
  let pLongs := <[Z.to_nat (default 0 (idx !! 1%nat)) := v]> pLongs in
  (int64_of_pLongs BigEndian pLongs, r).

(** [IsPC] is a platform constant of the build.  Returns the destination
    array and the reader. *)
Definition ReadBits (IsPC : bool) (fuel : nat) (r : t) (pOutData : outptr) (nBits : Z)
  : option (list Z * t) :=
  let pOut := pOutData in
  let nBitsLeft := nBits in
  '(r, pOut, nBitsLeft) ←
    while (fun '(r, pOut, nBitsLeft) =>
             negb (Z.land (out_addr pOut) 3 =? 0) && (nBitsLeft >=? 8))
          (fun '(r, pOut, nBitsLeft) =>
             let '(v, r) := ReadUBitLong r 8 in
             (r, out_add (store8 pOut v) 1, nBitsLeft - 8))
          fuel (r, pOut, nBitsLeft);
  '(r, pOut, nBitsLeft) ←
    (if IsPC then
       while (fun '(r, pOut, nBitsLeft) => nBitsLeft >=? 32)
             (fun '(r, pOut, nBitsLeft) =>
                let '(v, r) := ReadUBitLong r 32 in
                (r, out_add (store32 pOut v) 4, nBitsLeft - 32))
             fuel (r, pOut, nBitsLeft)
     else Some (r, pOut, nBitsLeft));
  '(r, pOut, nBitsLeft) ←
    while (fun '(r, pOut, nBitsLeft) => nBitsLeft >=? 8)
          (fun '(r, pOut, nBitsLeft) =>
             let '(v, r) := ReadUBitLong r 8 in
             (r, out_add (store8 pOut v) 1, nBitsLeft - 8))
          fuel (r, pOut, nBitsLeft);
  let '(r, pOut) :=
    if truthy nBitsLeft
    then let '(v, r) := ReadUBitLong r nBitsLeft in (r, store8 pOut v)
    else (r, pOut) in
  Some (out_bytes pOut, r).

Definition ReadBytes (IsPC : bool) (fuel : nat) (r : t) (pOut : outptr) (nBytes : Z)
  : option (bool * list Z * t) :=
  '(out, r) ← ReadBits IsPC fuel r pOut (nBytes * 8);
  Some (negb (IsOverflowed r), out, r).

(** [char str[2048]] starts with whatever the stack holds, [str0]; the
    result is the new array of [nChars + 1] characters and [*pOverflow]. *)
Definition ReadAndAllocateString (fuel : nat) (r : t) (str0 : list Z)
  : option (list Z * bool * t) :=
  '(ret, str, nChars, r) ← ReadString fuel r str0 2048 false;
  let bOverflow := negb ret in
  let pRet := take (Z.to_nat (nChars + 1)) str in
  Some (pRet, bOverflow, r).

(** The loop of [ExciseBits]: [temp.WriteOneBit(ReadOneBit())] with [n]
    iterations left.  The reader and [temp] share one buffer, so what
    [temp] stores is what the reader sees from then on. *)
Fixpoint ExciseBits_loop (n : nat) (r : t) (temp : bf_write.t) : t * bf_write.t :=
  match n with
  | O => (r, temp)
  | S n' =>
      let '(b, r) := ReadOneBit r in
      let temp := bf_write.WriteOneBit temp b in
      ExciseBits_loop n' (with_data r (bf_write.m_pData temp)) temp
  end.

Section Seek.
(** [Seek] of bitbuf.h is not among the sources: it is a parameter. *)
Variable Seek : t -> Z -> t.

Definition ExciseBits (r : t) (startBit bitsToRemove : Z) : t :=
  let endBit := startBit + bitsToRemove in
  let remaining := m_nDataBits r - endBit in
  let temp := bf_write.StartWriting bf_write.init (m_pData r) (m_nDataBytes r)
                startBit (m_nDataBits r) in
  let r := Seek r endBit in
  let '(r, temp) := ExciseBits_loop (Z.to_nat remaining) r temp in
  let r := Seek r startBit in
  let nDataBits := m_nDataBits r - bitsToRemove in
  mk (m_pData r) (Z.shiftr nDataBits 3) nDataBits (m_iCurBit r) (m_bOverflow r)
     (m_bAssertOnOverflow r) (m_pDebugName r).
End Seek.

Section SeekRelative.
(** [SeekRelative] of bitbuf.h is not among the sources: it is a
    parameter.  The sizes are [size_t]; the results are converted to
    [int]. *)
Variable SeekRelative : t -> Z -> t.

Definition ReadBitsClamped_ptr (IsPC : bool) (fuel : nat) (r : t) (pOutData : outptr)
    (outSizeBytes nBits : Z) : option (Z * list Z * t) :=
  let outSizeBits := u64 (outSizeBytes * 8) in
  let readSizeBits := nBits in
  let skippedBits := 0 in
  let '(readSizeBits, skippedBits) :=
    if readSizeBits >? outSizeBits then (outSizeBits, i32 (u64 (nBits - outSizeBits)))
    else (readSizeBits, skippedBits) in
  '(out, r) ← ReadBits IsPC fuel r pOutData (i32 readSizeBits);
  let r := SeekRelative r skippedBits in
  Some (i32 readSizeBits, out, r).
End SeekRelative.

Section ReadOneBitNoCheck.
(** [ReadOneBitNoCheck] of bitbuf.h is not among the sources: it is a
    parameter. *)
Variable ReadOneBitNoCheck : t -> Z * t.


End ReadOneBitNoCheck.


Section CoordMP.
(** The multiplayer constants of coordsize.h are not among the sources:
    they are parameters. *)
Variable COORD_INTEGER_BITS_MP : Z.
Variable COORD_FRACTIONAL_BITS_MP_LOWPRECISION : Z.


End CoordMP.

Section LittleFloat.
(** [LittleFloat] of the byte-order macros is not among the sources: it
    is a parameter, what it makes of the four bytes of a [float]. *)
Variable LittleFloat : list Z -> list Z.

End LittleFloat.



End bf_read.

(** [bf_write::WriteBitsFromBuffer]: the writer and the reader [pIn] are
    threaded together (the writer's buffer is not the one [pIn] reads). *)
Definition WriteBitsFromBuffer (fuel : nat) (w : bf_write.t) (pIn : bf_read.t) (nBits : Z)
  : option (bool * bf_write.t * bf_read.t) :=
  '(w, pIn, nBits) ←
    while (fun '(w, pIn, nBits) => nBits >? 32)
          (fun '(w, pIn, nBits) =>
             let '(v, pIn) := bf_read.ReadUBitLong pIn 32 in
             (bf_write.WriteUBitLong w v 32, pIn, nBits - 32))
          fuel (w, pIn, nBits);
  let '(v, pIn) := bf_read.ReadUBitLong pIn nBits in
  let w := bf_write.WriteUBitLong w v nBits in
  Some (negb (bf_write.IsOverflowed w) && negb (bf_read.IsOverflowed pIn), w, pIn).

(** ** The byte-vector bit buffer ([class Bitbuf])

    [buf] is the [std::vector<byte>], [len] the length in bits.  Bits are
    stored most significant bit first: bit [i] of the buffer is bit
    [7 - i mod 8] of byte [i / 8].  An index past the end of the vector
    (undefined behaviour of [operator[]]) and an iterator range past the
    end make an operation return [None]. *)

Module Bitbuf.

(** [size_t] arithmetic, of a 64-bit build. *)
Definition usize (x : Z) : Z := x mod 2 ^ 64.

Record t : Type := mk { buf : list Z; len : Z }.

(** [Bitbuf() : len(0) {}] *)
Definition init : t := mk [] 0.

(** [n] is a [byte], [mask] an [unsigned]. *)
Definition set_bit (n : Z) (pos : Z) (set : Z) : Z :=
  let mask := u32 (Z.shiftl 1 pos) in
  if truthy set then u8 (Z.lor n mask) else u8 (Z.land n (u32 (Z.lnot mask))).

Definition size_in_bits (b : t) : Z := len b.

Definition capacity (b : t) : Z := usize (Z.of_nat (length (buf b)) * 8).

Definition byte_count (bits : Z) : Z := usize (bits + 7) / 8.

(** [buf.reserve] changes the allocation only. *)
Definition reserve (b : t) (n : Z) : t := b.

Definition push_back (b : t) (bit : bool) : option t :=
  let byte_pos := len b / 8 in
  let bit_pos := i32 (usize (7 - len b mod 8)) in
  let buf := if len b =? capacity b then buf b ++ [0] else buf b in
  n ← buf !! Z.to_nat byte_pos;
  Some (mk (<[Z.to_nat byte_pos := set_bit n bit_pos (b2z bit)]> buf) (usize (len b + 1))).

(** [quot] and [mod] are [int]s. *)
Definition append_byte (b : t) (v : Z) : option t :=
  let quot := i32 (len b / 8) in
  let mod_ := i32 (len b mod 8) in
  if mod_ =? 0 then Some (mk (buf b ++ [v]) (usize (len b + 8)))
  else
    old ← buf b !! Z.to_nat (usize quot);
    let tail := u8 (Z.shiftl (Z.shiftr old (8 - mod_)) (8 - mod_)) in
    let fill := u8 (Z.shiftr v mod_) in
    let rest := u8 (Z.shiftl v (8 - mod_)) in
    Some (mk (<[Z.to_nat (usize quot) := Z.lor tail fill]> (buf b) ++ [rest])
             (usize (len b + 8))).

Definition byte_at_pos_offset (b : t) (pos offset : Z) : option Z :=
  if offset =? 0 then buf b !! Z.to_nat pos
  else
    x ← buf b !! Z.to_nat pos;
    let ret := u8 (Z.shiftl x offset) in
    if usize (pos + 1) <? Z.of_nat (length (buf b)) then
      y ← buf b !! Z.to_nat (usize (pos + 1));
      Some (u8 (Z.lor ret (Z.shiftr y (8 - offset))))
    else Some ret.

(** The loop of the unaligned [append], with [n] iterations left.  The
    call of [byte_at_pos_offset] is the source's: on the buffer itself,
    not on [ba]. *)
Fixpoint append_loop (n : nat) (i : Z) (b : t) (start : Z) : option t :=
  match n with
  | O => Some b
  | S n' =>
      x ← byte_at_pos_offset b (usize (start / 8 + i)) (i32 (start mod 8));
      b ← append_byte b x;
      append_loop n' (usize (i + 1)) b start
  end.

Definition append (b ba : t) (start end_ : Z) : option t :=
  let gap := usize (end_ - start) in
  if (len b mod 8 =? 0) && (start mod 8 =? 0) then
    let first := start / 8 in
    let last := usize (start / 8 + byte_count gap) in
    if (first <=? last) && (last <=? Z.of_nat (length (buf ba))) then
      Some (mk (buf b ++ take (Z.to_nat (last - first)) (drop (Z.to_nat first) (buf ba)))
               (usize (len b + gap)))
    else None
  else
    let b := reserve b (usize (len b + gap)) in
    let old_len := len b in
    b ← append_loop (Z.to_nat (byte_count gap)) 0 b start;
    Some (mk (buf b) (usize (old_len + gap))).

(** [s[i] - '0'] converted to [bool]: false for the character 0, true for
    every other character. *)
Definition bit_of_char (c : Ascii.ascii) : bool := negb (Ascii.eqb c "0"%char).

Fixpoint push_chars (b : t) (s : string) : option t :=
  match s with
  | EmptyString => Some b
  | String c s' => b ← push_back b (bit_of_char c); push_chars b s'
  end.

Definition append_binary_str (b : t) (s : string) : option t :=
  let start := if String.prefix "0b"%string s then 2%nat else 0%nat in
  push_chars b (String.substring start (String.length s - start) s).

(** The classic locale's [isspace], the separator of [iss >> word]. *)
Definition is_space (c : Ascii.ascii) : bool :=
  let n := Ascii.nat_of_ascii c in
  (n =? 32)%nat || ((9 <=? n)%nat && (n <=? 13)%nat).

(** The words that [while (iss >> word)] extracts from [s]; [cur] is the
    word being read. *)
Fixpoint words_of (s : string) (cur : string) : list string :=
  match s with
  | EmptyString => match cur with EmptyString => [] | _ => [cur] end
  | String c s' =>
      if is_space c
      then match cur with
           | EmptyString => words_of s' EmptyString
           | _ => cur :: words_of s' EmptyString
           end
      else words_of s' (String.append cur (String c EmptyString))
  end.

Fixpoint append_words (b : t) (ws : list string) : option t :=
  match ws with
  | [] => Some b
  | w :: ws' => b ← append_binary_str b w; append_words b ws'
  end.

(** [Bitbuf(const std::string& s)] *)
Definition of_string (s : string) : option t :=
  append_words init (words_of s EmptyString).

End Bitbuf.

(** Bit [i] of a [Bitbuf], and its bits in order. *)
Definition Bitbuf_bit (b : Bitbuf.t) (i : Z) : bool :=
  Z.testbit (default 0 (Bitbuf.buf b !! Z.to_nat (i / 8))) (7 - i mod 8).

Definition Bitbuf_bits (b : Bitbuf.t) : list bool :=
  map (Bitbuf_bit b) (seqZ 0 (Bitbuf.len b)).

(** A reader over what a writer has produced, positioned at [iStartBit]. *)
Definition reader_of (w : bf_write.t) (iStartBit : Z) : bf_read.t :=
  bf_read.StartReading bf_read.init (bf_write.m_pData w) (bf_write.m_nDataBytes w)
    iStartBit (bf_write.m_nDataBits w).

Definition zero_buffer (nWords : nat) : buffer := repeat 0 nWords.



(** ** The bytes ahead of a reader

    The reader after [k] successive 8-bit reads, the byte the read after
    those returns, whether that byte has the continuation bit, and the
    7-bit groups of the first [k] bytes assembled as [ReadVarInt32] and
    [ReadVarInt64] assemble them. *)

Fixpoint after_bytes (k : nat) (r : bf_read.t) : bf_read.t :=
  match k with
  | O => r
  | S k' => snd (bf_read.ReadUBitLong (after_bytes k' r) 8)
  end.

Definition byte_ahead (k : nat) (r : bf_read.t) : Z :=
  fst (bf_read.ReadUBitLong (after_bytes k r) 8).

Definition continues (b : Z) : bool := truthy (Z.land b 0x80).

Fixpoint groups32 (k : nat) (r : bf_read.t) : Z :=
  match k with
  | O => 0
  | S k' => Z.lor (groups32 k' r)
                  (u32 (Z.shiftl (Z.land (byte_ahead k' r) 0x7F) (7 * Z.of_nat k')))
  end.

Fixpoint groups64 (k : nat) (r : bf_read.t) : Z :=
  match k with
  | O => 0
  | S k' => Z.lor (groups64 k' r)
                  (u64 (Z.shiftl (Z.land (byte_ahead k' r) 0x7F) (7 * Z.of_nat k')))
  end.

(** ** The string ahead of a reader

    The characters that successive [ReadChar] calls return up to the
    terminator that ends [ReadString]'s loop (a zero, which is also what a
    read past the valid bits returns, or a newline when [bLine] is set),
    and the reader after the terminator. *)

Fixpoint string_ahead (fuel : nat) (r : bf_read.t) (bLine : bool)
  : option (list Z * bf_read.t) :=
  match fuel with
  | O => None
  | S fuel' =>
      let '(val, r) := bf_read.ReadChar r in
      if val =? 0 then Some ([], r)
      else if bLine && (val =? 10) then Some ([], r)
      else '(cs, r') ← string_ahead fuel' r bLine; Some (val :: cs, r')
  end.

(** ** Representative coordinates

    [f32_lit m e] is the binary32 value [m * 2^e].  The inputs of the
    coordinate round trip: both zeros, 12.5 and -12.5, the top of the
    14-bit integer range (16383 31/32, 16384 and 16384 31/32, the largest
    magnitude the field holds), the smallest fractional step 1/32, and two
    values off the 1/32 grid (0.1 and -1/64). *)

Definition f32_lit (m e : Z) : spec_float := binary_normalize 24 128 m e false.

Definition representative_coords : list spec_float :=
  [ S754_zero false; S754_zero true;
    f32_lit 25 (-1); f32_lit (-25) (-1);
    f32_lit 524287 (-5); f32_lit (-524287) (-5);
    f32_lit 16384 0; f32_lit (-16384) 0;
    f32_lit 524319 (-5); f32_lit (-524319) (-5);
    f32_lit 1 (-5); f32_lit (-1) (-5);
    f32_lit 13421773 (-27); f32_lit (-1) (-6) ].

(** [abs(a - b) <= COORD_RESOLUTION], in binary32. *)
Definition within_step (a b : spec_float) : bool :=
  SFleb (SFabs (f32_sub a b)) COORD_RESOLUTION.

(** ** The length of a varint

    The spec's "ceil(bits_needed/7) with minimum 1 byte". *)

Definition bits_needed (v : Z) : Z := if v =? 0 then 0 else Z.log2 v + 1.

Definition varint_len (v : Z) : Z := Z.max 1 ((bits_needed v + 6) / 7).

(** Byte [k] of the base-128 encoding of [v] in [size] bytes: seven payload
    bits, and the continuation bit on every byte but the last. *)
Definition varint_byte (v size k : Z) : Z :=
  Z.lor (Z.land (Z.shiftr v (7 * k)) 0x7F) (if k <? size - 1 then 0x80 else 0).

(** ** The platform

    What the functions of bitbuf.cpp take from headers that are not among
    the sources: the platform constant and the byte order, the constants
    of coordsize.h for normals and for multiplayer coordinates, the
    byte-order macro [LittleFloat], and the inline helpers [Seek],
    [SeekRelative] and [ReadOneBitNoCheck] of bitbuf.h. *)
Module Platform.
Record t : Type := mk {
  IsPC : bool;
  BigEndian : bool;
  NORMAL_FRACTIONAL_BITS : Z;
  NORMAL_DENOMINATOR : Z;
  NORMAL_RESOLUTION : spec_float;
  COORD_INTEGER_BITS_MP : Z;
  COORD_FRACTIONAL_BITS_MP_LOWPRECISION : Z;
  COORD_DENOMINATOR_LOWPRECISION : Z;
  COORD_RESOLUTION_LOWPRECISION : spec_float;
  LittleFloat : list Z -> list Z;
  Seek : bf_read.t -> Z -> bf_read.t;
  SeekRelative : bf_read.t -> Z -> bf_read.t;
  ReadOneBitNoCheck : bf_read.t -> Z * bf_read.t
}.
End Platform.

(** ** Operations as data

    Every member function of [bf_write] and of [bf_read] in bitbuf.cpp,
    and the primitives of bitbuf.h modelled above, as types, so that a
    statement can range over every operation and over sequences of them.
    The constructors, [Reset] and the rebinding [StartWriting] /
    [StartReading] are left out on purpose.  An operation that only
    computes a value ([GetDebugName], the [ByteSize] functions,
    [IsOverflowed]) leaves the object as it is.  [WriteBitsFromBuffer]
    works on a writer and a reader, and [CompareBitsAt] on two readers:
    each is an operation of either object, with the other one as an
    argument. *)







(** ** What the coordinate and normal encodings carry

    The quantities [WriteBitCoord] computes from [f] (the integer part,
    the fraction in 32nds, the sign bit), whether [WriteBitVec3Coord]
    writes the component at all, how many bits the encoding takes, and the
    value [ReadBitCoord] assembles from those quantities. *)

Definition coord_intVal (f : spec_float) : Z := int_of_f32 (SFabs f).

Definition coord_fractVal (f : spec_float) : Z :=
  Z.land (c_abs (int_of_f32 (f32_mul f (f32_of_int COORD_DENOMINATOR))))
         (COORD_DENOMINATOR - 1).

Definition coord_signBit (f : spec_float) : Z := b2z (SFleb f (SFopp COORD_RESOLUTION)).

Definition coord_flag (f : spec_float) : bool :=
  SFleb COORD_RESOLUTION f || SFleb f (SFopp COORD_RESOLUTION).

Definition coord_length (f : spec_float) : Z :=
  2 + (if truthy (coord_intVal f) || truthy (coord_fractVal f)
       then 1 + (if truthy (coord_intVal f) then COORD_INTEGER_BITS else 0)
              + (if truthy (coord_fractVal f) then COORD_FRACTIONAL_BITS else 0)
       else 0).

Definition coord_decoded (f : spec_float) : spec_float :=
  if truthy (coord_intVal f) || truthy (coord_fractVal f) then
    let value := f32_add (f32_of_int (coord_intVal f))
                         (f32_mul (f32_of_int (coord_fractVal f)) COORD_RESOLUTION) in
    if truthy (coord_signBit f) then SFopp value else value
  else f32_zero.

(** The magnitude [WriteBitNormal] writes for [f], clamped to the
    denominator, and the value [ReadBitNormal] makes of it and of the sign
    bit: the magnitude times the [double] [NORMAL_RESOLUTION], rounded to
    [float], negated when [f <= -NORMAL_RESOLUTION] as [double]s. *)
Definition normal_fractVal (NORMAL_DENOMINATOR : Z) (f : spec_float) : Z :=
  let fractVal := u32 (c_abs (int_of_f32 (f32_mul f (f32_of_int NORMAL_DENOMINATOR)))) in
  if fractVal >? u32 NORMAL_DENOMINATOR then u32 NORMAL_DENOMINATOR else fractVal.

Definition normal_decoded (NORMAL_DENOMINATOR : Z) (NORMAL_RESOLUTION : spec_float)
    (f : spec_float) : spec_float :=
  let value :=
    f32_of_f64 (f64_mul (f64_of_f32 (f32_of_int (normal_fractVal NORMAL_DENOMINATOR f)))
                        NORMAL_RESOLUTION) in
  if SFleb (f64_of_f32 f) (SFopp NORMAL_RESOLUTION) then SFopp value else value.

(** ** The bits of a byte array

    Bit [j] of an array of bytes, least significant bit of each byte
    first: the order in which [WriteBits] and [ReadBits] move them. *)
Definition in_bit (bytes : list Z) (j : Z) : bool :=
  Z.testbit (byte_of bytes (Z.to_nat (j / 8))) (j mod 8).

(** The buffer [d] carries the encoding of the coordinate [f] from bit
    [c] on: the two flag bits, then, when one of them is set, the sign bit,
    the integer part less one in [COORD_INTEGER_BITS] bits when it is not
    zero, and the fraction in [COORD_FRACTIONAL_BITS] bits when it is not
    zero. *)
Definition coord_at (d : buffer) (c : Z) (f : spec_float) : Prop :=
  let ni := if truthy (coord_intVal f) then COORD_INTEGER_BITS else 0 in
  let nf := if truthy (coord_fractVal f) then COORD_FRACTIONAL_BITS else 0 in
  bit_at d c = truthy (coord_intVal f) /\
  bit_at d (c + 1) = truthy (coord_fractVal f) /\
  (truthy (coord_intVal f) || truthy (coord_fractVal f) = true ->
   bit_at d (c + 2) = truthy (coord_signBit f) /\
   (forall j, 0 <= j < ni -> bit_at d (c + 3 + j) = Z.testbit (coord_intVal f - 1) j) /\
   (forall j, 0 <= j < nf -> bit_at d (c + 3 + ni + j) = Z.testbit (coord_fractVal f) j)).

(** The invariant of a [Bitbuf]: the vector holds exactly the bytes that
    [len] bits need, and every element is a byte. *)
Definition Bitbuf_inv (b : Bitbuf.t) : Prop :=
  0 <= Bitbuf.len b /\
  Z.of_nat (length (Bitbuf.buf b)) = (Bitbuf.len b + 7) / 8 /\
  Forall (fun x => 0 <= x < 2 ^ 8) (Bitbuf.buf b).

(** The bits that [append_binary_str] pushes for the word [w]: one for
    each character after the optional 0b prefix. *)
Definition Bitbuf_word_bits (w : string) : list bool :=
  let start := if String.prefix "0b"%string w then 2%nat else 0%nat in
  map Bitbuf.bit_of_char
      (list_ascii_of_string (String.substring start (String.length w - start) w)).

(** ** Bounded enumeration *)

Lemma forallb_seqZ (P : Z -> bool) (lo len : Z) :
  forallb P (seqZ lo len) = true -> forall n, lo <= n < lo + len -> P n = true.
Proof.
  intros H n Hn. rewrite forallb_forall in H. apply H.
  apply list_elem_of_In, elem_of_seqZ. lia.
Qed.

Lemma ExtraMasks_at_ones (n : Z) : 0 <= n <= 32 -> ExtraMasks_at n = Z.ones n.
Proof.
  intros Hn.
  pose proof (forallb_seqZ (fun n => ExtraMasks_at n =? Z.ones n) 0 33) as H.
  apply Z.eqb_eq, H; [vm_compute; reflexivity | lia].
Qed.

Lemma BitWriteMasks_at_testbit (s b k : Z) :
  0 <= s < 32 -> 0 <= b <= 32 -> 0 <= k < 32 ->
  Z.testbit (BitWriteMasks_at s b) k = (k <? s) || (s + b <=? k).
Proof.
  intros Hs Hb Hk.
  pose proof (forallb_seqZ (fun s => forallb (fun b => forallb (fun k =>
     Bool.eqb (Z.testbit (BitWriteMasks_at s b) k) ((k <? s) || (s + b <=? k)))
     (seqZ 0 32)) (seqZ 0 33)) 0 32) as H.
  specialize (H ltac:(vm_compute; reflexivity) s ltac:(lia)). cbv beta in H.
  pose proof (forallb_seqZ _ _ _ H b ltac:(lia)) as H1. cbv beta in H1.
  pose proof (forallb_seqZ _ _ _ H1 k ltac:(lia)) as H2. cbv beta in H2.
  apply Bool.eqb_prop in H2. exact H2.
Qed.

Lemma BitWriteMasks_at_range (s b : Z) :
  0 <= s < 32 -> 0 <= b <= 32 -> 0 <= BitWriteMasks_at s b < 2 ^ 32.
Proof.
  intros Hs Hb.
  pose proof (forallb_seqZ (fun s => forallb (fun b =>
     (0 <=? BitWriteMasks_at s b) && (BitWriteMasks_at s b <? 2 ^ 32))
     (seqZ 0 33)) 0 32) as H.
  specialize (H ltac:(vm_compute; reflexivity) s ltac:(lia)). cbv beta in H.
  pose proof (forallb_seqZ _ _ _ H b ltac:(lia)) as H1. cbv beta in H1. lia.
Qed.

Lemma shiftr5 (c : Z) : Z.shiftr c 5 = c / 32.
Proof. rewrite Z.shiftr_div_pow2 by lia. reflexivity. Qed.

Lemma land31 (c : Z) : Z.land c 31 = c mod 32.
Proof. change 31 with (Z.ones 5). rewrite Z.land_ones by lia. reflexivity. Qed.

Lemma length_Store (d : buffer) i v : length (StoreLittleDWord d i v) = length d.
Proof. unfold StoreLittleDWord. apply length_insert. Qed.

Lemma Load_Store_eq (d : buffer) i v :
  0 <= i < Z.of_nat (length d) -> LoadLittleDWord (StoreLittleDWord d i v) i = v.
Proof.
  intros H. unfold LoadLittleDWord, StoreLittleDWord.
  rewrite list_lookup_insert_eq by lia. reflexivity.
Qed.

Lemma Load_Store_ne (d : buffer) i j v :
  0 <= i -> 0 <= j -> i <> j ->
  LoadLittleDWord (StoreLittleDWord d i v) j = LoadLittleDWord d j.
Proof.
  intros Hi Hj Hne. unfold LoadLittleDWord, StoreLittleDWord.
  rewrite list_lookup_insert_ne by lia. reflexivity.
Qed.

Lemma wf_Load (d : buffer) i : wf_buffer d -> 0 <= LoadLittleDWord d i < 2 ^ 32.
Proof.
  intros H. unfold LoadLittleDWord.
  destruct (d !! Z.to_nat i) as [x|] eqn:E; simpl; [|lia].
  unfold wf_buffer in H. rewrite Forall_lookup in H. exact (H _ _ E).
Qed.

Lemma wf_Store (d : buffer) i v :
  wf_buffer d -> 0 <= v < 2 ^ 32 -> wf_buffer (StoreLittleDWord d i v).
Proof.
  intros H Hv. unfold wf_buffer, StoreLittleDWord.
  apply Forall_insert; assumption.
Qed.

Lemma u32_range x : 0 <= u32 x < 2 ^ 32.
Proof. unfold u32. apply Z.mod_pos_bound. lia. Qed.

Lemma u32_testbit x k : Z.testbit (u32 x) k = (k <? 32) && Z.testbit x k.
Proof.
  unfold u32. destruct (Z.ltb_spec k 32).
  - destruct (Z.ltb_spec k 0).
    + rewrite !Z.testbit_neg_r by lia. reflexivity.
    + rewrite Z.mod_pow2_bits_low by lia. reflexivity.
  - rewrite Z.mod_pow2_bits_high by lia. reflexivity.
Qed.

Lemma ones_testbit n k : 0 <= n -> 0 <= k -> Z.testbit (Z.ones n) k = (k <? n).
Proof. intros. apply Z.testbit_ones_nonneg; lia. Qed.

(** Merging a field into the word that holds its first bit. *)
Lemma merge_first (old v s n k : Z) :
  0 <= s < 32 -> 0 <= n <= 32 -> 0 <= k < 32 ->
  Z.testbit (Z.lor (Z.land old (BitWriteMasks_at s n))
                   (u32 (Z.shiftl (Z.land v (Z.ones n)) s))) k
  = if (s <=? k) && (k <? s + n) then Z.testbit v (k - s) else Z.testbit old k.
Proof.
  intros Hs Hn Hk.
  rewrite Z.lor_spec, Z.land_spec, BitWriteMasks_at_testbit, u32_testbit by lia.
  destruct (Z.leb_spec s k); simpl.
  - rewrite Z.shiftl_spec, Z.land_spec, ones_testbit by lia.
    destruct (Z.ltb_spec k (s + n)), (Z.ltb_spec k s), (Z.leb_spec (s + n) k),
      (Z.ltb_spec k 32), (Z.ltb_spec (k - s) n); simpl; try lia;
      rewrite ?andb_true_r, ?andb_false_r, ?orb_false_r; reflexivity.
  - rewrite Z.shiftl_spec_low by lia.
    destruct (Z.ltb_spec k s); try lia. simpl.
    rewrite andb_true_r, andb_false_r, orb_false_r. reflexivity.
Qed.

(** Merging the rest of a field into the next word. *)
Lemma merge_second (old v s n k : Z) :
  0 <= s < 32 -> 0 <= n <= 32 -> 32 - s < n -> 0 <= k < 32 ->
  Z.testbit (Z.lor (Z.land old (BitWriteMasks_at 0 (n - (32 - s))))
                   (Z.shiftr (Z.land v (Z.ones n)) (32 - s))) k
  = if k <? n - (32 - s) then Z.testbit v (k + (32 - s)) else Z.testbit old k.
Proof.
  intros Hs Hn Hsn Hk.
  rewrite Z.lor_spec, Z.land_spec, BitWriteMasks_at_testbit by lia.
  rewrite Z.shiftr_spec, Z.land_spec, ones_testbit by lia.
  destruct (Z.ltb_spec k (n - (32 - s))), (Z.ltb_spec k 0),
    (Z.leb_spec (0 + (n - (32 - s))) k), (Z.ltb_spec (k + (32 - s)) n);
    simpl; try lia; rewrite ?andb_true_r, ?andb_false_r, ?orb_false_r; reflexivity.
Qed.

Lemma range_of_bits (x n : Z) :
  0 <= n -> (forall k, 0 <= k -> Z.testbit x k = (k <? n) && Z.testbit x k) ->
  0 <= x < 2 ^ n.
Proof.
  intros Hn H.
  assert (E : x mod 2 ^ n = x).
  { apply Z.bits_inj'. intros k Hk. rewrite (H k Hk).
    destruct (Z.ltb_spec k n); simpl.
    - apply Z.mod_pow2_bits_low. lia.
    - apply Z.mod_pow2_bits_high. lia. }
  rewrite <- E. apply Z.mod_pos_bound. lia.
Qed.

Lemma bits_of_range (x n k : Z) :
  0 <= x < 2 ^ n -> n <= k -> Z.testbit x k = false.
Proof.
  intros Hx Hk. destruct (Z.ltb_spec n 0).
  - rewrite Z.pow_neg_r in Hx by lia. lia.
  - rewrite <- (Z.mod_small x (2 ^ n)) by lia. apply Z.mod_pow2_bits_high. lia.
Qed.

Lemma land_range x m : 0 <= m < 2 ^ 32 -> 0 <= Z.land x m < 2 ^ 32.
Proof.
  intros Hm. apply range_of_bits; [lia|]. intros k Hk.
  rewrite Z.land_spec. destruct (Z.ltb_spec k 32); simpl; [reflexivity|].
  rewrite (bits_of_range m 32 k) by lia. apply andb_false_r.
Qed.

Lemma lor_range x y : 0 <= x < 2 ^ 32 -> 0 <= y < 2 ^ 32 -> 0 <= Z.lor x y < 2 ^ 32.
Proof.
  intros Hx Hy. apply range_of_bits; [lia|]. intros k Hk.
  rewrite Z.lor_spec. destruct (Z.ltb_spec k 32); simpl; [reflexivity|].
  rewrite (bits_of_range x 32 k), (bits_of_range y 32 k) by lia. reflexivity.
Qed.

Lemma bit_at_eq (d : buffer) (i : Z) :
  bit_at d i = Z.testbit (LoadLittleDWord d (Z.shiftr i 5)) (Z.land i 31).
Proof. rewrite shiftr5, land31. reflexivity. Qed.

Section WriteUBitLong.
Import bf_write.
Variables (w : t) (v n : Z).
Hypothesis Hcur : 0 <= m_iCurBit w.
Hypothesis Hn : 0 <= n <= 32.
Hypothesis Hfit : m_iCurBit w + n <= m_nDataBits w.

Lemma WriteUBitLong_cur : m_iCurBit (WriteUBitLong w v n) = m_iCurBit w + n.
Proof.
  unfold WriteUBitLong.
  destruct (Z.gtb_spec (m_iCurBit w + n) (m_nDataBits w)); [lia|]. reflexivity.
Qed.

Lemma WriteUBitLong_overflow : m_bOverflow (WriteUBitLong w v n) = m_bOverflow w.
Proof.
  unfold WriteUBitLong.
  destruct (Z.gtb_spec (m_iCurBit w + n) (m_nDataBits w)); [lia|]. reflexivity.
Qed.

Lemma WriteUBitLong_nDataBits : m_nDataBits (WriteUBitLong w v n) = m_nDataBits w.
Proof. unfold WriteUBitLong. destruct (_ >? _); reflexivity. Qed.

Lemma WriteUBitLong_length : length (m_pData (WriteUBitLong w v n)) = length (m_pData w).
Proof.
  unfold WriteUBitLong. destruct (_ >? _); [reflexivity|]. simpl.
  destruct (_ <? _); rewrite ?length_Store; reflexivity.
Qed.

Lemma WriteUBitLong_wf : wf_buffer (m_pData w) -> wf_buffer (m_pData (WriteUBitLong w v n)).
Proof.
  intros Hwf. unfold WriteUBitLong. destruct (_ >? _); [exact Hwf|]. simpl.
  assert (Hs : 0 <= Z.land (m_iCurBit w) 31 < 32) by (rewrite land31; apply Z.mod_pos_bound; lia).
  assert (W1 : wf_buffer (StoreLittleDWord (m_pData w) (Z.shiftr (m_iCurBit w) 5)
     (Z.lor (Z.land (LoadLittleDWord (m_pData w) (Z.shiftr (m_iCurBit w) 5))
              (BitWriteMasks_at (Z.land (m_iCurBit w) 31) n))
            (u32 (Z.shiftl (Z.land v (ExtraMasks_at n)) (Z.land (m_iCurBit w) 31)))))).
  { apply wf_Store; [exact Hwf|]. apply lor_range; [|apply u32_range].
    apply land_range, BitWriteMasks_at_range; lia. }
  destruct (Z.ltb_spec (32 - Z.land (m_iCurBit w) 31) n); [|exact W1].
  apply wf_Store; [exact W1|]. apply lor_range.
  - apply land_range, BitWriteMasks_at_range; lia.
  - rewrite ExtraMasks_at_ones by lia. apply range_of_bits; [lia|]. intros k Hk.
    rewrite Z.shiftr_spec, Z.land_spec, ones_testbit by lia.
    destruct (Z.ltb_spec k 32), (Z.ltb_spec (k + (32 - Z.land (m_iCurBit w) 31)) n);
      simpl; try lia; rewrite ?andb_false_r; reflexivity.
Qed.

Hypothesis Hlen : m_iCurBit w + n <= 32 * Z.of_nat (length (m_pData w)).

Lemma WriteUBitLong_bit_at (i : Z) :
  0 <= i ->
  bit_at (m_pData (WriteUBitLong w v n)) i
  = if (m_iCurBit w <=? i) && (i <? m_iCurBit w + n)
    then Z.testbit v (i - m_iCurBit w) else bit_at (m_pData w) i.
Proof.
  intros Hi. unfold WriteUBitLong.
  destruct (Z.gtb_spec (m_iCurBit w + n) (m_nDataBits w)); [lia|]. simpl.
  rewrite ExtraMasks_at_ones by lia.
  rewrite shiftr5, land31.
  set (c := m_iCurBit w) in *. set (d := m_pData w) in *.
  pose proof (Z.div_mod c 32 ltac:(lia)) as Hc.
  pose proof (Z.mod_pos_bound c 32 ltac:(lia)) as Hs.
  pose proof (Z.div_mod i 32 ltac:(lia)) as Hi'.
  pose proof (Z.mod_pos_bound i 32 ltac:(lia)) as Hk.
  set (q := c / 32) in *. set (s := c mod 32) in *.
  destruct (Z.eq_dec n 0) as [Hn0|Hn0].
  { (* nothing is written *)
    subst n. destruct (Z.ltb_spec (32 - s) 0); [lia|].
    replace ((c <=? i) && (i <? c + 0)) with false by lia.
    unfold bit_at. fold q.
    destruct (Z.eq_dec (i / 32) q) as [E|E].
    - assert (Z.to_nat q < length d \/ ~ (Z.to_nat q < length d))%nat as [L|L] by lia.
      + rewrite E, Load_Store_eq by lia. rewrite merge_first by lia.
        replace ((s <=? i mod 32) && (i mod 32 <? s + 0)) with false by lia. reflexivity.
      + unfold StoreLittleDWord. rewrite list_insert_ge by lia. reflexivity.
    - rewrite Load_Store_ne by lia. reflexivity. }
  assert (Hq : 0 <= q < Z.of_nat (length d)) by lia.
  unfold bit_at.
  destruct (Z.ltb_spec (32 - s) n) as [Hsp|Hsp].
  - (* the field straddles two words *)
    assert (Hq1 : q + 1 < Z.of_nat (length d)) by lia.
    destruct (Z.eq_dec (i / 32) (q + 1)) as [E|E].
    + rewrite E, Load_Store_eq by (rewrite length_Store; lia).
      rewrite Load_Store_ne by lia.
      rewrite merge_second by lia.
      destruct (Z.ltb_spec (i mod 32) (n - (32 - s))).
      * replace ((c <=? i) && (i <? c + n)) with true by lia.
        f_equal. lia.
      * replace ((c <=? i) && (i <? c + n)) with false by lia. reflexivity.
    + rewrite Load_Store_ne by lia.
      destruct (Z.eq_dec (i / 32) q) as [E'|E'].
      * rewrite E', Load_Store_eq by lia. rewrite merge_first by lia.
        destruct (Z.leb_spec s (i mod 32)), (Z.ltb_spec (i mod 32) (s + n)); simpl; try lia.
        -- replace ((c <=? i) && (i <? c + n)) with true by lia. f_equal. lia.
        -- replace ((c <=? i) && (i <? c + n)) with false by lia. reflexivity.
      * rewrite Load_Store_ne by lia.
        replace ((c <=? i) && (i <? c + n)) with false by lia. reflexivity.
  - destruct (Z.eq_dec (i / 32) q) as [E'|E'].
    + rewrite E', Load_Store_eq by lia. rewrite merge_first by lia.
      destruct (Z.leb_spec s (i mod 32)), (Z.ltb_spec (i mod 32) (s + n)); simpl; try lia.
      * replace ((c <=? i) && (i <? c + n)) with true by lia. f_equal. lia.
      * replace ((c <=? i) && (i <? c + n)) with false by lia. reflexivity.
      * replace ((c <=? i) && (i <? c + n)) with false by lia. reflexivity.
    + rewrite Load_Store_ne by lia.
      replace ((c <=? i) && (i <? c + n)) with false by lia. reflexivity.
Qed.
End WriteUBitLong.

Section ReadUBitLong.
Import bf_read.
Variables (r : t) (n : Z).
Hypothesis Hwf : wf_buffer (m_pData r).
Hypothesis Hcur : 0 <= m_iCurBit r.
Hypothesis Hn : 1 <= n <= 32.
Hypothesis Hfit : m_iCurBit r + n <= m_nDataBits r.

Lemma ReadUBitLong_state :
  snd (ReadUBitLong r n) = with_cur r (m_iCurBit r + n).
Proof.
  unfold ReadUBitLong.
  destruct (Z.gtb_spec (m_iCurBit r + n) (m_nDataBits r)); [lia|]. reflexivity.
Qed.

Lemma ReadUBitLong_testbit (j : Z) :
  0 <= j ->
  Z.testbit (fst (ReadUBitLong r n)) j
  = (j <? n) && bit_at (m_pData r) (m_iCurBit r + j).
Proof.
  intros Hj. unfold ReadUBitLong.
  destruct (Z.gtb_spec (m_iCurBit r + n) (m_nDataBits r)); [lia|]. simpl.
  rewrite ExtraMasks_at_ones by lia.
  rewrite !shiftr5, land31.
  set (c := m_iCurBit r) in *. set (d := m_pData r) in *.
  pose proof (Z.div_mod c 32 ltac:(lia)) as Hc.
  pose proof (Z.mod_pos_bound c 32 ltac:(lia)) as Hs.
  pose proof (Z.div_mod (c + j) 32 ltac:(lia)) as Hcj.
  pose proof (Z.mod_pos_bound (c + j) 32 ltac:(lia)) as Hk.
  pose proof (Z.div_mod (c + n - 1) 32 ltac:(lia)) as Hl.
  pose proof (Z.mod_pos_bound (c + n - 1) 32 ltac:(lia)) as Hlk.
  set (q := c / 32) in *. set (s := c mod 32) in *.
  rewrite Z.land_spec, Z.lor_spec, ones_testbit, u32_testbit by lia.
  rewrite Z.shiftr_spec by lia.
  destruct (Z.ltb_spec j n); [|rewrite andb_false_r; reflexivity].
  rewrite andb_true_r. simpl. unfold bit_at.
  destruct (Z.ltb_spec (j + s) 32).
  - (* the bit is in the first word *)
    replace ((c + j) / 32) with q by lia.
    replace ((c + j) mod 32) with (j + s) by lia.
    destruct (Z.ltb_spec j 32); [|lia]. simpl.
    rewrite Z.shiftl_spec_low by lia. apply orb_false_r.
  - rewrite (bits_of_range (LoadLittleDWord d q) 32 (j + s)) by (try apply wf_Load; auto; lia).
    destruct (Z.ltb_spec j 32); [|lia]. simpl.
    rewrite Z.shiftl_spec by lia.
    replace ((c + n - 1) / 32) with (q + 1) by lia.
    replace ((c + j) / 32) with (q + 1) by lia.
    f_equal. lia.
Qed.
End ReadUBitLong.

Lemma ReadUBitLong_range (r : bf_read.t) (n : Z) :
  0 <= n <= 32 -> 0 <= fst (bf_read.ReadUBitLong r n) < 2 ^ n.
Proof.
  intros Hn. unfold bf_read.ReadUBitLong. destruct (_ >? _); simpl.
  - split; [lia|]. apply Z.pow_pos_nonneg; lia.
  - rewrite ExtraMasks_at_ones by lia. rewrite Z.land_ones by lia.
    apply Z.mod_pos_bound. apply Z.pow_pos_nonneg; lia.
Qed.

(** Reading back what [WriteUBitLong] wrote. *)
Lemma Read_Write_UBitLong (w : bf_write.t) (v n : Z) :
  wf_buffer (bf_write.m_pData w) ->
  0 <= bf_write.m_iCurBit w ->
  1 <= n <= 32 ->
  bf_write.m_iCurBit w + n <= bf_write.m_nDataBits w ->
  bf_write.m_nDataBits w <= 32 * Z.of_nat (length (bf_write.m_pData w)) ->
  bf_read.ReadUBitLong (reader_of (bf_write.WriteUBitLong w v n) (bf_write.m_iCurBit w)) n
  = (Z.land v (Z.ones n),
     bf_read.with_cur (reader_of (bf_write.WriteUBitLong w v n) (bf_write.m_iCurBit w))
        (bf_write.m_iCurBit (bf_write.WriteUBitLong w v n))).
Proof.
  intros Hwf Hcur Hn Hfit Hlen.
  set (w' := bf_write.WriteUBitLong w v n).
  set (r := reader_of w' (bf_write.m_iCurBit w)).
  assert (Hd : bf_read.m_pData r = bf_write.m_pData w') by reflexivity.
  assert (Hc : bf_read.m_iCurBit r = bf_write.m_iCurBit w) by reflexivity.
  assert (Hb : bf_read.m_nDataBits r = bf_write.m_nDataBits w).
  { unfold r, reader_of, bf_read.StartReading. simpl.
    unfold w'. rewrite WriteUBitLong_nDataBits.
    destruct (Z.eqb_spec (bf_write.m_nDataBits w) (-1)); [lia|reflexivity]. }
  assert (Hwf' : wf_buffer (bf_read.m_pData r)).
  { rewrite Hd. apply WriteUBitLong_wf; auto; lia. }
  rewrite (surjective_pairing (bf_read.ReadUBitLong r n)).
  rewrite ReadUBitLong_state by (rewrite ?Hc, ?Hb; auto; lia).
  f_equal.
  - apply Z.bits_inj'. intros j Hj.
    rewrite ReadUBitLong_testbit by (rewrite ?Hc, ?Hb; auto; lia).
    rewrite Hd, Hc. unfold w'. rewrite WriteUBitLong_bit_at by lia.
    rewrite Z.land_spec, ones_testbit by lia.
    destruct (Z.ltb_spec j n); simpl.
    + replace ((bf_write.m_iCurBit w <=? bf_write.m_iCurBit w + j) &&
               (bf_write.m_iCurBit w + j <? bf_write.m_iCurBit w + n)) with true by lia.
      rewrite andb_true_r. f_equal. lia.
    + rewrite andb_false_r. reflexivity.
  - f_equal. rewrite Hc. unfold w'. rewrite WriteUBitLong_cur by lia. reflexivity.
Qed.

Lemma preserve_bits_ones (n : Z) :
  1 <= n <= 32 -> Z.shiftr 0x7FFFFFFF (32 - n) = Z.ones (n - 1).
Proof.
  intros Hn.
  pose proof (forallb_seqZ (fun n => Z.shiftr 0x7FFFFFFF (32 - n) =? Z.ones (n - 1)) 1 32) as H.
  apply Z.eqb_eq, H; [vm_compute; reflexivity | lia].
Qed.

Lemma testbit_neg_high (v m k : Z) :
  0 <= m -> - 2 ^ m <= v < 0 -> m <= k -> Z.testbit v k = true.
Proof.
  intros Hm Hv Hk.
  replace v with (- (- v)) by lia. rewrite Z.bits_opp by lia.
  rewrite (bits_of_range (Z.pred (- v)) m k) by lia. reflexivity.
Qed.

Lemma testbit_nonneg_high (v m k : Z) :
  0 <= v < 2 ^ m -> m <= k -> Z.testbit v k = false.
Proof. apply bits_of_range. Qed.

(** A value that fits [numbits] two's-complement bits passes through the
    sign fitting of [WriteSBitLong] unchanged (the condition of its
    [AssertMsg2]). *)
Lemma WriteSBitLong_fits (w : bf_write.t) (v n : Z) :
  1 <= n <= 32 -> - 2 ^ (n - 1) <= v < 2 ^ (n - 1) ->
  bf_write.WriteSBitLong w v n = bf_write.WriteUBitLong w (u32 v) n.
Proof.
  intros Hn Hv. unfold bf_write.WriteSBitLong.
  rewrite preserve_bits_ones by lia. f_equal. f_equal.
  apply Z.bits_inj'. intros k Hk.
  rewrite Z.lor_spec, !Z.land_spec, Z.lnot_spec, Z.shiftr_spec, ones_testbit by lia.
  destruct (Z.ltb_spec k (n - 1)); simpl.
  - rewrite andb_true_r, andb_false_r, orb_false_r. reflexivity.
  - rewrite andb_false_r, andb_true_r. simpl.
    destruct (Z.ltb_spec v 0).
    + rewrite !(testbit_neg_high v (n - 1)) by lia. reflexivity.
    + rewrite !(testbit_nonneg_high v (n - 1)) by lia. reflexivity.
Qed.

Lemma land_u32_ones (v n : Z) : 0 <= n <= 32 -> Z.land (u32 v) (Z.ones n) = v mod 2 ^ n.
Proof.
  intros Hn. rewrite Z.land_ones by lia. unfold u32.
  replace (2 ^ 32) with (2 ^ n * 2 ^ (32 - n)).
  - rewrite Z.rem_mul_r by (try apply Z.pow_nonzero; try apply Z.pow_pos_nonneg; lia).
    rewrite Z.mul_comm, Z.mod_add by (apply Z.pow_nonzero; lia).
    apply Z.mod_mod. apply Z.pow_nonzero; lia.
  - rewrite <- Z.pow_add_r by lia. f_equal. lia.
Qed.

(** The sign fix of [ReadSBitLong] undoes the truncation to [numbits]
    bits. *)
Lemma sign_fix (v n : Z) :
  1 <= n <= 32 -> - 2 ^ (n - 1) <= v < 2 ^ (n - 1) ->
  let r0 := v mod 2 ^ n in
  let s := u32 (Z.shiftl 1 (n - 1)) in
  i32 (if r0 >=? s then u32 (r0 - s - s) else r0) = v.
Proof.
  intros Hn Hv r0 s.
  assert (Hp : 2 ^ n = 2 * 2 ^ (n - 1)).
  { replace n with (1 + (n - 1)) at 1 by lia. rewrite Z.pow_add_r by lia. reflexivity. }
  assert (Hp1 : 0 < 2 ^ (n - 1) <= 2 ^ 31).
  { split; [apply Z.pow_pos_nonneg; lia | apply Z.pow_le_mono_r; lia]. }
  assert (Hs : s = 2 ^ (n - 1)).
  { unfold s, u32. rewrite Z.shiftl_1_l. apply Z.mod_small. lia. }
  destruct (Z.ltb_spec v 0).
  - assert (Hr : r0 = v + 2 ^ n).
    { unfold r0. symmetry. apply (Z.mod_unique _ _ (-1)); lia. }
    destruct (Z.geb_spec r0 s); [|lia].
    replace (r0 - s - s) with v by lia.
    unfold i32, u32.
    replace (v mod 2 ^ 32) with (v + 2 ^ 32) by (apply (Z.mod_unique _ _ (-1)); lia).
    replace (v + 2 ^ 32 + 2 ^ 31) with (v + 2 ^ 31 + 1 * 2 ^ 32) by lia.
    rewrite Z.mod_add by lia. rewrite Z.mod_small by lia. lia.
  - assert (Hr : r0 = v) by (unfold r0; apply Z.mod_small; lia).
    destruct (Z.geb_spec r0 s); [lia|].
    rewrite Hr. unfold i32. rewrite Z.mod_small by lia. lia.
Qed.

(** C1.  A value written with the fixed-width operation and read back at the
    same bit offset with the matching reader operation is unchanged:
    [ReadUBitLong] after [WriteUBitLong] for every unsigned value below
    [2^numbits], and [ReadSBitLong] after [WriteSBitLong] for every signed
    value of [numbits] two's-complement bits, for every width from 1 to 32
    and every cursor position that leaves room for the field. *)
Theorem fixed_width_roundtrip (w : bf_write.t) (v n : Z) :
  wf_buffer (bf_write.m_pData w) ->
  0 <= bf_write.m_iCurBit w ->
  1 <= n <= 32 ->
  bf_write.m_iCurBit w + n <= bf_write.m_nDataBits w ->
  bf_write.m_nDataBits w <= 32 * Z.of_nat (length (bf_write.m_pData w)) ->
  (0 <= v < 2 ^ n ->
   fst (bf_read.ReadUBitLong
          (reader_of (bf_write.WriteUBitLong w v n) (bf_write.m_iCurBit w)) n) = v) /\
  (- 2 ^ (n - 1) <= v < 2 ^ (n - 1) ->
   fst (bf_read.ReadSBitLong
          (reader_of (bf_write.WriteSBitLong w v n) (bf_write.m_iCurBit w)) n) = v).
Proof.
  intros Hwf Hcur Hn Hfit Hlen. split; intros Hv.
  - rewrite Read_Write_UBitLong by assumption. simpl.
    rewrite Z.land_ones by lia. apply Z.mod_small. lia.
  - rewrite WriteSBitLong_fits by assumption.
    unfold bf_read.ReadSBitLong. rewrite Read_Write_UBitLong by assumption.
    rewrite land_u32_ones by lia. apply sign_fix; assumption.
Qed.

Lemma fixed_width_roundtrip_witness :
  fst (bf_read.ReadUBitLong
         (reader_of (bf_write.WriteUBitLong
                       (bf_write.SeekToBit (bf_write.create (zero_buffer 4) 16 (-1)) 27)
                       300 9) 27) 9) = 300 /\
  fst (bf_read.ReadSBitLong
         (reader_of (bf_write.WriteSBitLong
                       (bf_write.SeekToBit (bf_write.create (zero_buffer 4) 16 (-1)) 27)
                       (-5) 9) 27) 9) = -5.
Proof.
  pose proof (fixed_width_roundtrip
                (bf_write.SeekToBit (bf_write.create (zero_buffer 4) 16 (-1)) 27) 300 9
                ltac:(repeat constructor; lia) ltac:(simpl; lia) ltac:(lia)
                ltac:(vm_compute; discriminate) ltac:(vm_compute; discriminate)) as [HU _].
  pose proof (fixed_width_roundtrip
                (bf_write.SeekToBit (bf_write.create (zero_buffer 4) 16 (-1)) 27) (-5) 9
                ltac:(repeat constructor; lia) ltac:(simpl; lia) ltac:(lia)
                ltac:(vm_compute; discriminate) ltac:(vm_compute; discriminate)) as [_ HS].
  split; [apply HU; lia | apply HS; lia].
Defined.

(** ** Zig-zag *)

Lemma shiftr_sign (v k : Z) :
  0 <= k -> - 2 ^ k <= v < 2 ^ k -> Z.shiftr v k = if v <? 0 then -1 else 0.
Proof.
  intros Hk Hv. rewrite Z.shiftr_div_pow2 by lia.
  destruct (Z.ltb_spec v 0).
  - symmetry. apply (Z.div_unique _ _ _ (v + 2 ^ k)); lia.
  - apply Z.div_small. lia.
Qed.

Lemma lxor_m1 (x : Z) : Z.lxor x (-1) = - x - 1.
Proof. rewrite Z.lxor_m1_r. unfold Z.lnot. lia. Qed.

Lemma ZigZag32_roundtrip (v : Z) :
  - 2 ^ 31 <= v < 2 ^ 31 -> ZigZagDecode32 (ZigZagEncode32 v) = v.
Proof.
  intros Hv. unfold ZigZagDecode32, ZigZagEncode32.
  rewrite (shiftr_sign v 31) by lia. rewrite Z.shiftl_mul_pow2 by lia.
  change (2 ^ 1) with 2.
  destruct (Z.ltb_spec v 0).
  - rewrite lxor_m1. unfold u32. rewrite Z.mod_small by lia.
    assert (E : Z.land (- (v * 2) - 1) 1 = 1).
    { change 1 with (Z.ones 1) at 2. rewrite Z.land_ones by lia.
      change (2 ^ 1) with 2. symmetry. apply (Z.mod_unique _ _ (- v - 1)); lia. }
    rewrite E. rewrite lxor_m1. rewrite Z.shiftr_div_pow2 by lia. change (2 ^ 1) with 2.
    replace ((- (v * 2) - 1) / 2) with (- v - 1)
      by (apply (Z.div_unique _ _ _ 1); lia).
    unfold i32. replace (- (- v - 1) - 1 + 2 ^ 31) with (v + 2 ^ 31) by lia.
    rewrite Z.mod_small by lia. lia.
  - rewrite Z.lxor_0_r. unfold u32. rewrite Z.mod_small by lia.
    assert (E : Z.land (v * 2) 1 = 0).
    { change 1 with (Z.ones 1). rewrite Z.land_ones by lia.
      change (2 ^ 1) with 2. apply Z.mod_mul. lia. }
    rewrite E. simpl Z.opp. rewrite Z.lxor_0_r.
    rewrite Z.shiftr_div_pow2 by lia. change (2 ^ 1) with 2.
    rewrite Z.div_mul by lia. unfold i32. rewrite Z.mod_small by lia. lia.
Qed.

Lemma ZigZag64_roundtrip (v : Z) :
  - 2 ^ 63 <= v < 2 ^ 63 -> ZigZagDecode64 (ZigZagEncode64 v) = v.
Proof.
  intros Hv. unfold ZigZagDecode64, ZigZagEncode64.
  rewrite (shiftr_sign v 63) by lia. rewrite Z.shiftl_mul_pow2 by lia.
  change (2 ^ 1) with 2.
  destruct (Z.ltb_spec v 0).
  - rewrite lxor_m1. unfold u64. rewrite Z.mod_small by lia.
    assert (E : Z.land (- (v * 2) - 1) 1 = 1).
    { change 1 with (Z.ones 1) at 2. rewrite Z.land_ones by lia.
      change (2 ^ 1) with 2. symmetry. apply (Z.mod_unique _ _ (- v - 1)); lia. }
    rewrite E. rewrite lxor_m1. rewrite Z.shiftr_div_pow2 by lia. change (2 ^ 1) with 2.
    replace ((- (v * 2) - 1) / 2) with (- v - 1)
      by (apply (Z.div_unique _ _ _ 1); lia).
    unfold i64. replace (- (- v - 1) - 1 + 2 ^ 63) with (v + 2 ^ 63) by lia.
    rewrite Z.mod_small by lia. lia.
  - rewrite Z.lxor_0_r. unfold u64. rewrite Z.mod_small by lia.
    assert (E : Z.land (v * 2) 1 = 0).
    { change 1 with (Z.ones 1). rewrite Z.land_ones by lia.
      change (2 ^ 1) with 2. apply Z.mod_mul. lia. }
    rewrite E. simpl Z.opp. rewrite Z.lxor_0_r.
    rewrite Z.shiftr_div_pow2 by lia. change (2 ^ 1) with 2.
    rewrite Z.div_mul by lia. unfold i64. rewrite Z.mod_small by lia. lia.
Qed.

(** C2.  The byte-aligned fast path of [WriteVarInt64] sizes every value
    whose upper 36 bits are zero as one or two bytes.  For 16384 on a
    byte-aligned cursor with 80 bits of room it writes the two bytes
    [0x80 0x00] and advances 16 bits, and [ReadVarInt64] reads 0 back;
    [ByteSizeVarInt64] says three bytes, and with less than 80 bits of room
    the byte-at-a-time path of the same call writes the three bytes
    [0x80 0x80 0x01], which read back as 16384. *)
Theorem WriteVarInt64_fast_path_16384 (fuel : nat) :
  let w := bf_write.create (zero_buffer 4) 16 (-1) in
  let w' := bf_write.create (zero_buffer 2) 8 (-1) in
  (exists w1,
     bf_write.WriteVarInt64 fuel w 16384 = Some w1 /\
     bf_write.m_pData w1 = [0x0080; 0; 0; 0] /\
     bf_write.m_iCurBit w1 = 16 /\
     fst <$> bf_read.ReadVarInt64 (2 + fuel) (reader_of w1 0) = Some 0) /\
  bf_write.ByteSizeVarInt64 (3 + fuel) 16384 = Some 3 /\
  (exists w2,
     bf_write.WriteVarInt64 (3 + fuel) w' 16384 = Some w2 /\
     bf_write.m_pData w2 = [0x018080; 0] /\
     bf_write.m_iCurBit w2 = 24 /\
     fst <$> bf_read.ReadVarInt64 (3 + fuel) (reader_of w2 0) = Some 16384).
Proof.
  intros w w'. split; [|split].
  - eexists. split; [reflexivity|]. repeat split.
  - reflexivity.
  - eexists. split; [reflexivity|]. repeat split.
Qed.

(** C3.  [ReadSignedVarInt64] narrows the varint it has read to 32 bits
    before the inverse zig-zag.  [WriteSignedVarInt64] of 2^31 writes the
    varint of 2^32, [ReadVarInt64] reads 2^32 back, and
    [ReadSignedVarInt64] returns 0; for the most negative value it returns
    -2^31.  The zig-zag mapping itself inverts at both values. *)
Theorem ReadSignedVarInt64_truncates (fuel : nat) :
  let w := bf_write.create (zero_buffer 4) 16 (-1) in
  ZigZagDecode64 (ZigZagEncode64 (2 ^ 31)) = 2 ^ 31 /\
  ZigZagDecode64 (ZigZagEncode64 (- 2 ^ 63)) = - 2 ^ 63 /\
  (exists w1,
     bf_write.WriteSignedVarInt64 fuel w (2 ^ 31) = Some w1 /\
     fst <$> bf_read.ReadVarInt64 (5 + fuel) (reader_of w1 0) = Some (2 ^ 32) /\
     fst <$> bf_read.ReadSignedVarInt64 (5 + fuel) (reader_of w1 0) = Some 0) /\
  (exists w2,
     bf_write.WriteSignedVarInt64 fuel w (- 2 ^ 63) = Some w2 /\
     fst <$> bf_read.ReadVarInt64 (10 + fuel) (reader_of w2 0) = Some (2 ^ 64 - 1) /\
     fst <$> bf_read.ReadSignedVarInt64 (10 + fuel) (reader_of w2 0) = Some (- 2 ^ 31)).
Proof.
  intros w. split; [reflexivity|]. split; [reflexivity|]. split.
  - eexists. split; [reflexivity|]. repeat split.
  - eexists. split; [reflexivity|]. repeat split.
Qed.

(** ** Loops: invariants and termination *)

Section WhileFacts.
Context {S : Type}.
Variable cond : S -> bool.
Variable body : S -> S.
Variable Inv : S -> Prop.
Hypothesis Inv_body : forall s, Inv s -> cond s = true -> Inv (body s).


Variable measure : S -> Z.
Hypothesis measure_body :
  forall s, Inv s -> cond s = true -> 0 <= measure (body s) < measure s.

Lemma while_terminates (fuel : nat) (s : S) :
  Inv s -> 0 <= measure s < Z.of_nat fuel ->
  exists s', while cond body fuel s = Some s' /\ Inv s' /\ cond s' = false.
Proof.
  revert s. induction fuel as [|fuel IH]; intros s Hs Hm; simpl; [lia|].
  destruct (cond s) eqn:Hc.
  - apply IH; [auto|]. pose proof (measure_body s Hs Hc). lia.
  - exists s. auto.
Qed.
End WhileFacts.



(** ** The overflow flag is sticky *)

Section WriterSticky.
Import bf_write.








End WriterSticky.

(** Runs the first [while] of the goal with invariant [I] and measure [m]:
    leaves the two obligations of [while_terminates], the invariant and the
    fuel at entry, and the goal rewritten with the loop's result. *)
Ltac run_while I m :=
  match goal with
  | |- context [while ?c ?b ?fuel ?s0] =>
      let HB := fresh "HB" in
      let HM := fresh "HM" in
      assert (HB : forall st, I st -> c st = true -> I (b st));
      [ | assert (HM : forall st, I st -> c st = true -> 0 <= m (b st) < m st);
          [ | let E := fresh "E" in
              let s' := fresh "s" in
              let HI := fresh "HI" in
              let Hc := fresh "Hc" in
              destruct (while_terminates c b I HB m HM fuel s0) as (s' & E & HI & Hc);
              [ | | rewrite E; clear E HB HM ] ] ]
  end.

(** ** [WriteBits] within capacity *)

Lemma length_store_byte (d : buffer) k v : length (store_byte d k v) = length d.
Proof. unfold store_byte. apply length_Store. Qed.

Lemma length_memcpy_bytes (n : nat) (d : buffer) dst src :
  length (memcpy_bytes d dst src n) = length d.
Proof.
  revert d dst src. induction n as [|n IH]; intros d dst src; simpl; [reflexivity|].
  rewrite IH. apply length_store_byte.
Qed.

Lemma i32_small (x : Z) : - 2 ^ 31 <= x < 2 ^ 31 -> i32 x = x.
Proof. intros H. unfold i32. rewrite Z.mod_small by lia. lia. Qed.

(** A sum of non-negative [int]s that wraps around can only get smaller. *)
Lemma i32_le (x : Z) : 0 <= x -> i32 x <= x.
Proof.
  intros H. unfold i32.
  pose proof (Z.mod_le (x + 2 ^ 31) (2 ^ 32) ltac:(lia) ltac:(lia)). lia.
Qed.

Section WriteBitsFits.
Import bf_write.
Variables (IsPC : bool) (fuel : nat) (w0 : t) (pInData : inptr) (nBits : Z).
Hypothesis Hready : m_bOverflow w0 = false.
Hypothesis Hcur : 0 <= m_iCurBit w0.
Hypothesis HnBits : 0 <= nBits.
Hypothesis Hfuel : nBits < Z.of_nat fuel.
Hypothesis Hfit : m_iCurBit w0 + nBits <= m_nDataBits w0.

(** What every phase of [WriteBits] keeps true: the writer is not
    overflowed, and cursor plus bits still to write is where the call will
    end. *)
Let Inv (w : t) (nBitsLeft : Z) : Prop :=
  m_bOverflow w = false /\ m_nDataBits w = m_nDataBits w0 /\
  0 <= m_iCurBit w /\ 0 <= nBitsLeft /\
  m_iCurBit w + nBitsLeft = m_iCurBit w0 + nBits /\
  length (m_pData w) = length (m_pData w0).

Lemma Inv_WriteUBitLong w n b k :
  Inv w n -> 0 <= k <= 32 -> k <= n -> Inv (WriteUBitLong w b k) (n - k).
Proof.
  intros (H1 & H2 & H3 & H4 & H5 & H6) Hk Hkn. unfold Inv.
  rewrite WriteUBitLong_overflow, WriteUBitLong_nDataBits, WriteUBitLong_cur,
    WriteUBitLong_length by lia.
  repeat split; try assumption; lia.
Qed.

Lemma WriteBits_fits :
  exists w',
    WriteBits IsPC fuel w0 pInData nBits = Some (true, w') /\
    m_bOverflow w' = false /\
    m_iCurBit w' = m_iCurBit w0 + nBits /\
    m_nDataBits w' = m_nDataBits w0 /\
    length (m_pData w') = length (m_pData w0).
Proof.
  unfold WriteBits.
  pose proof (i32_le (m_iCurBit w0 + nBits) ltac:(lia)) as Hwrap.
  destruct (Z.gtb_spec (i32 (m_iCurBit w0 + nBits)) (m_nDataBits w0)); [lia|].
  clear Hwrap.
  assert (HI0 : Inv w0 nBits) by (unfold Inv; repeat split; auto; lia).
  set (I3 := fun s : t * inptr * Z => Inv (fst (fst s)) (snd s) /\ snd s <= nBits).
  set (I4 := fun s : t * Z * inptr * Z => Inv (fst (fst (fst s))) (snd s) /\ snd s <= nBits).
  (* the alignment loop *)
  run_while I3 (@snd (t * inptr) Z).
  { intros [[w p] n] [HI Hle] Hc. apply andb_true_iff in Hc. unfold I3. simpl in *.
    split; [apply Inv_WriteUBitLong; auto; lia | lia]. }
  { intros [[w p] n] [HI Hle] Hc. apply andb_true_iff in Hc. simpl in *. lia. }
  { split; [exact HI0 | simpl; lia]. }
  { simpl. lia. }
  destruct s as [[w1 p1] n1]. destruct HI as [HI1 Hle1]. simpl in HI1, Hle1. clear Hc.
  cbn [mbind option_bind]. cbn beta iota.
  (* the aligned copy *)
  match goal with |- context [if ?b then ?x else (w1, p1, n1)] =>
    set (s2 := if b then x else (w1, p1, n1)) end.
  assert (H2 : Inv (fst (fst s2)) (snd s2) /\ snd s2 <= nBits).
  { subst s2. destruct (_ && _ && _); [|simpl; split; [exact HI1 | lia]].
    cbn [fst snd]. destruct HI1 as (H1 & H2 & H3 & H4 & H5 & H6).
    rewrite !Z.shiftl_mul_pow2, !Z.shiftr_div_pow2 by lia. change (2 ^ 3) with 8.
    pose proof (Z.div_mod n1 8 ltac:(lia)). pose proof (Z.mod_pos_bound n1 8 ltac:(lia)).
    split; [|lia]. unfold Inv.
    cbn [m_bOverflow m_nDataBits m_iCurBit m_pData advance with_data with_cur].
    rewrite length_memcpy_bytes. repeat split; try assumption; lia. }
  destruct s2 as [[w2 p2] n2]. cbn [fst snd] in H2. destruct H2 as [HI2 Hle2].
  (* the word loop *)
  match goal with |- context [mbind ?k (if ?b then ?x else Some (w2, p2, n2))] =>
    assert (E3 : exists w3 p3 n3,
               (if b then x else Some (w2, p2, n2)) = Some (w3, p3, n3) /\
               Inv w3 n3 /\ n3 <= nBits)
  end.
  { destruct (_ && _); [|exists w2, p2, n2; auto].
    cbv zeta.
    run_while I4 (@snd (t * Z * inptr) Z).
    { intros [[[w q] p] n] [(H1 & H2 & H3 & H4 & H5 & H6) Hle] Hc.
      unfold I4. simpl in *. split; [|lia]. unfold Inv.
      cbn [m_bOverflow m_nDataBits m_iCurBit m_pData advance with_data with_cur].
      repeat split; try assumption; try lia.
      destruct (_ <? _); rewrite !length_Store; assumption. }
    { intros [[[w q] p] n] [(H1 & H2 & H3 & H4 & H5 & H6) Hle] Hc. simpl in *. lia. }
    { split; [exact HI2 | simpl; lia]. }
    { destruct HI2 as (_ & _ & _ & ? & _). simpl. lia. }
    destruct s as [[[w3 q3] p3] n3]. destruct HI as [HI3 Hle3]. simpl in HI3, Hle3.
    cbn [mbind option_bind]. exists w3, p3, n3. auto. }
  destruct E3 as (w3 & p3 & n3 & E3 & HI3 & Hle3).
  rewrite E3. cbn [mbind option_bind]. cbn beta iota.
  (* the byte loop *)
  run_while I3 (@snd (t * inptr) Z).
  { intros [[w p] n] [HI Hle] Hc. unfold I3. simpl in *.
    split; [apply Inv_WriteUBitLong; auto; lia | lia]. }
  { intros [[w p] n] [HI Hle] Hc. simpl in *. lia. }
  { split; [exact HI3 | simpl; lia]. }
  { destruct HI3 as (_ & _ & _ & ? & _). simpl. lia. }
  destruct s as [[w4 p4] n4]. destruct HI as [HI4 Hle4]. simpl in HI4, Hle4, Hc.
  cbn [mbind option_bind]. cbn beta iota.
  (* the last bits *)
  assert (Hn4 : 0 <= n4 < 8) by (destruct HI4 as (_ & _ & _ & ? & _); lia).
  match goal with |- context [IsOverflowed ?x] => set (w5 := x) end.
  assert (HI5 : Inv w5 0).
  { subst w5. unfold truthy. destruct (Z.eqb_spec n4 0) as [->|Hne]; cbn [negb].
    - exact HI4.
    - replace 0 with (n4 - n4) by lia. apply Inv_WriteUBitLong; auto; lia. }
  destruct HI5 as (H1 & H2 & H3 & H4 & H5 & H6).
  exists w5. unfold IsOverflowed. rewrite H1. repeat split; auto; lia.
Qed.
End WriteBitsFits.

Section WriterStickyOps.
Import bf_write.













End WriterStickyOps.

Section ReaderSticky.
Import bf_read.

























Section Helpers.
(** The helpers of bitbuf.h that the functions below call are parameters;
    what is asked of them is that they do not clear the flag. *)
Variable P : Platform.t.
Hypothesis Seek_keeps :
  forall r p, m_bOverflow r = true -> m_bOverflow (Platform.Seek P r p) = true.
Hypothesis SeekRelative_keeps :
  forall r n, m_bOverflow r = true -> m_bOverflow (Platform.SeekRelative P r n) = true.
Hypothesis ReadOneBitNoCheck_keeps :
  forall r, m_bOverflow r = true ->
            m_bOverflow (snd (Platform.ReadOneBitNoCheck P r)) = true.





End Helpers.
End ReaderSticky.




(** C5.  A [WriteBits] that fits the declared capacity, in particular one
    that fills it exactly, succeeds: it returns true, leaves the overflow
    flag clear and the cursor advanced by [nBits].  A [WriteBits] that asks
    for more than is left, in particular for one bit more, returns false
    and only sets the overflow flag: the buffer, within and beyond the
    capacity, and the cursor are as before the call.  The capacity test adds
    the cursor and [nBits] as [int]s: the second half is for sums within the
    range of an [int], which do not wrap around. *)
Theorem WriteBits_capacity_boundary (IsPC : bool) (fuel : nat) (w : bf_write.t)
    (pInData : inptr) (nBits : Z) :
  bf_write.m_bOverflow w = false ->
  0 <= bf_write.m_iCurBit w ->
  0 <= nBits < Z.of_nat fuel ->
  (bf_write.m_iCurBit w + nBits <= bf_write.m_nDataBits w ->
   exists w',
     bf_write.WriteBits IsPC fuel w pInData nBits = Some (true, w') /\
     bf_write.m_bOverflow w' = false /\
     bf_write.m_iCurBit w' = bf_write.m_iCurBit w + nBits /\
     bf_write.m_nDataBits w' = bf_write.m_nDataBits w /\
     length (bf_write.m_pData w') = length (bf_write.m_pData w)) /\
  (bf_write.m_nDataBits w < bf_write.m_iCurBit w + nBits ->
   bf_write.m_iCurBit w + nBits < 2 ^ 31 ->
   exists w',
     bf_write.WriteBits IsPC fuel w pInData nBits = Some (false, w') /\
     bf_write.m_bOverflow w' = true /\
     bf_write.m_pData w' = bf_write.m_pData w /\
     bf_write.m_iCurBit w' = bf_write.m_iCurBit w /\
     bf_write.m_nDataBits w' = bf_write.m_nDataBits w).
Proof.
  intros Hready Hcur Hn. split; intros Hfit.
  - apply WriteBits_fits; auto; lia.
  - intros Hint. exists (bf_write.SetOverflowFlag w). unfold bf_write.WriteBits.
    rewrite i32_small by lia.
    destruct (Z.gtb_spec (bf_write.m_iCurBit w + nBits) (bf_write.m_nDataBits w)); [|lia].
    repeat split.
Qed.

Lemma WriteBits_capacity_boundary_witness :
  let w := bf_write.create (zero_buffer 2) 8 (-1) in
  let p := mk_inptr 1 (repeat 0xA5 9) in
  (exists w',
     bf_write.WriteBits true 66 w p 64 = Some (true, w') /\
     bf_write.m_bOverflow w' = false /\
     bf_write.m_iCurBit w' = 64 /\
     bf_write.m_nDataBits w' = 64 /\
     length (bf_write.m_pData w') = 2%nat) /\
  (exists w',
     bf_write.WriteBits true 66 w p 65 = Some (false, w') /\
     bf_write.m_bOverflow w' = true /\
     bf_write.m_pData w' = [0; 0] /\
     bf_write.m_iCurBit w' = 0 /\
     bf_write.m_nDataBits w' = 64).
Proof.
  intros w p. split.
  - apply (WriteBits_capacity_boundary true 66 w p 64); [reflexivity|simpl; lia|lia|].
    vm_compute. discriminate.
  - apply (WriteBits_capacity_boundary true 66 w p 65); [reflexivity|simpl; lia|lia| |].
    + vm_compute. reflexivity.
    + vm_compute. reflexivity.
Defined.

(** ** The varint readers stop at the cap *)

Section VarintCap.
Import bf_read.
Variable r0 : t.

(** From [c] groups read, all with the continuation bit, the loop of
    [ReadVarInt32] ends after [k] groups, [k] at most 5: it returns the
    groups assembled so far and has consumed exactly those bytes. *)
Lemma ReadVarInt32_loop_cap (n c fuel : nat) :
  (c + n = 5)%nat -> (n < fuel)%nat ->
  (forall i, (i < c)%nat -> continues (byte_ahead i r0) = true) ->
  exists k : nat,
    (c <= k <= 5)%nat /\ (c < 5 -> c < k)%nat /\
    ReadVarInt32_loop fuel (groups32 c r0) (Z.of_nat c) (after_bytes c r0)
      = Some (groups32 k r0, after_bytes k r0) /\
    (forall i, (i + 1 < k)%nat -> continues (byte_ahead i r0) = true) /\
    ((c < k < 5)%nat -> continues (byte_ahead (k - 1) r0) = false).
Proof.
  revert c fuel. induction n as [|n IH]; intros c fuel Hc Hf Hall.
  - (* the cap *)
    destruct fuel as [|fuel]; [lia|]. simpl.
    assert (c = 5%nat) by lia. subst c. simpl Z.of_nat. unfold kMaxVarint32Bytes.
    change (5 =? 5) with true. cbv iota.
    exists 5%nat. repeat split; try lia. intros i Hi. apply Hall. lia.
  - destruct fuel as [|fuel]; [lia|]. cbn [ReadVarInt32_loop].
    unfold kMaxVarint32Bytes.
    destruct (Z.eqb_spec (Z.of_nat c) 5) as [E|_]; [lia|].
    change (fst (ReadUBitLong (after_bytes c r0) 8)) with (byte_ahead c r0).
    rewrite (surjective_pairing (ReadUBitLong (after_bytes c r0) 8)).
    change (fst (ReadUBitLong (after_bytes c r0) 8)) with (byte_ahead c r0).
    change (snd (ReadUBitLong (after_bytes c r0) 8)) with (after_bytes (S c) r0).
    change (Z.lor (groups32 c r0)
                  (u32 (Z.shiftl (Z.land (byte_ahead c r0) 127) (7 * Z.of_nat c))))
      with (groups32 (S c) r0).
    replace (Z.of_nat c + 1) with (Z.of_nat (S c)) by lia.
    fold (continues (byte_ahead c r0)).
    destruct (continues (byte_ahead c r0)) eqn:Hcont.
    + destruct (IH (S c) fuel ltac:(lia) ltac:(lia)) as (k & Hk & Hlt & E & Hpre & Hlast).
      { intros i Hi. destruct (Nat.eq_dec i c) as [->|]; [exact Hcont | apply Hall; lia]. }
      exists k. repeat split; try lia; auto.
      intros Hk'. destruct (Nat.eq_dec k (S c)) as [->|]; [|apply Hlast; lia].
      exfalso. lia.
    + exists (S c). repeat split; try lia.
      * intros i Hi. apply Hall. lia.
      * intros _. replace (S c - 1)%nat with c by lia. exact Hcont.
Qed.

Lemma ReadVarInt64_loop_cap (n c fuel : nat) :
  (c + n = 10)%nat -> (n < fuel)%nat ->
  (forall i, (i < c)%nat -> continues (byte_ahead i r0) = true) ->
  exists k : nat,
    (c <= k <= 10)%nat /\ (c < 10 -> c < k)%nat /\
    ReadVarInt64_loop fuel (groups64 c r0) (Z.of_nat c) (after_bytes c r0)
      = Some (groups64 k r0, after_bytes k r0) /\
    (forall i, (i + 1 < k)%nat -> continues (byte_ahead i r0) = true) /\
    ((c < k < 10)%nat -> continues (byte_ahead (k - 1) r0) = false).
Proof.
  revert c fuel. induction n as [|n IH]; intros c fuel Hc Hf Hall.
  - destruct fuel as [|fuel]; [lia|]. simpl.
    assert (c = 10%nat) by lia. subst c. simpl Z.of_nat. unfold kMaxVarintBytes.
    change (10 =? 10) with true. cbv iota.
    exists 10%nat. repeat split; try lia. intros i Hi. apply Hall. lia.
  - destruct fuel as [|fuel]; [lia|]. cbn [ReadVarInt64_loop].
    unfold kMaxVarintBytes.
    destruct (Z.eqb_spec (Z.of_nat c) 10) as [E|_]; [lia|].
    rewrite (surjective_pairing (ReadUBitLong (after_bytes c r0) 8)).
    change (fst (ReadUBitLong (after_bytes c r0) 8)) with (byte_ahead c r0).
    change (snd (ReadUBitLong (after_bytes c r0) 8)) with (after_bytes (S c) r0).
    change (Z.lor (groups64 c r0)
                  (u64 (Z.shiftl (Z.land (byte_ahead c r0) 127) (7 * Z.of_nat c))))
      with (groups64 (S c) r0).
    replace (Z.of_nat c + 1) with (Z.of_nat (S c)) by lia.
    fold (continues (byte_ahead c r0)).
    destruct (continues (byte_ahead c r0)) eqn:Hcont.
    + destruct (IH (S c) fuel ltac:(lia) ltac:(lia)) as (k & Hk & Hlt & E & Hpre & Hlast).
      { intros i Hi. destruct (Nat.eq_dec i c) as [->|]; [exact Hcont | apply Hall; lia]. }
      exists k. repeat split; try lia; auto.
      intros Hk'. destruct (Nat.eq_dec k (S c)) as [->|]; [|apply Hlast; lia].
      exfalso. lia.
    + exists (S c). repeat split; try lia.
      * intros i Hi. apply Hall. lia.
      * intros _. replace (S c - 1)%nat with c by lia. exact Hcont.
Qed.
End VarintCap.

Lemma ReadUBitLong_cursor (r : bf_read.t) (n : Z) :
  0 <= n ->
  bf_read.m_iCurBit r <= bf_read.m_iCurBit (snd (bf_read.ReadUBitLong r n))
    <= bf_read.m_iCurBit r + n.
Proof.
  intros Hn. unfold bf_read.ReadUBitLong. destruct (_ >? _); simpl; lia.
Qed.

Lemma after_bytes_cursor (k : nat) (r : bf_read.t) :
  bf_read.m_iCurBit r <= bf_read.m_iCurBit (after_bytes k r)
    <= bf_read.m_iCurBit r + 8 * Z.of_nat k.
Proof.
  induction k as [|k IH]; simpl after_bytes; [lia|].
  pose proof (ReadUBitLong_cursor (after_bytes k r) 8 ltac:(lia)). lia.
Qed.

(** C6.  [ReadVarInt32] returns on every reader, with 6 units of fuel or
    more: it reads [k] bytes, [k] between 1 and 5, and returns the 7-bit
    groups of those bytes assembled; every byte before the last has the
    continuation bit, and when fewer than 5 were read the last one has it
    clear.  So the cursor moves by at most 40 bits, and on a stream whose
    first 5 bytes all have the continuation bit the read stops at the cap
    and returns the partial result of those 5 groups.  The same holds for
    [ReadVarInt64] with 10 bytes, 80 bits and 11 units of fuel. *)
Theorem ReadVarInt_cap (r : bf_read.t) (extra : nat) :
  (exists k : nat,
     (1 <= k <= 5)%nat /\
     bf_read.ReadVarInt32 (6 + extra) r = Some (groups32 k r, after_bytes k r) /\
     (forall i, (i + 1 < k)%nat -> continues (byte_ahead i r) = true) /\
     ((k < 5)%nat -> continues (byte_ahead (k - 1) r) = false) /\
     bf_read.m_iCurBit r <= bf_read.m_iCurBit (after_bytes k r)
       <= bf_read.m_iCurBit r + 40) /\
  (exists k : nat,
     (1 <= k <= 10)%nat /\
     bf_read.ReadVarInt64 (11 + extra) r = Some (groups64 k r, after_bytes k r) /\
     (forall i, (i + 1 < k)%nat -> continues (byte_ahead i r) = true) /\
     ((k < 10)%nat -> continues (byte_ahead (k - 1) r) = false) /\
     bf_read.m_iCurBit r <= bf_read.m_iCurBit (after_bytes k r)
       <= bf_read.m_iCurBit r + 80) /\
  ((forall i, (i < 5)%nat -> continues (byte_ahead i r) = true) ->
   bf_read.ReadVarInt32 (6 + extra) r = Some (groups32 5 r, after_bytes 5 r)) /\
  ((forall i, (i < 10)%nat -> continues (byte_ahead i r) = true) ->
   bf_read.ReadVarInt64 (11 + extra) r = Some (groups64 10 r, after_bytes 10 r)).
Proof.
  destruct (ReadVarInt32_loop_cap r 5 0 (6 + extra) ltac:(lia) ltac:(lia) ltac:(lia))
    as (k & Hk & Hlt & E & Hpre & Hlast).
  destruct (ReadVarInt64_loop_cap r 10 0 (11 + extra) ltac:(lia) ltac:(lia) ltac:(lia))
    as (k' & Hk' & Hlt' & E' & Hpre' & Hlast').
  split; [|split; [|split]].
  - exists k. pose proof (after_bytes_cursor k r).
    repeat split; try lia; auto. intros ?. apply Hlast. lia.
  - exists k'. pose proof (after_bytes_cursor k' r).
    repeat split; try lia; auto. intros ?. apply Hlast'. lia.
  - intros Hall. destruct (Nat.eq_dec k 5%nat) as [->|Hne]; [exact E|].
    rewrite Hall in Hlast by lia. discriminate Hlast. lia.
  - intros Hall. destruct (Nat.eq_dec k' 10%nat) as [->|Hne]; [exact E'|].
    rewrite Hall in Hlast' by lia. discriminate Hlast'. lia.
Qed.

Lemma ReadVarInt_cap_witness :
  let r := bf_read.create (repeat 0xFFFFFFFF 3) 12 (-1) in
  bf_read.ReadVarInt32 6 r = Some (0xFFFFFFFF, bf_read.with_cur r 40) /\
  bf_read.ReadVarInt64 11 r = Some (0xFFFFFFFFFFFFFFFF, bf_read.with_cur r 80).
Proof.
  intros r. destruct (ReadVarInt_cap r 0) as (_ & _ & H32 & H64). split.
  - apply H32. intros i Hi.
    do 5 (destruct i as [|i]; [reflexivity|]). lia.
  - apply H64. intros i Hi.
    do 10 (destruct i as [|i]; [reflexivity|]). lia.
Defined.

(** ** Peeking *)

Section Peek.
Import bf_read.

Lemma ReadOneBit_in_range (r : t) :
  m_iCurBit r < m_nDataBits r ->
  ReadOneBit r = (b2z (bit_at (m_pData r) (m_iCurBit r)), with_cur r (m_iCurBit r + 1)).
Proof.
  intros H. unfold ReadOneBit.
  destruct (Z.geb_spec (m_iCurBit r) (m_nDataBits r)); [lia|].
  f_equal. rewrite bit_at_eq.
  set (w := LoadLittleDWord _ _). set (s := Z.land _ 31).
  assert (Hs : 0 <= s < 32) by (unfold s; rewrite land31; apply Z.mod_pos_bound; lia).
  change 1 with (Z.ones 1). rewrite Z.land_ones by lia. change (2 ^ 1) with 2.
  rewrite <- Z.bit0_mod, Z.shiftr_spec by lia. reflexivity.
Qed.

Lemma b2z_testbit (b : bool) (m : Z) : Z.testbit (b2z b) m = (m =? 0) && b.
Proof.
  destruct b; simpl.
  - destruct (Z.eqb_spec m 0) as [->|Hne]; [reflexivity|].
    destruct (Z.ltb_spec m 0); [apply Z.testbit_neg_r; lia|].
    change 1 with (Z.ones 1). rewrite ones_testbit by lia. simpl. lia.
  - rewrite Z.bits_0. symmetry. apply andb_false_r.
Qed.

Lemma PeekUBitLong_loop_testbit (n : nat) (i acc : Z) (r : t) (j : Z) :
  0 <= i -> i + Z.of_nat n <= 32 ->
  m_iCurBit r + Z.of_nat n <= m_nDataBits r ->
  0 <= j ->
  Z.testbit (fst (PeekUBitLong_loop n i acc r)) j
  = Z.testbit acc j ||
    ((i <=? j) && (j <? i + Z.of_nat n) && bit_at (m_pData r) (m_iCurBit r + (j - i))).
Proof.
  revert i acc r. induction n as [|n IH]; intros i acc r Hi Hin Hfit Hj.
  - cbn [PeekUBitLong_loop fst].
    destruct (Z.leb_spec i j), (Z.ltb_spec j (i + Z.of_nat 0)); try lia; btauto.
  - cbn [PeekUBitLong_loop]. rewrite ReadOneBit_in_range by lia.
    rewrite IH by (cbn [m_iCurBit m_nDataBits with_cur]; lia).
    cbn [m_iCurBit m_pData with_cur].
    rewrite Z.lor_spec, u32_testbit.
    destruct (Z.ltb_spec j i).
    + rewrite Z.shiftl_spec_low by lia.
      destruct (Z.leb_spec (i + 1) j), (Z.leb_spec i j); try lia. btauto.
    + rewrite Z.shiftl_spec, b2z_testbit by lia.
      destruct (Z.eq_dec j i) as [->|Hne].
      * replace (i - i) with 0 by lia.
        replace (m_iCurBit r + 0) with (m_iCurBit r) by lia.
        destruct (Z.ltb_spec i 32), (Z.leb_spec (i + 1) i), (Z.leb_spec i i),
          (Z.ltb_spec i (i + Z.of_nat (S n))); try lia.
        change (0 =? 0) with true. btauto.
      * replace (m_iCurBit r + 1 + (j - (i + 1))) with (m_iCurBit r + (j - i)) by lia.
        destruct (Z.eqb_spec (j - i) 0), (Z.leb_spec (i + 1) j), (Z.leb_spec i j),
          (Z.ltb_spec j (i + 1 + Z.of_nat n)), (Z.ltb_spec j (i + Z.of_nat (S n)));
          try lia; btauto.
Qed.

Lemma PeekUBitLong_in_range (r : t) (numbits : Z) :
  wf_buffer (m_pData r) -> 0 <= m_iCurBit r -> 0 <= numbits <= 32 ->
  m_iCurBit r + numbits <= m_nDataBits r ->
  fst (PeekUBitLong r numbits) = fst (ReadUBitLong r numbits).
Proof.
  intros Hwf Hcur Hn Hfit. unfold PeekUBitLong.
  rewrite (surjective_pairing (PeekUBitLong_loop _ _ _ _)). cbn [fst].
  destruct (Z.eq_dec numbits 0) as [->|Hne].
  - pose proof (ReadUBitLong_range r 0 ltac:(lia)). simpl in *. lia.
  - apply Z.bits_inj'. intros j Hj.
    rewrite PeekUBitLong_loop_testbit by lia.
    rewrite ReadUBitLong_testbit by (auto; lia).
    rewrite Z.bits_0, Z2Nat.id by lia.
    replace (0 <=? j) with true by lia. replace (j - 0) with j by lia. reflexivity.
Qed.

Lemma ReadOneBit_past_end (r : t) :
  m_nDataBits r <= m_iCurBit r -> ReadOneBit r = (0, SetOverflowFlag r).
Proof.
  intros H. unfold ReadOneBit.
  destruct (Z.geb_spec (m_iCurBit r) (m_nDataBits r)); [reflexivity|lia].
Qed.

(** The loop of [PeekUBitLong] wherever the valid bits end: a bit past
    the end reads as 0 and leaves the cursor where it is, so every later
    bit reads as 0 too. *)
Lemma PeekUBitLong_loop_bits (n : nat) (i acc : Z) (r : t) (j : Z) :
  0 <= i -> i + Z.of_nat n <= 32 -> 0 <= j ->
  Z.testbit (fst (PeekUBitLong_loop n i acc r)) j
  = Z.testbit acc j ||
    ((i <=? j) && (j <? i + Z.of_nat n) && (m_iCurBit r + (j - i) <? m_nDataBits r)
     && bit_at (m_pData r) (m_iCurBit r + (j - i))).
Proof.
  revert i acc r. induction n as [|n IH]; intros i acc r Hi Hin Hj.
  - cbn [PeekUBitLong_loop fst].
    destruct (Z.leb_spec i j), (Z.ltb_spec j (i + Z.of_nat 0)); try lia; btauto.
  - cbn [PeekUBitLong_loop].
    destruct (Z.lt_ge_cases (m_iCurBit r) (m_nDataBits r)) as [Hin_range|Hpast].
    + rewrite ReadOneBit_in_range by lia.
      rewrite IH by lia.
      cbn [m_iCurBit m_pData m_nDataBits with_cur].
      rewrite Z.lor_spec, u32_testbit.
      destruct (Z.ltb_spec j i).
      * rewrite Z.shiftl_spec_low by lia.
        destruct (Z.leb_spec (i + 1) j), (Z.leb_spec i j); try lia. btauto.
      * rewrite Z.shiftl_spec, b2z_testbit by lia.
        destruct (Z.eq_dec j i) as [->|Hne].
        -- replace (i - i) with 0 by lia.
           replace (m_iCurBit r + 0) with (m_iCurBit r) by lia.
           destruct (Z.ltb_spec i 32), (Z.leb_spec (i + 1) i), (Z.leb_spec i i),
             (Z.ltb_spec i (i + Z.of_nat (S n))),
             (Z.ltb_spec (m_iCurBit r) (m_nDataBits r)); try lia.
           change (0 =? 0) with true. btauto.
        -- replace (m_iCurBit r + 1 + (j - (i + 1))) with (m_iCurBit r + (j - i)) by lia.
           destruct (Z.eqb_spec (j - i) 0), (Z.leb_spec (i + 1) j), (Z.leb_spec i j),
             (Z.ltb_spec j (i + 1 + Z.of_nat n)), (Z.ltb_spec j (i + Z.of_nat (S n)));
             try lia; btauto.
    + rewrite ReadOneBit_past_end by lia.
      rewrite IH by lia.
      cbn [m_iCurBit m_pData m_nDataBits SetOverflowFlag].
      rewrite Z.lor_spec, u32_testbit, Z.shiftl_0_l, Z.bits_0.
      destruct (Z.leb_spec (i + 1) j), (Z.leb_spec i j),
        (Z.ltb_spec (m_iCurBit r + (j - (i + 1))) (m_nDataBits r)),
        (Z.ltb_spec (m_iCurBit r + (j - i)) (m_nDataBits r)); try lia; btauto.
Qed.

(** Bit [j] of the value of [PeekUBitLong]: the bit of the buffer at the
    cursor plus [j] where that is one of the [numbits] bits asked for and
    a valid bit, and 0 elsewhere. *)
Lemma PeekUBitLong_bits (r : t) (numbits j : Z) :
  0 <= numbits <= 32 -> 0 <= j ->
  Z.testbit (fst (PeekUBitLong r numbits)) j
  = (j <? numbits) && (m_iCurBit r + j <? m_nDataBits r)
    && bit_at (m_pData r) (m_iCurBit r + j).
Proof.
  intros Hn Hj. unfold PeekUBitLong.
  rewrite (surjective_pairing (PeekUBitLong_loop _ _ _ _)). cbn [fst].
  rewrite PeekUBitLong_loop_bits by lia.
  rewrite Z.bits_0, Z2Nat.id by lia.
  replace (0 <=? j) with true by lia. replace (j - 0) with j by lia. reflexivity.
Qed.

(** Past the end the value is the field of the valid bits that remain. *)
Lemma PeekUBitLong_past_end (r : t) (numbits : Z) :
  wf_buffer (m_pData r) -> 0 <= m_iCurBit r <= m_nDataBits r -> 0 <= numbits <= 32 ->
  m_nDataBits r < m_iCurBit r + numbits ->
  fst (PeekUBitLong r numbits) = fst (ReadUBitLong r (m_nDataBits r - m_iCurBit r)).
Proof.
  intros Hwf Hcur Hn Hpast. apply Z.bits_inj'. intros j Hj.
  rewrite PeekUBitLong_bits by lia.
  destruct (Z.eq_dec (m_nDataBits r) (m_iCurBit r)) as [Heq|Hne].
  { rewrite Heq, Z.sub_diag.
    pose proof (ReadUBitLong_range r 0 ltac:(lia)) as H0. change (2 ^ 0) with 1 in H0.
    replace (fst (ReadUBitLong r 0)) with 0 by lia. rewrite Z.bits_0.
    destruct (Z.ltb_spec (m_iCurBit r + j) (m_iCurBit r)); [lia|]. btauto. }
  rewrite ReadUBitLong_testbit by (auto; lia).
  destruct (Z.ltb_spec j numbits), (Z.ltb_spec (m_iCurBit r + j) (m_nDataBits r)),
    (Z.ltb_spec j (m_nDataBits r - m_iCurBit r)); try lia; btauto.
Qed.
End Peek.

(** C10, as stated, fails.  With 8 valid bits, all ones, a peek of 16 bits
    returns the 8 valid bits (its bit-by-bit loop reads what is there),
    while [ReadUBitLong] of 16 bits overflows and returns 0. *)
Lemma peek_past_end_differs :
  let r := bf_read.create [0xFF] 4 8 in
  fst (bf_read.PeekUBitLong r 16) = 0xFF /\
  fst (bf_read.ReadUBitLong r 16) = 0 /\
  fst (bf_read.PeekUBitLong r 16) <> fst (bf_read.ReadUBitLong r 16).
Proof. intros r. split; [reflexivity|]. split; [reflexivity|]. discriminate. Qed.

(** C10, amended.  After [PeekUBitLong] the whole reader state, cursor and
    overflow flag included, is the state before the call, for every reader
    and every [numbits], also when the peek runs past the valid bit length.
    When the [numbits] bits (at most 32) lie within the valid bit length,
    the value is the one [ReadUBitLong] returns from that state.  In every
    case bit [j] of the value is the bit of the buffer at the cursor plus
    [j] where that is one of the [numbits] bits and a valid bit, and 0
    elsewhere; so a peek that runs past the end returns the valid bits that
    remain, zero-extended: the value [ReadUBitLong] returns for just those
    bits. *)
Theorem PeekUBitLong_restores (r : bf_read.t) (numbits : Z) :
  snd (bf_read.PeekUBitLong r numbits) = r /\
  (wf_buffer (bf_read.m_pData r) ->
   0 <= bf_read.m_iCurBit r -> 0 <= numbits <= 32 ->
   bf_read.m_iCurBit r + numbits <= bf_read.m_nDataBits r ->
   fst (bf_read.PeekUBitLong r numbits) = fst (bf_read.ReadUBitLong r numbits)) /\
  (0 <= numbits <= 32 ->
   forall j, 0 <= j ->
     Z.testbit (fst (bf_read.PeekUBitLong r numbits)) j
     = (j <? numbits) && (bf_read.m_iCurBit r + j <? bf_read.m_nDataBits r)
       && bit_at (bf_read.m_pData r) (bf_read.m_iCurBit r + j)) /\
  (wf_buffer (bf_read.m_pData r) ->
   0 <= bf_read.m_iCurBit r <= bf_read.m_nDataBits r -> 0 <= numbits <= 32 ->
   bf_read.m_nDataBits r < bf_read.m_iCurBit r + numbits ->
   fst (bf_read.PeekUBitLong r numbits)
   = fst (bf_read.ReadUBitLong r (bf_read.m_nDataBits r - bf_read.m_iCurBit r))).
Proof.
  split; [|split; [|split]].
  - unfold bf_read.PeekUBitLong. destruct (bf_read.PeekUBitLong_loop _ _ _ _). reflexivity.
  - apply PeekUBitLong_in_range.
  - intros Hn j Hj. apply PeekUBitLong_bits; assumption.
  - apply PeekUBitLong_past_end.
Qed.

Lemma PeekUBitLong_restores_witness :
  let r := bf_read.with_cur (bf_read.create [0xDEADBEEF; 0x12345678] 8 (-1)) 20 in
  let r2 := bf_read.with_cur (bf_read.create [0xDEADBEEF; 0x12345678] 8 40) 36 in
  (snd (bf_read.PeekUBitLong r 24) = r /\
   fst (bf_read.PeekUBitLong r 24) = fst (bf_read.ReadUBitLong r 24)) /\
  (snd (bf_read.PeekUBitLong r2 16) = r2 /\
   Z.testbit (fst (bf_read.PeekUBitLong r2 16)) 2
   = (2 <? 16) && (36 + 2 <? 40) && bit_at [0xDEADBEEF; 0x12345678] (36 + 2) /\
   Z.testbit (fst (bf_read.PeekUBitLong r2 16)) 5
   = (5 <? 16) && (36 + 5 <? 40) && bit_at [0xDEADBEEF; 0x12345678] (36 + 5) /\
   fst (bf_read.PeekUBitLong r2 16) = fst (bf_read.ReadUBitLong r2 (40 - 36))).
Proof.
  intros r r2. split.
  - destruct (PeekUBitLong_restores r 24) as (H1 & H2 & _). split; [exact H1|].
    apply H2; [repeat constructor; lia | simpl; lia | lia | vm_compute; discriminate].
  - destruct (PeekUBitLong_restores r2 16) as (H1 & _ & H3 & H4). split; [exact H1|].
    split; [apply (H3 ltac:(lia) 2); lia|].
    split; [apply (H3 ltac:(lia) 5); lia|].
    apply H4; [repeat constructor; lia | simpl; lia | lia | simpl; lia].
Defined.

(** ** [ReadString] *)

Section ReadString.
Import bf_read.

(** A nonzero character comes from a read within the valid bits. *)
Lemma ReadChar_nonzero (r : t) :
  fst (ReadChar r) <> 0 ->
  m_iCurBit r + 8 <= m_nDataBits r /\
  snd (ReadChar r) = with_cur r (m_iCurBit r + 8).
Proof.
  unfold ReadChar, ReadUBitLong.
  destruct (Z.gtb_spec (m_iCurBit r + 8) (m_nDataBits r)); simpl; intros Hnz.
  - exfalso. apply Hnz. reflexivity.
  - split; [lia | reflexivity].
Qed.

Lemma string_ahead_terminates (bLine : bool) (fuel : nat) (r : t) :
  (Z.to_nat (m_nDataBits r - m_iCurBit r) < fuel)%nat ->
  exists cs r', string_ahead fuel r bLine = Some (cs, r').
Proof.
  revert r. induction fuel as [|fuel IH]; intros r Hf; [lia|].
  cbn [string_ahead].
  pose proof (ReadChar_nonzero r) as Hnz.
  destruct (ReadChar r) as [val r1]. cbn [fst snd] in Hnz.
  destruct (Z.eqb_spec val 0) as [_|Hne]; [eauto|].
  destruct (bLine && _); [eauto|].
  destruct (Hnz Hne) as [Hin ->].
  destruct (IH (with_cur r (m_iCurBit r + 8))) as (cs & r' & E).
  { cbn [m_nDataBits m_iCurBit with_cur]. lia. }
  rewrite E. simpl. eauto.
Qed.

Variables (maxLen : Z) (bLine : bool) (M : nat).
Hypothesis HM : maxLen - 1 = Z.of_nat M.

Lemma ReadString_loop_spec (fuel : nat) :
  forall (r : t) (cs : list Z) (r' : t),
    string_ahead fuel r bLine = Some (cs, r') ->
    forall (pStr : list Z) (bTooSmall : bool) (i : nat),
      (i <= M)%nat -> (M < length pStr)%nat ->
      ReadString_loop fuel r pStr maxLen bLine bTooSmall (Z.of_nat i)
      = Some (r',
              take i pStr ++ take (M - i) cs
                ++ drop (i + Nat.min (length cs) (M - i)) pStr,
              bTooSmall || (M - i <? length cs)%nat,
              Z.of_nat (i + Nat.min (length cs) (M - i))).
Proof.
  induction fuel as [|fuel IH]; intros r cs r' E pStr b i Hi Hlen; [discriminate|].
  cbn [string_ahead] in E. cbn [ReadString_loop].
  destruct (ReadChar r) as [val r1].
  assert (Hend : forall r2, Some ([], r1) = Some (cs, r2) ->
            Some (r1, pStr, b, Z.of_nat i)
            = Some (r2, take i pStr ++ take (M - i) cs
                          ++ drop (i + Nat.min (length cs) (M - i)) pStr,
                    b || (M - i <? length cs)%nat,
                    Z.of_nat (i + Nat.min (length cs) (M - i)))).
  { intros r2 E2. injection E2 as <- <-.
    rewrite take_nil. cbn [length Nat.min app].
    rewrite Nat.add_0_r, take_drop.
    replace (M - i <? 0)%nat with false by (symmetry; apply Nat.ltb_ge; lia).
    rewrite orb_false_r. reflexivity. }
  destruct (val =? 0); [apply Hend, E|].
  destruct (bLine && _); [apply Hend, E|]. clear Hend.
  destruct (string_ahead fuel r1 bLine) as [[cs1 r2]|] eqn:E1; [|discriminate].
  simpl in E. injection E as <- <-.
  destruct (Z.ltb_spec (Z.of_nat i) (maxLen - 1)) as [Hlt|Hge].
  - assert (Hi' : (i < M)%nat) by lia.
    replace (Z.of_nat i + 1) with (Z.of_nat (S i)) by lia.
    rewrite Nat2Z.id.
    rewrite (IH r1 cs1 r2 E1) by (rewrite ?length_insert; lia).
    f_equal. f_equal; [f_equal; [f_equal|]|].
    + rewrite drop_insert_lt by lia.
      replace (M - i)%nat with (S (M - S i)) by lia. simpl.
      rewrite (take_S_r (<[i:=val]> pStr) i val)
        by (apply list_lookup_insert_eq; lia).
      rewrite take_insert_ge by lia.
      rewrite <- !app_assoc. simpl.
      do 3 f_equal. f_equal. lia.
    + f_equal. cbn [length].
      destruct (Nat.ltb_spec (M - S i) (length cs1)), (Nat.ltb_spec (M - i) (S (length cs1)));
        try lia; reflexivity.
    + cbn [length]. lia.
  - assert (Hi' : i = M) by lia. subst i.
    rewrite (IH r1 cs1 r2 E1) by lia.
    replace (M - M)%nat with 0%nat by lia.
    rewrite !Nat.min_0_r, Nat.add_0_r, !take_0. cbn [app length].
    rewrite take_drop.
    replace (0 <? S (length cs1))%nat with true by (symmetry; apply Nat.ltb_lt; lia).
    rewrite orb_true_r. reflexivity.
Qed.

Lemma ReadString_spec (fuel : nat) (r : t) (cs : list Z) (r' : t) (pStr : list Z) :
  string_ahead fuel r bLine = Some (cs, r') ->
  (M < length pStr)%nat ->
  ReadString fuel r pStr maxLen bLine
  = Some (negb (m_bOverflow r') && (length cs <=? M)%nat,
          take M cs ++ 0 :: drop (S (Nat.min (length cs) M)) pStr,
          Z.of_nat (Nat.min (length cs) M), r').
Proof.
  intros E Hlen. unfold ReadString.
  change (ReadString_loop fuel r pStr maxLen bLine false 0)
    with (ReadString_loop fuel r pStr maxLen bLine false (Z.of_nat 0)).
  rewrite (ReadString_loop_spec fuel r cs r' E) by lia.
  cbn [mbind option_bind]. cbn beta iota.
  rewrite Nat2Z.id, Nat.sub_0_r, take_0. simpl app. simpl Nat.add.
  assert (Hb : negb (IsOverflowed r') && negb (false || (M <? length cs)%nat)
               = negb (m_bOverflow r') && (length cs <=? M)%nat).
  { unfold IsOverflowed. f_equal.
    destruct (Nat.ltb_spec M (length cs)), (Nat.leb_spec (length cs) M); try lia; reflexivity. }
  assert (Hd : <[Nat.min (length cs) M := 0]> (take M cs ++ drop (Nat.min (length cs) M) pStr)
               = take M cs ++ 0 :: drop (S (Nat.min (length cs) M)) pStr).
  { set (n := Nat.min (length cs) M).
    assert (Hn : n = (length (take M cs) + 0)%nat) by (rewrite length_take; lia).
    rewrite Hn at 1. rewrite insert_app_r.
    destruct (pStr !! n) as [x|] eqn:E1.
    - rewrite (drop_S pStr x n E1). reflexivity.
    - apply lookup_ge_None in E1. lia. }
  rewrite Hb, Hd. reflexivity.
Qed.
End ReadString.

(** C7, as stated, fails.  The stream holds the two characters "ab" and
    ends there, [maxLen] is 10: [ReadString] stores both characters and the
    terminator, nothing is truncated ([bTooSmall] stays false), and the
    return value is false all the same, because the read that found no
    terminator overflowed the stream. *)
Lemma ReadString_false_without_truncation :
  let r := bf_read.create [0x6261] 4 16 in
  exists r',
    bf_read.ReadString_loop 3 r (repeat 0 10) 10 false false 0
      = Some (r', [97; 98; 0; 0; 0; 0; 0; 0; 0; 0], false, 2) /\
    bf_read.ReadString 3 r (repeat 0 10) 10 false
      = Some (false, [97; 98; 0; 0; 0; 0; 0; 0; 0; 0], 2, r') /\
    bf_read.m_bOverflow r' = true.
Proof. intros r. eexists. repeat split. Qed.

(** C7, amended.  With fuel beyond the bits left in the stream
    [ReadString] returns.  Let [cs] be the characters ahead of the reader up
    to the terminator (a zero, also what a read past the valid bits yields,
    or a newline when [bLine] is set).  The destination receives the first
    [maxLen - 1] characters of [cs], then a zero, and is otherwise as
    before; the count is the number of characters stored.  The return value
    is true exactly when nothing was truncated and the reader is not
    overflowed: truncation gives false, so does an overflowed reader, and a
    string of exactly [maxLen - 1] characters read without overflow gives
    true. *)
Theorem ReadString_result (fuel : nat) (r : bf_read.t) (pStr : list Z)
    (maxLen : Z) (bLine : bool) :
  1 <= maxLen <= Z.of_nat (length pStr) ->
  (Z.to_nat (bf_read.m_nDataBits r - bf_read.m_iCurBit r) < fuel)%nat ->
  exists (cs : list Z) (r' : bf_read.t) (ret : bool) (dst : list Z),
    let M := Z.to_nat (maxLen - 1) in
    let n := Nat.min (length cs) M in
    string_ahead fuel r bLine = Some (cs, r') /\
    bf_read.ReadString fuel r pStr maxLen bLine = Some (ret, dst, Z.of_nat n, r') /\
    dst = take M cs ++ 0 :: drop (S n) pStr /\
    dst !! n = Some 0 /\
    ret = negb (bf_read.m_bOverflow r') && (length cs <=? M)%nat /\
    ((M < length cs)%nat -> ret = false) /\
    (length cs = M -> bf_read.m_bOverflow r' = false -> ret = true).
Proof.
  intros Hlen Hfuel.
  destruct (string_ahead_terminates bLine fuel r Hfuel) as (cs & r' & E).
  exists cs, r', (negb (bf_read.m_bOverflow r') && (length cs <=? Z.to_nat (maxLen - 1))%nat),
    (take (Z.to_nat (maxLen - 1)) cs
       ++ 0 :: drop (S (Nat.min (length cs) (Z.to_nat (maxLen - 1)))) pStr).
  cbv zeta. split; [exact E|]. split.
  { apply (ReadString_spec maxLen bLine (Z.to_nat (maxLen - 1))); [lia|exact E|lia]. }
  split; [reflexivity|]. split.
  { rewrite lookup_app_r by (rewrite length_take; lia).
    rewrite length_take.
    replace (Nat.min (length cs) (Z.to_nat (maxLen - 1))
             - Nat.min (Z.to_nat (maxLen - 1)) (length cs))%nat with 0%nat by lia.
    reflexivity. }
  split; [reflexivity|]. split.
  - intros Hlt. replace (length cs <=? Z.to_nat (maxLen - 1))%nat with false
      by (symmetry; apply Nat.leb_gt; lia).
    apply andb_false_r.
  - intros -> ->. rewrite Nat.leb_refl. reflexivity.
Qed.

Lemma ReadString_result_witness :
  let w := snd (bf_write.WriteString (bf_write.create (zero_buffer 4) 16 (-1))
                  (Some [97; 98; 99])) in
  let r := reader_of w 0 in
  exists (cs : list Z) (r' : bf_read.t) (ret : bool) (dst : list Z),
    let M := Z.to_nat (4 - 1) in
    let n := Nat.min (length cs) M in
    string_ahead 129 r false = Some (cs, r') /\
    bf_read.ReadString 129 r [7; 7; 7; 7; 7] 4 false = Some (ret, dst, Z.of_nat n, r') /\
    dst = take M cs ++ 0 :: drop (S n) [7; 7; 7; 7; 7] /\
    dst !! n = Some 0 /\
    ret = negb (bf_read.m_bOverflow r') && (length cs <=? M)%nat /\
    ((M < length cs)%nat -> ret = false) /\
    (length cs = M -> bf_read.m_bOverflow r' = false -> ret = true).
Proof.
  intros w r.
  apply (ReadString_result 129 r [7; 7; 7; 7; 7] 4 false); [simpl; lia | vm_compute; lia].
Defined.

Example ReadString_exact_fit :
  let w := snd (bf_write.WriteString (bf_write.create (zero_buffer 4) 16 (-1))
                  (Some [97; 98; 99])) in
  fst <$> bf_read.ReadString 129 (reader_of w 0) [7; 7; 7; 7; 7] 4 false
    = Some (true, [97; 98; 99; 0; 7], 3) /\
  fst <$> bf_read.ReadString 129 (reader_of w 0) [7; 7; 7; 7; 7] 3 false
    = Some (false, [97; 98; 0; 7; 7], 2).
Proof. split; reflexivity. Qed.

(** ** Single bits *)

Lemma pow2_testbit (s k : Z) : 0 <= s -> 0 <= k -> Z.testbit (Z.shiftl 1 s) k = (k =? s).
Proof.
  intros Hs Hk. rewrite Z.shiftl_1_l. rewrite Z.pow2_bits_eqb by lia.
  apply Z.eqb_sym.
Qed.

Section WriteOneBit.
Import bf_write.
Variables (w : t) (v : Z).
Hypothesis Hcur : 0 <= m_iCurBit w.
Hypothesis Hfit : m_iCurBit w + 1 <= m_nDataBits w.

Lemma WriteOneBit_cur : m_iCurBit (WriteOneBit w v) = m_iCurBit w + 1.
Proof.
  unfold WriteOneBit.
  destruct (Z.geb_spec (m_iCurBit w) (m_nDataBits w)); [lia|]. reflexivity.
Qed.

Lemma WriteOneBit_overflow : m_bOverflow (WriteOneBit w v) = m_bOverflow w.
Proof.
  unfold WriteOneBit.
  destruct (Z.geb_spec (m_iCurBit w) (m_nDataBits w)); [lia|]. reflexivity.
Qed.

Lemma WriteOneBit_nDataBits : m_nDataBits (WriteOneBit w v) = m_nDataBits w.
Proof. unfold WriteOneBit. destruct (_ >=? _); reflexivity. Qed.

Lemma WriteOneBit_length : length (m_pData (WriteOneBit w v)) = length (m_pData w).
Proof.
  unfold WriteOneBit. destruct (_ >=? _); [reflexivity|]. simpl. apply length_Store.
Qed.

Lemma WriteOneBit_wf : wf_buffer (m_pData w) -> wf_buffer (m_pData (WriteOneBit w v)).
Proof.
  intros Hwf. unfold WriteOneBit. destruct (_ >=? _); [exact Hwf|]. simpl.
  assert (Hs : 0 <= Z.land (m_iCurBit w) 31 < 32)
    by (rewrite land31; apply Z.mod_pos_bound; lia).
  apply wf_Store; [exact Hwf|]. destruct (truthy v).
  - apply lor_range; [apply wf_Load, Hwf|].
    rewrite Z.shiftl_1_l. split; [apply Z.pow_nonneg; lia|].
    apply Z.pow_lt_mono_r; lia.
  - apply land_range, u32_range.
Qed.

Hypothesis Hlen : m_iCurBit w + 1 <= 32 * Z.of_nat (length (m_pData w)).

Lemma WriteOneBit_bit_at (i : Z) :
  0 <= i ->
  bit_at (m_pData (WriteOneBit w v)) i
  = if i =? m_iCurBit w then truthy v else bit_at (m_pData w) i.
Proof.
  intros Hi. unfold WriteOneBit.
  destruct (Z.geb_spec (m_iCurBit w) (m_nDataBits w)); [lia|]. simpl.
  rewrite shiftr5, land31.
  set (c := m_iCurBit w) in *. set (d := m_pData w) in *.
  pose proof (Z.div_mod c 32 ltac:(lia)) as Hc.
  pose proof (Z.mod_pos_bound c 32 ltac:(lia)) as Hs.
  pose proof (Z.div_mod i 32 ltac:(lia)) as Hi'.
  pose proof (Z.mod_pos_bound i 32 ltac:(lia)) as Hk.
  unfold bit_at.
  destruct (Z.eq_dec (i / 32) (c / 32)) as [E|E].
  - rewrite E, Load_Store_eq by lia.
    destruct (truthy v).
    + rewrite Z.lor_spec, pow2_testbit by lia.
      destruct (Z.eqb_spec (i mod 32) (c mod 32)), (Z.eqb_spec i c); try lia; btauto.
    + rewrite Z.land_spec, u32_testbit, Z.lnot_spec, pow2_testbit by lia.
      destruct (Z.eqb_spec (i mod 32) (c mod 32)), (Z.eqb_spec i c),
        (Z.ltb_spec (i mod 32) 32); try lia; btauto.
  - rewrite Load_Store_ne by lia.
    destruct (Z.eqb_spec i c); [subst i; lia | reflexivity].
Qed.
End WriteOneBit.

(** ** Fields in the stream

    A read returns [v] when the stream bits from the cursor are the bits
    of [v]. *)

Section Fields.

Lemma ReadUBitLong_field (r : bf_read.t) (n v : Z) :
  wf_buffer (bf_read.m_pData r) -> 0 <= bf_read.m_iCurBit r -> 1 <= n <= 32 ->
  bf_read.m_iCurBit r + n <= bf_read.m_nDataBits r ->
  0 <= v < 2 ^ n ->
  (forall j, 0 <= j < n ->
             bit_at (bf_read.m_pData r) (bf_read.m_iCurBit r + j) = Z.testbit v j) ->
  bf_read.ReadUBitLong r n = (v, bf_read.with_cur r (bf_read.m_iCurBit r + n)).
Proof.
  intros Hwf Hcur Hn Hfit Hv Hf.
  rewrite (surjective_pairing (bf_read.ReadUBitLong r n)).
  rewrite ReadUBitLong_state by assumption. f_equal.
  apply Z.bits_inj'. intros j Hj. rewrite ReadUBitLong_testbit by assumption.
  destruct (Z.ltb_spec j n); simpl.
  - apply Hf. lia.
  - symmetry. apply (bits_of_range v n); lia.
Qed.

Lemma ReadOneBit_field (r : bf_read.t) (b : bool) :
  bf_read.m_iCurBit r + 1 <= bf_read.m_nDataBits r ->
  bit_at (bf_read.m_pData r) (bf_read.m_iCurBit r) = b ->
  bf_read.ReadOneBit r = (b2z b, bf_read.with_cur r (bf_read.m_iCurBit r + 1)).
Proof. intros Hfit <-. apply ReadOneBit_in_range. lia. Qed.
End Fields.

(** ** Sequences of writes *)

Section WriteSteps.
Import bf_write.

(** A writer in good order for capacity [D]: words in range, cursor not
    negative, the declared bits inside the buffer. *)
Let good (w : t) (D : Z) : Prop :=
  wf_buffer (m_pData w) /\ 0 <= m_iCurBit w /\ m_nDataBits w = D /\
  D <= 32 * Z.of_nat (length (m_pData w)).

Lemma WriteOneBit_step (w : t) (v c D : Z) :
  good w D -> m_iCurBit w = c -> c + 1 <= D ->
  good (WriteOneBit w v) D /\
  m_iCurBit (WriteOneBit w v) = c + 1 /\
  m_bOverflow (WriteOneBit w v) = m_bOverflow w /\
  (forall i, 0 <= i ->
     bit_at (m_pData (WriteOneBit w v)) i
     = if i =? c then truthy v else bit_at (m_pData w) i).
Proof.
  intros (Hwf & Hcur & HD & Hlen) Hc Hfit. subst c D.
  repeat split.
  - apply WriteOneBit_wf; auto; lia.
  - rewrite WriteOneBit_cur; lia.
  - apply WriteOneBit_nDataBits.
  - rewrite WriteOneBit_length. lia.
  - apply WriteOneBit_cur; lia.
  - apply WriteOneBit_overflow; lia.
  - intros i Hi. apply WriteOneBit_bit_at; lia.
Qed.

Lemma WriteUBitLong_step (w : t) (v n c D : Z) :
  good w D -> m_iCurBit w = c -> 0 <= n <= 32 -> c + n <= D ->
  good (WriteUBitLong w v n) D /\
  m_iCurBit (WriteUBitLong w v n) = c + n /\
  m_bOverflow (WriteUBitLong w v n) = m_bOverflow w /\
  (forall i, 0 <= i ->
     bit_at (m_pData (WriteUBitLong w v n)) i
     = if (c <=? i) && (i <? c + n) then Z.testbit v (i - c) else bit_at (m_pData w) i).
Proof.
  intros (Hwf & Hcur & HD & Hlen) Hc Hn Hfit. subst c D.
  repeat split.
  - apply WriteUBitLong_wf; auto; lia.
  - rewrite WriteUBitLong_cur; lia.
  - apply WriteUBitLong_nDataBits.
  - rewrite WriteUBitLong_length. lia.
  - apply WriteUBitLong_cur; lia.
  - apply WriteUBitLong_overflow; lia.
  - intros i Hi. apply WriteUBitLong_bit_at; lia.
Qed.

(** The reader over a writer in good order. *)
Lemma reader_of_good (w : t) (D p : Z) :
  good w D -> 0 <= p -> 0 <= D ->
  wf_buffer (bf_read.m_pData (reader_of w p)) /\
  bf_read.m_pData (reader_of w p) = m_pData w /\
  bf_read.m_iCurBit (reader_of w p) = p /\
  bf_read.m_nDataBits (reader_of w p) = D.
Proof.
  intros (Hwf & Hcur & HD & Hlen) Hp HD0. unfold reader_of, bf_read.StartReading. simpl.
  repeat split; auto.
  destruct (Z.eqb_spec (m_nDataBits w) (-1)); lia.
Qed.

Lemma with_cur_same (r : bf_read.t) : bf_read.with_cur r (bf_read.m_iCurBit r) = r.
Proof. destruct r. reflexivity. Qed.

Lemma ReadOneBit_at (r0 : bf_read.t) (p : Z) (b : bool) :
  p + 1 <= bf_read.m_nDataBits r0 ->
  bit_at (bf_read.m_pData r0) p = b ->
  bf_read.ReadOneBit (bf_read.with_cur r0 p) = (b2z b, bf_read.with_cur r0 (p + 1)).
Proof.
  intros Hfit Hb.
  rewrite (ReadOneBit_field (bf_read.with_cur r0 p) b) by (simpl; auto; lia).
  reflexivity.
Qed.

Lemma ReadUBitLong_at (r0 : bf_read.t) (p n v : Z) :
  wf_buffer (bf_read.m_pData r0) -> 0 <= p -> 1 <= n <= 32 ->
  p + n <= bf_read.m_nDataBits r0 -> 0 <= v < 2 ^ n ->
  (forall j, 0 <= j < n -> bit_at (bf_read.m_pData r0) (p + j) = Z.testbit v j) ->
  bf_read.ReadUBitLong (bf_read.with_cur r0 p) n = (v, bf_read.with_cur r0 (p + n)).
Proof.
  intros Hwf Hp Hn Hfit Hv Hb.
  rewrite (ReadUBitLong_field (bf_read.with_cur r0 p) n v) by (simpl; auto; lia).
  reflexivity.
Qed.

(** ** Coordinates: the fields read are the fields written *)

Variables (w : t) (f : spec_float).
Let signBit : Z := b2z (SFleb f (SFopp COORD_RESOLUTION)).
Let intVal : Z := int_of_f32 (SFabs f).
Let fractVal : Z :=
  Z.land (c_abs (int_of_f32 (f32_mul f (f32_of_int COORD_DENOMINATOR))))
         (COORD_DENOMINATOR - 1).

Hypothesis Hwf : wf_buffer (m_pData w).
Hypothesis Hcur : 0 <= m_iCurBit w.
Hypothesis Hfit : m_iCurBit w + 22 <= m_nDataBits w.
Hypothesis Hlen : m_nDataBits w <= 32 * Z.of_nat (length (m_pData w)).
Hypothesis HintVal : 0 <= intVal <= 2 ^ 14.

Lemma fractVal_range : 0 <= fractVal < 32.
Proof.
  unfold fractVal. change (COORD_DENOMINATOR - 1) with (Z.ones 5).
  rewrite Z.land_ones by lia. apply Z.mod_pos_bound. lia.
Qed.

Lemma b2z_truthy (b : bool) : truthy (b2z b) = b.
Proof. destruct b; reflexivity. Qed.

Lemma WriteBitCoord_ReadBitCoord :
  fst (bf_read.ReadBitCoord (reader_of (WriteBitCoord w f) (m_iCurBit w)))
  = if truthy intVal || truthy fractVal then
      let value := f32_add (f32_of_int intVal)
                           (f32_mul (f32_of_int fractVal) COORD_RESOLUTION) in
      if truthy signBit then SFopp value else value
    else f32_zero.
Proof.
  pose proof fractVal_range as Hfr.
  set (c := m_iCurBit w). set (D := m_nDataBits w).
  assert (G0 : good w D) by (unfold good; repeat split; auto; lia).
  unfold WriteBitCoord. fold signBit intVal fractVal.
  destruct (WriteOneBit_step w intVal c D G0 eq_refl ltac:(lia)) as (G1 & C1 & _ & B1).
  set (w1 := WriteOneBit w intVal) in *.
  destruct (WriteOneBit_step w1 fractVal (c + 1) D G1 ltac:(lia) ltac:(lia)) as (G2 & C2 & _ & B2).
  set (w2 := WriteOneBit w1 fractVal) in *.
  destruct (truthy intVal || truthy fractVal) eqn:Hany.
  2:{ (* two flag bits, both clear *)
    apply orb_false_iff in Hany. destruct Hany as [Hi0 Hf0].
    destruct (reader_of_good w2 D c G2 ltac:(lia) ltac:(lia)) as (Rwf & Rd & Rc & RD).
    unfold bf_read.ReadBitCoord.
    rewrite <- (with_cur_same (reader_of w2 c)), Rc.
    rewrite (ReadOneBit_at (reader_of w2 c) c false)
      by (rewrite ?RD, ?Rd, ?B2, ?B1 by lia; try lia;
          replace (c =? c + 1) with false by lia; replace (c =? c) with true by lia; exact Hi0).
    rewrite (ReadOneBit_at (reader_of w2 c) (c + 1) false)
      by (rewrite ?RD, ?Rd, ?B2 by lia; try lia;
          replace (c + 1 =? c + 1) with true by lia; exact Hf0).
    reflexivity. }
  destruct (WriteOneBit_step w2 signBit (c + 2) D G2 ltac:(lia) ltac:(lia)) as (G3 & C3 & _ & B3).
  set (w3 := WriteOneBit w2 signBit) in *.
  set (ni := if truthy intVal then 14 else 0).
  set (w4 := if truthy intVal then WriteUBitLong w3 (u32 (i32 (intVal - 1))) COORD_INTEGER_BITS
             else w3).
  assert (S4 : good w4 D /\ m_iCurBit w4 = c + 3 + ni /\
               forall i, 0 <= i ->
                 bit_at (m_pData w4) i
                 = if (c + 3 <=? i) && (i <? c + 3 + ni)
                   then Z.testbit (intVal - 1) (i - (c + 3)) else bit_at (m_pData w3) i).
  { unfold w4, ni. destruct (truthy intVal) eqn:Hi.
    - destruct (WriteUBitLong_step w3 (u32 (i32 (intVal - 1))) COORD_INTEGER_BITS (c + 3) D
                  G3 ltac:(lia) ltac:(unfold COORD_INTEGER_BITS; lia)
                  ltac:(unfold COORD_INTEGER_BITS; lia)) as (G4 & C4 & _ & B4).
      split; [exact G4|]. split; [exact C4|]. intros i Hi'. rewrite B4 by lia.
      unfold COORD_INTEGER_BITS.
      assert (Hnz : intVal <> 0) by (unfold truthy in Hi; lia).
      replace (u32 (i32 (intVal - 1))) with (intVal - 1); [reflexivity|].
      unfold u32, i32. rewrite (Z.mod_small (intVal - 1 + 2 ^ 31)) by lia.
      rewrite Z.mod_small; lia.
    - split; [exact G3|]. split; [lia|]. intros i Hi'.
      replace ((c + 3 <=? i) && (i <? c + 3 + 0)) with false by lia. reflexivity. }
  destruct S4 as (G4 & C4 & B4).
  set (nf := if truthy fractVal then 5 else 0).
  set (w5 := if truthy fractVal then WriteUBitLong w4 (u32 fractVal) COORD_FRACTIONAL_BITS
             else w4).
  assert (S5 : good w5 D /\
               forall i, 0 <= i ->
                 bit_at (m_pData w5) i
                 = if (c + 3 + ni <=? i) && (i <? c + 3 + ni + nf)
                   then Z.testbit fractVal (i - (c + 3 + ni)) else bit_at (m_pData w4) i).
  { assert (Hni : 0 <= ni <= 14) by (unfold ni; destruct (truthy intVal); lia).
    unfold w5, nf. destruct (truthy fractVal) eqn:Hf.
    - destruct (WriteUBitLong_step w4 (u32 fractVal) COORD_FRACTIONAL_BITS (c + 3 + ni) D
                  G4 ltac:(lia) ltac:(unfold COORD_FRACTIONAL_BITS; lia)
                  ltac:(unfold COORD_FRACTIONAL_BITS; lia)) as (G5 & C5 & _ & B5).
      split; [exact G5|]. intros i Hi'. rewrite B5 by lia.
      unfold COORD_FRACTIONAL_BITS. unfold u32. rewrite Z.mod_small by lia. reflexivity.
    - split; [exact G4|]. intros i Hi'.
      replace ((c + 3 + ni <=? i) && (i <? c + 3 + ni + 0)) with false by lia. reflexivity. }
  destruct S5 as (G5 & B5).
  assert (Hni : 0 <= ni <= 14) by (unfold ni; destruct (truthy intVal); lia).
  assert (Hnf : 0 <= nf <= 5) by (unfold nf; destruct (truthy fractVal); lia).
  (* the bits of the finished stream *)
  assert (Bflag1 : bit_at (m_pData w5) c = truthy intVal).
  { rewrite B5, B4, B3, B2, B1 by lia.
    replace ((c + 3 + ni <=? c) && (c <? c + 3 + ni + nf)) with false by lia.
    replace ((c + 3 <=? c) && (c <? c + 3 + ni)) with false by lia.
    replace (c =? c + 2) with false by lia. replace (c =? c + 1) with false by lia.
    replace (c =? c) with true by lia. reflexivity. }
  assert (Bflag2 : bit_at (m_pData w5) (c + 1) = truthy fractVal).
  { rewrite B5, B4, B3, B2 by lia.
    replace ((c + 3 + ni <=? c + 1) && (c + 1 <? c + 3 + ni + nf)) with false by lia.
    replace ((c + 3 <=? c + 1) && (c + 1 <? c + 3 + ni)) with false by lia.
    replace (c + 1 =? c + 2) with false by lia.
    replace (c + 1 =? c + 1) with true by lia. reflexivity. }
  assert (Bsign : bit_at (m_pData w5) (c + 2) = truthy signBit).
  { rewrite B5, B4, B3 by lia.
    replace ((c + 3 + ni <=? c + 2) && (c + 2 <? c + 3 + ni + nf)) with false by lia.
    replace ((c + 3 <=? c + 2) && (c + 2 <? c + 3 + ni)) with false by lia.
    replace (c + 2 =? c + 2) with true by lia. reflexivity. }
  assert (Bint : forall j, 0 <= j < ni ->
                   bit_at (m_pData w5) (c + 3 + j) = Z.testbit (intVal - 1) j).
  { intros j Hj. rewrite B5, B4 by lia.
    replace ((c + 3 + ni <=? c + 3 + j) && (c + 3 + j <? c + 3 + ni + nf)) with false by lia.
    replace ((c + 3 <=? c + 3 + j) && (c + 3 + j <? c + 3 + ni)) with true by lia.
    f_equal. lia. }
  assert (Bfrac : forall j, 0 <= j < nf ->
                    bit_at (m_pData w5) (c + 3 + ni + j) = Z.testbit fractVal j).
  { intros j Hj. rewrite B5 by lia.
    replace ((c + 3 + ni <=? c + 3 + ni + j) && (c + 3 + ni + j <? c + 3 + ni + nf))
      with true by lia.
    f_equal. lia. }
  (* reading them back *)
  destruct (reader_of_good w5 D c G5 ltac:(lia) ltac:(lia)) as (Rwf & Rd & Rc & RD).
  fold w3 w4 w5.
  unfold bf_read.ReadBitCoord.
  set (r0 := reader_of w5 c) in *.
  rewrite <- (with_cur_same r0), Rc.
  rewrite (ReadOneBit_at r0 c (truthy intVal)) by (rewrite ?RD, ?Rd; auto; lia).
  rewrite (ReadOneBit_at r0 (c + 1) (truthy fractVal)) by (rewrite ?RD, ?Rd; auto; lia).
  rewrite !b2z_truthy, Hany.
  rewrite (ReadOneBit_at r0 (c + 1 + 1) (truthy signBit))
    by (rewrite ?RD, ?Rd; try lia; replace (c + 1 + 1) with (c + 2) by lia; exact Bsign).
  rewrite b2z_truthy.
  assert (E4 :
    (if truthy intVal
     then let '(v, r) := bf_read.ReadUBitLong (bf_read.with_cur r0 (c + 1 + 1 + 1))
                           COORD_INTEGER_BITS in (i32 (v + 1), r)
     else (b2z (truthy intVal), bf_read.with_cur r0 (c + 1 + 1 + 1)))
    = (intVal, bf_read.with_cur r0 (c + 3 + ni))).
  { unfold ni in *. destruct (truthy intVal) eqn:Hi.
    - assert (Hnz : intVal <> 0) by (unfold truthy in Hi; lia).
      rewrite (ReadUBitLong_at r0 (c + 1 + 1 + 1) COORD_INTEGER_BITS (intVal - 1))
        by (unfold COORD_INTEGER_BITS; rewrite ?RD, ?Rd; auto; try lia;
            intros j Hj; replace (c + 1 + 1 + 1 + j) with (c + 3 + j) by lia;
            apply Bint; lia).
      f_equal.
      + unfold i32. replace (intVal - 1 + 1 + 2 ^ 31) with (intVal + 2 ^ 31) by lia.
        rewrite Z.mod_small; lia.
      + f_equal. unfold COORD_INTEGER_BITS. lia.
    - assert (intVal = 0) by (unfold truthy in Hi; lia).
      f_equal; [simpl; lia | f_equal; lia]. }
  rewrite E4.
  assert (E5 : exists r5,
    (if truthy fractVal
     then let '(v, r) := bf_read.ReadUBitLong (bf_read.with_cur r0 (c + 3 + ni))
                           COORD_FRACTIONAL_BITS in (i32 v, r)
     else (b2z (truthy fractVal), bf_read.with_cur r0 (c + 3 + ni))) = (fractVal, r5)).
  { unfold nf in *. destruct (truthy fractVal) eqn:Hf.
    - rewrite (ReadUBitLong_at r0 (c + 3 + ni) COORD_FRACTIONAL_BITS fractVal)
        by (unfold COORD_FRACTIONAL_BITS; rewrite ?RD, ?Rd; auto; try lia;
            intros j Hj; apply Bfrac; lia).
      eexists. f_equal. unfold i32. rewrite Z.mod_small; lia.
    - eexists. assert (fractVal = 0) by (unfold truthy in Hf; lia).
      simpl. f_equal. lia. }
  destruct E5 as (r5 & E5). rewrite E5.
  cbv zeta. destruct (truthy signBit); reflexivity.
Qed.
End WriteSteps.

(** C9.  For every representative coordinate, written by [WriteBitCoord]
    at any cursor of any buffer with room for the 22 bits of the longest
    encoding and read back by [ReadBitCoord] at the same offset, the value
    read is within one fractional step (1/32) of the value written; 0.0
    reads back as 0.0 exactly. *)
Theorem BitCoord_roundtrip (w : bf_write.t) (f : spec_float) :
  wf_buffer (bf_write.m_pData w) ->
  0 <= bf_write.m_iCurBit w ->
  bf_write.m_iCurBit w + 22 <= bf_write.m_nDataBits w ->
  bf_write.m_nDataBits w <= 32 * Z.of_nat (length (bf_write.m_pData w)) ->
  In f representative_coords ->
  let f' := fst (bf_read.ReadBitCoord
                   (reader_of (bf_write.WriteBitCoord w f) (bf_write.m_iCurBit w))) in
  within_step f' f = true /\ (f = S754_zero false -> f' = S754_zero false).
Proof.
  intros Hwf Hcur Hfit Hlen Hin f'. subst f'.
  simpl in Hin.
  repeat (destruct Hin as [<-|Hin];
          [rewrite WriteBitCoord_ReadBitCoord by (auto; vm_compute; split; discriminate);
           vm_compute; split; [reflexivity | try reflexivity; intros; discriminate] |]).
  contradiction.
Qed.

Lemma BitCoord_roundtrip_witness :
  let w := bf_write.SeekToBit (bf_write.create [0xFFFFFFFF; 0xFFFFFFFF] 8 (-1)) 27 in
  let f := f32_lit (-25) (-1) in
  let f' := fst (bf_read.ReadBitCoord (reader_of (bf_write.WriteBitCoord w f) 27)) in
  within_step f' f = true /\ (f = S754_zero false -> f' = S754_zero false).
Proof.
  intros w f.
  apply (BitCoord_roundtrip w f).
  - repeat constructor; lia.
  - simpl. lia.
  - vm_compute. discriminate.
  - vm_compute. discriminate.
  - unfold f, representative_coords. simpl. auto.
Defined.

(** ** Normals *)

Lemma SFcompare_antisym (x y : spec_float) :
  SFcompare y x = option_map CompOpp (SFcompare x y).
Proof.
  destruct x as [sx|sx| |sx mx ex], y as [sy|sy| |sy my ey]; simpl;
    try reflexivity;
    try (destruct sx; reflexivity); try (destruct sy; reflexivity);
    try (destruct sx, sy; reflexivity).
  destruct sx, sy; simpl; try reflexivity.
  - rewrite (Z.compare_antisym ex ey).
    destruct (ex ?= ey)%Z; simpl; try reflexivity.
    rewrite (Pos.compare_cont_antisym mx my Eq). reflexivity.
  - rewrite (Z.compare_antisym ex ey).
    destruct (ex ?= ey)%Z; simpl; try reflexivity.
    rewrite (Pos.compare_cont_antisym mx my Eq). reflexivity.
Qed.

Lemma SFleb_not_ltb (x y : spec_float) : SFleb x y = true -> SFltb y x = false.
Proof.
  unfold SFleb, SFltb. rewrite (SFcompare_antisym x y).
  destruct (SFcompare x y) as [[| |]|]; simpl; intros H; try reflexivity; discriminate.
Qed.

(** C8.  [ReadBitVec3Normal] reads x and y (each behind its presence flag)
    and one more bit, the sign of z; z itself is computed.  With
    [sumSq = x*x + y*y] in binary32: when [sumSq < 1], z is
    [sqrt(1 - sumSq)], negated when the sign bit is set; otherwise, and so
    whenever [1 <= sumSq], z is the zero of that sign. *)
Theorem ReadBitVec3Normal_z (NORMAL_FRACTIONAL_BITS : Z) (NORMAL_RESOLUTION : spec_float)
    (r : bf_read.t) :
  let ReadBitNormal := bf_read.ReadBitNormal NORMAL_FRACTIONAL_BITS NORMAL_RESOLUTION in
  let r1 := snd (bf_read.ReadOneBit r) in
  let r2 := snd (bf_read.ReadOneBit r1) in
  let xr := if truthy (fst (bf_read.ReadOneBit r)) then ReadBitNormal r2 else (f32_zero, r2) in
  let yr := if truthy (fst (bf_read.ReadOneBit r1)) then ReadBitNormal (snd xr)
            else (f32_zero, snd xr) in
  let x := fst xr in
  let y := fst yr in
  let zNegative := truthy (fst (bf_read.ReadOneBit (snd yr))) in
  let sumSq := f32_add (f32_mul x x) (f32_mul y y) in
  exists z,
    bf_read.ReadBitVec3Normal NORMAL_FRACTIONAL_BITS NORMAL_RESOLUTION r
    = ((x, y, z), snd (bf_read.ReadOneBit (snd yr))) /\
    (SFltb sumSq f32_one = true ->
     z = if zNegative then SFopp (f32_sqrt (f32_sub f32_one sumSq))
         else f32_sqrt (f32_sub f32_one sumSq)) /\
    (SFltb sumSq f32_one = false -> z = S754_zero zNegative) /\
    (SFleb f32_one sumSq = true -> z = S754_zero zNegative).
Proof.
  intros RBN r1 r2 xr yr x y zNegative sumSq.
  unfold bf_read.ReadBitVec3Normal.
  rewrite (surjective_pairing (bf_read.ReadOneBit r)). fold r1.
  rewrite (surjective_pairing (bf_read.ReadOneBit r1)). fold r2.
  fold RBN. fold xr. rewrite (surjective_pairing xr). fold x.
  fold yr. rewrite (surjective_pairing yr). fold y.
  rewrite (surjective_pairing (bf_read.ReadOneBit (snd yr))). fold zNegative.
  fold sumSq.
  eexists. split; [reflexivity|].
  assert (Hlt : SFltb sumSq f32_one = false ->
                (if zNegative then SFopp (if SFltb sumSq f32_one
                                          then f32_sqrt (f32_sub f32_one sumSq) else f32_zero)
                 else if SFltb sumSq f32_one
                      then f32_sqrt (f32_sub f32_one sumSq) else f32_zero)
                = S754_zero zNegative).
  { intros ->. destruct zNegative; reflexivity. }
  split; [|split].
  - intros ->. reflexivity.
  - exact Hlt.
  - intros Hle. apply Hlt, SFleb_not_ltb, Hle.
Qed.

Lemma ReadBitVec3Normal_z_witness :
  let res := f64_div f64_one (f64_of_int 2047) in
  (* no x, no y, sign set: z = -1 *)
  fst (bf_read.ReadBitVec3Normal 11 res (bf_read.create [0x4] 4 (-1)))
    = (f32_zero, f32_zero, SFopp f32_one) /\
  (* x = y = 2047/2047, sign set: the sum of squares is above 1, z = -0 *)
  snd (fst (bf_read.ReadBitVec3Normal 11 res (bf_read.create [0xFFFFFFFF] 4 (-1))))
    = S754_zero true.
Proof.
  intros res. split.
  - destruct (ReadBitVec3Normal_z 11 res (bf_read.create [0x4] 4 (-1)))
      as (z & E & Hlt & _ & _).
    rewrite E. rewrite (Hlt ltac:(vm_compute; reflexivity)). vm_compute. reflexivity.
  - destruct (ReadBitVec3Normal_z 11 res (bf_read.create [0xFFFFFFFF] 4 (-1)))
      as (z & E & _ & _ & Hge).
    rewrite E. rewrite (Hge ltac:(vm_compute; reflexivity)). vm_compute. reflexivity.
Defined.

(** ** Varints: length *)

Lemma varint_len_small (v : Z) : 0 <= v <= 0x7F -> varint_len v = 1.
Proof.
  intros Hv. unfold varint_len, bits_needed.
  destruct (Z.eqb_spec v 0) as [->|Hne]; [reflexivity|].
  assert (Z.log2 v < 7) by (apply Z.log2_lt_pow2; lia).
  pose proof (Z.log2_nonneg v).
  assert ((Z.log2 v + 1 + 6) / 7 = 1)
    by (symmetry; apply (Z.div_unique _ _ _ (Z.log2 v)); lia).
  lia.
Qed.

Lemma varint_len_step (v : Z) :
  0x7F < v -> varint_len v = 1 + varint_len (Z.shiftr v 7).
Proof.
  intros Hv. unfold varint_len, bits_needed.
  assert (H7 : 7 <= Z.log2 v) by (apply Z.log2_le_pow2; lia).
  assert (Hs : Z.shiftr v 7 <> 0).
  { rewrite Z.shiftr_div_pow2 by lia. change (2 ^ 7) with 128.
    pose proof (Z.div_le_lower_bound v 128 1 ltac:(lia) ltac:(lia)). lia. }
  destruct (Z.eqb_spec v 0); [lia|]. destruct (Z.eqb_spec (Z.shiftr v 7) 0); [lia|].
  rewrite Z.log2_shiftr by lia.
  replace (Z.max 0 (Z.log2 v - 7)) with (Z.log2 v - 7) by lia.
  replace (Z.log2 v + 1 + 6) with (Z.log2 v - 7 + 1 + 6 + 1 * 7) by lia.
  rewrite Z.div_add by lia.
  pose proof (Z.div_le_lower_bound (Z.log2 v - 7 + 1 + 6) 7 1 ltac:(lia) ltac:(lia)). lia.
Qed.

Lemma varint_len_pos (v : Z) : 1 <= varint_len v.
Proof. unfold varint_len. lia. Qed.

Lemma varint_len_bound (v n : Z) :
  0 <= n -> 0 <= v < 2 ^ n -> varint_len v <= Z.max 1 ((n + 6) / 7).
Proof.
  intros Hn Hv. unfold varint_len, bits_needed.
  destruct (Z.eqb_spec v 0).
  - change ((0 + 6) / 7) with 0. lia.
  - assert (Z.log2 v < n) by (apply Z.log2_lt_pow2; lia).
    assert ((Z.log2 v + 1 + 6) / 7 <= (n + 6) / 7) by (apply Z.div_le_mono; lia).
    lia.
Qed.

Lemma varint_len_u32 (v : Z) : 0 <= v < 2 ^ 32 -> 1 <= varint_len v <= 5.
Proof.
  intros Hv. pose proof (varint_len_bound v 32 ltac:(lia) Hv).
  pose proof (varint_len_pos v). change ((32 + 6) / 7) with 5 in *. lia.
Qed.

Lemma varint_len_u64 (v : Z) : 0 <= v < 2 ^ 64 -> 1 <= varint_len v <= 10.
Proof.
  intros Hv. pose proof (varint_len_bound v 64 ltac:(lia) Hv).
  pose proof (varint_len_pos v). change ((64 + 6) / 7) with 10 in *. lia.
Qed.

Lemma shiftr7_nonneg (v : Z) : 0 <= v -> 0 <= Z.shiftr v 7.
Proof. intros. apply Z.shiftr_nonneg. lia. Qed.

(** [ByteSizeVarInt32] and [ByteSizeVarInt64] compute the length. *)
Lemma ByteSize_loop_len (fuel : nat) (size data : Z) :
  0 <= data -> varint_len data <= Z.of_nat fuel ->
  fst <$> bf_write.ByteSize_loop fuel size data = Some (size + varint_len data - 1).
Proof.
  revert size data. induction fuel as [|fuel IH]; intros size data Hd Hf.
  - pose proof (varint_len_pos data). lia.
  - unfold bf_write.ByteSize_loop in *. cbn [while].
    destruct (Z.gtb_spec data 0x7F) as [Hgt|Hle].
    + rewrite IH by (try apply shiftr7_nonneg; try rewrite varint_len_step in Hf; lia).
      rewrite (varint_len_step data) by lia. f_equal. lia.
    + rewrite varint_len_small by lia. simpl. f_equal. lia.
Qed.

Lemma ByteSizeVarInt32_len (fuel : nat) (data : Z) :
  0 <= data < 2 ^ 32 -> (5 <= fuel)%nat ->
  bf_write.ByteSizeVarInt32 fuel data = Some (varint_len data).
Proof.
  intros Hd Hf. unfold bf_write.ByteSizeVarInt32.
  pose proof (ByteSize_loop_len fuel 1 data ltac:(lia)
                ltac:(pose proof (varint_len_u32 data Hd); lia)) as H.
  destruct (bf_write.ByteSize_loop fuel 1 data) as [[s d]|]; [|discriminate].
  simpl in *. injection H as ->. f_equal. lia.
Qed.

Lemma ByteSizeVarInt64_len (fuel : nat) (data : Z) :
  0 <= data < 2 ^ 64 -> (10 <= fuel)%nat ->
  bf_write.ByteSizeVarInt64 fuel data = Some (varint_len data).
Proof.
  intros Hd Hf. unfold bf_write.ByteSizeVarInt64.
  pose proof (ByteSize_loop_len fuel 1 data ltac:(lia)
                ltac:(pose proof (varint_len_u64 data Hd); lia)) as H.
  destruct (bf_write.ByteSize_loop fuel 1 data) as [[s d]|]; [|discriminate].
  simpl in *. injection H as ->. f_equal. lia.
Qed.

(** ** Varints: decoding an encoded stream *)

Lemma varint_byte_testbit (v size k j : Z) :
  0 <= k -> 0 <= j ->
  Z.testbit (varint_byte v size k) j
  = if j <? 7 then Z.testbit v (7 * k + j) else (j =? 7) && (k <? size - 1).
Proof.
  intros Hk Hj. unfold varint_byte.
  rewrite Z.lor_spec, Z.land_spec, Z.shiftr_spec by lia.
  change 0x7F with (Z.ones 7). rewrite ones_testbit by lia.
  destruct (Z.ltb_spec j 7).
  - replace (j + 7 * k) with (7 * k + j) by lia.
    destruct (k <? size - 1).
    + change 0x80 with (Z.shiftl 1 7). rewrite pow2_testbit by lia.
      replace (j =? 7) with false by lia. btauto.
    + rewrite Z.bits_0. btauto.
  - destruct (k <? size - 1).
    + change 0x80 with (Z.shiftl 1 7). rewrite pow2_testbit by lia. btauto.
    + rewrite Z.bits_0. btauto.
Qed.

Lemma varint_byte_range (v size k : Z) : 0 <= k -> 0 <= varint_byte v size k < 2 ^ 8.
Proof.
  intros Hk. apply range_of_bits; [lia|]. intros j Hj.
  rewrite varint_byte_testbit by lia.
  destruct (Z.ltb_spec j 7), (Z.ltb_spec j 8), (Z.eqb_spec j 7); try lia; btauto.
Qed.

Lemma varint_byte_continues (v size k : Z) :
  0 <= k -> continues (varint_byte v size k) = (k <? size - 1).
Proof.
  intros Hk. unfold continues, truthy.
  assert (E : Z.land (varint_byte v size k) 0x80 = if k <? size - 1 then 0x80 else 0).
  { apply Z.bits_inj'. intros j Hj.
    rewrite Z.land_spec, varint_byte_testbit by lia.
    change 0x80 with (Z.shiftl 1 7) at 1. rewrite pow2_testbit by lia.
    destruct (k <? size - 1).
    - change 0x80 with (Z.shiftl 1 7). rewrite pow2_testbit by lia.
      destruct (Z.ltb_spec j 7), (Z.eqb_spec j 7); try lia; btauto.
    - rewrite Z.bits_0. destruct (Z.ltb_spec j 7), (Z.eqb_spec j 7); try lia; btauto. }
  rewrite E. destruct (k <? size - 1); reflexivity.
Qed.

Lemma varint_byte_payload (v size k : Z) :
  0 <= k -> Z.land (varint_byte v size k) 0x7F = Z.land (Z.shiftr v (7 * k)) 0x7F.
Proof.
  intros Hk. apply Z.bits_inj'. intros j Hj.
  rewrite !Z.land_spec, varint_byte_testbit, Z.shiftr_spec by lia.
  change 0x7F with (Z.ones 7). rewrite ones_testbit by lia.
  replace (j + 7 * k) with (7 * k + j) by lia.
  destruct (Z.ltb_spec j 7); btauto.
Qed.

Section Decode.
Import bf_read.
Variables (r0 : t) (v size : Z).
Hypothesis Hwf : wf_buffer (m_pData r0).
Hypothesis Hcur : 0 <= m_iCurBit r0.
Hypothesis Hsize : 1 <= size.
Hypothesis Hfit : m_iCurBit r0 + 8 * size <= m_nDataBits r0.
Hypothesis Hfields :
  forall k j, 0 <= k < size -> 0 <= j < 8 ->
    bit_at (m_pData r0) (m_iCurBit r0 + 8 * k + j) = Z.testbit (varint_byte v size k) j.

Lemma read_encoded_byte (k : Z) :
  0 <= k < size ->
  ReadUBitLong (with_cur r0 (m_iCurBit r0 + 8 * k)) 8
  = (varint_byte v size k, with_cur r0 (m_iCurBit r0 + 8 * k + 8)).
Proof.
  intros Hk. apply ReadUBitLong_at; try lia.
  - exact Hwf.
  - apply varint_byte_range. lia.
  - intros j Hj. apply Hfields; lia.
Qed.

Lemma after_bytes_encoded (k : nat) :
  Z.of_nat k <= size ->
  after_bytes k r0 = with_cur r0 (m_iCurBit r0 + 8 * Z.of_nat k) /\
  (Z.of_nat k < size -> byte_ahead k r0 = varint_byte v size (Z.of_nat k)).
Proof.
  induction k as [|k IH]; intros Hk.
  - assert (E : after_bytes 0 r0 = with_cur r0 (m_iCurBit r0 + 8 * Z.of_nat 0)).
    { replace (m_iCurBit r0 + 8 * Z.of_nat 0) with (m_iCurBit r0) by lia.
      symmetry. apply with_cur_same. }
    split; [exact E|]. intros Hlt. unfold byte_ahead.
    rewrite E, read_encoded_byte by lia. reflexivity.
  - destruct (IH ltac:(lia)) as [IH1 IH2].
    assert (E : after_bytes (S k) r0 = with_cur r0 (m_iCurBit r0 + 8 * Z.of_nat (S k))).
    { cbn [after_bytes]. rewrite IH1, read_encoded_byte by lia.
      cbn [snd]. f_equal. lia. }
    split; [exact E|]. intros Hlt. unfold byte_ahead.
    rewrite E, read_encoded_byte by lia. reflexivity.
Qed.

Lemma groups32_encoded (k : nat) :
  0 <= v < 2 ^ 32 -> Z.of_nat k <= size ->
  groups32 k r0 = Z.land v (Z.ones (7 * Z.of_nat k)).
Proof.
  intros Hv. induction k as [|k IH]; intros Hk.
  - simpl. rewrite Z.land_0_r. reflexivity.
  - cbn [groups32]. rewrite IH by lia.
    destruct (after_bytes_encoded k ltac:(lia)) as [_ ->]; [|lia].
    rewrite varint_byte_payload by lia.
    apply Z.bits_inj'. intros j Hj.
    rewrite Z.lor_spec, !Z.land_spec, u32_testbit, !ones_testbit by lia.
    destruct (Z.ltb_spec j (7 * Z.of_nat k)).
    + rewrite Z.shiftl_spec_low by lia.
      destruct (Z.ltb_spec j (7 * Z.of_nat (S k))); try lia. btauto.
    + rewrite Z.shiftl_spec, Z.land_spec, Z.shiftr_spec by lia.
      change 0x7F with (Z.ones 7). rewrite ones_testbit by lia.
      replace (j - 7 * Z.of_nat k + 7 * Z.of_nat k) with j by lia.
      destruct (Z.ltb_spec j 32).
      * destruct (Z.ltb_spec (j - 7 * Z.of_nat k) 7), (Z.ltb_spec j (7 * Z.of_nat (S k)));
          try lia; btauto.
      * rewrite (bits_of_range v 32 j) by lia. btauto.
Qed.

Lemma groups64_encoded (k : nat) :
  0 <= v < 2 ^ 64 -> Z.of_nat k <= size ->
  groups64 k r0 = Z.land v (Z.ones (7 * Z.of_nat k)).
Proof.
  intros Hv. induction k as [|k IH]; intros Hk.
  - simpl. rewrite Z.land_0_r. reflexivity.
  - cbn [groups64]. rewrite IH by lia.
    destruct (after_bytes_encoded k ltac:(lia)) as [_ ->]; [|lia].
    rewrite varint_byte_payload by lia.
    apply Z.bits_inj'. intros j Hj.
    rewrite Z.lor_spec, !Z.land_spec, !ones_testbit by lia.
    unfold u64.
    destruct (Z.ltb_spec j 64).
    + rewrite Z.mod_pow2_bits_low by lia.
      destruct (Z.ltb_spec j (7 * Z.of_nat k)).
      * rewrite Z.shiftl_spec_low by lia.
        destruct (Z.ltb_spec j (7 * Z.of_nat (S k))); try lia. btauto.
      * rewrite Z.shiftl_spec, Z.land_spec, Z.shiftr_spec by lia.
        change 0x7F with (Z.ones 7). rewrite ones_testbit by lia.
        replace (j - 7 * Z.of_nat k + 7 * Z.of_nat k) with j by lia.
        destruct (Z.ltb_spec (j - 7 * Z.of_nat k) 7), (Z.ltb_spec j (7 * Z.of_nat (S k)));
          try lia; btauto.
    + rewrite Z.mod_pow2_bits_high by lia.
      rewrite (bits_of_range v 64 j) by lia. btauto.
Qed.
End Decode.

Lemma varint_len_covers (v : Z) : 0 <= v -> v < 2 ^ (7 * varint_len v).
Proof.
  intros Hv. unfold varint_len, bits_needed.
  destruct (Z.eqb_spec v 0) as [->|Hne].
  - apply Z.pow_pos_nonneg; lia.
  - destruct (Z.log2_spec v ltac:(lia)) as [_ Hlt].
    eapply Z.lt_le_trans; [exact Hlt|].
    apply Z.pow_le_mono_r; [lia|].
    pose proof (Z.log2_nonneg v).
    pose proof (Z.div_mod (Z.log2 v + 1 + 6) 7 ltac:(lia)).
    pose proof (Z.mod_pos_bound (Z.log2 v + 1 + 6) 7 ltac:(lia)).
    replace (Z.succ (Z.log2 v)) with (Z.log2 v + 1) by lia. lia.
Qed.

Section DecodeVarInt.
Import bf_read.
Variables (r0 : t) (v : Z).
Hypothesis Hwf : wf_buffer (m_pData r0).
Hypothesis Hcur : 0 <= m_iCurBit r0.
Hypothesis Hv : 0 <= v.
Hypothesis Hfit : m_iCurBit r0 + 8 * varint_len v <= m_nDataBits r0.
Hypothesis Hfields :
  forall k j, 0 <= k < varint_len v -> 0 <= j < 8 ->
    bit_at (m_pData r0) (m_iCurBit r0 + 8 * k + j)
    = Z.testbit (varint_byte v (varint_len v) k) j.

Lemma land_ones_len : Z.land v (Z.ones (7 * varint_len v)) = v.
Proof.
  pose proof (varint_len_pos v). pose proof (varint_len_covers v Hv).
  rewrite Z.land_ones by lia. apply Z.mod_small. lia.
Qed.

(** The number of bytes a reader consumes from an encoded stream is the
    length of the encoding. *)
Lemma encoded_stop (k cap : nat) :
  varint_len v <= Z.of_nat cap ->
  (1 <= k <= cap)%nat ->
  (forall i, (i + 1 < k)%nat -> continues (byte_ahead i r0) = true) ->
  ((k < cap)%nat -> continues (byte_ahead (k - 1) r0) = false) ->
  Z.of_nat k = varint_len v.
Proof.
  intros Hcap Hk Hpre Hlast.
  pose proof (varint_len_pos v) as Hpos.
  destruct (Z.lt_trichotomy (Z.of_nat k) (varint_len v)) as [Hlt|[Heq|Hgt]]; [|exact Heq|].
  - exfalso. specialize (Hlast ltac:(lia)).
    destruct (after_bytes_encoded r0 v (varint_len v) Hwf Hcur Hpos Hfit Hfields (k - 1)%nat
                ltac:(lia)) as [_ E].
    rewrite E, varint_byte_continues in Hlast by lia.
    destruct (Z.ltb_spec (Z.of_nat (k - 1)) (varint_len v - 1)); [discriminate|lia].
  - exfalso. specialize (Hpre (Z.to_nat (varint_len v - 1)) ltac:(lia)).
    destruct (after_bytes_encoded r0 v (varint_len v) Hwf Hcur Hpos Hfit Hfields
                (Z.to_nat (varint_len v - 1)) ltac:(lia)) as [_ E].
    rewrite E, varint_byte_continues in Hpre by lia.
    destruct (Z.ltb_spec (Z.of_nat (Z.to_nat (varint_len v - 1))) (varint_len v - 1));
      [lia|discriminate].
Qed.

Lemma ReadVarInt32_encoded (extra : nat) :
  v < 2 ^ 32 ->
  ReadVarInt32 (6 + extra) r0
  = Some (v, with_cur r0 (m_iCurBit r0 + 8 * varint_len v)).
Proof.
  intros Hv32. pose proof (varint_len_u32 v ltac:(lia)) as Hlen.
  destruct (ReadVarInt32_loop_cap r0 5 0 (6 + extra) ltac:(lia) ltac:(lia) ltac:(lia))
    as (k & Hk & Hlt & E & Hpre & Hlast).
  assert (Hkv : Z.of_nat k = varint_len v).
  { apply (encoded_stop k 5); try lia; auto. intros ?. apply Hlast. lia. }
  unfold ReadVarInt32. cbn [groups32 after_bytes] in E. change (Z.of_nat 0) with 0 in E. rewrite E.
  destruct (after_bytes_encoded r0 v (varint_len v) Hwf Hcur ltac:(lia) Hfit Hfields k
              ltac:(lia)) as [-> _].
  rewrite (groups32_encoded r0 v (varint_len v)) by (auto; lia).
  rewrite Hkv, land_ones_len. reflexivity.
Qed.

Lemma ReadVarInt64_encoded (extra : nat) :
  v < 2 ^ 64 ->
  ReadVarInt64 (11 + extra) r0
  = Some (v, with_cur r0 (m_iCurBit r0 + 8 * varint_len v)).
Proof.
  intros Hv64. pose proof (varint_len_u64 v ltac:(lia)) as Hlen.
  destruct (ReadVarInt64_loop_cap r0 10 0 (11 + extra) ltac:(lia) ltac:(lia) ltac:(lia))
    as (k & Hk & Hlt & E & Hpre & Hlast).
  assert (Hkv : Z.of_nat k = varint_len v).
  { apply (encoded_stop k 10); try lia; auto. intros ?. apply Hlast. lia. }
  unfold ReadVarInt64. cbn [groups64 after_bytes] in E. change (Z.of_nat 0) with 0 in E. rewrite E.
  destruct (after_bytes_encoded r0 v (varint_len v) Hwf Hcur ltac:(lia) Hfit Hfields k
              ltac:(lia)) as [-> _].
  rewrite (groups64_encoded r0 v (varint_len v)) by (auto; lia).
  rewrite Hkv, land_ones_len. reflexivity.
Qed.
End DecodeVarInt.

(** ** Varints: the byte-at-a-time writer *)

Lemma continuing_byte (v size k j : Z) :
  0 <= k < size - 1 -> 0 <= j ->
  Z.testbit (Z.lor (Z.land (Z.shiftr v (7 * k)) 0x7F) 0x80) j
  = Z.testbit (varint_byte v size k) j.
Proof.
  intros Hk Hj. unfold varint_byte.
  replace (k <? size - 1) with true by lia. reflexivity.
Qed.

Lemma last_byte (v size : Z) :
  1 <= size -> 0 <= Z.shiftr v (7 * (size - 1)) <= 0x7F ->
  Z.land (Z.shiftr v (7 * (size - 1))) 0x7F = varint_byte v size (size - 1).
Proof.
  intros Hs Hd. unfold varint_byte.
  replace (size - 1 <? size - 1) with false by lia. rewrite Z.lor_0_r. reflexivity.
Qed.

Section VarintLoop.
Import bf_write.
Variables (v c D : Z).
Hypothesis Hv : 0 <= v.
Hypothesis Hc : 0 <= c.
Hypothesis Hfit : c + 8 * varint_len v <= D.

Let good (w : t) : Prop :=
  wf_buffer (m_pData w) /\ 0 <= m_iCurBit w /\ m_nDataBits w = D /\
  D <= 32 * Z.of_nat (length (m_pData w)).

Lemma varint_loop_encodes (fuel : nat) :
  forall (k0 : Z) (w : t),
    0 <= k0 ->
    varint_len (Z.shiftr v (7 * k0)) = varint_len v - k0 ->
    good w -> m_iCurBit w = c + 8 * k0 ->
    varint_len v - k0 <= Z.of_nat fuel ->
    exists w',
      varint_loop fuel w (Z.shiftr v (7 * k0))
        = Some (w', Z.shiftr v (7 * (varint_len v - 1))) /\
      0 <= Z.shiftr v (7 * (varint_len v - 1)) <= 0x7F /\
      good w' /\ m_iCurBit w' = c + 8 * (varint_len v - 1) /\
      m_bOverflow w' = m_bOverflow w /\
      forall i, 0 <= i ->
        bit_at (m_pData w') i
        = if (c + 8 * k0 <=? i) && (i <? c + 8 * (varint_len v - 1))
          then Z.testbit (varint_byte v (varint_len v) ((i - c) / 8)) ((i - c) mod 8)
          else bit_at (m_pData w) i.
Proof.
  unfold varint_loop.
  induction fuel as [|fuel IH]; intros k0 w Hk0 Hlen Hgood Hcur Hfuel.
  - pose proof (varint_len_pos (Z.shiftr v (7 * k0))). lia.
  - cbn [while].
    assert (Hd : 0 <= Z.shiftr v (7 * k0)) by (apply Z.shiftr_nonneg; lia).
    destruct (Z.gtb_spec (Z.shiftr v (7 * k0)) 0x7F) as [Hgt|Hle].
    + (* one more byte with the continuation bit *)
      pose proof (varint_len_step _ Hgt) as Hstep.
      rewrite Z.shiftr_shiftr in Hstep by lia.
      replace (7 * k0 + 7) with (7 * (k0 + 1)) in Hstep by lia.
      rewrite Z.shiftr_shiftr by lia. replace (7 * k0 + 7) with (7 * (k0 + 1)) by lia.
      pose proof (varint_len_pos (Z.shiftr v (7 * (k0 + 1)))) as Hpos1.
      destruct (WriteUBitLong_step w
                  (Z.lor (Z.land (Z.shiftr v (7 * k0)) 0x7F) 0x80) 8 (c + 8 * k0) D
                  Hgood Hcur ltac:(lia) ltac:(lia)) as (G1 & C1 & O1 & B1).
      destruct (IH (k0 + 1) _ ltac:(lia) ltac:(lia) G1 ltac:(lia) ltac:(lia))
        as (w' & E & Hlast & G' & C' & O' & B').
      exists w'. split; [exact E|]. split; [exact Hlast|]. split; [exact G'|].
      split; [exact C'|]. split; [congruence|].
      intros i Hi. rewrite B', B1 by lia.
      pose proof (Z.div_mod (i - c) 8 ltac:(lia)).
      pose proof (Z.mod_pos_bound (i - c) 8 ltac:(lia)).
      destruct (Z.leb_spec (c + 8 * (k0 + 1)) i), (Z.ltb_spec i (c + 8 * (varint_len v - 1))),
        (Z.leb_spec (c + 8 * k0) i), (Z.ltb_spec i (c + 8 * k0 + 8)); simpl; try lia;
        try reflexivity.
      replace ((i - c) / 8) with k0 by lia.
      replace ((i - c) mod 8) with (i - (c + 8 * k0)) by lia.
      apply continuing_byte; lia.
    + (* the loop ends: this is the last byte *)
      rewrite varint_len_small in Hlen by lia.
      assert (k0 = varint_len v - 1) by lia. subst k0.
      exists w. split; [reflexivity|]. split; [lia|]. split; [exact Hgood|].
      split; [exact Hcur|]. split; [reflexivity|].
      intros i Hi.
      destruct (Z.leb_spec (c + 8 * (varint_len v - 1)) i),
        (Z.ltb_spec i (c + 8 * (varint_len v - 1))); simpl; try lia; reflexivity.
Qed.

(** The byte-at-a-time path of [WriteVarInt32] and [WriteVarInt64] writes
    the encoding of [v] at the cursor and nothing else. *)
Lemma varint_fallback_encodes (fuel : nat) (w : t) :
  good w -> m_iCurBit w = c -> varint_len v <= Z.of_nat fuel ->
  exists w',
    ('(w1, data) ← varint_loop fuel w v; Some (WriteUBitLong w1 (Z.land data 0x7F) 8))
      = Some w' /\
    good w' /\ m_iCurBit w' = c + 8 * varint_len v /\
    m_bOverflow w' = m_bOverflow w /\
    forall i, 0 <= i ->
      bit_at (m_pData w') i
      = if (c <=? i) && (i <? c + 8 * varint_len v)
        then Z.testbit (varint_byte v (varint_len v) ((i - c) / 8)) ((i - c) mod 8)
        else bit_at (m_pData w) i.
Proof.
  intros Hgood Hcur Hfuel.
  pose proof (varint_len_pos v) as Hpos.
  destruct (varint_loop_encodes fuel 0 w ltac:(lia)
              ltac:(rewrite Z.shiftr_0_r; lia) Hgood ltac:(lia) ltac:(lia))
    as (w1 & E & Hlast & G1 & C1 & O1 & B1).
  rewrite Z.shiftr_0_r in E. rewrite E. cbn [mbind option_bind]. cbn beta iota.
  destruct (WriteUBitLong_step w1 (Z.land (Z.shiftr v (7 * (varint_len v - 1))) 0x7F) 8
              (c + 8 * (varint_len v - 1)) D G1 C1 ltac:(lia) ltac:(lia))
    as (G2 & C2 & O2 & B2).
  eexists. split; [reflexivity|]. split; [exact G2|]. split; [lia|].
  split; [congruence|].
  intros i Hi. rewrite B2, B1 by lia.
  pose proof (Z.div_mod (i - c) 8 ltac:(lia)).
  pose proof (Z.mod_pos_bound (i - c) 8 ltac:(lia)).
  destruct (Z.leb_spec (c + 8 * (varint_len v - 1)) i),
    (Z.ltb_spec i (c + 8 * (varint_len v - 1) + 8)),
    (Z.leb_spec (c + 8 * 0) i), (Z.ltb_spec i (c + 8 * (varint_len v - 1))),
    (Z.leb_spec c i), (Z.ltb_spec i (c + 8 * varint_len v)); simpl; try lia;
    try reflexivity.
  rewrite last_byte by lia.
  replace ((i - c) / 8) with (varint_len v - 1) by lia.
  replace ((i - c) mod 8) with (i - (c + 8 * (varint_len v - 1))) by lia.
  reflexivity.
Qed.
End VarintLoop.

(** ** The byte view *)

Lemma u8_testbit x k : Z.testbit (u8 x) k = (k <? 8) && Z.testbit x k.
Proof.
  unfold u8. destruct (Z.ltb_spec k 8).
  - destruct (Z.ltb_spec k 0).
    + rewrite !Z.testbit_neg_r by lia. reflexivity.
    + rewrite Z.mod_pow2_bits_low by lia. reflexivity.
  - rewrite Z.mod_pow2_bits_high by lia. reflexivity.
Qed.

Lemma byte_merge (old x sh k : Z) :
  0 <= sh -> 0 <= k < 32 ->
  Z.testbit (Z.lor (Z.land old (u32 (Z.lnot (Z.shiftl 255 sh)))) (Z.shiftl (u8 x) sh)) k
  = if (sh <=? k) && (k <? sh + 8) then Z.testbit x (k - sh) else Z.testbit old k.
Proof.
  intros Hsh Hk.
  rewrite Z.lor_spec, Z.land_spec, u32_testbit, Z.lnot_spec by lia.
  destruct (Z.leb_spec sh k).
  - rewrite !Z.shiftl_spec, u8_testbit by lia.
    change 255 with (Z.ones 8). rewrite ones_testbit by lia.
    destruct (Z.ltb_spec k (sh + 8)), (Z.ltb_spec (k - sh) 8), (Z.ltb_spec k 32);
      try lia; simpl; btauto.
  - rewrite !Z.shiftl_spec_low by lia.
    destruct (Z.ltb_spec k 32); try lia. simpl. btauto.
Qed.

Lemma store_byte_length (d : buffer) b x : length (store_byte d b x) = length d.
Proof. apply length_store_byte. Qed.

Lemma store_byte_wf (d : buffer) b x :
  wf_buffer d -> 0 <= b -> wf_buffer (store_byte d b x).
Proof.
  intros Hwf Hb. unfold store_byte. apply wf_Store; [exact Hwf|].
  pose proof (Z.mod_pos_bound b 4 ltac:(lia)).
  apply range_of_bits; [lia|]. intros k Hk.
  destruct (Z.ltb_spec k 32); [reflexivity|]. simpl.
  rewrite Z.lor_spec, Z.land_spec, u32_testbit, Z.shiftl_spec, u8_testbit by lia.
  replace (k <? 32) with false by lia.
  replace (k - 8 * (b mod 4) <? 8) with false by lia. btauto.
Qed.

Lemma store_byte_bit_at (d : buffer) (b x i : Z) :
  0 <= b -> 8 * b + 8 <= 32 * Z.of_nat (length d) -> 0 <= i ->
  bit_at (store_byte d b x) i
  = if (8 * b <=? i) && (i <? 8 * b + 8) then Z.testbit x (i - 8 * b) else bit_at d i.
Proof.
  intros Hb Hlen Hi. unfold store_byte, bit_at.
  pose proof (Z.div_mod b 4 ltac:(lia)). pose proof (Z.mod_pos_bound b 4 ltac:(lia)).
  pose proof (Z.div_mod i 32 ltac:(lia)). pose proof (Z.mod_pos_bound i 32 ltac:(lia)).
  destruct (Z.eq_dec (i / 32) (b / 4)) as [E|E].
  - rewrite E, Load_Store_eq by lia. rewrite byte_merge by lia.
    destruct (Z.leb_spec (8 * (b mod 4)) (i mod 32)),
      (Z.ltb_spec (i mod 32) (8 * (b mod 4) + 8)),
      (Z.leb_spec (8 * b) i), (Z.ltb_spec i (8 * b + 8)); simpl; try lia; try reflexivity.
    f_equal. lia.
  - rewrite Load_Store_ne by lia.
    destruct (Z.leb_spec (8 * b) i), (Z.ltb_spec i (8 * b + 8)); simpl; try lia; reflexivity.
Qed.

Lemma load_byte_testbit (d : buffer) (b j : Z) :
  0 <= b -> 0 <= j ->
  Z.testbit (load_byte d b) j = (j <? 8) && bit_at d (8 * b + j).
Proof.
  intros Hb Hj. unfold load_byte, bit_at.
  pose proof (Z.div_mod b 4 ltac:(lia)). pose proof (Z.mod_pos_bound b 4 ltac:(lia)).
  rewrite Z.land_spec, Z.shiftr_spec by lia.
  change 255 with (Z.ones 8). rewrite ones_testbit by lia.
  destruct (Z.ltb_spec j 8); [|btauto].
  pose proof (Z.div_mod (8 * b + j) 32 ltac:(lia)).
  pose proof (Z.mod_pos_bound (8 * b + j) 32 ltac:(lia)).
  replace ((8 * b + j) / 32) with (b / 4) by lia.
  replace ((8 * b + j) mod 32) with (j + 8 * (b mod 4)) by lia.
  btauto.
Qed.

Section PokeSteps.
Import bf_write.

Let good (w : t) (D : Z) : Prop :=
  wf_buffer (m_pData w) /\ 0 <= m_iCurBit w /\ m_nDataBits w = D /\
  D <= 32 * Z.of_nat (length (m_pData w)).

Lemma poke_step (w : t) (target k x D : Z) :
  good w D -> 0 <= target + k -> 8 * (target + k) + 8 <= D ->
  good (poke w target k x) D /\
  m_iCurBit (poke w target k x) = m_iCurBit w /\
  m_bOverflow (poke w target k x) = m_bOverflow w /\
  (forall i, 0 <= i ->
     bit_at (m_pData (poke w target k x)) i
     = if (8 * (target + k) <=? i) && (i <? 8 * (target + k) + 8)
       then Z.testbit x (i - 8 * (target + k)) else bit_at (m_pData w) i).
Proof.
  intros (Hwf & Hcur & HD & Hlen) Hb Hfit. unfold poke, good.
  cbn [m_pData m_iCurBit m_nDataBits m_bOverflow with_data].
  rewrite store_byte_length.
  split; [|split; [reflexivity|split; [reflexivity|]]].
  - split; [apply store_byte_wf; auto|]. auto.
  - intros i Hi. apply store_byte_bit_at; lia.
Qed.

Lemma clear_top_step (w : t) (target k D : Z) :
  good w D -> 0 <= target + k -> 8 * (target + k) + 8 <= D ->
  good (clear_top w target k) D /\
  m_iCurBit (clear_top w target k) = m_iCurBit w /\
  m_bOverflow (clear_top w target k) = m_bOverflow w /\
  (forall i, 0 <= i ->
     bit_at (m_pData (clear_top w target k)) i
     = if i =? 8 * (target + k) + 7 then false else bit_at (m_pData w) i).
Proof.
  intros G Hb Hfit. unfold clear_top.
  destruct (poke_step w target k (Z.land (load_byte (m_pData w) (target + k)) 0x7F) D
              G Hb Hfit) as (G1 & C1 & O1 & B1).
  split; [exact G1|split; [exact C1|split; [exact O1|]]].
  intros i Hi. rewrite B1 by lia.
  destruct (Z.leb_spec (8 * (target + k)) i), (Z.ltb_spec i (8 * (target + k) + 8)),
    (Z.eqb_spec i (8 * (target + k) + 7)); simpl; try lia; try reflexivity.
  - subst i. rewrite Z.land_spec. change 0x7F with (Z.ones 7).
    rewrite ones_testbit by lia.
    replace (8 * (target + k) + 7 - 8 * (target + k) <? 7) with false by lia. btauto.
  - rewrite Z.land_spec, load_byte_testbit by lia. change 0x7F with (Z.ones 7).
    rewrite ones_testbit by lia.
    replace (8 * (target + k) + (i - 8 * (target + k))) with i by lia.
    destruct (Z.ltb_spec (i - 8 * (target + k)) 8), (Z.ltb_spec (i - 8 * (target + k)) 7);
      try lia. btauto.
Qed.

Lemma advance_step (w : t) (n D : Z) :
  good w D -> 0 <= n ->
  good (advance w n) D /\ m_iCurBit (advance w n) = m_iCurBit w + n /\
  m_bOverflow (advance w n) = m_bOverflow w /\ m_pData (advance w n) = m_pData w.
Proof.
  intros (Hwf & Hcur & HD & Hlen) Hn. unfold advance, good.
  cbn [m_pData m_iCurBit m_nDataBits m_bOverflow with_cur].
  split; [|split; [reflexivity|split; reflexivity]].
  split; [exact Hwf|]. split; [lia|]. split; [exact HD|exact Hlen].
Qed.
End PokeSteps.

(** ** Varints: the byte-aligned fast path of [WriteVarInt32] *)

Lemma varint_len_between (v n : Z) :
  2 <= n -> 2 ^ (7 * (n - 1)) <= v < 2 ^ (7 * n) -> varint_len v = n.
Proof.
  intros Hn Hv.
  assert (0 < 2 ^ (7 * (n - 1))) by (apply Z.pow_pos_nonneg; lia).
  unfold varint_len, bits_needed. destruct (Z.eqb_spec v 0); [lia|].
  assert (7 * (n - 1) <= Z.log2 v) by (apply Z.log2_le_pow2; lia).
  assert (Z.log2 v < 7 * n) by (apply Z.log2_lt_pow2; lia).
  assert ((Z.log2 v + 1 + 6) / 7 = n).
  { symmetry. apply (Z.div_unique _ _ _ (Z.log2 v + 7 - 7 * n)); lia. }
  lia.
Qed.

Lemma continuing_byte_bits (v size k j : Z) :
  0 <= k < size - 1 -> 0 <= j < 8 ->
  Z.testbit (u8 (Z.lor (Z.shiftr v (7 * k)) 0x80)) j = Z.testbit (varint_byte v size k) j.
Proof.
  intros Hk Hj.
  rewrite u8_testbit, Z.lor_spec, Z.shiftr_spec, varint_byte_testbit by lia.
  change 0x80 with (Z.shiftl 1 7). rewrite pow2_testbit by lia.
  replace (j + 7 * k) with (7 * k + j) by lia.
  destruct (Z.ltb_spec j 8), (Z.ltb_spec j 7), (Z.eqb_spec j 7), (Z.ltb_spec k (size - 1));
    try lia; btauto.
Qed.

Lemma cleared_byte_bits (v size j : Z) :
  1 <= size -> 0 <= j < 8 ->
  (if j =? 7 then false else Z.testbit (u8 (Z.lor (Z.shiftr v (7 * (size - 1))) 0x80)) j)
  = Z.testbit (varint_byte v size (size - 1)) j.
Proof.
  intros Hs Hj.
  rewrite u8_testbit, Z.lor_spec, Z.shiftr_spec, varint_byte_testbit by lia.
  change 0x80 with (Z.shiftl 1 7). rewrite pow2_testbit by lia.
  replace (j + 7 * (size - 1)) with (7 * (size - 1) + j) by lia.
  destruct (Z.ltb_spec j 8), (Z.ltb_spec j 7), (Z.eqb_spec j 7),
    (Z.ltb_spec (size - 1) (size - 1)); try lia; btauto.
Qed.

Lemma fifth_byte_bits (v j : Z) :
  0 <= v < 2 ^ 32 -> 0 <= j < 8 ->
  Z.testbit (u8 (Z.shiftr v 28)) j = Z.testbit (varint_byte v 5 4) j.
Proof.
  intros Hv Hj.
  rewrite u8_testbit, Z.shiftr_spec, varint_byte_testbit by lia.
  replace (j + 28) with (7 * 4 + j) by lia.
  destruct (Z.ltb_spec j 8), (Z.ltb_spec j 7), (Z.eqb_spec j 7); try lia; simpl; try btauto.
  subst j. apply (bits_of_range v 32); lia.
Qed.

(** Walks through the stores of a fast path from the writer [w] outwards,
    collecting for each store its step lemma. *)
Ltac run_pokes w G D :=
  lazymatch goal with
  | |- context [bf_write.poke w ?t ?k ?x] =>
      let G' := fresh "G" in
      let C := fresh "C" in
      let O := fresh "O" in
      let B := fresh "B" in
      let w' := fresh "w" in
      destruct (poke_step w t k x D G ltac:(lia) ltac:(lia)) as (G' & C & O & B);
      set (w' := bf_write.poke w t k x) in *;
      run_pokes w' G' D
  | |- context [bf_write.clear_top w ?t ?k] =>
      let G' := fresh "G" in
      let C := fresh "C" in
      let O := fresh "O" in
      let B := fresh "B" in
      let w' := fresh "w" in
      destruct (clear_top_step w t k D G ltac:(lia) ltac:(lia)) as (G' & C & O & B);
      set (w' := bf_write.clear_top w t k) in *;
      run_pokes w' G' D
  | |- context [bf_write.advance w ?n] =>
      let G' := fresh "G" in
      let C := fresh "C" in
      let O := fresh "O" in
      let B := fresh "P" in
      let w' := fresh "w" in
      destruct (advance_step w n D G ltac:(lia)) as (G' & C & O & B);
      set (w' := bf_write.advance w n) in *;
      run_pokes w' G' D
  | |- _ => idtac
  end.

(** Rewrites the bits of the finished buffer back to the bits of the
    original one, through every store. *)
Ltac unwind_bits i Hi :=
  repeat match goal with
         | P : bf_write.m_pData ?w' = bf_write.m_pData _ |- context [bf_write.m_pData ?w'] =>
             rewrite P
         | B : forall i, 0 <= i -> bit_at (bf_write.m_pData ?w') i = _
           |- context [bit_at (bf_write.m_pData ?w') i] =>
             rewrite (B i Hi)
         end.

(** Decides the comparisons of the goal by case analysis. *)
Ltac cmp_cases :=
  repeat match goal with
         | |- context [(?a <=? ?b)] => destruct (Z.leb_spec a b); try lia
         | |- context [(?a <? ?b)] => destruct (Z.ltb_spec a b); try lia
         | |- context [(?a =? ?b)] => destruct (Z.eqb_spec a b); try lia
         end;
  cbn [andb orb negb].

(** Closes the goal that one stored byte is the expected byte of the
    [N]-byte encoding. *)
Ltac byte_goal N :=
  match goal with
  | |- _ = Z.testbit (varint_byte ?v _ ?k) ?j =>
      try match goal with |- Z.testbit _ ?p = _ => replace p with j by lia end;
      first [ exact (continuing_byte_bits v N k j ltac:(lia) ltac:(lia))
            | exact (fifth_byte_bits v j ltac:(lia) ltac:(lia))
            | etransitivity; [| exact (cleared_byte_bits v N j ltac:(lia) ltac:(lia))];
              destruct (Z.eqb_spec j 7); first [reflexivity | lia] ]
  end.

Section FastPath32.
Import bf_write.
Variables (w : t) (v D : Z) (fuel : nat).
Hypothesis Hwf : wf_buffer (m_pData w).
Hypothesis Hcur : 0 <= m_iCurBit w.
Hypothesis HD : m_nDataBits w = D.
Hypothesis Hlen : D <= 32 * Z.of_nat (length (m_pData w)).
Hypothesis Haligned : Z.land (m_iCurBit w) 7 = 0.
Hypothesis Hroom : m_iCurBit w + kMaxVarint32Bytes * 8 <= D.
Hypothesis Hv : 0 <= v < 2 ^ 32.

Lemma WriteVarInt32_fast_encodes :
  exists w',
    WriteVarInt32 fuel w v = Some w' /\
    (wf_buffer (m_pData w') /\ 0 <= m_iCurBit w' /\ m_nDataBits w' = D /\
     D <= 32 * Z.of_nat (length (m_pData w'))) /\
    m_iCurBit w' = m_iCurBit w + 8 * varint_len v /\
    m_bOverflow w' = m_bOverflow w /\
    (forall k j, 0 <= k < varint_len v -> 0 <= j < 8 ->
       bit_at (m_pData w') (m_iCurBit w + 8 * k + j)
       = Z.testbit (varint_byte v (varint_len v) k) j) /\
    (forall i, 0 <= i -> ~ (m_iCurBit w <= i < m_iCurBit w + 8 * varint_len v) ->
       bit_at (m_pData w') i = bit_at (m_pData w) i).
Proof.
  unfold kMaxVarint32Bytes in Hroom.
  assert (G0 : wf_buffer (m_pData w) /\ 0 <= m_iCurBit w /\ m_nDataBits w = D /\
               D <= 32 * Z.of_nat (length (m_pData w))) by auto.
  assert (Ht : m_iCurBit w = 8 * Z.shiftr (m_iCurBit w) 3).
  { rewrite Z.shiftr_div_pow2 by lia. change (2 ^ 3) with 8.
    change 7 with (Z.ones 3) in Haligned. rewrite Z.land_ones in Haligned by lia.
    change (2 ^ 3) with 8 in Haligned.
    pose proof (Z.div_mod (m_iCurBit w) 8 ltac:(lia)). lia. }
  unfold WriteVarInt32. rewrite HD.
  replace ((Z.land (m_iCurBit w) 7 =? 0) && (m_iCurBit w + kMaxVarint32Bytes * 8 <=? D))
    with true by (unfold kMaxVarint32Bytes; rewrite Haligned; symmetry;
                  apply andb_true_iff; split; lia).
  set (c := m_iCurBit w) in *. set (t := Z.shiftr c 3) in *.
  change (Z.shiftl 1 7) with (2 ^ 7). change (Z.shiftl 1 14) with (2 ^ 14).
  change (Z.shiftl 1 21) with (2 ^ 21). change (Z.shiftl 1 28) with (2 ^ 28).
  cbv zeta.
  destruct (Z.geb_spec v (2 ^ 7)) as [H7|H7];
    [destruct (Z.geb_spec v (2 ^ 14)) as [H14|H14];
     [destruct (Z.geb_spec v (2 ^ 21)) as [H21|H21];
      [destruct (Z.geb_spec v (2 ^ 28)) as [H28|H28]|]|]|].
  - (* five bytes *)
    assert (L : varint_len v = 5) by (apply varint_len_between; lia). rewrite L.
    eexists. split; [reflexivity|]. run_pokes w G0 D.
    split; [assumption|]. split; [lia|]. split; [congruence|]. split.
    + intros k j Hk Hj. assert (Hi : 0 <= c + 8 * k + j) by lia.
      unwind_bits (c + 8 * k + j) Hi.
      assert (Hk5 : k = 0 \/ k = 1 \/ k = 2 \/ k = 3 \/ k = 4) by lia.
      destruct Hk5 as [->|[->|[->|[->| ->]]]]; cmp_cases; byte_goal 5.
    + intros i Hi Hout. unwind_bits i Hi. cmp_cases; reflexivity.
  - (* four bytes *)
    assert (L : varint_len v = 4) by (apply varint_len_between; lia). rewrite L.
    eexists. split; [reflexivity|]. run_pokes w G0 D.
    split; [assumption|]. split; [lia|]. split; [congruence|]. split.
    + intros k j Hk Hj. assert (Hi : 0 <= c + 8 * k + j) by lia.
      unwind_bits (c + 8 * k + j) Hi.
      assert (Hk4 : k = 0 \/ k = 1 \/ k = 2 \/ k = 3) by lia.
      destruct Hk4 as [->|[->|[->| ->]]]; cmp_cases; byte_goal 4.
    + intros i Hi Hout. unwind_bits i Hi. cmp_cases; reflexivity.
  - (* three bytes *)
    assert (L : varint_len v = 3) by (apply varint_len_between; lia). rewrite L.
    eexists. split; [reflexivity|]. run_pokes w G0 D.
    split; [assumption|]. split; [lia|]. split; [congruence|]. split.
    + intros k j Hk Hj. assert (Hi : 0 <= c + 8 * k + j) by lia.
      unwind_bits (c + 8 * k + j) Hi.
      assert (Hk3 : k = 0 \/ k = 1 \/ k = 2) by lia.
      destruct Hk3 as [->|[->| ->]]; cmp_cases; byte_goal 3.
    + intros i Hi Hout. unwind_bits i Hi. cmp_cases; reflexivity.
  - (* two bytes *)
    assert (L : varint_len v = 2) by (apply varint_len_between; lia). rewrite L.
    eexists. split; [reflexivity|]. run_pokes w G0 D.
    split; [assumption|]. split; [lia|]. split; [congruence|]. split.
    + intros k j Hk Hj. assert (Hi : 0 <= c + 8 * k + j) by lia.
      unwind_bits (c + 8 * k + j) Hi.
      assert (Hk2 : k = 0 \/ k = 1) by lia.
      destruct Hk2 as [->| ->]; cmp_cases; byte_goal 2.
    + intros i Hi Hout. unwind_bits i Hi. cmp_cases; reflexivity.
  - (* one byte *)
    assert (L : varint_len v = 1) by (apply varint_len_small; lia). rewrite L.
    eexists. split; [reflexivity|]. run_pokes w G0 D.
    split; [assumption|]. split; [lia|]. split; [congruence|]. split.
    + intros k j Hk Hj. assert (Hi : 0 <= c + 8 * k + j) by lia.
      unwind_bits (c + 8 * k + j) Hi.
      assert (k = 0) by lia. subst k. cmp_cases; byte_goal 1.
    + intros i Hi Hout. unwind_bits i Hi. cmp_cases; reflexivity.
Qed.
End FastPath32.

(** ** Varints: what is written is what is read *)

Lemma fields_of_run (d d' : buffer) (v c : Z) :
  0 <= c ->
  (forall i, 0 <= i ->
     bit_at d' i
     = if (c <=? i) && (i <? c + 8 * varint_len v)
       then Z.testbit (varint_byte v (varint_len v) ((i - c) / 8)) ((i - c) mod 8)
       else bit_at d i) ->
  (forall k j, 0 <= k < varint_len v -> 0 <= j < 8 ->
     bit_at d' (c + 8 * k + j) = Z.testbit (varint_byte v (varint_len v) k) j) /\
  (forall i, 0 <= i -> ~ (c <= i < c + 8 * varint_len v) -> bit_at d' i = bit_at d i).
Proof.
  intros Hc H. split.
  - intros k j Hk Hj. rewrite H by lia.
    destruct (Z.leb_spec c (c + 8 * k + j)); [|lia].
    destruct (Z.ltb_spec (c + 8 * k + j) (c + 8 * varint_len v)); [|lia].
    cbn [andb].
    replace (c + 8 * k + j - c) with (j + k * 8) by lia.
    rewrite Z.div_add, Z.mod_add, Z.div_small, Z.mod_small by lia.
    reflexivity.
  - intros i Hi Hout. rewrite H by lia.
    destruct (Z.leb_spec c i), (Z.ltb_spec i (c + 8 * varint_len v)); cbn [andb];
      first [reflexivity | lia].
Qed.

Section VarIntRoundTrip.
Variables (w : bf_write.t) (v : Z) (extra : nat).
Hypothesis Hwf : wf_buffer (bf_write.m_pData w).
Hypothesis Hcur : 0 <= bf_write.m_iCurBit w.
Hypothesis Hlen : bf_write.m_nDataBits w <= 32 * Z.of_nat (length (bf_write.m_pData w)).
Hypothesis Hfit : bf_write.m_iCurBit w + 8 * varint_len v <= bf_write.m_nDataBits w.

(** Either path of [WriteVarInt32] leaves the [varint_len v] bytes of the
    encoding of [v] at the cursor and touches nothing else. *)
Lemma WriteVarInt32_encodes :
  0 <= v < 2 ^ 32 ->
  exists w',
    bf_write.WriteVarInt32 (5 + extra) w v = Some w' /\
    (wf_buffer (bf_write.m_pData w') /\ 0 <= bf_write.m_iCurBit w' /\
     bf_write.m_nDataBits w' = bf_write.m_nDataBits w /\
     bf_write.m_nDataBits w <= 32 * Z.of_nat (length (bf_write.m_pData w'))) /\
    bf_write.m_iCurBit w' = bf_write.m_iCurBit w + 8 * varint_len v /\
    bf_write.m_bOverflow w' = bf_write.m_bOverflow w /\
    (forall k j, 0 <= k < varint_len v -> 0 <= j < 8 ->
       bit_at (bf_write.m_pData w') (bf_write.m_iCurBit w + 8 * k + j)
       = Z.testbit (varint_byte v (varint_len v) k) j) /\
    (forall i, 0 <= i ->
       ~ (bf_write.m_iCurBit w <= i < bf_write.m_iCurBit w + 8 * varint_len v) ->
       bit_at (bf_write.m_pData w') i = bit_at (bf_write.m_pData w) i).
Proof.
  intros Hv.
  destruct ((Z.land (bf_write.m_iCurBit w) 7 =? 0) &&
            (bf_write.m_iCurBit w + kMaxVarint32Bytes * 8 <=? bf_write.m_nDataBits w))
    eqn:Hfast.
  - apply andb_true_iff in Hfast. destruct Hfast as [Ha Hr].
    apply (WriteVarInt32_fast_encodes w v (bf_write.m_nDataBits w) (5 + extra));
      auto; lia.
  - pose proof (varint_len_u32 v Hv) as Hl.
    destruct (varint_fallback_encodes v (bf_write.m_iCurBit w) (bf_write.m_nDataBits w)
                ltac:(lia) Hfit (5 + extra)%nat w (conj Hwf (conj Hcur (conj eq_refl Hlen))) eq_refl ltac:(lia))
      as (w' & E & G & C & O & B).
    exists w'. unfold bf_write.WriteVarInt32. rewrite Hfast.
    split; [exact E|]. split; [exact G|]. split; [exact C|]. split; [exact O|].
    apply (fields_of_run (bf_write.m_pData w)); assumption.
Qed.

(** 32-bit varints round-trip on both paths: the writer advances by the
    number of bytes [ByteSizeVarInt32] announces, and a reader started
    where the writer stood gets the value back and stops where the
    writer stopped. *)
Theorem VarInt32_roundtrip :
  0 <= v < 2 ^ 32 ->
  exists w',
    bf_write.WriteVarInt32 (5 + extra) w v = Some w' /\
    bf_write.ByteSizeVarInt32 (5 + extra) v = Some (varint_len v) /\
    bf_write.m_iCurBit w' = bf_write.m_iCurBit w + 8 * varint_len v /\
    bf_write.m_bOverflow w' = bf_write.m_bOverflow w /\
    bf_read.ReadVarInt32 (6 + extra) (reader_of w' (bf_write.m_iCurBit w))
    = Some (v, bf_read.with_cur (reader_of w' (bf_write.m_iCurBit w))
                 (bf_write.m_iCurBit w')).
Proof.
  intros Hv.
  destruct (WriteVarInt32_encodes Hv) as (w' & E & G & C & O & F & _).
  pose proof (varint_len_pos v) as Hpos.
  destruct (reader_of_good w' (bf_write.m_nDataBits w) (bf_write.m_iCurBit w) G Hcur
              ltac:(lia)) as (Rwf & Rd & Rc & RD).
  exists w'. split; [exact E|].
  split; [apply ByteSizeVarInt32_len; lia|].
  split; [exact C|]. split; [exact O|].
  rewrite C. rewrite <- Rc at 3.
  apply ReadVarInt32_encoded.
  - exact Rwf.
  - lia.
  - lia.
  - rewrite Rc, RD. exact Hfit.
  - intros k j Hk Hj. rewrite Rd, Rc. apply F; assumption.
  - lia.
Qed.

(** 64-bit varints round-trip whenever [WriteVarInt64] takes the
    byte-at-a-time path, that is when the cursor is not byte-aligned or
    fewer than ten bytes of room remain. *)
Theorem VarInt64_roundtrip_unaligned :
  0 <= v < 2 ^ 64 ->
  (Z.land (bf_write.m_iCurBit w) 7 =? 0) &&
  (bf_write.m_iCurBit w + kMaxVarintBytes * 8 <=? bf_write.m_nDataBits w) = false ->
  exists w',
    bf_write.WriteVarInt64 (10 + extra) w v = Some w' /\
    bf_write.ByteSizeVarInt64 (10 + extra) v = Some (varint_len v) /\
    bf_write.m_iCurBit w' = bf_write.m_iCurBit w + 8 * varint_len v /\
    bf_write.m_bOverflow w' = bf_write.m_bOverflow w /\
    bf_read.ReadVarInt64 (11 + extra) (reader_of w' (bf_write.m_iCurBit w))
    = Some (v, bf_read.with_cur (reader_of w' (bf_write.m_iCurBit w))
                 (bf_write.m_iCurBit w')).
Proof.
  intros Hv Hslow.
  pose proof (varint_len_u64 v Hv) as Hl.
  pose proof (varint_len_pos v) as Hpos.
  destruct (varint_fallback_encodes v (bf_write.m_iCurBit w) (bf_write.m_nDataBits w)
              ltac:(lia) Hfit (10 + extra)%nat w (conj Hwf (conj Hcur (conj eq_refl Hlen))) eq_refl ltac:(lia))
    as (w' & E & G & C & O & B).
  destruct (fields_of_run (bf_write.m_pData w) (bf_write.m_pData w') v
              (bf_write.m_iCurBit w) Hcur B) as [F _].
  destruct (reader_of_good w' (bf_write.m_nDataBits w) (bf_write.m_iCurBit w) G Hcur
              ltac:(lia)) as (Rwf & Rd & Rc & RD).
  exists w'. split.
  { unfold bf_write.WriteVarInt64. rewrite Hslow. exact E. }
  split; [apply ByteSizeVarInt64_len; lia|].
  split; [exact C|]. split; [exact O|].
  rewrite C. rewrite <- Rc at 3.
  apply ReadVarInt64_encoded.
  - exact Rwf.
  - lia.
  - lia.
  - rewrite Rc, RD. exact Hfit.
  - intros k j Hk Hj. rewrite Rd, Rc. apply F; assumption.
  - lia.
Qed.
End VarIntRoundTrip.

Lemma ZigZagEncode32_range (v : Z) : 0 <= ZigZagEncode32 v < 2 ^ 32.
Proof. unfold ZigZagEncode32. apply u32_range. Qed.

(** Signed 32-bit varints round-trip for every int32, the most negative
    one included, on both paths of the writer. *)
Theorem SignedVarInt32_roundtrip (w : bf_write.t) (v : Z) (extra : nat) :
  wf_buffer (bf_write.m_pData w) ->
  0 <= bf_write.m_iCurBit w ->
  bf_write.m_nDataBits w <= 32 * Z.of_nat (length (bf_write.m_pData w)) ->
  bf_write.m_iCurBit w + 8 * varint_len (ZigZagEncode32 v) <= bf_write.m_nDataBits w ->
  - 2 ^ 31 <= v < 2 ^ 31 ->
  exists w',
    bf_write.WriteSignedVarInt32 (5 + extra) w v = Some w' /\
    bf_write.m_bOverflow w' = bf_write.m_bOverflow w /\
    fst <$> bf_read.ReadSignedVarInt32 (6 + extra) (reader_of w' (bf_write.m_iCurBit w))
    = Some v.
Proof.
  intros Hwf Hcur Hlen Hfit Hv.
  destruct (VarInt32_roundtrip w (ZigZagEncode32 v) extra Hwf Hcur Hlen Hfit
              (ZigZagEncode32_range v)) as (w' & E & _ & _ & O & R).
  exists w'. split; [exact E|]. split; [exact O|].
  unfold bf_read.ReadSignedVarInt32. rewrite R. cbn.
  rewrite ZigZag32_roundtrip by exact Hv. reflexivity.
Qed.

(** * Further properties of the code *)

(** ** Varints *)

(** X1.  [WriteVarInt32] followed by [ReadVarInt32], for every [uint32] and
    on both paths of the writer (the byte-aligned one with 40 bits of room
    and the byte-at-a-time one): with room for the encoding the write
    returns with 5 units of fuel, advances the cursor by as many bytes as
    [ByteSizeVarInt32] announces (between 1 and 5), leaves the overflow flag
    and every bit outside those bytes as they were, and a reader started
    where the writer stood gets the value back and stops where the writer
    stopped. *)
Theorem WriteVarInt32_then_ReadVarInt32 (w : bf_write.t) (v : Z) (extra : nat) :
  wf_buffer (bf_write.m_pData w) ->
  0 <= bf_write.m_iCurBit w ->
  bf_write.m_nDataBits w <= 32 * Z.of_nat (length (bf_write.m_pData w)) ->
  bf_write.m_iCurBit w + 8 * varint_len v <= bf_write.m_nDataBits w ->
  0 <= v < 2 ^ 32 ->
  exists (w' : bf_write.t) (n : Z),
    bf_write.WriteVarInt32 (5 + extra) w v = Some w' /\
    bf_write.ByteSizeVarInt32 (5 + extra) v = Some n /\
    1 <= n <= 5 /\
    bf_write.m_iCurBit w' = bf_write.m_iCurBit w + 8 * n /\
    bf_write.m_bOverflow w' = bf_write.m_bOverflow w /\
    (forall i, 0 <= i ->
       ~ (bf_write.m_iCurBit w <= i < bf_write.m_iCurBit w + 8 * n) ->
       bit_at (bf_write.m_pData w') i = bit_at (bf_write.m_pData w) i) /\
    bf_read.ReadVarInt32 (6 + extra) (reader_of w' (bf_write.m_iCurBit w))
    = Some (v, bf_read.with_cur (reader_of w' (bf_write.m_iCurBit w))
                 (bf_write.m_iCurBit w + 8 * n)).
Proof.
  intros Hwf Hcur Hlen Hfit Hv.
  destruct (WriteVarInt32_encodes w v extra Hwf Hcur Hlen Hfit Hv)
    as (w' & E & _ & C & O & _ & Fr).
  destruct (VarInt32_roundtrip w v extra Hwf Hcur Hlen Hfit Hv)
    as (w'' & E' & Bs & _ & _ & R).
  rewrite E in E'. injection E' as <-.
  exists w', (varint_len v).
  split; [exact E|]. split; [exact Bs|].
  split; [apply varint_len_u32; exact Hv|].
  split; [exact C|]. split; [exact O|]. split; [exact Fr|].
  rewrite <- C. exact R.
Qed.

Lemma WriteVarInt32_then_ReadVarInt32_witness :
  let w := bf_write.SeekToBit (bf_write.create (repeat 0xFFFFFFFF 4) 16 (-1)) 3 in
  exists (w' : bf_write.t) (n : Z),
    bf_write.WriteVarInt32 5 w 300 = Some w' /\
    bf_write.ByteSizeVarInt32 5 300 = Some n /\
    1 <= n <= 5 /\
    bf_write.m_iCurBit w' = 3 + 8 * n /\
    bf_write.m_bOverflow w' = false /\
    (forall i, 0 <= i -> ~ (3 <= i < 3 + 8 * n) ->
       bit_at (bf_write.m_pData w') i = bit_at (repeat 0xFFFFFFFF 4) i) /\
    bf_read.ReadVarInt32 6 (reader_of w' 3)
    = Some (300, bf_read.with_cur (reader_of w' 3) (3 + 8 * n)).
Proof.
  intros w.
  apply (WriteVarInt32_then_ReadVarInt32 w 300 0).
  - repeat constructor; lia.
  - vm_compute. discriminate.
  - vm_compute. discriminate.
  - vm_compute. discriminate.
  - lia.
Defined.

(** X2.  Signed 32-bit varints: for every [int32], the most negative one
    included, [WriteSignedVarInt32] advances the cursor by as many bytes as
    [ByteSizeSignedVarInt32] announces, and [ReadSignedVarInt32] from where
    the writer stood returns the value written. *)
Theorem WriteSignedVarInt32_then_ReadSignedVarInt32 (w : bf_write.t) (v : Z) (extra : nat) :
  wf_buffer (bf_write.m_pData w) ->
  0 <= bf_write.m_iCurBit w ->
  bf_write.m_nDataBits w <= 32 * Z.of_nat (length (bf_write.m_pData w)) ->
  bf_write.m_iCurBit w + 40 <= bf_write.m_nDataBits w ->
  - 2 ^ 31 <= v < 2 ^ 31 ->
  exists (w' : bf_write.t) (n : Z),
    bf_write.WriteSignedVarInt32 (5 + extra) w v = Some w' /\
    bf_write.ByteSizeSignedVarInt32 (5 + extra) v = Some n /\
    1 <= n <= 5 /\
    bf_write.m_iCurBit w' = bf_write.m_iCurBit w + 8 * n /\
    bf_write.m_bOverflow w' = bf_write.m_bOverflow w /\
    exists r',
      bf_read.ReadSignedVarInt32 (6 + extra) (reader_of w' (bf_write.m_iCurBit w))
      = Some (v, r') /\
      bf_read.m_iCurBit r' = bf_write.m_iCurBit w' /\
      bf_read.m_bOverflow r' = false.
Proof.
  intros Hwf Hcur Hlen Hfit Hv.
  pose proof (ZigZagEncode32_range v) as Hz.
  pose proof (varint_len_u32 _ Hz) as Hl.
  destruct (VarInt32_roundtrip w (ZigZagEncode32 v) extra Hwf Hcur Hlen ltac:(lia) Hz)
    as (w' & E & Bs & C & O & R).
  exists w', (varint_len (ZigZagEncode32 v)).
  split; [exact E|]. split; [exact Bs|]. split; [exact Hl|].
  split; [exact C|]. split; [exact O|].
  eexists. unfold bf_read.ReadSignedVarInt32. rewrite R. cbn [mbind option_bind].
  cbn beta iota. rewrite ZigZag32_roundtrip by exact Hv.
  split; [reflexivity|]. split; reflexivity.
Qed.

Lemma WriteSignedVarInt32_then_ReadSignedVarInt32_witness :
  let w := bf_write.create (zero_buffer 4) 16 (-1) in
  exists (w' : bf_write.t) (n : Z),
    bf_write.WriteSignedVarInt32 5 w (- 2 ^ 31) = Some w' /\
    bf_write.ByteSizeSignedVarInt32 5 (- 2 ^ 31) = Some n /\
    1 <= n <= 5 /\
    bf_write.m_iCurBit w' = 0 + 8 * n /\
    bf_write.m_bOverflow w' = false /\
    exists r',
      bf_read.ReadSignedVarInt32 6 (reader_of w' 0) = Some (- 2 ^ 31, r') /\
      bf_read.m_iCurBit r' = bf_write.m_iCurBit w' /\
      bf_read.m_bOverflow r' = false.
Proof.
  intros w.
  apply (WriteSignedVarInt32_then_ReadSignedVarInt32 w (- 2 ^ 31) 0).
  - repeat constructor; lia.
  - vm_compute. discriminate.
  - vm_compute. discriminate.
  - vm_compute. discriminate.
  - lia.
Defined.

(** X3.  64-bit varints on the byte-at-a-time path of [WriteVarInt64]
    (the cursor is not byte-aligned, or fewer than 80 bits of room remain):
    for every [uint64] that fits, the write advances the cursor by as many
    bytes as [ByteSizeVarInt64] announces (between 1 and 10), and
    [ReadVarInt64] from where the writer stood returns the value and stops
    where the writer stopped. *)
Theorem WriteVarInt64_bytewise_then_ReadVarInt64 (w : bf_write.t) (v : Z) (extra : nat) :
  wf_buffer (bf_write.m_pData w) ->
  0 <= bf_write.m_iCurBit w ->
  bf_write.m_nDataBits w <= 32 * Z.of_nat (length (bf_write.m_pData w)) ->
  bf_write.m_iCurBit w + 8 * varint_len v <= bf_write.m_nDataBits w ->
  0 <= v < 2 ^ 64 ->
  Z.land (bf_write.m_iCurBit w) 7 <> 0 \/
  bf_write.m_nDataBits w < bf_write.m_iCurBit w + 80 ->
  exists (w' : bf_write.t) (n : Z),
    bf_write.WriteVarInt64 (10 + extra) w v = Some w' /\
    bf_write.ByteSizeVarInt64 (10 + extra) v = Some n /\
    1 <= n <= 10 /\
    bf_write.m_iCurBit w' = bf_write.m_iCurBit w + 8 * n /\
    bf_write.m_bOverflow w' = bf_write.m_bOverflow w /\
    bf_read.ReadVarInt64 (11 + extra) (reader_of w' (bf_write.m_iCurBit w))
    = Some (v, bf_read.with_cur (reader_of w' (bf_write.m_iCurBit w))
                 (bf_write.m_iCurBit w + 8 * n)).
Proof.
  intros Hwf Hcur Hlen Hfit Hv Hslow.
  assert (Hs : (Z.land (bf_write.m_iCurBit w) 7 =? 0) &&
               (bf_write.m_iCurBit w + kMaxVarintBytes * 8 <=? bf_write.m_nDataBits w)
               = false).
  { unfold kMaxVarintBytes. apply andb_false_iff.
    destruct Hslow as [Hs|Hs]; [left; apply Z.eqb_neq; exact Hs | right; apply Z.leb_gt; lia]. }
  destruct (VarInt64_roundtrip_unaligned w v extra Hwf Hcur Hlen Hfit Hv Hs)
    as (w' & E & Bs & C & O & R).
  exists w', (varint_len v).
  split; [exact E|]. split; [exact Bs|].
  split; [apply varint_len_u64; exact Hv|].
  split; [exact C|]. split; [exact O|].
  rewrite <- C. exact R.
Qed.

Lemma WriteVarInt64_bytewise_then_ReadVarInt64_witness :
  let w := bf_write.SeekToBit (bf_write.create (zero_buffer 4) 16 (-1)) 5 in
  exists (w' : bf_write.t) (n : Z),
    bf_write.WriteVarInt64 10 w 16384 = Some w' /\
    bf_write.ByteSizeVarInt64 10 16384 = Some n /\
    1 <= n <= 10 /\
    bf_write.m_iCurBit w' = 5 + 8 * n /\
    bf_write.m_bOverflow w' = false /\
    bf_read.ReadVarInt64 11 (reader_of w' 5)
    = Some (16384, bf_read.with_cur (reader_of w' 5) (5 + 8 * n)).
Proof.
  intros w.
  apply (WriteVarInt64_bytewise_then_ReadVarInt64 w 16384 0).
  - repeat constructor; lia.
  - vm_compute. discriminate.
  - vm_compute. discriminate.
  - vm_compute. discriminate.
  - lia.
  - left. vm_compute. discriminate.
Defined.

(** X4.  [ByteSizeVarInt32] and [ByteSizeVarInt64] return after at most 5
    and 10 rounds of their loop, with the number of 7-bit groups of the
    value: [ceil(bits_needed / 7)], at least 1, at most 5 for a [uint32]
    and at most 10 for a [uint64]; the result is 1 exactly for the values
    up to 127. *)
Theorem ByteSizeVarInt_closed_form (data : Z) (extra : nat) :
  0 <= data < 2 ^ 64 ->
  bf_write.ByteSizeVarInt64 (10 + extra) data = Some (Z.max 1 ((bits_needed data + 6) / 7)) /\
  1 <= Z.max 1 ((bits_needed data + 6) / 7) <= 10 /\
  (Z.max 1 ((bits_needed data + 6) / 7) = 1 <-> data <= 127) /\
  (data < 2 ^ 32 ->
   bf_write.ByteSizeVarInt32 (5 + extra) data = Some (Z.max 1 ((bits_needed data + 6) / 7)) /\
   Z.max 1 ((bits_needed data + 6) / 7) <= 5).
Proof.
  intros Hd. fold (varint_len data).
  split; [apply ByteSizeVarInt64_len; lia|].
  split; [apply varint_len_u64; exact Hd|].
  split.
  - split.
    + intros H1. destruct (Z_le_gt_dec data 127) as [Hle|Hgt]; [exact Hle|].
      exfalso.
      assert (varint_len data = 1 + varint_len (Z.shiftr data 7))
        by (apply varint_len_step; lia).
      pose proof (varint_len_pos (Z.shiftr data 7)). lia.
    + intros Hle. apply varint_len_small. lia.
  - intros H32. split; [apply ByteSizeVarInt32_len; lia|].
    apply varint_len_u32. lia.
Qed.

Lemma ByteSizeVarInt_closed_form_witness :
  bf_write.ByteSizeVarInt64 10 (2 ^ 32 - 1)
    = Some (Z.max 1 ((bits_needed (2 ^ 32 - 1) + 6) / 7)) /\
  1 <= Z.max 1 ((bits_needed (2 ^ 32 - 1) + 6) / 7) <= 10 /\
  (Z.max 1 ((bits_needed (2 ^ 32 - 1) + 6) / 7) = 1 <-> 2 ^ 32 - 1 <= 127) /\
  (2 ^ 32 - 1 < 2 ^ 32 ->
   bf_write.ByteSizeVarInt32 5 (2 ^ 32 - 1)
     = Some (Z.max 1 ((bits_needed (2 ^ 32 - 1) + 6) / 7)) /\
   Z.max 1 ((bits_needed (2 ^ 32 - 1) + 6) / 7) <= 5).
Proof.
  apply (ByteSizeVarInt_closed_form (2 ^ 32 - 1) 0). lia.
Defined.

(** ** The mask tables *)

(** X5.  The tables that [CBitWriteMasksInit] fills: the entry of
    [g_BitWriteMasks] for a start bit [s] and a width [b] is the 32-bit
    mask of the bits outside the field [s .. s+b-1] (the bits a merge must
    keep), and the entry of [g_ExtraMasks] for [n] is the mask of the low
    [n] bits, [2^n - 1]. *)
Theorem mask_tables (s b n : Z) :
  0 <= s < 32 -> 0 <= b <= 32 -> 0 <= n <= 32 ->
  (exists row m,
     g_BitWriteMasks !! Z.to_nat s = Some row /\
     row !! Z.to_nat b = Some m /\
     0 <= m < 2 ^ 32 /\
     forall k, 0 <= k < 32 -> Z.testbit m k = negb ((s <=? k) && (k <? s + b))) /\
  g_ExtraMasks !! Z.to_nat n = Some (2 ^ n - 1).
Proof.
  intros Hs Hb Hn. split.
  - pose proof (BitWriteMasks_at_range s b Hs Hb) as Hr.
    pose proof (BitWriteMasks_at_testbit s b) as Ht.
    unfold BitWriteMasks_at in Hr, Ht.
    assert (Hrow : exists row, g_BitWriteMasks !! Z.to_nat s = Some row /\ length row = 33%nat).
    { unfold g_BitWriteMasks. rewrite list_lookup_fmap.
      destruct (seqZ 0 32 !! Z.to_nat s) as [x|] eqn:E.
      - eexists. split; [reflexivity|]. rewrite length_map, length_seqZ. reflexivity.
      - apply lookup_ge_None in E. rewrite length_seqZ in E. lia. }
    destruct Hrow as (row & Erow & Lrow).
    rewrite Erow in Hr, Ht. cbn [default] in Hr, Ht. unfold id in Hr, Ht.
    destruct (row !! Z.to_nat b) as [m|] eqn:Em.
    + cbv [default from_option id] in Hr, Ht. exists row, m.
      split; [exact Erow|]. split; [exact Em|]. split; [exact Hr|].
      intros k Hk. rewrite Ht by lia.
      destruct (Z.ltb_spec k s), (Z.leb_spec (s + b) k), (Z.leb_spec s k),
        (Z.ltb_spec k (s + b)); try lia; reflexivity.
    + apply lookup_ge_None in Em. lia.
  - pose proof (ExtraMasks_at_ones n Hn) as H. unfold ExtraMasks_at in H.
    destruct (g_ExtraMasks !! Z.to_nat n) as [m|] eqn:E.
    + cbv [default from_option id] in H. rewrite H, Z.ones_equiv. reflexivity.
    + apply lookup_ge_None in E. change (length g_ExtraMasks) with 33%nat in E. lia.
Qed.

Lemma mask_tables_witness :
  (exists row m,
     g_BitWriteMasks !! Z.to_nat 28 = Some row /\
     row !! Z.to_nat 9 = Some m /\
     0 <= m < 2 ^ 32 /\
     forall k, 0 <= k < 32 -> Z.testbit m k = negb ((28 <=? k) && (k <? 28 + 9))) /\
  g_ExtraMasks !! Z.to_nat 32 = Some (2 ^ 32 - 1).
Proof. apply (mask_tables 28 9 32); lia. Defined.

(** ** Fixed-width integers *)

Lemma i32_u32 (v : Z) : - 2 ^ 31 <= v < 2 ^ 31 -> i32 (u32 v) = v.
Proof.
  intros Hv. unfold i32, u32. rewrite Zplus_mod_idemp_l.
  rewrite Z.mod_small by lia. lia.
Qed.

Lemma u32_i32 (v : Z) : 0 <= v < 2 ^ 32 -> u32 (i32 v) = v.
Proof.
  intros Hv. unfold i32, u32.
  rewrite Zminus_mod_idemp_l.
  replace (v + 2 ^ 31 - 2 ^ 31) with v by lia. apply Z.mod_small. exact Hv.
Qed.

Lemma i32_range (v : Z) : - 2 ^ 31 <= i32 v < 2 ^ 31.
Proof. unfold i32. pose proof (Z.mod_pos_bound (v + 2 ^ 31) (2 ^ 32) ltac:(lia)). lia. Qed.

(** X6.  [WriteBitLong] followed by [ReadBitLong] with the same width and
    the same signedness returns the [unsigned int] that was passed: for
    every unsigned value below [2^numbits], and, with [bSigned], for every
    [unsigned int] whose value as an [int] fits [numbits] two's-complement
    bits (so a negative number comes back with its upper bits set again).
    The reader ends [numbits] after the start. *)
Theorem WriteBitLong_then_ReadBitLong (w : bf_write.t) (data numbits : Z) (bSigned : bool) :
  wf_buffer (bf_write.m_pData w) ->
  0 <= bf_write.m_iCurBit w ->
  1 <= numbits <= 32 ->
  bf_write.m_iCurBit w + numbits <= bf_write.m_nDataBits w ->
  bf_write.m_nDataBits w <= 32 * Z.of_nat (length (bf_write.m_pData w)) ->
  0 <= data < 2 ^ 32 ->
  (if bSigned then - 2 ^ (numbits - 1) <= i32 data < 2 ^ (numbits - 1)
   else data < 2 ^ numbits) ->
  let w' := bf_write.WriteBitLong w data numbits bSigned in
  let res := bf_read.ReadBitLong (reader_of w' (bf_write.m_iCurBit w)) numbits bSigned in
  fst res = data /\
  bf_read.m_iCurBit (snd res) = bf_write.m_iCurBit w + numbits /\
  bf_write.m_iCurBit w' = bf_write.m_iCurBit w + numbits /\
  bf_read.m_bOverflow (snd res) = false /\
  bf_write.m_bOverflow w' = bf_write.m_bOverflow w.
Proof.
  intros Hwf Hcur Hn Hfit Hlen Hd Hv w' res. subst w' res.
  unfold bf_write.WriteBitLong, bf_read.ReadBitLong. destruct bSigned.
  - rewrite WriteSBitLong_fits by assumption.
    unfold bf_read.ReadSBitLong.
    rewrite Read_Write_UBitLong by assumption.
    rewrite WriteUBitLong_cur, WriteUBitLong_overflow by lia.
    cbn [fst snd bf_read.m_iCurBit bf_read.with_cur bf_read.m_bOverflow].
    rewrite land_u32_ones by lia.
    rewrite (sign_fix (i32 data) numbits Hn Hv).
    rewrite u32_i32 by exact Hd. repeat split; reflexivity.
  - rewrite Read_Write_UBitLong by assumption.
    rewrite WriteUBitLong_cur, WriteUBitLong_overflow by lia.
    cbn [fst snd bf_read.m_iCurBit bf_read.with_cur bf_read.m_bOverflow].
    rewrite Z.land_ones by lia. rewrite Z.mod_small by lia. repeat split; reflexivity.
Qed.

Lemma WriteBitLong_then_ReadBitLong_witness :
  let w := bf_write.SeekToBit (bf_write.create (zero_buffer 4) 16 (-1)) 27 in
  let w' := bf_write.WriteBitLong w (2 ^ 32 - 5) 9 true in
  let res := bf_read.ReadBitLong (reader_of w' 27) 9 true in
  fst res = 2 ^ 32 - 5 /\
  bf_read.m_iCurBit (snd res) = 27 + 9 /\
  bf_write.m_iCurBit w' = 27 + 9 /\
  bf_read.m_bOverflow (snd res) = false /\
  bf_write.m_bOverflow w' = false.
Proof.
  intros w.
  apply (WriteBitLong_then_ReadBitLong w (2 ^ 32 - 5) 9 true).
  - repeat constructor; lia.
  - vm_compute. discriminate.
  - lia.
  - vm_compute. discriminate.
  - vm_compute. discriminate.
  - lia.
  - vm_compute. split; [discriminate | reflexivity].
Defined.

Lemma i64_halves (v : Z) :
  - 2 ^ 63 <= v < 2 ^ 63 ->
  i64 (Z.lor (u32 v) (Z.shiftl (u32 (Z.shiftr v 32)) 32)) = v.
Proof.
  intros Hv.
  assert (E : Z.lor (u32 v) (Z.shiftl (u32 (Z.shiftr v 32)) 32) = u64 v).
  { apply Z.bits_inj'. intros k Hk.
    rewrite Z.lor_spec, u32_testbit.
    unfold u64. rewrite <- Z.land_ones, Z.land_spec, ones_testbit by lia.
    destruct (Z.ltb_spec k 32).
    - rewrite Z.shiftl_spec_low by lia.
      destruct (Z.ltb_spec k 64); [|lia]. simpl. rewrite orb_false_r, andb_true_r. reflexivity.
    - rewrite Z.shiftl_spec, u32_testbit, Z.shiftr_spec by lia. simpl.
      replace (k - 32 + 32) with k by lia.
      destruct (Z.ltb_spec (k - 32) 32), (Z.ltb_spec k 64); try lia; simpl;
        rewrite ?andb_true_r, ?andb_false_r; reflexivity. }
  rewrite E. unfold i64, u64. rewrite Zplus_mod_idemp_l.
  rewrite Z.mod_small by lia. lia.
Qed.

Lemma lor_comm_halves (lo hi : Z) :
  Z.lor (Z.shiftl hi 32) lo = Z.lor lo (Z.shiftl hi 32).
Proof. apply Z.lor_comm. Qed.

(** X7.  [WriteLongLong] followed by [ReadLongLong] returns the [int64]
    written, for every [int64], whatever the byte order of the writing
    host and of the reading host: the stream always carries the low 32
    bits first and the high 32 bits second.  Both cursors end 64 bits
    after the start. *)
Theorem WriteLongLong_then_ReadLongLong (bigW bigR : bool) (w : bf_write.t) (v : Z) :
  wf_buffer (bf_write.m_pData w) ->
  0 <= bf_write.m_iCurBit w ->
  bf_write.m_iCurBit w + 64 <= bf_write.m_nDataBits w ->
  bf_write.m_nDataBits w <= 32 * Z.of_nat (length (bf_write.m_pData w)) ->
  - 2 ^ 63 <= v < 2 ^ 63 ->
  let w' := bf_write.WriteLongLong bigW w v in
  let r := reader_of w' (bf_write.m_iCurBit w) in
  bf_write.m_iCurBit w' = bf_write.m_iCurBit w + 64 /\
  bf_write.m_bOverflow w' = bf_write.m_bOverflow w /\
  fst (bf_read.ReadUBitLong r 32) = u32 v /\
  bf_read.ReadLongLong bigR r = (v, bf_read.with_cur r (bf_write.m_iCurBit w + 64)).
Proof.
  intros Hwf Hcur Hfit Hlen Hv w' r.
  set (c := bf_write.m_iCurBit w) in *. set (D := bf_write.m_nDataBits w) in *.
  set (lo := u32 v). set (hi := u32 (Z.shiftr v 32)).
  assert (Hlo : 0 <= lo < 2 ^ 32) by apply u32_range.
  assert (Hhi : 0 <= hi < 2 ^ 32) by apply u32_range.
  assert (Ew : w' = bf_write.WriteUBitLong (bf_write.WriteUBitLong w lo 32) hi 32).
  { subst w'. unfold bf_write.WriteLongLong. destruct bigW; reflexivity. }
  assert (G0 : wf_buffer (bf_write.m_pData w) /\ 0 <= bf_write.m_iCurBit w /\
               bf_write.m_nDataBits w = D /\
               D <= 32 * Z.of_nat (length (bf_write.m_pData w))) by (repeat split; auto).
  destruct (WriteUBitLong_step w lo 32 c D G0 eq_refl ltac:(lia) ltac:(lia))
    as (G1 & C1 & O1 & B1).
  set (w1 := bf_write.WriteUBitLong w lo 32) in *.
  destruct (WriteUBitLong_step w1 hi 32 (c + 32) D G1 C1 ltac:(lia) ltac:(lia))
    as (G2 & C2 & O2 & B2).
  rewrite <- Ew in G2, C2, O2, B2.
  destruct (reader_of_good w' D c G2 Hcur ltac:(lia)) as (Rwf & Rd & Rc & RD).
  fold r in Rwf, Rd, Rc, RD.
  assert (R1 : bf_read.ReadUBitLong r 32 = (lo, bf_read.with_cur r (c + 32))).
  { rewrite <- (with_cur_same r) at 1. rewrite Rc.
    apply ReadUBitLong_at; auto; try lia.
    intros j Hj. rewrite Rd, B2, B1 by lia.
    replace ((c + 32 <=? c + j) && (c + j <? c + 32 + 32)) with false
      by (symmetry; apply andb_false_iff; left; apply Z.leb_gt; lia).
    replace ((c <=? c + j) && (c + j <? c + 32)) with true
      by (symmetry; apply andb_true_iff; split; [apply Z.leb_le | apply Z.ltb_lt]; lia).
    f_equal. lia. }
  assert (R2 : bf_read.ReadUBitLong (bf_read.with_cur r (c + 32)) 32
               = (hi, bf_read.with_cur r (c + 32 + 32))).
  { apply ReadUBitLong_at; auto; try lia.
    intros j Hj. rewrite Rd, B2 by lia.
    replace ((c + 32 <=? c + 32 + j) && (c + 32 + j <? c + 32 + 32)) with true
      by (symmetry; apply andb_true_iff; split; [apply Z.leb_le | apply Z.ltb_lt]; lia).
    f_equal. lia. }
  split; [lia|]. split; [congruence|]. split; [rewrite R1; reflexivity|].
  unfold bf_read.ReadLongLong. rewrite R1, R2.
  replace (c + 32 + 32) with (c + 64) by lia. f_equal.
  destruct bigR; cbn; rewrite ?lor_comm_halves; apply i64_halves; exact Hv.
Qed.

Lemma WriteLongLong_then_ReadLongLong_witness :
  let w := bf_write.SeekToBit (bf_write.create (repeat 0xFFFFFFFF 4) 16 (-1)) 13 in
  let w' := bf_write.WriteLongLong false w (- 2 ^ 40 - 7) in
  let r := reader_of w' 13 in
  bf_write.m_iCurBit w' = 13 + 64 /\
  bf_write.m_bOverflow w' = false /\
  fst (bf_read.ReadUBitLong r 32) = u32 (- 2 ^ 40 - 7) /\
  bf_read.ReadLongLong true r = (- 2 ^ 40 - 7, bf_read.with_cur r (13 + 64)).
Proof.
  intros w.
  apply (WriteLongLong_then_ReadLongLong false true w (- 2 ^ 40 - 7)).
  - repeat constructor; lia.
  - vm_compute. discriminate.
  - vm_compute. discriminate.
  - vm_compute. discriminate.
  - lia.
Defined.

(** ** Strings *)

Lemma i8_u8 (ch : Z) : - 2 ^ 7 <= ch < 2 ^ 7 -> i8 (u8 ch) = ch.
Proof.
  intros H. unfold i8, u8. rewrite Zplus_mod_idemp_l.
  rewrite Z.mod_small by lia. lia.
Qed.

Lemma u8_range (x : Z) : 0 <= u8 x < 2 ^ 8.
Proof. unfold u8. apply Z.mod_pos_bound. lia. Qed.

Lemma WriteChar_as_field (w : bf_write.t) (ch : Z) :
  - 2 ^ 7 <= ch < 2 ^ 7 ->
  bf_write.WriteChar w ch = bf_write.WriteUBitLong w (u32 ch) 8.
Proof. intros H. unfold bf_write.WriteChar. apply WriteSBitLong_fits; lia. Qed.

Lemma WriteString_loop_fields (s : list Z) :
  forall (w : bf_write.t) (c D : Z),
    (wf_buffer (bf_write.m_pData w) /\ 0 <= bf_write.m_iCurBit w /\
     bf_write.m_nDataBits w = D /\
     D <= 32 * Z.of_nat (length (bf_write.m_pData w))) ->
    bf_write.m_iCurBit w = c ->
    Forall (fun ch => - 2 ^ 7 <= ch < 2 ^ 7 /\ ch <> 0) s ->
    c + 8 * Z.of_nat (length s) <= D ->
    let w' := bf_write.WriteString_loop w s in
    (wf_buffer (bf_write.m_pData w') /\ 0 <= bf_write.m_iCurBit w' /\
     bf_write.m_nDataBits w' = D /\
     D <= 32 * Z.of_nat (length (bf_write.m_pData w'))) /\
    bf_write.m_iCurBit w' = c + 8 * Z.of_nat (length s) /\
    bf_write.m_bOverflow w' = bf_write.m_bOverflow w /\
    (forall (k : nat) (j : Z), (k < length s)%nat -> 0 <= j < 8 ->
       bit_at (bf_write.m_pData w') (c + 8 * Z.of_nat k + j)
       = Z.testbit (default 0 (s !! k)) j) /\
    (forall i, 0 <= i -> ~ (c <= i < c + 8 * Z.of_nat (length s)) ->
       bit_at (bf_write.m_pData w') i = bit_at (bf_write.m_pData w) i).
Proof.
  induction s as [|ch rest IH]; intros w c D G C Hs Hfit.
  - cbn [bf_write.WriteString_loop length]. cbv zeta.
    split; [exact G|]. split; [simpl; lia|]. split; [reflexivity|].
    split; [intros k j Hk; simpl in Hk; lia|]. intros; reflexivity.
  - apply Forall_cons in Hs. destruct Hs as [[Hr Hnz] Hs].
    assert (Ht : truthy ch = true).
    { unfold truthy. destruct (Z.eqb_spec ch 0); [contradiction|reflexivity]. }
    cbn [bf_write.WriteString_loop]. rewrite Ht.
    cbn [length] in *. rewrite WriteChar_as_field by exact Hr.
    destruct G as (G1 & G2 & G3 & G4).
    destruct (WriteUBitLong_step w (u32 ch) 8 c D (conj G1 (conj G2 (conj G3 G4))) C
                ltac:(lia) ltac:(lia)) as (G' & C' & O' & B').
    set (w1 := bf_write.WriteUBitLong w (u32 ch) 8) in *.
    destruct (IH w1 (c + 8) D G' C' Hs ltac:(lia)) as (G2' & C2 & O2 & F2 & Fr2).
    cbv zeta. split; [exact G2'|]. split; [lia|]. split; [congruence|]. split.
    + intros k j Hk Hj. destruct k as [|k].
      * rewrite Fr2 by lia. rewrite B' by lia.
        replace ((c <=? c + 8 * Z.of_nat 0 + j) && (c + 8 * Z.of_nat 0 + j <? c + 8)) with true
          by (symmetry; apply andb_true_iff; split; [apply Z.leb_le | apply Z.ltb_lt]; lia).
        replace (c + 8 * Z.of_nat 0 + j - c) with j by lia.
        cbn. rewrite u32_testbit. destruct (Z.ltb_spec j 32); [reflexivity|lia].
      * replace (c + 8 * Z.of_nat (S k) + j) with (c + 8 + 8 * Z.of_nat k + j) by lia.
        rewrite F2 by lia. reflexivity.
    + intros i Hi Hout. rewrite Fr2 by lia. rewrite B' by lia.
      replace ((c <=? i) && (i <? c + 8)) with false; [reflexivity|].
      symmetry. apply andb_false_iff.
      destruct (Z.leb_spec c i); [right; apply Z.ltb_ge; lia | left; reflexivity].
Qed.

Lemma ReadChar_at (r0 : bf_read.t) (p ch : Z) :
  wf_buffer (bf_read.m_pData r0) -> 0 <= p ->
  p + 8 <= bf_read.m_nDataBits r0 ->
  - 2 ^ 7 <= ch < 2 ^ 7 ->
  (forall j, 0 <= j < 8 -> bit_at (bf_read.m_pData r0) (p + j) = Z.testbit ch j) ->
  bf_read.ReadChar (bf_read.with_cur r0 p) = (ch, bf_read.with_cur r0 (p + 8)).
Proof.
  intros Hwf Hp Hfit Hch Hb. unfold bf_read.ReadChar.
  rewrite (ReadUBitLong_at r0 p 8 (u8 ch)); auto; try lia.
  - rewrite i8_u8 by exact Hch. reflexivity.
  - apply u8_range.
  - intros j Hj. rewrite Hb by exact Hj. rewrite u8_testbit.
    destruct (Z.ltb_spec j 8); [reflexivity|lia].
Qed.

Lemma string_ahead_fields (bLine : bool) (s : list Z) :
  forall (r0 : bf_read.t) (c : Z) (fuel : nat),
    wf_buffer (bf_read.m_pData r0) -> 0 <= c ->
    c + 8 * (Z.of_nat (length s) + 1) <= bf_read.m_nDataBits r0 ->
    Forall (fun ch => (- 2 ^ 7 <= ch < 2 ^ 7 /\ ch <> 0) /\ (bLine = true -> ch <> 10)) s ->
    (forall (k : nat) (j : Z), (k < length s)%nat -> 0 <= j < 8 ->
       bit_at (bf_read.m_pData r0) (c + 8 * Z.of_nat k + j)
       = Z.testbit (default 0 (s !! k)) j) ->
    (forall j, 0 <= j < 8 ->
       bit_at (bf_read.m_pData r0) (c + 8 * Z.of_nat (length s) + j) = false) ->
    (length s < fuel)%nat ->
    string_ahead fuel (bf_read.with_cur r0 c) bLine
    = Some (s, bf_read.with_cur r0 (c + 8 * (Z.of_nat (length s) + 1))).
Proof.
  induction s as [|ch rest IH]; intros r0 c fuel Hwf Hc Hfit Hs Hf Hz Hfuel;
    (destruct fuel as [|fuel]; [simpl in Hfuel; lia|]); cbn [string_ahead].
  - cbn [length] in *.
    assert (RC : bf_read.ReadChar (bf_read.with_cur r0 c) = (0, bf_read.with_cur r0 (c + 8))).
    { apply ReadChar_at; [exact Hwf | exact Hc | lia | lia |].
      intros j Hj. rewrite Z.bits_0. specialize (Hz j Hj).
      replace (c + 8 * Z.of_nat 0 + j) with (c + j) in Hz by lia. exact Hz. }
    rewrite RC. change (0 =? 0) with true. cbv iota.
    replace (c + 8 * (Z.of_nat 0 + 1)) with (c + 8) by lia. reflexivity.
  - apply Forall_cons in Hs. destruct Hs as [[[Hr Hnz] Hnl] Hs]. cbn [length] in *.
    assert (RC : bf_read.ReadChar (bf_read.with_cur r0 c) = (ch, bf_read.with_cur r0 (c + 8))).
    { apply ReadChar_at; [exact Hwf | exact Hc | lia | exact Hr |].
      intros j Hj. specialize (Hf 0%nat j ltac:(lia) Hj).
      replace (c + 8 * Z.of_nat 0 + j) with (c + j) in Hf by lia. exact Hf. }
    rewrite RC.
    destruct (Z.eqb_spec ch 0) as [->|_]; [contradiction|].
    assert (Hl : bLine && (ch =? 10) = false).
    { destruct bLine; [|reflexivity]. simpl. apply Z.eqb_neq. auto. }
    rewrite Hl.
    assert (SA : string_ahead fuel (bf_read.with_cur r0 (c + 8)) bLine
                 = Some (rest, bf_read.with_cur r0 (c + 8 + 8 * (Z.of_nat (length rest) + 1)))).
    { apply IH; [exact Hwf | lia | lia | exact Hs | | | lia].
      - intros k j Hk Hj. specialize (Hf (S k) j ltac:(lia) Hj).
        replace (c + 8 + 8 * Z.of_nat k + j) with (c + 8 * Z.of_nat (S k) + j) by lia.
        exact Hf.
      - intros j Hj. specialize (Hz j Hj).
        replace (c + 8 + 8 * Z.of_nat (length rest) + j)
          with (c + 8 * Z.of_nat (S (length rest)) + j) by lia.
        exact Hz. }
    rewrite SA. cbn [mbind option_bind]. cbn beta iota.
    replace (c + 8 + 8 * (Z.of_nat (length rest) + 1))
      with (c + 8 * (Z.of_nat (S (length rest)) + 1)) by lia. reflexivity.
Qed.

(** X8.  [WriteString] followed by [ReadString]: for every C string [s]
    (characters that are not zero, and not a newline when [bLine] is set)
    written with room for its characters and the terminator, [WriteString]
    returns true and advances the cursor by [8 * (length s + 1)] bits; a
    [ReadString] from where the writer stood, with a destination of
    [maxLen] characters, stores the first [maxLen - 1] characters of [s]
    and a zero, reports the number stored, consumes the whole string with
    its terminator, and returns true exactly when [s] fits, that is when
    [length s <= maxLen - 1]. *)
Theorem WriteString_then_ReadString (w : bf_write.t) (s pStr : list Z) (maxLen : Z)
    (bLine : bool) (fuel : nat) :
  wf_buffer (bf_write.m_pData w) ->
  0 <= bf_write.m_iCurBit w ->
  bf_write.m_nDataBits w <= 32 * Z.of_nat (length (bf_write.m_pData w)) ->
  bf_write.m_iCurBit w + 8 * (Z.of_nat (length s) + 1) <= bf_write.m_nDataBits w ->
  bf_write.m_bOverflow w = false ->
  Forall (fun ch => - 2 ^ 7 <= ch < 2 ^ 7 /\ ch <> 0 /\ (bLine = true -> ch <> 10)) s ->
  1 <= maxLen <= Z.of_nat (length pStr) ->
  (length s < fuel)%nat ->
  exists (w' : bf_write.t) (r' : bf_read.t),
    let M := Z.to_nat (maxLen - 1) in
    let n := Nat.min (length s) M in
    bf_write.WriteString w (Some s) = (true, w') /\
    bf_write.m_iCurBit w' = bf_write.m_iCurBit w + 8 * (Z.of_nat (length s) + 1) /\
    bf_read.ReadString fuel (reader_of w' (bf_write.m_iCurBit w)) pStr maxLen bLine
    = Some ((length s <=? M)%nat, take M s ++ 0 :: drop (S n) pStr, Z.of_nat n, r') /\
    bf_read.m_iCurBit r' = bf_write.m_iCurBit w' /\
    bf_read.m_bOverflow r' = false.
Proof.
  intros Hwf Hcur Hlen Hfit Hov Hs HmaxLen Hfuel.
  set (c := bf_write.m_iCurBit w) in *. set (D := bf_write.m_nDataBits w) in *.
  assert (Hs1 : Forall (fun ch => - 2 ^ 7 <= ch < 2 ^ 7 /\ ch <> 0) s).
  { eapply Forall_impl; [exact Hs|]. intros ch (H1 & H2 & _). split; assumption. }
  assert (Hs2 : Forall (fun ch => (- 2 ^ 7 <= ch < 2 ^ 7 /\ ch <> 0) /\ (bLine = true -> ch <> 10)) s).
  { eapply Forall_impl; [exact Hs|]. intros ch (H1 & H2 & H3). split; [split; assumption | assumption]. }
  destruct (WriteString_loop_fields s w c D ltac:(repeat split; auto) eq_refl Hs1 ltac:(lia))
    as (G1 & C1 & O1 & F1 & Fr1).
  set (w1 := bf_write.WriteString_loop w s) in *.
  assert (E0 : bf_write.WriteChar w1 0 = bf_write.WriteUBitLong w1 (u32 0) 8)
    by (apply WriteChar_as_field; lia).
  destruct (WriteUBitLong_step w1 (u32 0) 8 (c + 8 * Z.of_nat (length s)) D G1 C1
              ltac:(lia) ltac:(lia)) as (G2 & C2 & O2 & B2).
  rewrite <- E0 in G2, C2, O2, B2.
  set (w2 := bf_write.WriteChar w1 0) in *.
  exists w2, (bf_read.with_cur (reader_of w2 c) (c + 8 * (Z.of_nat (length s) + 1))).
  cbv zeta.
  destruct (reader_of_good w2 D c G2 Hcur ltac:(lia)) as (Rwf & Rd & Rc & RD).
  split.
  { unfold bf_write.WriteString. fold w1. fold w2. unfold bf_write.IsOverflowed.
    rewrite O2, O1, Hov. reflexivity. }
  split; [lia|].
  assert (SA : string_ahead fuel (reader_of w2 c) bLine
               = Some (s, bf_read.with_cur (reader_of w2 c)
                            (c + 8 * (Z.of_nat (length s) + 1)))).
  { rewrite <- (with_cur_same (reader_of w2 c)) at 1. rewrite Rc.
    apply string_ahead_fields; auto; try lia.
    - intros k j Hk Hj. rewrite Rd, B2 by lia.
      replace ((c + 8 * Z.of_nat (length s) <=? c + 8 * Z.of_nat k + j) && _) with false
        by (symmetry; apply andb_false_iff; left; apply Z.leb_gt; lia).
      apply F1; assumption.
    - intros j Hj. rewrite Rd, B2 by lia.
      replace ((c + 8 * Z.of_nat (length s) <=? c + 8 * Z.of_nat (length s) + j) &&
               (c + 8 * Z.of_nat (length s) + j <? c + 8 * Z.of_nat (length s) + 8))
        with true
        by (symmetry; apply andb_true_iff; split; [apply Z.leb_le | apply Z.ltb_lt]; lia).
      apply Z.bits_0. }
  split.
  { rewrite (ReadString_spec maxLen bLine (Z.to_nat (maxLen - 1)) ltac:(lia) fuel _ _ _ pStr SA)
      by lia.
    cbn [bf_read.m_bOverflow bf_read.with_cur].
    change (bf_read.m_bOverflow (reader_of w2 c)) with false. reflexivity. }
  split; [cbn; lia | reflexivity].
Qed.

Lemma WriteString_then_ReadString_witness :
  let w := bf_write.SeekToBit (bf_write.create (repeat 0xFFFFFFFF 4) 16 (-1)) 5 in
  let s : list Z := [104; 105; -1] in
  let pStr : list Z := [7; 7; 7; 7] in
  exists (w' : bf_write.t) (r' : bf_read.t),
    let M := Z.to_nat (3 - 1) in
    let n := Nat.min (length s) M in
    bf_write.WriteString w (Some s) = (true, w') /\
    bf_write.m_iCurBit w' = 5 + 8 * (Z.of_nat (length s) + 1) /\
    bf_read.ReadString 4 (reader_of w' 5) pStr 3 true
    = Some ((length s <=? M)%nat, take M s ++ 0 :: drop (S n) pStr, Z.of_nat n, r') /\
    bf_read.m_iCurBit r' = bf_write.m_iCurBit w' /\
    bf_read.m_bOverflow r' = false.
Proof.
  intros w s pStr.
  apply (WriteString_then_ReadString w s pStr 3 true 4).
  - repeat constructor; lia.
  - vm_compute. discriminate.
  - vm_compute. discriminate.
  - vm_compute. discriminate.
  - reflexivity.
  - repeat constructor; try lia; intros _; lia.
  - simpl. lia.
  - simpl. lia.
Defined.

(** X9.  [ReadAndAllocateString]: with fuel beyond the bits left in the
    stream it returns; the new array holds the first 2047 characters
    ahead of the reader up to the terminator, then a zero, and nothing
    else (so it does not depend on what the local array held), and
    [*pOverflow] is set exactly when the reader ended overflowed or the
    string had more than 2047 characters. *)
Theorem ReadAndAllocateString_result (fuel : nat) (r : bf_read.t) (str0 : list Z) :
  length str0 = 2048%nat ->
  (Z.to_nat (bf_read.m_nDataBits r - bf_read.m_iCurBit r) < fuel)%nat ->
  exists (cs : list Z) (r' : bf_read.t),
    string_ahead fuel r false = Some (cs, r') /\
    bf_read.ReadAndAllocateString fuel r str0
    = Some (take 2047 cs ++ [0],
            bf_read.m_bOverflow r' || (2047 <? length cs)%nat, r') /\
    (length (take 2047 cs ++ [0%Z]) <= 2048)%nat.
Proof.
  intros Hlen Hfuel.
  destruct (string_ahead_terminates false fuel r Hfuel) as (cs & r' & E).
  exists cs, r'. split; [exact E|]. split.
  - unfold bf_read.ReadAndAllocateString.
    assert (HM : 2048 - 1 = Z.of_nat 2047) by reflexivity.
    assert (HL : (2047 < length str0)%nat) by (rewrite Hlen; apply Nat.lt_succ_diag_r).
    rewrite (ReadString_spec 2048 false 2047 HM fuel r cs r' str0 E HL).
    cbn [mbind option_bind]. cbn beta iota.
    assert (E1 : take (Z.to_nat (Z.of_nat (Nat.min (length cs) 2047) + 1))
                   (take 2047 cs ++ 0 :: drop (S (Nat.min (length cs) 2047)) str0)
                 = take 2047 cs ++ [0]).
    { replace (Z.to_nat (Z.of_nat (Nat.min (length cs) 2047) + 1))
        with (length (take 2047 cs) + 1)%nat by (rewrite length_take; lia).
      rewrite take_app_add'; [|reflexivity]. reflexivity. }
    assert (E2 : negb (negb (bf_read.m_bOverflow r') && (length cs <=? 2047)%nat)
                 = bf_read.m_bOverflow r' || (2047 <? length cs)%nat).
    { rewrite negb_andb, negb_involutive. f_equal.
      destruct (Nat.leb_spec (length cs) 2047) as [H1|H1],
        (Nat.ltb_spec 2047 (length cs)) as [H2|H2];
        try reflexivity; exfalso; clear - H1 H2; lia. }
    rewrite E1, E2. reflexivity.
  - rewrite length_app, length_take. cbn [length].
    pose proof (Nat.le_min_l 2047 (length cs)) as Hm. clear - Hm. lia.
Qed.

Lemma ReadAndAllocateString_result_witness :
  let r := bf_read.create [0x00636261] 4 (-1) in
  exists (cs : list Z) (r' : bf_read.t),
    string_ahead 33 r false = Some (cs, r') /\
    bf_read.ReadAndAllocateString 33 r (repeat 7 2048)
    = Some (take 2047 cs ++ [0],
            bf_read.m_bOverflow r' || (2047 <? length cs)%nat, r') /\
    (length (take 2047 cs ++ [0%Z]) <= 2048)%nat.
Proof.
  intros r.
  apply (ReadAndAllocateString_result 33 r (repeat 7 2048)).
  - apply repeat_length.
  - vm_compute. lia.
Defined.

(** Decides [wf_buffer] of a closed buffer by evaluating the buffer. *)
Ltac wf_by_compute :=
  match goal with
  | |- wf_buffer ?d =>
      let v := eval vm_compute in d in
      replace d with v by (vm_compute; reflexivity)
  end;
  repeat constructor; lia.

(** ** Reads inside the valid bits *)

Lemma ReadUBitLong_bits (r0 : bf_read.t) (q n : Z) :
  wf_buffer (bf_read.m_pData r0) -> 0 <= q -> 0 <= n <= 32 ->
  q + n <= bf_read.m_nDataBits r0 ->
  exists v,
    bf_read.ReadUBitLong (bf_read.with_cur r0 q) n = (v, bf_read.with_cur r0 (q + n)) /\
    0 <= v < 2 ^ n /\
    forall j, 0 <= j -> Z.testbit v j = (j <? n) && bit_at (bf_read.m_pData r0) (q + j).
Proof.
  intros Hwf Hq Hn Hfit.
  exists (fst (bf_read.ReadUBitLong (bf_read.with_cur r0 q) n)).
  destruct (Z.eq_dec n 0) as [->|Hnz].
  - unfold bf_read.ReadUBitLong. cbn [bf_read.m_iCurBit bf_read.with_cur bf_read.m_nDataBits].
    destruct (Z.gtb_spec (q + 0) (bf_read.m_nDataBits r0)); [lia|].
    cbn [fst]. rewrite ExtraMasks_at_ones by lia. change (Z.ones 0) with 0.
    rewrite Z.land_0_r. split; [reflexivity|]. split; [lia|].
    intros j Hj. rewrite Z.bits_0. destruct (Z.ltb_spec j 0); [lia|reflexivity].
  - split.
    + rewrite (surjective_pairing (bf_read.ReadUBitLong (bf_read.with_cur r0 q) n)) at 1.
      rewrite ReadUBitLong_state by (simpl; auto; lia). reflexivity.
    + split; [apply ReadUBitLong_range; lia|].
      intros j Hj. rewrite ReadUBitLong_testbit by (simpl; auto; lia). reflexivity.
Qed.

Lemma ReadOneBit_overflows (r : bf_read.t) :
  bf_read.m_nDataBits r <= bf_read.m_iCurBit r ->
  bf_read.ReadOneBit r = (0, bf_read.SetOverflowFlag r).
Proof.
  intros H. unfold bf_read.ReadOneBit.
  destruct (Z.geb_spec (bf_read.m_iCurBit r) (bf_read.m_nDataBits r)); [reflexivity|lia].
Qed.

Lemma ReadUBitLong_overflows (r : bf_read.t) (n : Z) :
  bf_read.m_nDataBits r < bf_read.m_iCurBit r + n ->
  bf_read.ReadUBitLong r n = (0, bf_read.SetOverflowFlag r).
Proof.
  intros H. unfold bf_read.ReadUBitLong.
  destruct (Z.gtb_spec (bf_read.m_iCurBit r + n) (bf_read.m_nDataBits r)); [reflexivity|lia].
Qed.

Lemma ReadUBitLong_fits (r : bf_read.t) (n : Z) :
  bf_read.m_iCurBit r + n <= bf_read.m_nDataBits r ->
  bf_read.ReadUBitLong r n
  = (fst (bf_read.ReadUBitLong r n), bf_read.with_cur r (bf_read.m_iCurBit r + n)).
Proof.
  intros H. unfold bf_read.ReadUBitLong.
  destruct (Z.gtb_spec (bf_read.m_iCurBit r + n) (bf_read.m_nDataBits r)); [lia|reflexivity].
Qed.

Lemma ReadOneBit_eq (r : bf_read.t) :
  bf_read.ReadOneBit r
  = if bf_read.m_iCurBit r >=? bf_read.m_nDataBits r then (0, bf_read.SetOverflowFlag r)
    else (b2z (bit_at (bf_read.m_pData r) (bf_read.m_iCurBit r)),
          bf_read.with_cur r (bf_read.m_iCurBit r + 1)).
Proof.
  destruct (Z.geb_spec (bf_read.m_iCurBit r) (bf_read.m_nDataBits r)).
  - apply ReadOneBit_overflows. lia.
  - apply ReadOneBit_in_range. lia.
Qed.

Lemma ReadUBitLong_eq (r : bf_read.t) (n : Z) :
  bf_read.ReadUBitLong r n
  = if bf_read.m_iCurBit r + n >? bf_read.m_nDataBits r then (0, bf_read.SetOverflowFlag r)
    else (fst (bf_read.ReadUBitLong r n), bf_read.with_cur r (bf_read.m_iCurBit r + n)).
Proof.
  destruct (Z.gtb_spec (bf_read.m_iCurBit r + n) (bf_read.m_nDataBits r)).
  - apply ReadUBitLong_overflows. lia.
  - apply ReadUBitLong_fits. lia.
Qed.

Lemma truthy_0 : truthy 0 = false.
Proof. reflexivity. Qed.

(** Runs the next read of the equation [E] symbolically: both outcomes of
    its bounds check, the impossible ones closed by arithmetic. *)
Ltac step_read E :=
  first [ rewrite ReadOneBit_eq in E
        | match type of E with
          | context [bf_read.ReadUBitLong ?r ?n] =>
              rewrite (ReadUBitLong_eq r n) in E;
              let v := fresh "v" in
              set (v := fst (bf_read.ReadUBitLong r n)) in E; clearbody v
          end ];
  cbn [bf_read.m_iCurBit bf_read.m_nDataBits bf_read.m_pData bf_read.m_bOverflow
       bf_read.with_cur bf_read.SetOverflowFlag] in E;
  match type of E with
  | context [?x >=? ?y] => destruct (Z.geb_spec x y)
  | context [?x >? ?y] => destruct (Z.gtb_spec x y)
  end;
  try lia;
  cbn beta iota in E; rewrite ?b2z_truthy, ?truthy_0 in E.

(** ** [ReadBitCoord] and [ReadBitCoordBits] *)

(** When [ReadBitCoord] ends without overflow, every one of its reads was
    inside the valid bits, and the reader has moved by the length of the
    encoding that the two flag bits announce. *)
Lemma ReadBitCoord_in_bounds (r : bf_read.t) :
  bf_read.m_bOverflow (snd (bf_read.ReadBitCoord r)) = false ->
  let c := bf_read.m_iCurBit r in
  let b0 := bit_at (bf_read.m_pData r) c in
  let b1 := bit_at (bf_read.m_pData r) (c + 1) in
  let L := 2 + (if b0 || b1
                then 1 + (if b0 then COORD_INTEGER_BITS else 0)
                       + (if b1 then COORD_FRACTIONAL_BITS else 0)
                else 0) in
  c + L <= bf_read.m_nDataBits r /\
  snd (bf_read.ReadBitCoord r) = bf_read.with_cur r (c + L).
Proof.
  intros Hfin c b0 b1 L.
  remember (bf_read.ReadBitCoord r) as res eqn:E. symmetry in E.
  unfold bf_read.ReadBitCoord in E. unfold COORD_INTEGER_BITS, COORD_FRACTIONAL_BITS in *.
  fold c in E.
  step_read E; fold c in E; step_read E; fold b0 b1 in E.
  all: destruct b0, b1; cbn [orb] in E; cbv iota in E.
  all: repeat (step_read E).
  all: subst res; cbn in Hfin; try discriminate Hfin.
  all: subst L; cbn [orb]; cbv iota; cbn [snd]; split; [lia|].
  all: unfold bf_read.with_cur; cbn [bf_read.m_pData bf_read.m_nDataBytes bf_read.m_nDataBits
         bf_read.m_bOverflow bf_read.m_bAssertOnOverflow bf_read.m_pDebugName];
       f_equal; lia.
Qed.

Lemma flags_and_field_testbit (v flags j : Z) :
  0 <= v -> 0 <= flags < 4 -> 0 <= j ->
  Z.testbit (v * 4 + flags) j = if j <? 2 then Z.testbit flags j else Z.testbit v (j - 2).
Proof.
  intros Hv Hf Hj.
  destruct (Z.ltb_spec j 2).
  - rewrite <- (Z.mod_pow2_bits_low (v * 4 + flags) 2 j) by lia.
    change (2 ^ 2) with 4. rewrite Z.add_comm, Z.mod_add by lia.
    rewrite Z.mod_small by lia. reflexivity.
  - replace j with (j - 2 + 2) at 1 by lia.
    rewrite <- Z.shiftr_spec by lia. rewrite Z.shiftr_div_pow2 by lia.
    change (2 ^ 2) with 4. f_equal.
    rewrite Z.add_comm, Z.div_add by lia. rewrite Z.div_small by lia. reflexivity.
Qed.

(** X10.  [ReadBitCoordBits] consumes exactly the bits of one
    coordinate: whenever [ReadBitCoord] reads a coordinate without
    overflow, [ReadBitCoordBits] from the same state ends in the very
    state [ReadBitCoord] ends in, between 2 and 22 bits further, and
    returns those bits as they stand in the stream, the first one as bit
    0. *)
Theorem ReadBitCoordBits_reads_one_coordinate (r : bf_read.t) :
  wf_buffer (bf_read.m_pData r) ->
  0 <= bf_read.m_iCurBit r ->
  bf_read.m_bOverflow (snd (bf_read.ReadBitCoord r)) = false ->
  let c := bf_read.m_iCurBit r in
  let c' := bf_read.m_iCurBit (snd (bf_read.ReadBitCoord r)) in
  snd (bf_read.ReadBitCoordBits r) = snd (bf_read.ReadBitCoord r) /\
  2 <= c' - c <= 22 /\
  forall j, 0 <= j ->
    Z.testbit (fst (bf_read.ReadBitCoordBits r)) j
    = (j <? c' - c) && bit_at (bf_read.m_pData r) (c + j).
Proof.
  intros Hwf Hcur Hfin c c'.
  destruct (ReadBitCoord_in_bounds r Hfin) as [Hfit Esnd].
  subst c'. rewrite Esnd. fold c in Hfit |- *.
  cbn [bf_read.m_iCurBit bf_read.with_cur].
  set (b0 := bit_at (bf_read.m_pData r) c) in *.
  set (b1 := bit_at (bf_read.m_pData r) (c + 1)) in *.
  unfold COORD_INTEGER_BITS, COORD_FRACTIONAL_BITS in *.
  set (L := 2 + (if b0 || b1 then 1 + (if b0 then 14 else 0) + (if b1 then 5 else 0) else 0))
    in *.
  assert (HL : 2 <= L <= 22) by (subst L; destruct b0, b1; cbn; lia).
  replace (c + L - c) with L by lia.
  destruct (ReadUBitLong_bits r c 2 Hwf Hcur ltac:(lia) ltac:(lia)) as (fl & E1 & Rfl & Bfl).
  rewrite with_cur_same in E1.
  assert (Efl : fl = b2z b0 + 2 * b2z b1).
  { apply Z.bits_inj'. intros j Hj. rewrite Bfl by lia.
    destruct (Z.ltb_spec j 2) as [Hj2|Hj2]; cbn [andb].
    - assert (Hj01 : j = 0 \/ j = 1) by lia.
      destruct Hj01 as [->| ->]; [replace (c + 0) with c by lia|]; fold b0 b1;
        destruct b0, b1; reflexivity.
    - symmetry. apply (bits_of_range _ 2); [destruct b0, b1; cbn; lia | lia]. }
  unfold bf_read.ReadBitCoordBits. rewrite E1.
  unfold COORD_INTEGER_BITS, COORD_FRACTIONAL_BITS.
  destruct (Z.eqb_spec fl 0) as [Hz|Hnz].
  - assert (b0 = false /\ b1 = false) as [Hb0 Hb1] by (destruct b0, b1; cbn in Efl; lia).
    subst L. rewrite Hb0, Hb1 in *. cbn [orb] in *. cbv iota in *.
    cbn [fst snd]. split; [f_equal; lia|]. split; [lia|].
    intros j Hj. rewrite Z.bits_0.
    destruct (Z.ltb_spec j (2 + 0)); [|reflexivity]. cbn [andb].
    assert (Hj01 : j = 0 \/ j = 1) by lia.
    destruct Hj01 as [->| ->]; [replace (c + 0) with c by lia|]; fold b0 b1;
      rewrite ?Hb0, ?Hb1; reflexivity.
  - set (N := default 0 ([14 + 1; 5 + 1; 14 + 5 + 1] !! Z.to_nat (fl - 1))).
    assert (HN : N = L - 2 /\ 1 <= N <= 20).
    { subst N L. rewrite Efl in *.
      destruct b0, b1; cbn in Hnz; [| | |lia];
        vm_compute; (split; [reflexivity | split; discriminate]). }
    destruct HN as [HN HNr].
    destruct (ReadUBitLong_bits r (c + 2) N Hwf ltac:(lia) ltac:(lia) ltac:(lia))
      as (v & E2 & Rv & Bv).
    rewrite E2. cbn [fst snd].
    split; [f_equal; lia|]. split; [lia|].
    intros j Hj.
    assert (Hv4 : 0 <= v * 4 + fl < 2 ^ 22).
    { assert (2 ^ N <= 2 ^ 20) by (apply Z.pow_le_mono_r; lia). lia. }
    unfold u32. rewrite Z.mod_small by lia.
    rewrite flags_and_field_testbit by lia.
    destruct (Z.ltb_spec j 2).
    + rewrite Bfl by lia. destruct (Z.ltb_spec j 2); [|lia].
      destruct (Z.ltb_spec j L); [|lia]. reflexivity.
    + rewrite Bv by lia. replace (c + 2 + (j - 2)) with (c + j) by lia.
      f_equal. destruct (Z.ltb_spec (j - 2) N), (Z.ltb_spec j L); try lia; reflexivity.
Qed.

Lemma ReadBitCoordBits_reads_one_coordinate_witness :
  let w := bf_write.WriteBitCoord
             (bf_write.SeekToBit (bf_write.create (zero_buffer 2) 8 (-1)) 7)
             (f32_lit (-25) (-1)) in
  let r := reader_of w 7 in
  let c := bf_read.m_iCurBit r in
  let c' := bf_read.m_iCurBit (snd (bf_read.ReadBitCoord r)) in
  snd (bf_read.ReadBitCoordBits r) = snd (bf_read.ReadBitCoord r) /\
  2 <= c' - c <= 22 /\
  forall j, 0 <= j ->
    Z.testbit (fst (bf_read.ReadBitCoordBits r)) j
    = (j <? c' - c) && bit_at (bf_read.m_pData r) (c + j).
Proof.
  intros w r.
  apply (ReadBitCoordBits_reads_one_coordinate r).
  - wf_by_compute.
  - vm_compute. discriminate.
  - vm_compute. reflexivity.
Defined.

(** ** Copying bits from a reader *)

Section WriteBitsFromBufferCopies.
Variables (fuel : nat) (w0 : bf_write.t) (pIn0 : bf_read.t) (nBits : Z).
Hypothesis Hwf : wf_buffer (bf_write.m_pData w0).
Hypothesis Hcur : 0 <= bf_write.m_iCurBit w0.
Hypothesis Hlen : bf_write.m_nDataBits w0 <= 32 * Z.of_nat (length (bf_write.m_pData w0)).
Hypothesis Hfit : bf_write.m_iCurBit w0 + nBits <= bf_write.m_nDataBits w0.
Hypothesis HwfIn : wf_buffer (bf_read.m_pData pIn0).
Hypothesis HcurIn : 0 <= bf_read.m_iCurBit pIn0.
Hypothesis HfitIn : bf_read.m_iCurBit pIn0 + nBits <= bf_read.m_nDataBits pIn0.
Hypothesis HnBits : 0 <= nBits.
Hypothesis Hfuel : nBits / 32 < Z.of_nat fuel.

(** What the loop keeps true with [n] bits still to copy: the first
    [nBits - n] bits are in place, nothing else has changed, and both
    cursors have moved by [nBits - n]. *)
Let Inv (st : bf_write.t * bf_read.t * Z) : Prop :=
  let '(w, p, n) := st in
  0 <= n <= nBits /\
  (wf_buffer (bf_write.m_pData w) /\ 0 <= bf_write.m_iCurBit w /\
   bf_write.m_nDataBits w = bf_write.m_nDataBits w0 /\
   bf_write.m_nDataBits w0 <= 32 * Z.of_nat (length (bf_write.m_pData w))) /\
  bf_write.m_iCurBit w = bf_write.m_iCurBit w0 + (nBits - n) /\
  bf_write.m_bOverflow w = bf_write.m_bOverflow w0 /\
  p = bf_read.with_cur pIn0 (bf_read.m_iCurBit pIn0 + (nBits - n)) /\
  (forall j, 0 <= j < nBits - n ->
     bit_at (bf_write.m_pData w) (bf_write.m_iCurBit w0 + j)
     = bit_at (bf_read.m_pData pIn0) (bf_read.m_iCurBit pIn0 + j)) /\
  (forall i, 0 <= i ->
     ~ (bf_write.m_iCurBit w0 <= i < bf_write.m_iCurBit w0 + (nBits - n)) ->
     bit_at (bf_write.m_pData w) i = bit_at (bf_write.m_pData w0) i).

Lemma Inv_copy (w : bf_write.t) (p : bf_read.t) (n k : Z) :
  Inv (w, p, n) -> 0 <= k <= 32 -> k <= n ->
  let '(v, p') := bf_read.ReadUBitLong p k in
  Inv (bf_write.WriteUBitLong w v k, p', n - k).
Proof.
  intros (Hn & G & C & O & -> & F & Fr) Hk Hkn.
  set (c := bf_write.m_iCurBit w0) in *. set (q := bf_read.m_iCurBit pIn0) in *.
  destruct (ReadUBitLong_bits pIn0 (q + (nBits - n)) k HwfIn ltac:(lia) Hk ltac:(lia))
    as (v & E & Rv & Bv).
  rewrite E.
  destruct (WriteUBitLong_step w v k (c + (nBits - n)) (bf_write.m_nDataBits w0) G C
              Hk ltac:(lia)) as (G' & C' & O' & B').
  unfold Inv. fold c q.
  split; [lia|]. split; [exact G'|]. split; [lia|]. split; [congruence|].
  split; [f_equal; lia|]. split.
  - intros j Hj. rewrite B' by lia.
    destruct (Z.leb_spec (c + (nBits - n)) (c + j)); cbn [andb].
    + destruct (Z.ltb_spec (c + j) (c + (nBits - n) + k)); [|lia].
      rewrite Bv by lia.
      destruct (Z.ltb_spec (c + j - (c + (nBits - n))) k); [|lia]. cbn [andb].
      f_equal. lia.
    + apply F. lia.
  - intros i Hi Hout. rewrite B' by lia.
    destruct (Z.leb_spec (c + (nBits - n)) i); cbn [andb].
    + destruct (Z.ltb_spec i (c + (nBits - n) + k)); [lia|]. apply Fr; lia.
    + apply Fr; lia.
Qed.

Lemma WriteBitsFromBuffer_spec :
  exists w',
    WriteBitsFromBuffer fuel w0 pIn0 nBits
    = Some (negb (bf_write.m_bOverflow w0) && negb (bf_read.m_bOverflow pIn0), w',
            bf_read.with_cur pIn0 (bf_read.m_iCurBit pIn0 + nBits)) /\
    Inv (w', bf_read.with_cur pIn0 (bf_read.m_iCurBit pIn0 + nBits), 0).
Proof.
  unfold WriteBitsFromBuffer.
  run_while Inv (fun st : bf_write.t * bf_read.t * Z => snd st / 32).
  { intros [[w p] n] HI Hc. cbn beta iota in Hc.
    pose proof (Inv_copy w p n 32 HI ltac:(lia) ltac:(lia)) as H.
    cbn beta iota. destruct (bf_read.ReadUBitLong p 32) as [v p']. exact H. }
  { intros [[w p] n] HI Hc. cbn beta iota in Hc. cbn beta iota.
    destruct (bf_read.ReadUBitLong p 32) as [v p']. cbn [snd].
    assert (Hn : 32 < n) by lia.
    assert (Ed : n / 32 = (n - 32) / 32 + 1).
    { rewrite <- (Z.div_add (n - 32) 1 32) by lia. f_equal. lia. }
    assert (0 <= (n - 32) / 32) by (apply Z.div_pos; lia). lia. }
  { unfold Inv. replace (nBits - nBits) with 0 by lia.
    split; [lia|]. split; [repeat split; auto|]. split; [lia|]. split; [reflexivity|].
    split; [rewrite Z.add_0_r; symmetry; apply with_cur_same|].
    split; [intros; lia | intros; reflexivity]. }
  { cbn [snd]. split; [apply Z.div_pos; lia | exact Hfuel]. }
  destruct s as [[w1 p1] n1]. cbn beta iota in Hc.
  cbn [mbind option_bind]. cbn beta iota.
  assert (Hn1 : 0 <= n1 <= 32) by (destruct HI as [? _]; lia).
  pose proof (Inv_copy w1 p1 n1 n1 HI Hn1 ltac:(lia)) as H.
  destruct (bf_read.ReadUBitLong p1 n1) as [v p2].
  replace (n1 - n1) with 0 in H by lia.
  pose proof H as (_ & _ & _ & O & Ep & _).
  replace (nBits - 0) with nBits in Ep by lia. subst p2.
  eexists. split; [|exact H].
  unfold bf_write.IsOverflowed, bf_read.IsOverflowed. rewrite O. reflexivity.
Qed.
End WriteBitsFromBufferCopies.

(** X11.  [WriteBitsFromBuffer] copies [nBits] bits from the reader's
    cursor to the writer's cursor, for every [nBits >= 0] that both sides
    have room for: it returns (with fuel above [nBits / 32]), both cursors
    have moved by [nBits], the copied bits in the writer's buffer equal the
    reader's, every other bit of the writer's buffer is unchanged, neither
    overflow flag changes, and the result is true when neither side was
    overflowed. *)
Theorem WriteBitsFromBuffer_copies (fuel : nat) (w : bf_write.t) (pIn : bf_read.t)
    (nBits : Z) :
  wf_buffer (bf_write.m_pData w) ->
  0 <= bf_write.m_iCurBit w ->
  bf_write.m_nDataBits w <= 32 * Z.of_nat (length (bf_write.m_pData w)) ->
  bf_write.m_iCurBit w + nBits <= bf_write.m_nDataBits w ->
  wf_buffer (bf_read.m_pData pIn) ->
  0 <= bf_read.m_iCurBit pIn ->
  bf_read.m_iCurBit pIn + nBits <= bf_read.m_nDataBits pIn ->
  0 <= nBits ->
  nBits / 32 < Z.of_nat fuel ->
  exists w',
    WriteBitsFromBuffer fuel w pIn nBits
    = Some (negb (bf_write.m_bOverflow w) && negb (bf_read.m_bOverflow pIn), w',
            bf_read.with_cur pIn (bf_read.m_iCurBit pIn + nBits)) /\
    bf_write.m_iCurBit w' = bf_write.m_iCurBit w + nBits /\
    bf_write.m_bOverflow w' = bf_write.m_bOverflow w /\
    (forall j, 0 <= j < nBits ->
       bit_at (bf_write.m_pData w') (bf_write.m_iCurBit w + j)
       = bit_at (bf_read.m_pData pIn) (bf_read.m_iCurBit pIn + j)) /\
    (forall i, 0 <= i ->
       ~ (bf_write.m_iCurBit w <= i < bf_write.m_iCurBit w + nBits) ->
       bit_at (bf_write.m_pData w') i = bit_at (bf_write.m_pData w) i).
Proof.
  intros Hwf Hcur Hlen Hfit HwfIn HcurIn HfitIn HnBits Hfuel.
  destruct (WriteBitsFromBuffer_spec fuel w pIn nBits Hwf Hcur Hlen Hfit HwfIn HcurIn
              HfitIn HnBits Hfuel) as (w' & E & _ & _ & C & O & _ & F & Fr).
  exists w'. split; [exact E|].
  replace (nBits - 0) with nBits in * by lia.
  split; [exact C|]. split; [exact O|]. split; [exact F | exact Fr].
Qed.

Lemma WriteBitsFromBuffer_copies_witness :
  let w := bf_write.SeekToBit (bf_write.create (zero_buffer 4) 16 (-1)) 5 in
  let pIn := bf_read.StartReading bf_read.init [0x89ABCDEF; 0x01234567; 0xFFFFFFFF] 12 3 (-1) in
  exists w',
    WriteBitsFromBuffer 3 w pIn 70
    = Some (negb (bf_write.m_bOverflow w) && negb (bf_read.m_bOverflow pIn), w',
            bf_read.with_cur pIn (bf_read.m_iCurBit pIn + 70)) /\
    bf_write.m_iCurBit w' = bf_write.m_iCurBit w + 70 /\
    bf_write.m_bOverflow w' = bf_write.m_bOverflow w /\
    (forall j, 0 <= j < 70 ->
       bit_at (bf_write.m_pData w') (bf_write.m_iCurBit w + j)
       = bit_at (bf_read.m_pData pIn) (bf_read.m_iCurBit pIn + j)) /\
    (forall i, 0 <= i ->
       ~ (bf_write.m_iCurBit w <= i < bf_write.m_iCurBit w + 70) ->
       bit_at (bf_write.m_pData w') i = bit_at (bf_write.m_pData w) i).
Proof.
  intros w pIn.
  apply (WriteBitsFromBuffer_copies 3 w pIn 70).
  - wf_by_compute.
  - vm_compute. discriminate.
  - vm_compute. discriminate.
  - vm_compute. discriminate.
  - wf_by_compute.
  - vm_compute. discriminate.
  - vm_compute. discriminate.
  - lia.
  - vm_compute. reflexivity.
Defined.

(** ** [ReadUBitVarInternal] *)

(** X12.  [ReadUBitVarInternal] with an encoding type from 0 to 3 steps
    back over the 4 bits before the cursor and reads a field of 4, 8, 12
    or 32 bits from there: the result holds the stream bits from 4 bits
    before the cursor on, and the cursor ends at the end of that field. *)
Theorem ReadUBitVarInternal_field (r : bf_read.t) (encodingType : Z) :
  wf_buffer (bf_read.m_pData r) ->
  4 <= bf_read.m_iCurBit r ->
  0 <= encodingType <= 3 ->
  let n := default 0 ([4; 8; 12; 32] !! Z.to_nat encodingType) in
  bf_read.m_iCurBit r - 4 + n <= bf_read.m_nDataBits r ->
  snd (bf_read.ReadUBitVarInternal r encodingType)
  = bf_read.with_cur r (bf_read.m_iCurBit r - 4 + n) /\
  forall j, 0 <= j ->
    Z.testbit (fst (bf_read.ReadUBitVarInternal r encodingType)) j
    = (j <? n) && bit_at (bf_read.m_pData r) (bf_read.m_iCurBit r - 4 + j).
Proof.
  intros Hwf Hcur Het n Hfit.
  assert (Hbits : 4 + encodingType * 4 + Z.land (Z.shiftr (2 - encodingType) 31) 16 = n
                  /\ 1 <= n <= 32).
  { subst n. assert (H : encodingType = 0 \/ encodingType = 1 \/ encodingType = 2 \/
                         encodingType = 3) by lia.
    destruct H as [->|[->|[->| ->]]]; vm_compute; (split; [reflexivity | split; discriminate]). }
  destruct Hbits as [Hbits Hn].
  unfold bf_read.ReadUBitVarInternal. rewrite Hbits.
  destruct (ReadUBitLong_bits r (bf_read.m_iCurBit r - 4) n Hwf ltac:(lia) ltac:(lia) Hfit)
    as (v & E & _ & Bv).
  rewrite E. cbn [fst snd]. split; [reflexivity | exact Bv].
Qed.

Lemma ReadUBitVarInternal_field_witness :
  let r := bf_read.StartReading bf_read.init [0x89ABCDEF; 0x01234567] 8 9 (-1) in
  let n := default 0 ([4; 8; 12; 32] !! Z.to_nat 3) in
  snd (bf_read.ReadUBitVarInternal r 3)
  = bf_read.with_cur r (bf_read.m_iCurBit r - 4 + n) /\
  forall j, 0 <= j ->
    Z.testbit (fst (bf_read.ReadUBitVarInternal r 3)) j
    = (j <? n) && bit_at (bf_read.m_pData r) (bf_read.m_iCurBit r - 4 + j).
Proof.
  intros r.
  apply (ReadUBitVarInternal_field r 3).
  - wf_by_compute.
  - vm_compute. discriminate.
  - lia.
  - vm_compute. discriminate.
Defined.

(** ** [ExciseBits] *)

Section ExciseBitsLoop.
Variables (r0 : bf_read.t) (s b : Z).
Hypothesis Hs : 0 <= s.
Hypothesis Hb : 0 <= b.
Hypothesis Hlen : bf_read.m_nDataBits r0 <= 32 * Z.of_nat (length (bf_read.m_pData r0)).

(** The shared buffer after [k] bits have been moved down: the bits below
    [s] and from [s + k] on are the original ones, and each bit between is
    the original bit [b] places further up. *)
Let moved (k : Z) (d : buffer) : Prop :=
  wf_buffer d /\ length d = length (bf_read.m_pData r0) /\
  forall i, 0 <= i ->
    bit_at d i = if (s <=? i) && (i <? s + k)
                 then bit_at (bf_read.m_pData r0) (i + b)
                 else bit_at (bf_read.m_pData r0) i.

(** The reader and the temporary writer after [k] rounds. *)
Let paired (k : Z) (r : bf_read.t) (temp : bf_write.t) : Prop :=
  moved k (bf_read.m_pData r) /\
  bf_write.m_pData temp = bf_read.m_pData r /\
  bf_read.m_iCurBit r = s + b + k /\
  bf_write.m_iCurBit temp = s + k /\
  bf_read.m_nDataBits r = bf_read.m_nDataBits r0 /\
  bf_write.m_nDataBits temp = bf_read.m_nDataBits r0 /\
  bf_read.m_bOverflow r = bf_read.m_bOverflow r0 /\
  bf_read.m_bAssertOnOverflow r = bf_read.m_bAssertOnOverflow r0 /\
  bf_read.m_pDebugName r = bf_read.m_pDebugName r0.

Lemma ExciseBits_loop_moves (n : nat) :
  forall (k : Z) (r : bf_read.t) (temp : bf_write.t),
    0 <= k -> s + b + k + Z.of_nat n <= bf_read.m_nDataBits r0 ->
    paired k r temp ->
    let '(r', temp') := bf_read.ExciseBits_loop n r temp in
    paired (k + Z.of_nat n) r' temp'.
Proof.
  induction n as [|n IH]; intros k r temp Hk Hfit HP.
  - cbn [bf_read.ExciseBits_loop]. replace (k + Z.of_nat 0) with k by lia. exact HP.
  - cbn [bf_read.ExciseBits_loop].
    destruct HP as ((Mwf & Mlen & Mb) & Ed & Cr & Ct & Dr & Dt & Ov & As & Nm).
    rewrite ReadOneBit_in_range by lia.
    set (bit := bit_at (bf_read.m_pData r) (bf_read.m_iCurBit r)).
    destruct (WriteOneBit_step temp (b2z bit) (s + k) (bf_read.m_nDataBits r0))
      as (G' & C' & O' & B').
    { rewrite Ed, Mlen. repeat split; auto; lia. }
    { exact Ct. }
    { lia. }
    set (temp' := bf_write.WriteOneBit temp (b2z bit)) in *.
    destruct G' as (G1 & G2 & G3 & G4).
    replace (k + Z.of_nat (S n)) with (k + 1 + Z.of_nat n) by lia.
    apply IH; [lia | lia |].
    unfold paired, moved.
    cbn [bf_read.m_pData bf_read.m_iCurBit bf_read.m_nDataBits bf_read.m_bOverflow
         bf_read.m_bAssertOnOverflow bf_read.m_pDebugName bf_read.with_data
         bf_read.with_cur].
    split; [|repeat split; auto; lia].
    split; [exact G1|]. split.
    { unfold temp'. rewrite WriteOneBit_length. rewrite Ed. exact Mlen. }
    intros i Hi. rewrite B' by lia. rewrite Ed. rewrite b2z_truthy.
    destruct (Z.eqb_spec i (s + k)) as [->|Hne].
    + replace ((s <=? s + k) && (s + k <? s + (k + 1))) with true
        by (symmetry; apply andb_true_iff; split; [apply Z.leb_le | apply Z.ltb_lt]; lia).
      unfold bit. rewrite Cr. rewrite Mb by lia.
      replace ((s <=? s + b + k) && (s + b + k <? s + k)) with false
        by (symmetry; apply andb_false_iff; right; apply Z.ltb_ge; lia).
      f_equal. lia.
    + rewrite Mb by lia.
      destruct (Z.leb_spec s i), (Z.ltb_spec i (s + k)), (Z.ltb_spec i (s + (k + 1)));
        try lia; reflexivity.
Qed.
End ExciseBitsLoop.

(** X13.  [ExciseBits] removes [bitsToRemove] bits at [startBit] from
    the reader's buffer, in place: afterwards the valid length is
    shorter by [bitsToRemove] (and the byte count is that length divided
    by 8), the cursor stands at [startBit], the bits before [startBit] are
    unchanged, every bit from [startBit] up to the new length is the bit
    that stood [bitsToRemove] places further up, the bits beyond the new
    length and the overflow flag are as before.  [Seek], which is not among
    the sources, is any function that sets the cursor to a position inside
    the valid bits. *)
Theorem ExciseBits_removes (Seek : bf_read.t -> Z -> bf_read.t) (r : bf_read.t)
    (startBit bitsToRemove : Z) :
  (forall r' p, 0 <= p <= bf_read.m_nDataBits r' -> Seek r' p = bf_read.with_cur r' p) ->
  wf_buffer (bf_read.m_pData r) ->
  0 <= startBit ->
  0 <= bitsToRemove ->
  startBit + bitsToRemove <= bf_read.m_nDataBits r ->
  bf_read.m_nDataBits r <= 32 * Z.of_nat (length (bf_read.m_pData r)) ->
  let r' := bf_read.ExciseBits Seek r startBit bitsToRemove in
  bf_read.m_nDataBits r' = bf_read.m_nDataBits r - bitsToRemove /\
  bf_read.m_nDataBytes r' = (bf_read.m_nDataBits r - bitsToRemove) / 8 /\
  bf_read.m_iCurBit r' = startBit /\
  bf_read.m_bOverflow r' = bf_read.m_bOverflow r /\
  length (bf_read.m_pData r') = length (bf_read.m_pData r) /\
  forall i, 0 <= i ->
    bit_at (bf_read.m_pData r') i
    = if (startBit <=? i) && (i <? bf_read.m_nDataBits r - bitsToRemove)
      then bit_at (bf_read.m_pData r) (i + bitsToRemove)
      else bit_at (bf_read.m_pData r) i.
Proof.
  intros HSeek Hwf Hs Hb Hend Hlen r'. subst r'.
  unfold bf_read.ExciseBits.
  rewrite (HSeek r (startBit + bitsToRemove)) by lia.
  set (D := bf_read.m_nDataBits r) in *.
  set (temp := bf_write.StartWriting bf_write.init (bf_read.m_pData r)
                 (bf_read.m_nDataBytes r) startBit D).
  pose proof (ExciseBits_loop_moves r startBit bitsToRemove Hs Hb Hlen
                (Z.to_nat (D - (startBit + bitsToRemove))) 0
                (bf_read.with_cur r (startBit + bitsToRemove)) temp
                ltac:(lia) ltac:(fold D; lia)) as H.
  destruct (bf_read.ExciseBits_loop _ _ temp) as [r1 temp1].
  destruct H as ((Mwf & Mlen & Mb) & Ed & Cr & Ct & Dr & Dt & Ov & As & Nm).
  { cbn [bf_read.m_pData bf_read.m_iCurBit bf_read.m_nDataBits bf_read.m_bOverflow
         bf_read.m_bAssertOnOverflow bf_read.m_pDebugName bf_read.with_cur].
    split.
    { split; [exact Hwf|]. split; [reflexivity|]. intros i Hi.
      replace ((startBit <=? i) && (i <? startBit + 0)) with false; [reflexivity|].
      symmetry. apply andb_false_iff.
      destruct (Z.leb_spec startBit i); [right; apply Z.ltb_ge; lia | left; reflexivity]. }
    unfold temp, bf_write.StartWriting.
    cbn [bf_write.m_pData bf_write.m_iCurBit bf_write.m_nDataBits].
    fold D. destruct (Z.eqb_spec D (-1)); [lia|].
    repeat split; lia. }
  fold D in Dr. rewrite (HSeek r1 startBit) by lia.
  cbn [bf_read.m_pData bf_read.m_iCurBit bf_read.m_nDataBits bf_read.m_nDataBytes
       bf_read.m_bOverflow bf_read.with_cur].
  rewrite Dr. rewrite Z.shiftr_div_pow2 by lia. change (2 ^ 3) with 8.
  split; [reflexivity|]. split; [reflexivity|]. split; [reflexivity|].
  split; [exact Ov|]. split; [exact Mlen|].
  intros i Hi. rewrite Mb by lia.
  replace (startBit + (0 + Z.of_nat (Z.to_nat (D - (startBit + bitsToRemove)))))
    with (D - bitsToRemove) by lia.
  reflexivity.
Qed.

Lemma ExciseBits_removes_witness :
  let r := bf_read.create [0x04030201; 0x08070605] 8 (-1) in
  let r' := bf_read.ExciseBits bf_read.with_cur r 8 16 in
  bf_read.m_nDataBits r' = bf_read.m_nDataBits r - 16 /\
  bf_read.m_nDataBytes r' = (bf_read.m_nDataBits r - 16) / 8 /\
  bf_read.m_iCurBit r' = 8 /\
  bf_read.m_bOverflow r' = bf_read.m_bOverflow r /\
  length (bf_read.m_pData r') = length (bf_read.m_pData r) /\
  forall i, 0 <= i ->
    bit_at (bf_read.m_pData r') i
    = if (8 <=? i) && (i <? bf_read.m_nDataBits r - 16)
      then bit_at (bf_read.m_pData r) (i + 16)
      else bit_at (bf_read.m_pData r) i.
Proof.
  intros r.
  apply (ExciseBits_removes bf_read.with_cur r 8 16).
  - reflexivity.
  - wf_by_compute.
  - lia.
  - lia.
  - vm_compute. discriminate.
  - vm_compute. discriminate.
Defined.

(** ** Coordinates: what is written, and what is read from it *)

Lemma coord_fractVal_range (f : spec_float) : 0 <= coord_fractVal f < 32.
Proof.
  unfold coord_fractVal. change (COORD_DENOMINATOR - 1) with (Z.ones 5).
  rewrite Z.land_ones by lia. apply Z.mod_pos_bound. lia.
Qed.

Lemma coord_length_range (f : spec_float) : 2 <= coord_length f <= 22.
Proof.
  unfold coord_length, COORD_INTEGER_BITS, COORD_FRACTIONAL_BITS.
  destruct (truthy (coord_intVal f)), (truthy (coord_fractVal f)); cbn; lia.
Qed.

Lemma truthy_false_iff (x : Z) : truthy x = false <-> x = 0.
Proof. unfold truthy. rewrite negb_false_iff. apply Z.eqb_eq. Qed.

Lemma truthy_true_iff (x : Z) : truthy x = true <-> x <> 0.
Proof. unfold truthy. rewrite negb_true_iff. apply Z.eqb_neq. Qed.

(** Decides a comparison that arithmetic settles. *)
Ltac cmp_true := symmetry; apply andb_true_iff; split; [apply Z.leb_le | apply Z.ltb_lt]; lia.
Ltac cmp_false :=
  symmetry; apply andb_false_iff;
  first [ left; apply Z.leb_gt; lia | right; apply Z.ltb_ge; lia ].

Lemma WriteBitCoord_bits (w : bf_write.t) (f : spec_float) (c D : Z) :
  (wf_buffer (bf_write.m_pData w) /\ 0 <= bf_write.m_iCurBit w /\
   bf_write.m_nDataBits w = D /\ D <= 32 * Z.of_nat (length (bf_write.m_pData w))) ->
  bf_write.m_iCurBit w = c ->
  c + 22 <= D ->
  0 <= coord_intVal f <= 2 ^ 14 ->
  let w' := bf_write.WriteBitCoord w f in
  (wf_buffer (bf_write.m_pData w') /\ 0 <= bf_write.m_iCurBit w' /\
   bf_write.m_nDataBits w' = D /\ D <= 32 * Z.of_nat (length (bf_write.m_pData w'))) /\
  bf_write.m_iCurBit w' = c + coord_length f /\
  bf_write.m_bOverflow w' = bf_write.m_bOverflow w /\
  (forall i, 0 <= i -> ~ (c <= i < c + coord_length f) ->
     bit_at (bf_write.m_pData w') i = bit_at (bf_write.m_pData w) i) /\
  coord_at (bf_write.m_pData w') c f.
Proof.
  intros G0 C0 Hfit Hiv w'. subst w'.
  pose proof (coord_fractVal_range f) as Hfr.
  assert (Hc : 0 <= c) by (destruct G0 as (_ & ? & _); lia).
  unfold bf_write.WriteBitCoord.
  change (int_of_f32 (SFabs f)) with (coord_intVal f).
  change (Z.land (c_abs (int_of_f32 (f32_mul f (f32_of_int COORD_DENOMINATOR))))
                 (COORD_DENOMINATOR - 1)) with (coord_fractVal f).
  change (b2z (SFleb f (SFopp COORD_RESOLUTION))) with (coord_signBit f).
  unfold coord_length, coord_at.
  set (iv := coord_intVal f) in *. set (fv := coord_fractVal f) in *.
  set (sb := coord_signBit f) in *.
  destruct (WriteOneBit_step w iv c D G0 C0 ltac:(lia)) as (G1 & C1 & O1 & B1).
  set (w1 := bf_write.WriteOneBit w iv) in *.
  destruct (WriteOneBit_step w1 fv (c + 1) D G1 C1 ltac:(lia)) as (G2 & C2 & O2 & B2).
  set (w2 := bf_write.WriteOneBit w1 fv) in *.
  destruct (truthy iv || truthy fv) eqn:Hany.
  2:{ apply orb_false_iff in Hany. destruct Hany as [Hi0 Hf0]. rewrite Hi0, Hf0.
      split; [exact G2|]. split; [lia|]. split; [congruence|]. split.
      - intros i Hi Hout. rewrite B2, B1 by lia.
        destruct (Z.eqb_spec i (c + 1)); [lia|]. destruct (Z.eqb_spec i c); [lia|]. reflexivity.
      - split; [|split; [|discriminate]].
        + rewrite B2, B1 by lia. destruct (Z.eqb_spec c (c + 1)); [lia|].
          rewrite Z.eqb_refl. exact Hi0.
        + rewrite B2 by lia. rewrite Z.eqb_refl. exact Hf0. }
  destruct (WriteOneBit_step w2 sb (c + 1 + 1) D G2 C2 ltac:(lia)) as (G3 & C3 & O3 & B3).
  set (w3 := bf_write.WriteOneBit w2 sb) in *.
  unfold COORD_INTEGER_BITS, COORD_FRACTIONAL_BITS.
  set (ni := if truthy iv then 14 else 0).
  set (nf := if truthy fv then 5 else 0).
  set (w4 := if truthy iv then bf_write.WriteUBitLong w3 (u32 (i32 (iv - 1))) 14 else w3).
  assert (S4 : (wf_buffer (bf_write.m_pData w4) /\ 0 <= bf_write.m_iCurBit w4 /\
                bf_write.m_nDataBits w4 = D /\
                D <= 32 * Z.of_nat (length (bf_write.m_pData w4))) /\
               bf_write.m_iCurBit w4 = c + 3 + ni /\
               bf_write.m_bOverflow w4 = bf_write.m_bOverflow w3 /\
               forall i, 0 <= i ->
                 bit_at (bf_write.m_pData w4) i
                 = if (c + 3 <=? i) && (i <? c + 3 + ni)
                   then Z.testbit (iv - 1) (i - (c + 3)) else bit_at (bf_write.m_pData w3) i).
  { unfold w4, ni. destruct (truthy iv) eqn:Hi.
    - destruct (WriteUBitLong_step w3 (u32 (i32 (iv - 1))) 14 (c + 3) D
                  G3 ltac:(lia) ltac:(lia) ltac:(lia)) as (G4 & C4 & O4 & B4).
      split; [exact G4|]. split; [exact C4|]. split; [exact O4|].
      intros i Hi'. rewrite B4 by lia.
      apply truthy_true_iff in Hi.
      replace (u32 (i32 (iv - 1))) with (iv - 1); [reflexivity|].
      unfold u32, i32. rewrite (Z.mod_small (iv - 1 + 2 ^ 31)) by lia.
      rewrite Z.mod_small; lia.
    - split; [exact G3|]. split; [lia|]. split; [reflexivity|]. intros i Hi'.
      replace ((c + 3 <=? i) && (i <? c + 3 + 0)) with false; [reflexivity|].
      destruct (Z.leb_spec (c + 3) i); cbn [andb]; [|reflexivity].
      symmetry. apply Z.ltb_ge. lia. }
  destruct S4 as (G4 & C4 & O4 & B4).
  assert (Hni : 0 <= ni <= 14) by (unfold ni; destruct (truthy iv); lia).
  assert (Hnf : 0 <= nf <= 5) by (unfold nf; destruct (truthy fv); lia).
  set (w5 := if truthy fv then bf_write.WriteUBitLong w4 (u32 fv) 5 else w4).
  assert (S5 : (wf_buffer (bf_write.m_pData w5) /\ 0 <= bf_write.m_iCurBit w5 /\
                bf_write.m_nDataBits w5 = D /\
                D <= 32 * Z.of_nat (length (bf_write.m_pData w5))) /\
               bf_write.m_iCurBit w5 = c + 3 + ni + nf /\
               bf_write.m_bOverflow w5 = bf_write.m_bOverflow w4 /\
               forall i, 0 <= i ->
                 bit_at (bf_write.m_pData w5) i
                 = if (c + 3 + ni <=? i) && (i <? c + 3 + ni + nf)
                   then Z.testbit fv (i - (c + 3 + ni)) else bit_at (bf_write.m_pData w4) i).
  { unfold w5, nf. destruct (truthy fv) eqn:Hf.
    - destruct (WriteUBitLong_step w4 (u32 fv) 5 (c + 3 + ni) D
                  G4 ltac:(lia) ltac:(lia) ltac:(lia)) as (G5 & C5 & O5 & B5).
      split; [exact G5|]. split; [exact C5|]. split; [exact O5|].
      intros i Hi'. rewrite B5 by lia.
      unfold u32. rewrite Z.mod_small by lia. reflexivity.
    - split; [exact G4|]. split; [lia|]. split; [reflexivity|]. intros i Hi'.
      replace ((c + 3 + ni <=? i) && (i <? c + 3 + ni + 0)) with false; [reflexivity|].
      destruct (Z.leb_spec (c + 3 + ni) i); cbn [andb]; [|reflexivity].
      symmetry. apply Z.ltb_ge. lia. }
  destruct S5 as (G5 & C5 & O5 & B5).
  fold w4. fold w5.
  split; [exact G5|]. split; [lia|]. split; [congruence|]. split.
  - intros i Hi Hout. rewrite B5, B4, B3, B2, B1 by lia.
    assert (Hi' : i < c \/ c + 3 + ni + nf <= i) by lia.
    destruct Hi' as [Hi'|Hi'].
    all: replace ((c + 3 + ni <=? i) && (i <? c + 3 + ni + nf)) with false by cmp_false.
    all: replace ((c + 3 <=? i) && (i <? c + 3 + ni)) with false by cmp_false.
    all: destruct (Z.eqb_spec i (c + 1 + 1)); [lia|]; destruct (Z.eqb_spec i (c + 1)); [lia|];
      destruct (Z.eqb_spec i c); [lia|]; reflexivity.
  - split; [|split]; [| |intros _; split; [|split]].
    + rewrite B5, B4, B3, B2, B1 by lia.
      replace ((c + 3 + ni <=? c) && (c <? c + 3 + ni + nf)) with false by cmp_false.
      replace ((c + 3 <=? c) && (c <? c + 3 + ni)) with false by cmp_false.
      destruct (Z.eqb_spec c (c + 1 + 1)); [lia|]. destruct (Z.eqb_spec c (c + 1)); [lia|].
      rewrite Z.eqb_refl. reflexivity.
    + rewrite B5, B4, B3, B2 by lia.
      replace ((c + 3 + ni <=? c + 1) && (c + 1 <? c + 3 + ni + nf)) with false by cmp_false.
      replace ((c + 3 <=? c + 1) && (c + 1 <? c + 3 + ni)) with false by cmp_false.
      destruct (Z.eqb_spec (c + 1) (c + 1 + 1)); [lia|].
      rewrite Z.eqb_refl. reflexivity.
    + rewrite B5, B4, B3 by lia.
      replace ((c + 3 + ni <=? c + 2) && (c + 2 <? c + 3 + ni + nf)) with false by cmp_false.
      replace ((c + 3 <=? c + 2) && (c + 2 <? c + 3 + ni)) with false by cmp_false.
      replace (c + 2 =? c + 1 + 1) with true by (symmetry; apply Z.eqb_eq; lia).
      reflexivity.
    + intros j Hj. rewrite B5, B4 by lia.
      replace ((c + 3 + ni <=? c + 3 + j) && (c + 3 + j <? c + 3 + ni + nf)) with false
        by cmp_false.
      replace ((c + 3 <=? c + 3 + j) && (c + 3 + j <? c + 3 + ni)) with true by cmp_true.
      f_equal. lia.
    + intros j Hj. rewrite B5 by lia.
      replace ((c + 3 + ni <=? c + 3 + ni + j) && (c + 3 + ni + j <? c + 3 + ni + nf))
        with true by cmp_true.
      f_equal. lia.
Qed.

Lemma coord_at_ext (d d' : buffer) (c : Z) (f : spec_float) :
  (forall i, c <= i < c + coord_length f -> bit_at d' i = bit_at d i) ->
  coord_at d c f -> coord_at d' c f.
Proof.
  intros Hext (H1 & H2 & H3).
  pose proof (coord_length_range f) as HL.
  assert (HLeq : truthy (coord_intVal f) || truthy (coord_fractVal f) = true ->
                 coord_length f
                 = 3 + (if truthy (coord_intVal f) then COORD_INTEGER_BITS else 0)
                     + (if truthy (coord_fractVal f) then COORD_FRACTIONAL_BITS else 0)).
  { intros Hany. unfold coord_length. rewrite Hany. lia. }
  unfold coord_at.
  split; [rewrite Hext by lia; exact H1|].
  split; [rewrite Hext by lia; exact H2|].
  intros Hany. specialize (HLeq Hany). destruct (H3 Hany) as (H4 & H5 & H6).
  remember (if truthy (coord_intVal f) then COORD_INTEGER_BITS else 0) as ni eqn:Eni.
  remember (if truthy (coord_fractVal f) then COORD_FRACTIONAL_BITS else 0) as nf eqn:Enf.
  assert (Hni : 0 <= ni)
    by (rewrite Eni; unfold COORD_INTEGER_BITS; destruct (truthy (coord_intVal f)); lia).
  assert (Hnf : 0 <= nf)
    by (rewrite Enf; unfold COORD_FRACTIONAL_BITS; destruct (truthy (coord_fractVal f)); lia).
  split; [rewrite Hext by lia; exact H4|]. split.
  - intros j Hj. rewrite Hext by lia. apply H5. exact Hj.
  - intros j Hj. rewrite Hext by lia. apply H6. exact Hj.
Qed.

Lemma ReadBitCoord_of_bits (r0 : bf_read.t) (c : Z) (f : spec_float) :
  wf_buffer (bf_read.m_pData r0) ->
  0 <= c ->
  c + coord_length f <= bf_read.m_nDataBits r0 ->
  0 <= coord_intVal f <= 2 ^ 14 ->
  coord_at (bf_read.m_pData r0) c f ->
  bf_read.ReadBitCoord (bf_read.with_cur r0 c)
  = (coord_decoded f, bf_read.with_cur r0 (c + coord_length f)).
Proof.
  intros Hwf Hc Hfit Hiv (Bflag1 & Bflag2 & Brest).
  pose proof (coord_fractVal_range f) as Hfr.
  pose proof (coord_length_range f) as HL.
  assert (HLeq : coord_length f
                 = 2 + (if truthy (coord_intVal f) || truthy (coord_fractVal f)
                        then 1 + (if truthy (coord_intVal f) then 14 else 0)
                               + (if truthy (coord_fractVal f) then 5 else 0)
                        else 0)) by reflexivity.
  remember (coord_length f) as L eqn:EL. clear EL.
  unfold coord_decoded, COORD_INTEGER_BITS, COORD_FRACTIONAL_BITS in *.
  remember (coord_intVal f) as iv eqn:Eiv. remember (coord_fractVal f) as fv eqn:Efv.
  remember (coord_signBit f) as sb eqn:Esb. clear Eiv Efv Esb.
  unfold bf_read.ReadBitCoord. unfold COORD_INTEGER_BITS, COORD_FRACTIONAL_BITS.
  rewrite (ReadOneBit_at r0 c (truthy iv)) by (auto; lia).
  rewrite (ReadOneBit_at r0 (c + 1) (truthy fv)) by (auto; lia).
  rewrite !b2z_truthy.
  destruct (truthy iv || truthy fv) eqn:Hany.
  2:{ do 2 f_equal. lia. }
  destruct (Brest eq_refl) as (Bsign & Bint & Bfrac).
  remember (if truthy iv then 14 else 0) as ni eqn:Eni.
  remember (if truthy fv then 5 else 0) as nf eqn:Enf.
  assert (Hni : 0 <= ni <= 14) by (rewrite Eni; destruct (truthy iv); lia).
  assert (Hnf : 0 <= nf <= 5) by (rewrite Enf; destruct (truthy fv); lia).
  rewrite (ReadOneBit_at r0 (c + 1 + 1) (truthy sb))
    by (try lia; replace (c + 1 + 1) with (c + 2) by lia; exact Bsign).
  rewrite b2z_truthy.
  assert (E4 :
    (if truthy iv
     then let '(v, r) := bf_read.ReadUBitLong (bf_read.with_cur r0 (c + 1 + 1 + 1)) 14
          in (i32 (v + 1), r)
     else (b2z (truthy iv), bf_read.with_cur r0 (c + 1 + 1 + 1)))
    = (iv, bf_read.with_cur r0 (c + 3 + ni))).
  { destruct (truthy iv) eqn:Hi.
    - apply truthy_true_iff in Hi. subst ni.
      rewrite (ReadUBitLong_at r0 (c + 1 + 1 + 1) 14 (iv - 1))
        by (auto; try lia;
            intros j Hj; replace (c + 1 + 1 + 1 + j) with (c + 3 + j) by lia;
            apply Bint; lia).
      f_equal.
      + unfold i32. replace (iv - 1 + 1 + 2 ^ 31) with (iv + 2 ^ 31) by lia.
        rewrite Z.mod_small; lia.
      + f_equal. lia.
    - apply truthy_false_iff in Hi. subst ni. f_equal; [simpl; lia | f_equal; lia]. }
  rewrite E4.
  assert (E5 :
    (if truthy fv
     then let '(v, r) := bf_read.ReadUBitLong (bf_read.with_cur r0 (c + 3 + ni)) 5
          in (i32 v, r)
     else (b2z (truthy fv), bf_read.with_cur r0 (c + 3 + ni)))
    = (fv, bf_read.with_cur r0 (c + L))).
  { destruct (truthy fv) eqn:Hf.
    - subst nf.
      rewrite (ReadUBitLong_at r0 (c + 3 + ni) 5 fv)
        by (auto; try lia; intros j Hj; apply Bfrac; lia).
      f_equal; [unfold i32; rewrite Z.mod_small; lia | f_equal; lia].
    - apply truthy_false_iff in Hf. subst nf. f_equal; [simpl; lia | f_equal; lia]. }
  rewrite E5. cbv zeta. destruct (truthy sb); reflexivity.
Qed.

(** ** Vectors of coordinates *)

Lemma optional_WriteBitCoord (w : bf_write.t) (f : spec_float) (c D : Z) (fl : bool) :
  (wf_buffer (bf_write.m_pData w) /\ 0 <= bf_write.m_iCurBit w /\
   bf_write.m_nDataBits w = D /\ D <= 32 * Z.of_nat (length (bf_write.m_pData w))) ->
  bf_write.m_iCurBit w = c ->
  c + 22 <= D ->
  (fl = true -> 0 <= coord_intVal f <= 2 ^ 14) ->
  let w' := if fl then bf_write.WriteBitCoord w f else w in
  let L := if fl then coord_length f else 0 in
  (wf_buffer (bf_write.m_pData w') /\ 0 <= bf_write.m_iCurBit w' /\
   bf_write.m_nDataBits w' = D /\ D <= 32 * Z.of_nat (length (bf_write.m_pData w'))) /\
  bf_write.m_iCurBit w' = c + L /\
  0 <= L <= 22 /\
  bf_write.m_bOverflow w' = bf_write.m_bOverflow w /\
  (forall i, 0 <= i -> ~ (c <= i < c + L) ->
     bit_at (bf_write.m_pData w') i = bit_at (bf_write.m_pData w) i) /\
  (fl = true -> coord_at (bf_write.m_pData w') c f).
Proof.
  intros G C Hfit Hiv. destruct fl; cbv zeta.
  - destruct (WriteBitCoord_bits w f c D G C Hfit (Hiv eq_refl)) as (G' & C' & O' & Fr & At).
    pose proof (coord_length_range f).
    split; [exact G'|]. split; [exact C'|]. split; [lia|]. split; [exact O'|].
    split; [exact Fr|]. intros _. exact At.
  - split; [exact G|]. split; [lia|]. split; [lia|]. split; [reflexivity|].
    split; [intros; reflexivity | discriminate].
Qed.

Lemma optional_ReadBitCoord (r0 : bf_read.t) (c : Z) (f : spec_float) (fl : bool) :
  wf_buffer (bf_read.m_pData r0) ->
  0 <= c ->
  c + 22 <= bf_read.m_nDataBits r0 ->
  (fl = true -> 0 <= coord_intVal f <= 2 ^ 14) ->
  (fl = true -> coord_at (bf_read.m_pData r0) c f) ->
  (if fl then bf_read.ReadBitCoord (bf_read.with_cur r0 c)
   else (f32_zero, bf_read.with_cur r0 c))
  = (if fl then coord_decoded f else f32_zero,
     bf_read.with_cur r0 (c + (if fl then coord_length f else 0))).
Proof.
  intros Hwf Hc Hfit Hiv Hat. destruct fl.
  - pose proof (coord_length_range f).
    apply ReadBitCoord_of_bits; auto; lia.
  - rewrite Z.add_0_r. reflexivity.
Qed.

(** X14.  [WriteBitVec3Coord] followed by [ReadBitVec3Coord] (and
    [WriteBitAngles] followed by [ReadBitAngles], which are the same
    calls): each component is handled on its own.  A component smaller
    in magnitude than one step (1/32) is not written at all, costs its flag
    bit only, and reads back as 0.0; any other component whose integer
    part fits the 14-bit field reads back as the value [ReadBitCoord]
    assembles from its integer part, its fraction in 32nds and its sign.
    The reader ends where the writer ended, 3 bits plus the lengths of
    the components written after the start. *)
Theorem WriteBitVec3Coord_then_ReadBitVec3Coord (w : bf_write.t) (x y z : spec_float) :
  wf_buffer (bf_write.m_pData w) ->
  0 <= bf_write.m_iCurBit w ->
  bf_write.m_nDataBits w <= 32 * Z.of_nat (length (bf_write.m_pData w)) ->
  bf_write.m_iCurBit w + 69 <= bf_write.m_nDataBits w ->
  (coord_flag x = true -> 0 <= coord_intVal x <= 2 ^ 14) ->
  (coord_flag y = true -> 0 <= coord_intVal y <= 2 ^ 14) ->
  (coord_flag z = true -> 0 <= coord_intVal z <= 2 ^ 14) ->
  let w' := bf_write.WriteBitVec3Coord w (x, y, z) in
  let r := reader_of w' (bf_write.m_iCurBit w) in
  let dec f := if coord_flag f then coord_decoded f else f32_zero in
  let len f := if coord_flag f then coord_length f else 0 in
  bf_write.m_iCurBit w' = bf_write.m_iCurBit w + 3 + len x + len y + len z /\
  bf_write.m_bOverflow w' = bf_write.m_bOverflow w /\
  bf_read.ReadBitVec3Coord r
  = ((dec x, dec y, dec z), bf_read.with_cur r (bf_write.m_iCurBit w')) /\
  bf_read.ReadBitAngles (reader_of (bf_write.WriteBitAngles w (x, y, z)) (bf_write.m_iCurBit w))
  = ((dec x, dec y, dec z), bf_read.with_cur r (bf_write.m_iCurBit w')).
Proof.
  intros Hwf Hcur Hlen Hfit Hx Hy Hz w' r dec len.
  set (c := bf_write.m_iCurBit w) in *. set (D := bf_write.m_nDataBits w) in *.
  assert (E : w' = let w1 := bf_write.WriteOneBit w (b2z (coord_flag x)) in
                   let w2 := bf_write.WriteOneBit w1 (b2z (coord_flag y)) in
                   let w3 := bf_write.WriteOneBit w2 (b2z (coord_flag z)) in
                   let w4 := if coord_flag x then bf_write.WriteBitCoord w3 x else w3 in
                   let w5 := if coord_flag y then bf_write.WriteBitCoord w4 y else w4 in
                   if coord_flag z then bf_write.WriteBitCoord w5 z else w5).
  { unfold w', bf_write.WriteBitVec3Coord. cbv zeta. rewrite !b2z_truthy. reflexivity. }
  cbv zeta in E.
  assert (G0 : wf_buffer (bf_write.m_pData w) /\ 0 <= bf_write.m_iCurBit w /\
               bf_write.m_nDataBits w = D /\
               D <= 32 * Z.of_nat (length (bf_write.m_pData w))) by (repeat split; auto).
  destruct (WriteOneBit_step w (b2z (coord_flag x)) c D G0 eq_refl ltac:(lia))
    as (G1 & C1 & O1 & B1).
  set (w1 := bf_write.WriteOneBit w (b2z (coord_flag x))) in *.
  destruct (WriteOneBit_step w1 (b2z (coord_flag y)) (c + 1) D G1 C1 ltac:(lia))
    as (G2 & C2 & O2 & B2).
  set (w2 := bf_write.WriteOneBit w1 (b2z (coord_flag y))) in *.
  destruct (WriteOneBit_step w2 (b2z (coord_flag z)) (c + 1 + 1) D G2 C2 ltac:(lia))
    as (G3 & C3 & O3 & B3).
  set (w3 := bf_write.WriteOneBit w2 (b2z (coord_flag z))) in *.
  destruct (optional_WriteBitCoord w3 x (c + 3) D (coord_flag x) G3 ltac:(lia) ltac:(lia) Hx)
    as (G4 & C4 & L4 & O4 & F4 & A4).
  set (w4 := if coord_flag x then bf_write.WriteBitCoord w3 x else w3) in *.
  remember (if coord_flag x then coord_length x else 0) as lx eqn:Elx.
  destruct (optional_WriteBitCoord w4 y (c + 3 + lx) D (coord_flag y) G4 C4 ltac:(lia) Hy)
    as (G5 & C5 & L5 & O5 & F5 & A5).
  set (w5 := if coord_flag y then bf_write.WriteBitCoord w4 y else w4) in *.
  remember (if coord_flag y then coord_length y else 0) as ly eqn:Ely.
  destruct (optional_WriteBitCoord w5 z (c + 3 + lx + ly) D (coord_flag z) G5 C5
              ltac:(lia) Hz) as (G6 & C6 & L6 & O6 & F6 & A6).
  rewrite <- E in G6, C6, O6, F6, A6.
  remember (if coord_flag z then coord_length z else 0) as lz eqn:Elz.
  subst len. cbv beta. rewrite <- Elx, <- Ely, <- Elz.
  destruct (reader_of_good w' D c G6 Hcur ltac:(lia)) as (Rwf & Rd & Rc & RD).
  fold r in Rwf, Rd, Rc, RD.
  assert (Eread : bf_read.ReadBitVec3Coord r
                  = (dec x, dec y, dec z, bf_read.with_cur r (bf_write.m_iCurBit w'))).
  { unfold bf_read.ReadBitVec3Coord.
    rewrite <- (with_cur_same r) at 1. rewrite Rc.
    rewrite (ReadOneBit_at r c (coord_flag x)).
    2:{ rewrite RD. lia. }
    2:{ rewrite Rd, F6, F5, F4, B3, B2, B1 by lia.
        destruct (Z.eqb_spec c (c + 1 + 1)); [lia|]. destruct (Z.eqb_spec c (c + 1)); [lia|].
        rewrite Z.eqb_refl. apply b2z_truthy. }
    rewrite (ReadOneBit_at r (c + 1) (coord_flag y)).
    2:{ rewrite RD. lia. }
    2:{ rewrite Rd, F6, F5, F4, B3, B2 by lia.
        destruct (Z.eqb_spec (c + 1) (c + 1 + 1)); [lia|].
        rewrite Z.eqb_refl. apply b2z_truthy. }
    rewrite (ReadOneBit_at r (c + 1 + 1) (coord_flag z)).
    2:{ rewrite RD. lia. }
    2:{ rewrite Rd, F6, F5, F4, B3 by lia.
        rewrite Z.eqb_refl. apply b2z_truthy. }
    rewrite !b2z_truthy.
    replace (c + 1 + 1 + 1) with (c + 3) by lia.
    rewrite (optional_ReadBitCoord r (c + 3) x (coord_flag x) Rwf ltac:(lia)
               ltac:(rewrite RD; lia) Hx).
    2:{ intros Hfl. specialize (A4 Hfl). rewrite Hfl in Elx.
        apply (coord_at_ext (bf_write.m_pData w4)); [|exact A4].
        intros i Hi. rewrite Rd, F6, F5 by lia. reflexivity. }
    rewrite <- Elx.
    rewrite (optional_ReadBitCoord r (c + 3 + lx) y (coord_flag y) Rwf ltac:(lia)
               ltac:(rewrite RD; lia) Hy).
    2:{ intros Hfl. specialize (A5 Hfl). rewrite Hfl in Ely.
        apply (coord_at_ext (bf_write.m_pData w5)); [|exact A5].
        intros i Hi. rewrite Rd, F6 by lia. reflexivity. }
    rewrite <- Ely.
    rewrite (optional_ReadBitCoord r (c + 3 + lx + ly) z (coord_flag z) Rwf ltac:(lia)
               ltac:(rewrite RD; lia) Hz).
    2:{ intros Hfl. specialize (A6 Hfl). rewrite Rd. exact A6. }
    rewrite <- Elz. rewrite C6. reflexivity. }
  split; [lia|]. split; [congruence|]. split; [exact Eread|].
  unfold bf_read.ReadBitAngles, bf_write.WriteBitAngles. fold w'. fold r.
  rewrite Eread. reflexivity.
Qed.

Lemma WriteBitVec3Coord_then_ReadBitVec3Coord_witness :
  let w := bf_write.SeekToBit (bf_write.create (repeat 0xFFFFFFFF 4) 16 (-1)) 5 in
  let x := f32_lit 25 (-1) in
  let y := f32_lit 1 (-6) in
  let z := f32_lit (-524319) (-5) in
  let w' := bf_write.WriteBitVec3Coord w (x, y, z) in
  let r := reader_of w' (bf_write.m_iCurBit w) in
  let dec f := if coord_flag f then coord_decoded f else f32_zero in
  let len f := if coord_flag f then coord_length f else 0 in
  bf_write.m_iCurBit w' = bf_write.m_iCurBit w + 3 + len x + len y + len z /\
  bf_write.m_bOverflow w' = bf_write.m_bOverflow w /\
  bf_read.ReadBitVec3Coord r
  = ((dec x, dec y, dec z), bf_read.with_cur r (bf_write.m_iCurBit w')) /\
  bf_read.ReadBitAngles (reader_of (bf_write.WriteBitAngles w (x, y, z)) (bf_write.m_iCurBit w))
  = ((dec x, dec y, dec z), bf_read.with_cur r (bf_write.m_iCurBit w')).
Proof.
  intros w x y z.
  apply (WriteBitVec3Coord_then_ReadBitVec3Coord w x y z).
  - wf_by_compute.
  - vm_compute. discriminate.
  - vm_compute. discriminate.
  - vm_compute. discriminate.
  - intros _. vm_compute. split; discriminate.
  - intros _. vm_compute. split; discriminate.
  - intros _. vm_compute. split; discriminate.
Defined.

(** ** Normals *)

Lemma normal_fractVal_range (DEN : Z) (f : spec_float) :
  0 <= DEN < 2 ^ 32 -> 0 <= normal_fractVal DEN f <= DEN.
Proof.
  intros HD. unfold normal_fractVal. cbv zeta.
  assert (Eu : u32 DEN = DEN) by (unfold u32; apply Z.mod_small; lia).
  rewrite Eu.
  pose proof (u32_range (c_abs (int_of_f32 (f32_mul f (f32_of_int DEN))))) as Hr.
  destruct (Z.gtb_spec (u32 (c_abs (int_of_f32 (f32_mul f (f32_of_int DEN))))) DEN); lia.
Qed.

Lemma WriteBitNormal_then_ReadBitNormal (N DEN : Z) (RES : spec_float)
      (w : bf_write.t) (f : spec_float) (c D : Z) :
  (wf_buffer (bf_write.m_pData w) /\ 0 <= bf_write.m_iCurBit w /\
   bf_write.m_nDataBits w = D /\ D <= 32 * Z.of_nat (length (bf_write.m_pData w))) ->
  bf_write.m_iCurBit w = c ->
  1 <= N <= 32 -> 0 <= DEN < 2 ^ N ->
  c + (N + 1) <= D ->
  let w' := bf_write.WriteBitNormal N DEN RES w f in
  (wf_buffer (bf_write.m_pData w') /\ 0 <= bf_write.m_iCurBit w' /\
   bf_write.m_nDataBits w' = D /\ D <= 32 * Z.of_nat (length (bf_write.m_pData w'))) /\
  bf_write.m_iCurBit w' = c + (N + 1) /\
  bf_write.m_bOverflow w' = bf_write.m_bOverflow w /\
  (forall i, 0 <= i -> ~ (c <= i < c + (N + 1)) ->
     bit_at (bf_write.m_pData w') i = bit_at (bf_write.m_pData w) i) /\
  (forall r0, wf_buffer (bf_read.m_pData r0) -> bf_read.m_nDataBits r0 = D ->
     (forall i, c <= i < c + (N + 1) ->
        bit_at (bf_read.m_pData r0) i = bit_at (bf_write.m_pData w') i) ->
     bf_read.ReadBitNormal N RES (bf_read.with_cur r0 c)
     = (normal_decoded DEN RES f, bf_read.with_cur r0 (c + (N + 1)))).
Proof.
  intros G C HN HDEN Hfit w'.
  assert (Hpow : 2 ^ N <= 2 ^ 32) by (apply Z.pow_le_mono_r; lia).
  pose proof (normal_fractVal_range DEN f ltac:(lia)) as Hfv.
  assert (E : w' = bf_write.WriteUBitLong
                     (bf_write.WriteOneBit w (b2z (SFleb (f64_of_f32 f) (SFopp RES))))
                     (normal_fractVal DEN f) N) by reflexivity.
  assert (Hc0 : 0 <= c) by (destruct G as (_ & ? & _); lia).
  destruct (WriteOneBit_step w (b2z (SFleb (f64_of_f32 f) (SFopp RES))) c D G C ltac:(lia))
    as (G1 & C1 & O1 & B1).
  set (w1 := bf_write.WriteOneBit w (b2z (SFleb (f64_of_f32 f) (SFopp RES)))) in *.
  destruct (WriteUBitLong_step w1 (normal_fractVal DEN f) N (c + 1) D G1 C1
              ltac:(lia) ltac:(lia)) as (G2 & C2 & O2 & B2).
  rewrite <- E in G2, C2, O2, B2.
  split; [exact G2|]. split; [lia|]. split; [congruence|]. split.
  - intros i Hi Hout. rewrite B2, B1 by lia.
    destruct (Z.leb_spec (c + 1) i); destruct (Z.ltb_spec i (c + 1 + N));
      destruct (Z.eqb_spec i c); cbn [andb]; try lia; reflexivity.
  - intros r0 Rwf RD Hsame.
    unfold bf_read.ReadBitNormal.
    rewrite (ReadOneBit_at r0 c (SFleb (f64_of_f32 f) (SFopp RES))).
    2:{ lia. }
    2:{ rewrite Hsame, B2, B1 by lia.
        destruct (Z.leb_spec (c + 1) c); [lia|]. cbn [andb].
        rewrite Z.eqb_refl. apply b2z_truthy. }
    rewrite (ReadUBitLong_at r0 (c + 1) N (normal_fractVal DEN f)); try lia; auto.
    2:{ intros j Hj. rewrite Hsame, B2 by lia.
        destruct (Z.leb_spec (c + 1) (c + 1 + j)); [|lia].
        destruct (Z.ltb_spec (c + 1 + j) (c + 1 + N)); [|lia].
        cbn [andb]. f_equal. lia. }
    rewrite b2z_truthy. unfold normal_decoded. cbv zeta.
    replace (c + 1 + N) with (c + (N + 1)) by lia.
    destruct (SFleb (f64_of_f32 f) (SFopp RES)); reflexivity.
Qed.

(** X15.  [WriteBitVec3Normal] writes its three components one after the
    other, each as a sign bit and an N-bit magnitude, 3 * (N + 1) bits in
    all; three calls of [ReadBitNormal] read them back.  Each component
    comes back as its magnitude in steps (the absolute value of
    [f * NORMAL_DENOMINATOR] truncated, capped at the denominator) times
    the [double] [NORMAL_RESOLUTION], the product formed in [double] and
    rounded to [float], negated when [f <= -NORMAL_RESOLUTION] as
    [double]s.  This holds for any width N from 1 to 32 whose field can
    hold the denominator. *)
Theorem WriteBitVec3Normal_then_ReadBitNormal
        (N DEN : Z) (RES : spec_float) (w : bf_write.t) (x y z : spec_float) :
  wf_buffer (bf_write.m_pData w) ->
  0 <= bf_write.m_iCurBit w ->
  bf_write.m_nDataBits w <= 32 * Z.of_nat (length (bf_write.m_pData w)) ->
  1 <= N <= 32 -> 0 <= DEN < 2 ^ N ->
  bf_write.m_iCurBit w + 3 * (N + 1) <= bf_write.m_nDataBits w ->
  let w' := bf_write.WriteBitVec3Normal N DEN RES w (x, y, z) in
  let r := reader_of w' (bf_write.m_iCurBit w) in
  bf_write.m_iCurBit w' = bf_write.m_iCurBit w + 3 * (N + 1) /\
  bf_write.m_bOverflow w' = bf_write.m_bOverflow w /\
  (let '(a, r1) := bf_read.ReadBitNormal N RES r in
   let '(b, r2) := bf_read.ReadBitNormal N RES r1 in
   let '(c, r3) := bf_read.ReadBitNormal N RES r2 in
   (a, b, c, r3))
  = (normal_decoded DEN RES x, normal_decoded DEN RES y, normal_decoded DEN RES z,
     bf_read.with_cur r (bf_write.m_iCurBit w')).
Proof.
  intros Hwf Hcur Hlen HN HDEN Hfit w' r.
  set (c := bf_write.m_iCurBit w) in *. set (D := bf_write.m_nDataBits w) in *.
  assert (E : w' = bf_write.WriteBitNormal N DEN RES
                     (bf_write.WriteBitNormal N DEN RES
                        (bf_write.WriteBitNormal N DEN RES w x) y) z).
  { unfold w', bf_write.WriteBitVec3Normal. reflexivity. }
  assert (G0 : wf_buffer (bf_write.m_pData w) /\ 0 <= bf_write.m_iCurBit w /\
               bf_write.m_nDataBits w = D /\
               D <= 32 * Z.of_nat (length (bf_write.m_pData w))) by (repeat split; auto).
  destruct (WriteBitNormal_then_ReadBitNormal N DEN RES w x c D G0 eq_refl HN HDEN
              ltac:(lia)) as (G1 & C1 & O1 & F1 & R1).
  destruct (WriteBitNormal_then_ReadBitNormal N DEN RES _ y (c + (N + 1)) D G1 C1 HN HDEN
              ltac:(lia)) as (G2 & C2 & O2 & F2 & R2).
  destruct (WriteBitNormal_then_ReadBitNormal N DEN RES _ z (c + (N + 1) + (N + 1)) D G2 C2
              HN HDEN ltac:(lia)) as (G3 & C3 & O3 & F3 & R3).
  rewrite <- E in G3, C3, O3, F3, R3.
  destruct (reader_of_good w' D c G3 Hcur ltac:(lia)) as (Rwf & Rd & Rc & RD).
  fold r in Rwf, Rd, Rc, RD.
  split; [lia|]. split; [congruence|].
  rewrite <- (with_cur_same r) at 1. rewrite Rc.
  rewrite (R1 r Rwf RD).
  2:{ intros i Hi. rewrite Rd, F3, F2 by lia. reflexivity. }
  rewrite (R2 r Rwf RD).
  2:{ intros i Hi. rewrite Rd, F3 by lia. reflexivity. }
  rewrite (R3 r Rwf RD).
  2:{ intros i Hi. rewrite Rd. reflexivity. }
  rewrite C3. reflexivity.
Qed.

Lemma WriteBitVec3Normal_then_ReadBitNormal_witness :
  let N := 11 in
  let DEN := 2047 in
  let RES := f64_div f64_one (f64_of_int 2047) in
  let w := bf_write.SeekToBit (bf_write.create (repeat 0xFFFFFFFF 4) 16 (-1)) 7 in
  let x := f32_lit (-3) (-2) in
  let y := f32_lit 1 (-1) in
  let z := f32_lit 5 0 in
  let w' := bf_write.WriteBitVec3Normal N DEN RES w (x, y, z) in
  let r := reader_of w' (bf_write.m_iCurBit w) in
  bf_write.m_iCurBit w' = bf_write.m_iCurBit w + 3 * (N + 1) /\
  bf_write.m_bOverflow w' = bf_write.m_bOverflow w /\
  (let '(a, r1) := bf_read.ReadBitNormal N RES r in
   let '(b, r2) := bf_read.ReadBitNormal N RES r1 in
   let '(c, r3) := bf_read.ReadBitNormal N RES r2 in
   (a, b, c, r3))
  = (normal_decoded DEN RES x, normal_decoded DEN RES y, normal_decoded DEN RES z,
     bf_read.with_cur r (bf_write.m_iCurBit w')).
Proof.
  intros N DEN RES w x y z.
  apply (WriteBitVec3Normal_then_ReadBitNormal N DEN RES w x y z).
  - wf_by_compute.
  - vm_compute. discriminate.
  - vm_compute. discriminate.
  - vm_compute. split; discriminate.
  - vm_compute. split; [discriminate | reflexivity].
  - vm_compute. discriminate.
Defined.

(** ** Bulk reads *)

Lemma in_bit_insert (l : list Z) (k : nat) (b j : Z) :
  (k < length l)%nat -> 0 <= j ->
  in_bit (<[k := u8 b]> l) j
  = if (Z.to_nat (j / 8) =? k)%nat then Z.testbit (u8 b) (j mod 8) else in_bit l j.
Proof.
  intros Hk Hj. unfold in_bit, byte_of.
  destruct (Nat.eqb_spec (Z.to_nat (j / 8)) k) as [E|E].
  - rewrite E.
    rewrite list_lookup_insert_eq by lia. cbn [default from_option id].
    fold (u8 (u8 b)). rewrite !u8_testbit. btauto.
  - rewrite list_lookup_insert_ne by lia. reflexivity.
Qed.

Section ReadBitsCopies.
Variables (r0 : bf_read.t) (p0 : outptr) (nBits : Z).
Hypothesis Hwf : wf_buffer (bf_read.m_pData r0).
Hypothesis Hcur : 0 <= bf_read.m_iCurBit r0.
Hypothesis HnBits : 0 <= nBits.
Hypothesis Hfit : bf_read.m_iCurBit r0 + nBits <= bf_read.m_nDataBits r0.
Hypothesis Hidx : 0 <= out_index p0.
Hypothesis Hroom : out_index p0 + (nBits + 7) / 8 <= Z.of_nat (length (out_bytes p0)).

(** What the loops keep true with [n] bits still to read, when the
    destination pointer is at index [idx] of the array [bytes]: a whole
    number of bytes is done, their bits are the stream's, and no other
    element has changed. *)
Let Inv2 (idx : Z) (bytes : list Z) (n : Z) : Prop :=
  exists m, 0 <= m /\ nBits - n = 8 * m /\ 0 <= n /\
    idx = out_index p0 + m /\
    length bytes = length (out_bytes p0) /\
    (forall j, 0 <= j < 8 * m ->
       in_bit bytes (8 * out_index p0 + j)
       = bit_at (bf_read.m_pData r0) (bf_read.m_iCurBit r0 + j)) /\
    (forall k : nat, ~ (out_index p0 <= Z.of_nat k < out_index p0 + m) ->
       bytes !! k = out_bytes p0 !! k).

Let Inv (st : bf_read.t * outptr * Z) : Prop :=
  let '(r, p, n) := st in
  r = bf_read.with_cur r0 (bf_read.m_iCurBit r0 + (nBits - n)) /\
  Inv2 (out_index p) (out_bytes p) n.

Lemma Inv2_byte (idx : Z) (bytes : list Z) (n b : Z) :
  Inv2 idx bytes n -> 8 <= n ->
  (forall j, 0 <= j < 8 ->
     Z.testbit (u8 b) j
     = bit_at (bf_read.m_pData r0) (bf_read.m_iCurBit r0 + (nBits - n) + j)) ->
  Inv2 (idx + 1) (<[Z.to_nat idx := u8 b]> bytes) (n - 8).
Proof.
  intros (m & Hm & Hn & Hn0 & -> & HL & HB & HF) H8 Hb.
  set (k0 := out_index p0) in *. set (c := bf_read.m_iCurBit r0) in *.
  assert (Hin : (Z.to_nat (k0 + m) < length bytes)%nat).
  { rewrite HL. clear - Hroom Hm Hn H8 Hidx. fold k0 in Hroom, Hidx.
    Z.div_mod_to_equations. lia. }
  exists (m + 1). split; [lia|]. split; [lia|]. split; [lia|]. split; [lia|].
  split; [rewrite length_insert; exact HL|]. split.
  - intros j Hj. rewrite in_bit_insert by (auto; lia).
    destruct (Nat.eqb_spec (Z.to_nat ((8 * k0 + j) / 8)) (Z.to_nat (k0 + m))) as [E|E].
    + assert (Ej : (8 * k0 + j) / 8 = k0 + m).
      { clear - E Hj Hidx Hm. fold k0 in Hidx.
        assert (0 <= (8 * k0 + j) / 8) by (Z.div_mod_to_equations; lia). lia. }
      rewrite Hb by (clear - Hj Hidx; fold k0 in Hidx; Z.div_mod_to_equations; lia).
      f_equal. clear - Ej Hn. Z.div_mod_to_equations. lia.
    + apply HB.
      assert (Ej : (8 * k0 + j) / 8 <> k0 + m) by (intros E'; apply E; rewrite E'; reflexivity).
      clear - Ej Hj Hidx Hm. fold k0 in Hidx. Z.div_mod_to_equations. lia.
  - intros k Hk. rewrite list_lookup_insert_ne by lia. apply HF. lia.
Qed.

Lemma out_bytes_store32 (p : outptr) (v : Z) :
  0 <= out_index p ->
  out_bytes (store32 p v)
  = <[Z.to_nat (out_index p + 1 + 1 + 1) := u8 (Z.shiftr v 24)]>
      (<[Z.to_nat (out_index p + 1 + 1) := u8 (Z.shiftr v 16)]>
         (<[Z.to_nat (out_index p + 1) := u8 (Z.shiftr v 8)]>
            (<[Z.to_nat (out_index p) := u8 (Z.shiftr v 0)]> (out_bytes p)))).
Proof.
  intros Hi. unfold store32. cbn [out_bytes]. rewrite Z.shiftr_0_r.
  replace (Z.to_nat (out_index p + 1 + 1 + 1)) with (Z.to_nat (out_index p) + 3)%nat by lia.
  replace (Z.to_nat (out_index p + 1 + 1)) with (Z.to_nat (out_index p) + 2)%nat by lia.
  replace (Z.to_nat (out_index p + 1)) with (Z.to_nat (out_index p) + 1)%nat by lia.
  reflexivity.
Qed.

Lemma Inv_read8 (r : bf_read.t) (p : outptr) (n : Z) :
  Inv (r, p, n) -> 8 <= n ->
  let '(v, r') := bf_read.ReadUBitLong r 8 in
  Inv (r', out_add (store8 p v) 1, n - 8).
Proof.
  intros (-> & H2) H8.
  set (c := bf_read.m_iCurBit r0) in *.
  assert (Hn : nBits - n >= 0) by (destruct H2 as (m & ? & ? & _); lia).
  destruct (ReadUBitLong_bits r0 (c + (nBits - n)) 8 Hwf ltac:(lia) ltac:(lia) ltac:(lia))
    as (v & E & Rv & Bv).
  rewrite E. split; [f_equal; lia|].
  cbn [out_add store8 out_index out_bytes].
  apply Inv2_byte; auto.
  intros j Hj. rewrite u8_testbit, Bv by lia.
  destruct (Z.ltb_spec j 8); [|lia]. reflexivity.
Qed.

Lemma Inv_read32 (r : bf_read.t) (p : outptr) (n : Z) :
  Inv (r, p, n) -> 32 <= n ->
  let '(v, r') := bf_read.ReadUBitLong r 32 in
  Inv (r', out_add (store32 p v) 4, n - 32).
Proof.
  intros (-> & H2) H32.
  set (c := bf_read.m_iCurBit r0) in *.
  assert (Hi : 0 <= out_index p) by (destruct H2 as (m & ? & ? & ? & ? & _); lia).
  assert (Hn : nBits - n >= 0) by (destruct H2 as (m & ? & ? & _); lia).
  destruct (ReadUBitLong_bits r0 (c + (nBits - n)) 32 Hwf ltac:(lia) ltac:(lia) ltac:(lia))
    as (v & E & Rv & Bv).
  rewrite E. split; [f_equal; lia|].
  cbn [out_add out_index out_bytes]. rewrite out_bytes_store32 by exact Hi.
  replace (out_index (store32 p v) + 4) with (out_index p + 1 + 1 + 1 + 1)
    by (unfold store32; cbn [out_index]; lia).
  replace (n - 32) with (n - 8 - 8 - 8 - 8) by lia.
  assert (Hbyte : forall i, 0 <= i < 4 -> forall j, 0 <= j < 8 ->
            Z.testbit (u8 (Z.shiftr v (8 * i))) j = bit_at (bf_read.m_pData r0)
                                                     (c + (nBits - n) + 8 * i + j)).
  { intros i Hi' j Hj. rewrite u8_testbit, Z.shiftr_spec, Bv by lia.
    destruct (Z.ltb_spec j 8); [|lia]. destruct (Z.ltb_spec (j + 8 * i) 32); [|lia].
    cbn [andb]. f_equal. lia. }
  apply Inv2_byte; [apply Inv2_byte; [apply Inv2_byte; [apply Inv2_byte|..]|..]|..];
    try lia; auto.
  - intros j Hj. rewrite (Hbyte 0) by lia. f_equal. lia.
  - intros j Hj. rewrite (Hbyte 1) by lia. f_equal. lia.
  - intros j Hj. rewrite (Hbyte 2) by lia. f_equal. lia.
  - intros j Hj. rewrite (Hbyte 3) by lia. f_equal. lia.
Qed.

Lemma ReadBits_spec (IsPC : bool) (fuel : nat) :
  nBits / 8 < Z.of_nat fuel ->
  exists out,
    bf_read.ReadBits IsPC fuel r0 p0 nBits
    = Some (out, bf_read.with_cur r0 (bf_read.m_iCurBit r0 + nBits)) /\
    length out = length (out_bytes p0) /\
    (forall j, 0 <= j < nBits ->
       in_bit out (8 * out_index p0 + j)
       = bit_at (bf_read.m_pData r0) (bf_read.m_iCurBit r0 + j)) /\
    (forall j, nBits <= j < 8 * ((nBits + 7) / 8) ->
       in_bit out (8 * out_index p0 + j) = false) /\
    (forall k : nat,
       ~ (out_index p0 <= Z.of_nat k < out_index p0 + (nBits + 7) / 8) ->
       out !! k = out_bytes p0 !! k).
Proof.
  intros Hfuel. unfold bf_read.ReadBits.
  assert (Hm8 : forall st : bf_read.t * outptr * Z, Inv st -> 8 <= snd st ->
            let '(r, p, n) := st in
            let '(v, r') := bf_read.ReadUBitLong r 8 in
            0 <= (n - 8) / 8 < n / 8).
  { intros [[r p] n] _ H8. cbn [snd] in H8.
    destruct (bf_read.ReadUBitLong r 8). clear - H8. Z.div_mod_to_equations. lia. }
  run_while Inv (fun st : bf_read.t * outptr * Z => snd st / 8).
  { intros [[r p] n] HI Hc. cbn beta iota in Hc. apply andb_prop in Hc as [_ Hc].
    pose proof (Inv_read8 r p n HI ltac:(lia)) as H. cbn beta iota.
    destruct (bf_read.ReadUBitLong r 8) as [v r']. exact H. }
  { intros [[r p] n] HI Hc. cbn beta iota in Hc. apply andb_prop in Hc as [_ Hc].
    pose proof (Hm8 (r, p, n) HI ltac:(cbn [snd]; lia)) as H. cbn beta iota in *.
    destruct (bf_read.ReadUBitLong r 8) as [v r']. cbn [snd]. exact H. }
  { split; [replace (nBits - nBits) with 0 by lia; rewrite Z.add_0_r;
            symmetry; apply with_cur_same|].
    exists 0. repeat split; try lia; auto; intros; lia. }
  { cbn [snd]. split; [apply Z.div_pos; lia | exact Hfuel]. }
  destruct s as [[r1 p1] n1]. clear Hc. cbn [mbind option_bind]. cbn beta iota.
  assert (Hn1 : 0 <= n1 <= nBits) by (destruct HI as (_ & m & ? & ? & ? & _); lia).
  assert (E2 : exists r2 p2 n2,
             (if IsPC
              then while (fun '(r, pOut, nBitsLeft) => nBitsLeft >=? 32)
                     (fun '(r, pOut, nBitsLeft) =>
                        let '(v, r) := bf_read.ReadUBitLong r 32 in
                        (r, out_add (store32 pOut v) 4, nBitsLeft - 32)) fuel (r1, p1, n1)
              else Some (r1, p1, n1)) = Some (r2, p2, n2) /\ Inv (r2, p2, n2) /\ n2 <= n1).
  { destruct IsPC.
    - run_while (fun st : bf_read.t * outptr * Z => Inv st /\ snd st <= n1)
                (fun st : bf_read.t * outptr * Z => snd st / 32).
      { intros [[r p] n] [HI' Hle] Hc. cbn beta iota in Hc. cbn [snd] in Hle.
        pose proof (Inv_read32 r p n HI' ltac:(lia)) as H. cbn beta iota.
        destruct (bf_read.ReadUBitLong r 32) as [v r']. cbn [snd]. split; [exact H | lia]. }
      { intros [[r p] n] [HI' Hle] Hc. cbn beta iota in Hc. cbn beta iota.
        destruct (bf_read.ReadUBitLong r 32) as [v r']. cbn [snd].
        clear - Hc. assert (32 <= n) by lia. Z.div_mod_to_equations. lia. }
      { split; [exact HI | cbn [snd]; lia]. }
      { cbn [snd]. clear - Hfuel Hn1. Z.div_mod_to_equations. lia. }
      destruct s as [[r2 p2] n2]. destruct HI0 as [HI2 Hle]. cbn [snd] in Hle.
      exists r2, p2, n2. auto.
    - exists r1, p1, n1. split; [reflexivity|]. split; [exact HI | lia]. }
  destruct E2 as (r2 & p2 & n2 & E2 & HI2 & Hle2). rewrite E2. clear E2.
  cbn [mbind option_bind]. cbn beta iota.
  run_while Inv (fun st : bf_read.t * outptr * Z => snd st / 8).
  { intros [[r p] n] HI' Hc. cbn beta iota in Hc.
    pose proof (Inv_read8 r p n HI' ltac:(lia)) as H. cbn beta iota.
    destruct (bf_read.ReadUBitLong r 8) as [v r']. exact H. }
  { intros [[r p] n] HI' Hc. cbn beta iota in Hc.
    pose proof (Hm8 (r, p, n) HI' ltac:(cbn [snd]; lia)) as H. cbn beta iota in *.
    destruct (bf_read.ReadUBitLong r 8) as [v r']. cbn [snd]. exact H. }
  { exact HI2. }
  { cbn [snd]. assert (0 <= n2) by (destruct HI2 as (_ & m & ? & ? & ? & _); lia).
    clear - Hfuel Hn1 Hle2 H. Z.div_mod_to_equations. lia. }
  destruct s as [[r3 p3] n3]. cbn beta iota in Hc.
  cbn [mbind option_bind]. cbn beta iota.
  destruct HI0 as (-> & m & Hm & Hn & Hn0 & Hi3 & HL & HB & HF).
  set (k0 := out_index p0) in *. set (c := bf_read.m_iCurBit r0) in *.
  assert (Hn3 : 0 <= n3 < 8) by lia.
  unfold truthy. destruct (Z.eqb_spec n3 0) as [Ez|Ez]; cbn [negb].
  - exists (out_bytes p3). subst n3.
    assert (Em : (nBits + 7) / 8 = m) by (clear - Hn; Z.div_mod_to_equations; lia).
    rewrite Em.
    split; [replace (nBits - 0) with nBits by lia; reflexivity|]. split; [exact HL|]. split.
    + intros j Hj. apply HB. lia.
    + split; [intros j Hj; lia | exact HF].
  - destruct (ReadUBitLong_bits r0 (c + (nBits - n3)) n3 Hwf ltac:(lia) ltac:(lia)
                ltac:(lia)) as (v & E & Rv & Bv).
    rewrite E. cbn [store8 out_bytes].
    assert (Em : (nBits + 7) / 8 = m + 1) by (clear - Hn Hn3 Ez; Z.div_mod_to_equations; lia).
    rewrite Em. rewrite Em in Hroom.
    assert (Hin : (Z.to_nat (out_index p3) < length (out_bytes p3))%nat) by lia.
    eexists. split; [replace (c + (nBits - n3) + n3) with (c + nBits) by lia; reflexivity|].
    split; [rewrite length_insert; exact HL|].
    assert (Hbit : forall j, 0 <= j < 8 * (m + 1) ->
              in_bit (<[Z.to_nat (out_index p3) := u8 v]> (out_bytes p3)) (8 * k0 + j)
              = if j <? 8 * m then bit_at (bf_read.m_pData r0) (c + j)
                else (j - 8 * m <? n3) && bit_at (bf_read.m_pData r0) (c + j)).
    { intros j Hj. rewrite in_bit_insert by (auto; lia). rewrite Hi3.
      destruct (Nat.eqb_spec (Z.to_nat ((8 * k0 + j) / 8)) (Z.to_nat (k0 + m))) as [Ej|Ej].
      - assert (Ej' : (8 * k0 + j) / 8 = k0 + m).
        { clear - Ej Hj Hidx Hm. fold k0 in Hidx.
          assert (0 <= (8 * k0 + j) / 8) by (Z.div_mod_to_equations; lia). lia. }
        destruct (Z.ltb_spec j (8 * m));
          [clear - Ej' H Hj; Z.div_mod_to_equations; lia|].
        assert (Emod : (8 * k0 + j) mod 8 = j - 8 * m)
          by (clear - Ej' H Hj; Z.div_mod_to_equations; lia).
        rewrite Emod, u8_testbit, Bv by lia.
        destruct (Z.ltb_spec (j - 8 * m) 8); [|lia]. cbn [andb].
        do 2 f_equal. lia.
      - assert (Ej' : (8 * k0 + j) / 8 <> k0 + m) by (intros E'; apply Ej; rewrite E'; reflexivity).
        destruct (Z.ltb_spec j (8 * m));
          [|clear - Ej' H Hj Hidx; fold k0 in Hidx; Z.div_mod_to_equations; lia].
        apply HB. lia. }
    split.
    + intros j Hj. rewrite Hbit by lia.
      destruct (Z.ltb_spec j (8 * m)); [reflexivity|].
      destruct (Z.ltb_spec (j - 8 * m) n3); [reflexivity | lia].
    + split.
      * intros j Hj. rewrite Hbit by lia.
        destruct (Z.ltb_spec j (8 * m)); [lia|].
        destruct (Z.ltb_spec (j - 8 * m) n3); [lia | reflexivity].
      * intros k Hk. rewrite list_lookup_insert_ne by lia. apply HF. lia.
Qed.
End ReadBitsCopies.

(** X16.  [ReadBits] copies [nBits] bits of the stream into the
    destination bytes, whatever the alignment of the destination pointer
    and on PC and non-PC builds alike.  For a read that the stream and the
    destination have room for, with fuel above [nBits / 8]: the call
    returns, the cursor has moved by [nBits], bit [j] of the destination
    (low bit of each byte first) is bit [j] of the stream from the cursor,
    the bits of the last byte beyond [nBits] are zero, and no element
    outside the [(nBits + 7) / 8] bytes at the pointer has changed. *)
Theorem ReadBits_copies (IsPC : bool) (fuel : nat) (r : bf_read.t) (pOut : outptr)
    (nBits : Z) :
  wf_buffer (bf_read.m_pData r) ->
  0 <= bf_read.m_iCurBit r ->
  0 <= nBits ->
  bf_read.m_iCurBit r + nBits <= bf_read.m_nDataBits r ->
  0 <= out_index pOut ->
  out_index pOut + (nBits + 7) / 8 <= Z.of_nat (length (out_bytes pOut)) ->
  nBits / 8 < Z.of_nat fuel ->
  exists out,
    bf_read.ReadBits IsPC fuel r pOut nBits
    = Some (out, bf_read.with_cur r (bf_read.m_iCurBit r + nBits)) /\
    length out = length (out_bytes pOut) /\
    (forall j, 0 <= j < nBits ->
       in_bit out (8 * out_index pOut + j)
       = bit_at (bf_read.m_pData r) (bf_read.m_iCurBit r + j)) /\
    (forall j, nBits <= j < 8 * ((nBits + 7) / 8) ->
       in_bit out (8 * out_index pOut + j) = false) /\
    (forall k : nat,
       ~ (out_index pOut <= Z.of_nat k < out_index pOut + (nBits + 7) / 8) ->
       out !! k = out_bytes pOut !! k).
Proof.
  intros Hwf Hcur Hn Hfit Hidx Hroom Hfuel.
  exact (ReadBits_spec r pOut nBits Hwf Hcur Hn Hfit Hidx Hroom IsPC fuel Hfuel).
Qed.

Lemma ReadBits_copies_witness :
  let r := bf_read.StartReading bf_read.init [0x89ABCDEF; 0x01234567; 0xFFFFFFFF] 12 3 (-1) in
  let pOut := mk_outptr 0x1001 1 (repeat 0xAA 12) in
  exists out,
    bf_read.ReadBits true 7 r pOut 53
    = Some (out, bf_read.with_cur r (bf_read.m_iCurBit r + 53)) /\
    length out = length (out_bytes pOut) /\
    (forall j, 0 <= j < 53 ->
       in_bit out (8 * out_index pOut + j)
       = bit_at (bf_read.m_pData r) (bf_read.m_iCurBit r + j)) /\
    (forall j, 53 <= j < 8 * ((53 + 7) / 8) ->
       in_bit out (8 * out_index pOut + j) = false) /\
    (forall k : nat,
       ~ (out_index pOut <= Z.of_nat k < out_index pOut + (53 + 7) / 8) ->
       out !! k = out_bytes pOut !! k).
Proof.
  intros r pOut.
  apply (ReadBits_copies true 7 r pOut 53).
  - wf_by_compute.
  - vm_compute. discriminate.
  - vm_compute. discriminate.
  - vm_compute. discriminate.
  - vm_compute. discriminate.
  - vm_compute. discriminate.
  - vm_compute. reflexivity.
Defined.

(** X17.  [ReadBitsClamped_ptr] never stores outside the destination:
    asked for more bits than [outSizeBytes] bytes hold, it reads exactly
    the destination's size in bits, returns that number and hands the
    excess to [SeekRelative]; asked for no more than fits, it reads and
    returns [nBits] and seeks by 0.  Either way no element outside the
    first [outSizeBytes] bytes at the pointer changes. *)
Theorem ReadBitsClamped_ptr_clamps (SeekRelative : bf_read.t -> Z -> bf_read.t)
    (IsPC : bool) (fuel : nat) (r : bf_read.t) (pOut : outptr) (outSizeBytes nBits : Z) :
  let n := Z.min nBits (outSizeBytes * 8) in
  wf_buffer (bf_read.m_pData r) ->
  0 <= bf_read.m_iCurBit r ->
  0 <= nBits < 2 ^ 64 -> 0 <= outSizeBytes -> outSizeBytes * 8 < 2 ^ 64 -> n < 2 ^ 31 ->
  bf_read.m_iCurBit r + n <= bf_read.m_nDataBits r ->
  0 <= out_index pOut ->
  out_index pOut + outSizeBytes <= Z.of_nat (length (out_bytes pOut)) ->
  n / 8 < Z.of_nat fuel ->
  exists out,
    bf_read.ReadBitsClamped_ptr SeekRelative IsPC fuel r pOut outSizeBytes nBits
    = Some (n, out,
            SeekRelative (bf_read.with_cur r (bf_read.m_iCurBit r + n))
              (if nBits >? outSizeBytes * 8 then i32 (nBits - outSizeBytes * 8) else 0)) /\
    length out = length (out_bytes pOut) /\
    (forall j, 0 <= j < n ->
       in_bit out (8 * out_index pOut + j)
       = bit_at (bf_read.m_pData r) (bf_read.m_iCurBit r + j)) /\
    (forall k : nat,
       ~ (out_index pOut <= Z.of_nat k < out_index pOut + outSizeBytes) ->
       out !! k = out_bytes pOut !! k).
Proof.
  intros n Hwf Hcur HnBits Hsz Hsz64 Hn31 Hfit Hidx Hroom Hfuel.
  assert (Hn0 : 0 <= n) by (unfold n; lia).
  assert (Hbytes : (n + 7) / 8 <= outSizeBytes).
  { unfold n. clear - HnBits Hsz. Z.div_mod_to_equations. lia. }
  assert (Ei : i32 n = n).
  { unfold i32. rewrite Z.mod_small by lia. lia. }
  destruct (ReadBits_spec r pOut n Hwf Hcur Hn0 Hfit Hidx ltac:(lia) IsPC fuel Hfuel)
    as (out & E & HL & HB & _ & HF).
  exists out. unfold bf_read.ReadBitsClamped_ptr. cbv zeta.
  assert (Eo : u64 (outSizeBytes * 8) = outSizeBytes * 8)
    by (unfold u64; apply Z.mod_small; lia).
  rewrite Eo.
  destruct (Z.gtb_spec nBits (outSizeBytes * 8)) as [Hgt|Hle].
  - assert (En : n = outSizeBytes * 8) by (unfold n; lia).
    assert (Es : u64 (nBits - outSizeBytes * 8) = nBits - outSizeBytes * 8)
      by (unfold u64; apply Z.mod_small; lia).
    rewrite Es, <- En, Ei, E. cbn [mbind option_bind].
    split; [reflexivity|]. split; [exact HL|]. split; [exact HB|].
    intros k Hk. apply HF. lia.
  - assert (En : n = nBits) by (unfold n; lia).
    rewrite <- En, Ei, E. cbn [mbind option_bind].
    split; [reflexivity|]. split; [exact HL|]. split; [exact HB|].
    intros k Hk. apply HF. lia.
Qed.

Lemma ReadBitsClamped_ptr_clamps_witness :
  let SeekRelative := fun (r : bf_read.t) (k : Z) =>
                        bf_read.with_cur r (bf_read.m_iCurBit r + k) in
  let r := bf_read.StartReading bf_read.init [0x89ABCDEF; 0x01234567; 0xFFFFFFFF] 12 3 (-1) in
  let pOut := mk_outptr 0x1002 2 (repeat 0xAA 8) in
  let n := Z.min 70 (5 * 8) in
  exists out,
    bf_read.ReadBitsClamped_ptr SeekRelative false 6 r pOut 5 70
    = Some (n, out,
            SeekRelative (bf_read.with_cur r (bf_read.m_iCurBit r + n))
              (if 70 >? 5 * 8 then i32 (70 - 5 * 8) else 0)) /\
    length out = length (out_bytes pOut) /\
    (forall j, 0 <= j < n ->
       in_bit out (8 * out_index pOut + j)
       = bit_at (bf_read.m_pData r) (bf_read.m_iCurBit r + j)) /\
    (forall k : nat,
       ~ (out_index pOut <= Z.of_nat k < out_index pOut + 5) ->
       out !! k = out_bytes pOut !! k).
Proof.
  intros SeekRelative r pOut.
  apply (ReadBitsClamped_ptr_clamps SeekRelative false 6 r pOut 5 70).
  - wf_by_compute.
  - vm_compute. discriminate.
  - vm_compute. split; [discriminate | reflexivity].
  - vm_compute. discriminate.
  - vm_compute. reflexivity.
  - vm_compute. reflexivity.
  - vm_compute. discriminate.
  - vm_compute. discriminate.
  - vm_compute. discriminate.
  - vm_compute. reflexivity.
Defined.

(** ** Bulk writes *)

Lemma byte_of_testbit (l : list Z) (k : nat) (j : Z) :
  Z.testbit (byte_of l k) j = (0 <=? j) && (j <? 8) && Z.testbit (byte_of l k) j.
Proof.
  destruct (Z.leb_spec 0 j); cbn [andb]; [|apply Z.testbit_neg_r; lia].
  destruct (Z.ltb_spec j 8); cbn [andb]; [reflexivity|].
  unfold byte_of. rewrite u8_testbit. destruct (Z.ltb_spec j 8); [lia | reflexivity].
Qed.

Lemma byte_of_drop (l : list Z) (m k : nat) : byte_of (drop m l) k = byte_of l (m + k).
Proof. unfold byte_of. rewrite lookup_drop. reflexivity. Qed.

Lemma in_bit_drop (l : list Z) (m j : Z) :
  0 <= m -> 0 <= j -> in_bit (drop (Z.to_nat m) l) j = in_bit l (8 * m + j).
Proof.
  intros Hm Hj. unfold in_bit. rewrite byte_of_drop.
  assert (E1 : (8 * m + j) / 8 = m + j / 8) by (Z.div_mod_to_equations; lia).
  assert (E2 : (8 * m + j) mod 8 = j mod 8) by (Z.div_mod_to_equations; lia).
  assert (0 <= j / 8) by (Z.div_mod_to_equations; lia).
  rewrite E1, E2. f_equal. f_equal. lia.
Qed.

Lemma deref8_testbit (p : inptr) (j : Z) :
  0 <= j < 8 -> Z.testbit (deref8 p) j = in_bit (in_bytes p) j.
Proof.
  intros Hj. unfold deref8, in_bit.
  rewrite Z.div_small, Z.mod_small by lia. reflexivity.
Qed.

Lemma deref32_testbit (p : inptr) (j : Z) :
  0 <= j -> Z.testbit (deref32 p) j = (j <? 32) && in_bit (in_bytes p) j.
Proof.
  intros Hj. unfold deref32, in_bit.
  rewrite !Z.lor_spec, !Z.shiftl_spec by lia.
  rewrite (byte_of_testbit _ 0 j), (byte_of_testbit _ 1 (j - 8)),
    (byte_of_testbit _ 2 (j - 16)), (byte_of_testbit _ 3 (j - 24)).
  destruct (Z.ltb_spec j 32); cbn [andb].
  - assert (Hcase : (j < 8 /\ j / 8 = 0 /\ j mod 8 = j) \/
                    (8 <= j < 16 /\ j / 8 = 1 /\ j mod 8 = j - 8) \/
                    (16 <= j < 24 /\ j / 8 = 2 /\ j mod 8 = j - 16) \/
                    (24 <= j /\ j / 8 = 3 /\ j mod 8 = j - 24))
      by (Z.div_mod_to_equations; lia).
    destruct Hcase as [(Hr & E1 & E2)|[(Hr & E1 & E2)|[(Hr & E1 & E2)|(Hr & E1 & E2)]]];
      rewrite E1, E2; clear E1 E2.
    + replace (0 <=? j) with true by lia. replace (j <? 8) with true by lia.
      replace (0 <=? j - 8) with false by lia. replace (0 <=? j - 16) with false by lia.
      replace (0 <=? j - 24) with false by lia. cbn [andb orb].
      rewrite !orb_false_r. reflexivity.
    + replace (j <? 8) with false by lia.
      replace (0 <=? j - 8) with true by lia. replace (j - 8 <? 8) with true by lia.
      replace (0 <=? j - 16) with false by lia.
      replace (0 <=? j - 24) with false by lia. rewrite andb_false_r. cbn [andb orb].
      rewrite !orb_false_r. reflexivity.
    + replace (j <? 8) with false by lia. replace (j - 8 <? 8) with false by lia.
      replace (0 <=? j - 16) with true by lia. replace (j - 16 <? 8) with true by lia.
      replace (0 <=? j - 24) with false by lia. rewrite !andb_false_r. cbn [andb orb].
      rewrite !orb_false_r. reflexivity.
    + replace (j <? 8) with false by lia. replace (j - 8 <? 8) with false by lia.
      replace (j - 16 <? 8) with false by lia.
      replace (0 <=? j - 24) with true by lia. replace (j - 24 <? 8) with true by lia.
      rewrite !andb_false_r. cbn [andb orb]. reflexivity.
  - replace (j <? 8) with false by lia. replace (j - 8 <? 8) with false by lia.
    replace (j - 16 <? 8) with false by lia. replace (j - 24 <? 8) with false by lia.
    rewrite !andb_false_r. reflexivity.
Qed.

Lemma deref32_range (p : inptr) : 0 <= deref32 p < 2 ^ 32.
Proof.
  apply range_of_bits; [lia|]. intros k Hk.
  rewrite deref32_testbit by lia. destruct (k <? 32); reflexivity.
Qed.

Lemma store_byte_bits (d : buffer) (k v i : Z) :
  0 <= k -> k / 4 < Z.of_nat (length d) -> 0 <= i ->
  bit_at (store_byte d k v) i
  = if (8 * k <=? i) && (i <? 8 * k + 8) then Z.testbit (u8 v) (i - 8 * k) else bit_at d i.
Proof.
  intros Hk Hlen Hi. unfold store_byte, bit_at. cbv zeta.
  assert (Hk4 : 0 <= k / 4) by (Z.div_mod_to_equations; lia).
  assert (Hi32 : 0 <= i / 32) by (Z.div_mod_to_equations; lia).
  assert (Hm : 0 <= i mod 32 < 32) by (apply Z.mod_pos_bound; lia).
  assert (Hs : 0 <= 8 * (k mod 4) <= 24) by (Z.div_mod_to_equations; lia).
  destruct (Z.eq_dec (i / 32) (k / 4)) as [E|E].
  - rewrite E, Load_Store_eq by lia.
    rewrite Z.lor_spec, Z.land_spec, u32_testbit, Z.lnot_spec, !Z.shiftl_spec by lia.
    change 255 with (Z.ones 8). rewrite Z.testbit_ones by lia.
    remember (i mod 32 - 8 * (k mod 4)) as t eqn:Et.
    assert (Ht : t = i - 8 * k) by (subst t; clear - E Hk Hi; Z.div_mod_to_equations; lia).
    replace (i mod 32 <? 32) with true by lia. cbn [andb].
    destruct (Z.leb_spec (8 * k) i); destruct (Z.ltb_spec i (8 * k + 8)); cbn [andb].
    + replace (0 <=? t) with true by lia. replace (t <? 8) with true by lia.
      cbn [andb negb]. rewrite andb_false_r. cbn [orb]. rewrite Ht. reflexivity.
    + replace (t <? 8) with false by lia. rewrite andb_false_r. cbn [negb].
      rewrite andb_true_r, u8_testbit. replace (t <? 8) with false by lia.
      cbn [andb]. apply orb_false_r.
    + replace (0 <=? t) with false by lia. cbn [andb negb].
      rewrite andb_true_r, (Z.testbit_neg_r (u8 v) t) by lia. apply orb_false_r.
    + lia.
  - rewrite Load_Store_ne by lia.
    replace ((8 * k <=? i) && (i <? 8 * k + 8)) with false; [reflexivity|].
    symmetry. apply andb_false_iff.
    destruct (Z.leb_spec (8 * k) i); [right | left; reflexivity].
    apply Z.ltb_ge. clear - E H Hk Hi. Z.div_mod_to_equations. lia.
Qed.

Lemma wf_store_byte (d : buffer) (k v : Z) : wf_buffer d -> wf_buffer (store_byte d k v).
Proof.
  intros Hwf. unfold store_byte. cbv zeta.
  assert (Hs : 0 <= 8 * (k mod 4) <= 24) by (Z.div_mod_to_equations; lia).
  apply wf_Store; [exact Hwf|]. apply lor_range.
  - apply land_range, u32_range.
  - apply range_of_bits; [lia|]. intros j Hj.
    rewrite Z.shiftl_spec, u8_testbit by lia.
    destruct (Z.ltb_spec j 32); cbn [andb]; [reflexivity|].
    replace (j - 8 * (k mod 4) <? 8) with false by lia. reflexivity.
Qed.

Lemma memcpy_bytes_spec (n : nat) :
  forall (d : buffer) (dst : Z) (src : list Z),
    wf_buffer d -> 0 <= dst -> dst + Z.of_nat n <= 4 * Z.of_nat (length d) ->
    wf_buffer (memcpy_bytes d dst src n) /\
    forall i, 0 <= i ->
      bit_at (memcpy_bytes d dst src n) i
      = if (8 * dst <=? i) && (i <? 8 * (dst + Z.of_nat n))
        then in_bit src (i - 8 * dst) else bit_at d i.
Proof.
  induction n as [|n IH]; intros d dst src Hwf Hdst Hfit.
  - cbn [memcpy_bytes]. split; [exact Hwf|]. intros i Hi.
    replace ((8 * dst <=? i) && (i <? 8 * (dst + Z.of_nat 0))) with false; [reflexivity|].
    symmetry. apply andb_false_iff. destruct (Z.leb_spec (8 * dst) i); [right | left; auto].
    apply Z.ltb_ge. lia.
  - cbn [memcpy_bytes].
    destruct (IH (store_byte d dst (byte_of src 0)) (dst + 1) (drop 1 src)
                (wf_store_byte _ _ _ Hwf) ltac:(lia)
                ltac:(rewrite length_store_byte; lia)) as [W B].
    split; [exact W|]. intros i Hi. rewrite B by lia.
    rewrite store_byte_bits
      by (try lia; clear - Hdst Hfit; Z.div_mod_to_equations; lia).
    destruct (Z.leb_spec (8 * (dst + 1)) i);
      destruct (Z.ltb_spec i (8 * (dst + 1 + Z.of_nat n))); cbn [andb].
    + replace ((8 * dst <=? i) && (i <? 8 * (dst + Z.of_nat (S n)))) with true
        by (symmetry; apply andb_true_iff; split; [apply Z.leb_le | apply Z.ltb_lt]; lia).
      change 1%nat with (Z.to_nat 1). rewrite in_bit_drop by lia. f_equal. lia.
    + replace ((8 * dst <=? i) && (i <? 8 * dst + 8)) with false
        by (symmetry; apply andb_false_iff; right; apply Z.ltb_ge; lia).
      replace ((8 * dst <=? i) && (i <? 8 * (dst + Z.of_nat (S n)))) with false
        by (symmetry; apply andb_false_iff; right; apply Z.ltb_ge; lia).
      reflexivity.
    + destruct (Z.leb_spec (8 * dst) i); cbn [andb]; [|reflexivity].
      replace (i <? 8 * dst + 8) with true by lia.
      replace (i <? 8 * (dst + Z.of_nat (S n))) with true by (symmetry; apply Z.ltb_lt; lia).
      unfold in_bit. rewrite Z.div_small, Z.mod_small by lia.
      change (Z.to_nat 0) with 0%nat.
      rewrite u8_testbit. replace (i - 8 * dst <? 8) with true by lia. reflexivity.
    + lia.
Qed.

Lemma Store_Store (d : buffer) (i x y : Z) :
  StoreLittleDWord (StoreLittleDWord d i x) i y = StoreLittleDWord d i y.
Proof. unfold StoreLittleDWord. apply list_insert_insert_eq. Qed.

(** The body of the word loop of [WriteBits] stores what
    [WriteUBitLong(curData, 32)] stores. *)
Lemma word_body_is_WriteUBitLong (w : bf_write.t) (v : Z) :
  0 <= bf_write.m_iCurBit w ->
  bf_write.m_iCurBit w + 32 <= bf_write.m_nDataBits w ->
  bf_write.m_nDataBits w <= 32 * Z.of_nat (length (bf_write.m_pData w)) ->
  0 <= v < 2 ^ 32 ->
  (let iBitsRight := Z.land (bf_write.m_iCurBit w) 31 in
   let iBitsLeft := 32 - iBitsRight in
   let bitMaskLeft := BitWriteMasks_at iBitsRight 32 in
   let bitMaskRight := BitWriteMasks_at 0 iBitsRight in
   let pData := Z.shiftr (bf_write.m_iCurBit w) 5 in
   let curData := v in
   let d := bf_write.m_pData w in
   let d := StoreLittleDWord d pData (Z.land (LoadLittleDWord d pData) bitMaskLeft) in
   let d := StoreLittleDWord d pData
              (Z.lor (LoadLittleDWord d pData) (u32 (Z.shiftl curData iBitsRight))) in
   let pData := pData + 1 in
   let d :=
     if iBitsLeft <? 32 then
       let curData := Z.shiftr curData iBitsLeft in
       let d := StoreLittleDWord d pData (Z.land (LoadLittleDWord d pData) bitMaskRight) in
       StoreLittleDWord d pData (Z.lor (LoadLittleDWord d pData) curData)
     else d in
   bf_write.advance (bf_write.with_data w d) 32)
  = bf_write.WriteUBitLong w v 32.
Proof.
  intros Hcur Hfit Hlen Hv. cbv zeta. unfold bf_write.WriteUBitLong.
  destruct (Z.gtb_spec (bf_write.m_iCurBit w + 32) (bf_write.m_nDataBits w)); [lia|].
  cbv zeta. rewrite ExtraMasks_at_ones by lia.
  assert (Ev : Z.land v (Z.ones 32) = v) by (rewrite Z.land_ones by lia; apply Z.mod_small; lia).
  rewrite Ev. rewrite shiftr5, land31.
  set (c := bf_write.m_iCurBit w) in *. set (d := bf_write.m_pData w) in *.
  assert (Hq : 0 <= c / 32 < Z.of_nat (length d))
    by (clear - Hcur Hfit Hlen; Z.div_mod_to_equations; lia).
  assert (Hs : 0 <= c mod 32 < 32) by (apply Z.mod_pos_bound; lia).
  unfold bf_write.advance. cbn [bf_write.m_iCurBit bf_write.with_data].
  destruct (Z.ltb_spec (32 - c mod 32) 32) as [Hsp|Hsp].
  - assert (Hq1 : c / 32 + 1 < Z.of_nat (length d))
      by (clear - Hcur Hfit Hlen Hsp; Z.div_mod_to_equations; lia).
    rewrite (Load_Store_eq d (c / 32)) by lia. rewrite !Store_Store.
    rewrite (Load_Store_eq _ (c / 32 + 1)) by (rewrite length_Store; lia).
    replace (32 - (32 - c mod 32)) with (c mod 32) by lia.
    reflexivity.
  - rewrite (Load_Store_eq d (c / 32)) by lia. rewrite !Store_Store. reflexivity.
Qed.

Section WriteBitsCopies.
Variables (w0 : bf_write.t) (p0 : inptr) (nBits : Z).
Hypothesis Hwf : wf_buffer (bf_write.m_pData w0).
Hypothesis Hcur : 0 <= bf_write.m_iCurBit w0.
Hypothesis Hlen : bf_write.m_nDataBits w0 <= 32 * Z.of_nat (length (bf_write.m_pData w0)).
Hypothesis HnBits : 0 <= nBits.
Hypothesis Hfit : bf_write.m_iCurBit w0 + nBits <= bf_write.m_nDataBits w0.

(** What every phase of [WriteBits] keeps true with [n] bits still to
    write: a whole number [m] of source bytes is in place from the starting
    cursor on, the source pointer has moved by [m], and no other bit of
    the buffer has changed. *)
Let Inv (st : bf_write.t * inptr * Z) : Prop :=
  let '(w, p, n) := st in
  exists m, 0 <= m /\ nBits - n = 8 * m /\ 0 <= n /\
    (wf_buffer (bf_write.m_pData w) /\ 0 <= bf_write.m_iCurBit w /\
     bf_write.m_nDataBits w = bf_write.m_nDataBits w0 /\
     bf_write.m_nDataBits w0 <= 32 * Z.of_nat (length (bf_write.m_pData w))) /\
    bf_write.m_iCurBit w = bf_write.m_iCurBit w0 + 8 * m /\
    bf_write.m_bOverflow w = bf_write.m_bOverflow w0 /\
    in_bytes p = drop (Z.to_nat m) (in_bytes p0) /\
    (forall j, 0 <= j < 8 * m ->
       bit_at (bf_write.m_pData w) (bf_write.m_iCurBit w0 + j) = in_bit (in_bytes p0) j) /\
    (forall i, 0 <= i ->
       ~ (bf_write.m_iCurBit w0 <= i < bf_write.m_iCurBit w0 + 8 * m) ->
       bit_at (bf_write.m_pData w) i = bit_at (bf_write.m_pData w0) i).

Lemma Inv_chunk (w w' : bf_write.t) (p p' : inptr) (n k : Z) :
  Inv (w, p, n) -> 0 <= k -> 8 * k <= n ->
  (wf_buffer (bf_write.m_pData w') /\ 0 <= bf_write.m_iCurBit w' /\
   bf_write.m_nDataBits w' = bf_write.m_nDataBits w0 /\
   bf_write.m_nDataBits w0 <= 32 * Z.of_nat (length (bf_write.m_pData w'))) ->
  bf_write.m_iCurBit w' = bf_write.m_iCurBit w + 8 * k ->
  bf_write.m_bOverflow w' = bf_write.m_bOverflow w ->
  in_bytes p' = drop (Z.to_nat k) (in_bytes p) ->
  (forall i, 0 <= i ->
     bit_at (bf_write.m_pData w') i
     = if (bf_write.m_iCurBit w <=? i) && (i <? bf_write.m_iCurBit w + 8 * k)
       then in_bit (in_bytes p) (i - bf_write.m_iCurBit w)
       else bit_at (bf_write.m_pData w) i) ->
  Inv (w', p', n - 8 * k).
Proof.
  intros (m & Hm & Hn & Hn0 & G & C & O & P & B & F) Hk Hkn G' C' O' P' B'.
  set (c := bf_write.m_iCurBit w0) in *.
  exists (m + k). split; [lia|]. split; [lia|]. split; [lia|]. split; [exact G'|].
  split; [lia|]. split; [congruence|]. split.
  { rewrite P', P, drop_drop. f_equal. lia. }
  split.
  - intros j Hj. rewrite B' by lia. rewrite C.
    destruct (Z.leb_spec (c + 8 * m) (c + j)); cbn [andb].
    + replace (c + j <? c + 8 * m + 8 * k) with true by lia.
      rewrite P, in_bit_drop by lia. f_equal. lia.
    + apply B. lia.
  - intros i Hi Hout. rewrite B' by lia. rewrite C.
    destruct (Z.leb_spec (c + 8 * m) i); cbn [andb].
    + replace (i <? c + 8 * m + 8 * k) with false by lia. apply F; lia.
    + apply F; lia.
Qed.

Lemma Inv_byte (w : bf_write.t) (p : inptr) (n : Z) :
  Inv (w, p, n) -> 8 <= n ->
  Inv (bf_write.WriteUBitLong w (deref8 p) 8, ptr_add p 1, n - 8).
Proof.
  intros HI H8. pose proof HI as (m & Hm & Hn & Hn0 & G & C & O & P & B & F).
  destruct (WriteUBitLong_step w (deref8 p) 8 (bf_write.m_iCurBit w)
              (bf_write.m_nDataBits w0) G eq_refl ltac:(lia) ltac:(lia))
    as (G' & C' & O' & B').
  apply (Inv_chunk w _ p _ n 1 HI); try lia; auto.
  intros i Hi. rewrite B' by lia.
  destruct ((bf_write.m_iCurBit w <=? i) && (i <? bf_write.m_iCurBit w + 8)) eqn:Ein.
  - replace (bf_write.m_iCurBit w + 8 * 1) with (bf_write.m_iCurBit w + 8) by lia.
    rewrite Ein. apply deref8_testbit. lia.
  - replace (bf_write.m_iCurBit w + 8 * 1) with (bf_write.m_iCurBit w + 8) by lia.
    rewrite Ein. reflexivity.
Qed.

Lemma Inv_word (w : bf_write.t) (p : inptr) (n : Z) :
  Inv (w, p, n) -> 32 <= n ->
  Inv (bf_write.WriteUBitLong w (deref32 p) 32, ptr_add p 4, n - 32).
Proof.
  intros HI H32. pose proof HI as (m & Hm & Hn & Hn0 & G & C & O & P & B & F).
  destruct (WriteUBitLong_step w (deref32 p) 32 (bf_write.m_iCurBit w)
              (bf_write.m_nDataBits w0) G eq_refl ltac:(lia) ltac:(lia))
    as (G' & C' & O' & B').
  replace (n - 32) with (n - 8 * 4) by lia.
  apply (Inv_chunk w _ p _ n 4 HI); try lia; auto.
  intros i Hi. rewrite B' by lia.
  replace (bf_write.m_iCurBit w + 8 * 4) with (bf_write.m_iCurBit w + 32) by lia.
  destruct ((bf_write.m_iCurBit w <=? i) && (i <? bf_write.m_iCurBit w + 32)) eqn:Ein;
    [|reflexivity].
  rewrite deref32_testbit by lia.
  replace (i - bf_write.m_iCurBit w <? 32) with true by lia. reflexivity.
Qed.

Lemma Inv_memcpy (w : bf_write.t) (p : inptr) (n : Z) :
  Inv (w, p, n) -> Z.land (bf_write.m_iCurBit w) 7 = 0 ->
  let numbytes := Z.shiftr n 3 in
  let numbits := Z.shiftl numbytes 3 in
  Inv (bf_write.advance
         (bf_write.with_data w
            (memcpy_bytes (bf_write.m_pData w) (Z.shiftr (bf_write.m_iCurBit w) 3)
               (in_bytes p) (Z.to_nat numbytes))) numbits,
       ptr_add p numbytes, n - numbits).
Proof.
  intros HI Hal numbytes numbits.
  pose proof HI as (m & Hm & Hn & Hn0 & (Gwf & Gc & GD & GL) & C & O & P & B & F).
  assert (Enb : numbytes = n / 8) by (unfold numbytes; apply Z.shiftr_div_pow2; lia).
  assert (Hnb : 0 <= numbytes /\ 8 * numbytes <= n)
    by (rewrite Enb; clear - Hn0; Z.div_mod_to_equations; lia).
  assert (Enbits : numbits = 8 * numbytes)
    by (unfold numbits; rewrite Z.shiftl_mul_pow2 by lia; lia).
  assert (Ec : 8 * Z.shiftr (bf_write.m_iCurBit w) 3 = bf_write.m_iCurBit w).
  { rewrite Z.shiftr_div_pow2 by lia. change 7 with (Z.ones 3) in Hal.
    rewrite Z.land_ones in Hal by lia. change (2 ^ 3) with 8 in *.
    clear - Hal. Z.div_mod_to_equations. lia. }
  assert (Hdst : 0 <= Z.shiftr (bf_write.m_iCurBit w) 3) by lia.
  destruct (memcpy_bytes_spec (Z.to_nat numbytes) (bf_write.m_pData w)
              (Z.shiftr (bf_write.m_iCurBit w) 3) (in_bytes p) Gwf Hdst ltac:(lia))
    as [W' B'].
  rewrite Enbits.
  apply (Inv_chunk w _ p _ n numbytes HI); try lia.
  - unfold bf_write.advance.
    cbn [bf_write.m_pData bf_write.m_iCurBit bf_write.m_nDataBits bf_write.with_data
         bf_write.with_cur].
    rewrite length_memcpy_bytes. repeat split; auto; lia.
  - reflexivity.
  - reflexivity.
  - reflexivity.
  - intros i Hi. unfold bf_write.advance.
    cbn [bf_write.m_pData bf_write.m_iCurBit bf_write.with_data bf_write.with_cur].
    rewrite B' by lia. rewrite Ec, Z2Nat.id by lia.
    replace (8 * (Z.shiftr (bf_write.m_iCurBit w) 3 + numbytes))
      with (bf_write.m_iCurBit w + 8 * numbytes) by lia.
    reflexivity.
Qed.

Lemma WriteBits_spec (IsPC : bool) (fuel : nat) :
  nBits / 8 < Z.of_nat fuel ->
  exists w',
    bf_write.WriteBits IsPC fuel w0 p0 nBits = Some (negb (bf_write.m_bOverflow w0), w') /\
    bf_write.m_iCurBit w' = bf_write.m_iCurBit w0 + nBits /\
    bf_write.m_bOverflow w' = bf_write.m_bOverflow w0 /\
    (wf_buffer (bf_write.m_pData w') /\ 0 <= bf_write.m_iCurBit w' /\
     bf_write.m_nDataBits w' = bf_write.m_nDataBits w0 /\
     bf_write.m_nDataBits w0 <= 32 * Z.of_nat (length (bf_write.m_pData w'))) /\
    (forall j, 0 <= j < nBits ->
       bit_at (bf_write.m_pData w') (bf_write.m_iCurBit w0 + j) = in_bit (in_bytes p0) j) /\
    (forall i, 0 <= i ->
       ~ (bf_write.m_iCurBit w0 <= i < bf_write.m_iCurBit w0 + nBits) ->
       bit_at (bf_write.m_pData w') i = bit_at (bf_write.m_pData w0) i).
Proof.
  intros Hfuel. unfold bf_write.WriteBits.
  pose proof (i32_le (bf_write.m_iCurBit w0 + nBits) ltac:(lia)) as Hwrap.
  destruct (Z.gtb_spec (i32 (bf_write.m_iCurBit w0 + nBits)) (bf_write.m_nDataBits w0));
    [lia|].
  assert (HI0 : Inv (w0, p0, nBits)).
  { exists 0. split; [lia|]. split; [lia|]. split; [lia|].
    split; [repeat split; auto|]. split; [lia|]. split; [reflexivity|].
    split; [reflexivity|]. split; [intros; lia | intros; reflexivity]. }
  assert (Hpos : forall w p n, Inv (w, p, n) -> 0 <= n <= nBits).
  { intros w p n (m & ? & ? & ? & _). lia. }
  set (I3 := fun s : bf_write.t * inptr * Z => Inv s).
  (* the alignment loop *)
  run_while I3 (fun st : bf_write.t * inptr * Z => snd st / 8).
  { intros [[w p] n] HI Hc. apply andb_true_iff in Hc as [_ Hc].
    apply Inv_byte; [exact HI | lia]. }
  { intros [[w p] n] HI Hc. apply andb_true_iff in Hc as [_ Hc]. cbn [snd].
    assert (8 <= n) by lia. clear - H0. Z.div_mod_to_equations. lia. }
  { exact HI0. }
  { cbn [snd]. split; [apply Z.div_pos; lia | exact Hfuel]. }
  destruct s as [[w1 p1] n1]. unfold I3 in HI. rename HI into HI1. clear Hc.
  cbn [mbind option_bind]. cbn beta iota.
  (* the aligned copy *)
  match goal with |- context [if ?b then ?x else (w1, p1, n1)] =>
    set (s2 := if b then x else (w1, p1, n1)) end.
  assert (H2 : Inv s2).
  { subst s2.
    destruct (IsPC && (n1 >=? 32) && (Z.land (bf_write.m_iCurBit w1) 7 =? 0)) eqn:Eb;
      [|exact HI1].
    apply andb_true_iff in Eb as [_ Eb]. apply Z.eqb_eq in Eb.
    exact (Inv_memcpy w1 p1 n1 HI1 Eb). }
  destruct s2 as [[w2 p2] n2].
  pose proof (Hpos _ _ _ H2) as Hn2.
  (* the word loop *)
  match goal with |- context [mbind ?k (if ?b then ?x else Some (w2, p2, n2))] =>
    assert (E3 : exists w3 p3 n3,
               (if b then x else Some (w2, p2, n2)) = Some (w3, p3, n3) /\
               Inv (w3, p3, n3))
  end.
  { destruct (IsPC && (n2 >=? 32)); [|exists w2, p2, n2; auto].
    cbv zeta.
    set (s0 := Z.land (bf_write.m_iCurBit w2) 31).
    set (I4 := fun s : bf_write.t * Z * inptr * Z =>
                 let '(w, q, p, n) := s in
                 Inv (w, p, n) /\ q = Z.shiftr (bf_write.m_iCurBit w) 5 /\
                 Z.land (bf_write.m_iCurBit w) 31 = s0).
    run_while I4 (fun st : bf_write.t * Z * inptr * Z => snd st / 8).
    { intros [[[w q] p] n] (HI & -> & Hs) Hc.
      pose proof HI as (m & Hm & Hn & Hn0 & (Gwf & Gc & GD & GL) & C & O & P & B & F).
      assert (H32 : 32 <= n) by lia.
      pose proof (word_body_is_WriteUBitLong w (deref32 p) Gc ltac:(lia) ltac:(lia)
                    (deref32_range p)) as Eb.
      rewrite Hs in Eb.
      pose proof (Inv_word w p n HI H32) as HI'.
      rewrite <- Eb in HI'. cbv zeta in HI'.
      cbn beta iota. cbv zeta. unfold I4.
      split; [exact HI'|].
      unfold bf_write.advance.
      cbn [bf_write.m_iCurBit bf_write.with_data bf_write.with_cur].
      rewrite !shiftr5, !land31 in *. unfold s0 in *. rewrite land31 in *.
      split; clear - Hs Gc; Z.div_mod_to_equations; lia. }
    { intros [[[w q] p] n] (HI & _) Hc. cbn beta iota. cbv zeta. cbn [snd].
      assert (32 <= n) by lia. clear - H0. Z.div_mod_to_equations. lia. }
    { unfold I4. split; [exact H2|]. split; reflexivity. }
    { cbn [snd]. clear - Hfuel Hn2. Z.div_mod_to_equations. lia. }
    destruct s as [[[w3 q3] p3] n3]. destruct HI as (HI3 & _).
    cbn [mbind option_bind]. exists w3, p3, n3. auto. }
  destruct E3 as (w3 & p3 & n3 & E3 & HI3).
  rewrite E3. cbn [mbind option_bind]. cbn beta iota.
  pose proof (Hpos _ _ _ HI3) as Hn3.
  (* the byte loop *)
  run_while I3 (fun st : bf_write.t * inptr * Z => snd st / 8).
  { intros [[w p] n] HI Hc. apply Inv_byte; [exact HI | lia]. }
  { intros [[w p] n] HI Hc. cbn [snd].
    assert (8 <= n) by lia. clear - H0. Z.div_mod_to_equations. lia. }
  { exact HI3. }
  { cbn [snd]. clear - Hfuel Hn3. Z.div_mod_to_equations. lia. }
  destruct s as [[w4 p4] n4]. unfold I3 in HI. cbn beta iota in Hc.
  cbn [mbind option_bind]. cbn beta iota.
  (* the last bits *)
  destruct HI as (m & Hm & Hn & Hn0 & G & C & O & P & B & F).
  set (c := bf_write.m_iCurBit w0) in *.
  assert (Hn4 : 0 <= n4 < 8) by lia.
  unfold truthy. destruct (Z.eqb_spec n4 0) as [Ez|Ez]; cbn [negb].
  - exists w4. unfold bf_write.IsOverflowed. rewrite O.
    split; [reflexivity|]. split; [lia|]. split; [reflexivity|]. split; [exact G|].
    split; [intros j Hj; apply B; lia | intros i Hi Hout; apply F; lia].
  - destruct (WriteUBitLong_step w4 (deref8 p4) n4 (c + 8 * m) (bf_write.m_nDataBits w0)
                G C ltac:(lia) ltac:(lia)) as (G' & C' & O' & B').
    exists (bf_write.WriteUBitLong w4 (deref8 p4) n4).
    unfold bf_write.IsOverflowed. rewrite O', O.
    split; [reflexivity|]. split; [lia|]. split; [reflexivity|]. split; [exact G'|].
    split.
    + intros j Hj. rewrite B' by lia.
      destruct (Z.leb_spec (c + 8 * m) (c + j)); cbn [andb].
      * replace (c + j <? c + 8 * m + n4) with true by lia.
        rewrite deref8_testbit, P, in_bit_drop by lia. f_equal. lia.
      * apply B. lia.
    + intros i Hi Hout. rewrite B' by lia.
      destruct (Z.leb_spec (c + 8 * m) i); cbn [andb].
      * replace (i <? c + 8 * m + n4) with false by lia. apply F; lia.
      * apply F; lia.
Qed.
End WriteBitsCopies.

(** X18.  [WriteBits] copies [nBits] bits of the source bytes (low bit of
    each byte first) to the stream at the cursor, by whichever of its
    paths the build, the source pointer's alignment and the cursor select:
    the byte loops, the aligned [Q_memcpy] and the masked word loop all
    store the same bits.  For a write that fits, with fuel above
    [nBits / 8]: the call returns, the result is true unless the writer was
    already overflowed, the cursor has moved by [nBits], bit [j] at the
    old cursor is bit [j] of the source, and every bit outside the
    [nBits] written keeps its value.  The source must hold the
    [(nBits + 7) / 8] bytes that the call reads. *)
Theorem WriteBits_copies (IsPC : bool) (fuel : nat) (w : bf_write.t) (pIn : inptr)
    (nBits : Z) :
  wf_buffer (bf_write.m_pData w) ->
  0 <= bf_write.m_iCurBit w ->
  bf_write.m_nDataBits w <= 32 * Z.of_nat (length (bf_write.m_pData w)) ->
  0 <= nBits ->
  bf_write.m_iCurBit w + nBits <= bf_write.m_nDataBits w ->
  (nBits + 7) / 8 <= Z.of_nat (length (in_bytes pIn)) ->
  nBits / 8 < Z.of_nat fuel ->
  exists w',
    bf_write.WriteBits IsPC fuel w pIn nBits = Some (negb (bf_write.m_bOverflow w), w') /\
    bf_write.m_iCurBit w' = bf_write.m_iCurBit w + nBits /\
    bf_write.m_bOverflow w' = bf_write.m_bOverflow w /\
    (forall j, 0 <= j < nBits ->
       bit_at (bf_write.m_pData w') (bf_write.m_iCurBit w + j) = in_bit (in_bytes pIn) j) /\
    (forall i, 0 <= i ->
       ~ (bf_write.m_iCurBit w <= i < bf_write.m_iCurBit w + nBits) ->
       bit_at (bf_write.m_pData w') i = bit_at (bf_write.m_pData w) i).
Proof.
  intros Hwf Hcur Hlen Hn Hfit Hsrc Hfuel.
  destruct (WriteBits_spec w pIn nBits Hwf Hcur Hlen Hn Hfit IsPC fuel Hfuel)
    as (w' & E & C & O & _ & B & F).
  exists w'. auto.
Qed.

Lemma WriteBits_copies_witness :
  let w := bf_write.SeekToBit (bf_write.create (repeat 0xFFFFFFFF 4) 16 (-1)) 5 in
  let pIn := mk_inptr 0x1003 [0x12; 0x34; 0x56; 0x78; 0x9A; 0xBC; 0xDE; 0xF0; 0x0F; 0xA5] in
  exists w',
    bf_write.WriteBits true 10 w pIn 77 = Some (negb (bf_write.m_bOverflow w), w') /\
    bf_write.m_iCurBit w' = bf_write.m_iCurBit w + 77 /\
    bf_write.m_bOverflow w' = bf_write.m_bOverflow w /\
    (forall j, 0 <= j < 77 ->
       bit_at (bf_write.m_pData w') (bf_write.m_iCurBit w + j) = in_bit (in_bytes pIn) j) /\
    (forall i, 0 <= i ->
       ~ (bf_write.m_iCurBit w <= i < bf_write.m_iCurBit w + 77) ->
       bit_at (bf_write.m_pData w') i = bit_at (bf_write.m_pData w) i).
Proof.
  intros w pIn.
  apply (WriteBits_copies true 10 w pIn 77).
  - wf_by_compute.
  - vm_compute. discriminate.
  - vm_compute. discriminate.
  - vm_compute. discriminate.
  - vm_compute. discriminate.
  - vm_compute. discriminate.
  - vm_compute. reflexivity.
Defined.

Lemma reader_of_not_overflowed (w : bf_write.t) (p : Z) :
  bf_read.m_bOverflow (reader_of w p) = false.
Proof. reflexivity. Qed.

(** X19.  [ReadBytes] gives back the bytes that [WriteBytes] wrote,
    whichever paths the two calls take (the builds and the alignments of
    the two pointers may differ): after writing [nBytes] bytes at the
    cursor, a reader started at the old cursor fills the destination with
    the source's bytes, reports no overflow and ends where the writer
    ended. *)
Theorem WriteBytes_then_ReadBytes (IsPCw IsPCr : bool) (fuel : nat) (w : bf_write.t)
    (pIn : inptr) (pOut : outptr) (nBytes : Z) :
  wf_buffer (bf_write.m_pData w) ->
  0 <= bf_write.m_iCurBit w ->
  bf_write.m_nDataBits w <= 32 * Z.of_nat (length (bf_write.m_pData w)) ->
  0 <= nBytes ->
  bf_write.m_iCurBit w + nBytes * 8 <= bf_write.m_nDataBits w ->
  nBytes <= Z.of_nat (length (in_bytes pIn)) ->
  0 <= out_index pOut ->
  out_index pOut + nBytes <= Z.of_nat (length (out_bytes pOut)) ->
  nBytes < Z.of_nat fuel ->
  exists w' out,
    bf_write.WriteBytes IsPCw fuel w pIn nBytes = Some (negb (bf_write.m_bOverflow w), w') /\
    bf_read.ReadBytes IsPCr fuel (reader_of w' (bf_write.m_iCurBit w)) pOut nBytes
    = Some (true, out,
            bf_read.with_cur (reader_of w' (bf_write.m_iCurBit w)) (bf_write.m_iCurBit w')) /\
    length out = length (out_bytes pOut) /\
    forall k : nat, Z.of_nat k < nBytes ->
      byte_of out (Z.to_nat (out_index pOut) + k) = byte_of (in_bytes pIn) k.
Proof.
  intros Hwf Hcur Hlen Hn Hfit Hsrc Hidx Hroom Hfuel.
  set (c := bf_write.m_iCurBit w) in *.
  assert (Ed : nBytes * 8 / 8 = nBytes) by (apply Z.div_mul; lia).
  assert (Eb : (nBytes * 8 + 7) / 8 = nBytes) by (clear; Z.div_mod_to_equations; lia).
  destruct (WriteBits_spec w pIn (nBytes * 8) Hwf Hcur Hlen ltac:(lia) Hfit IsPCw fuel
              ltac:(lia)) as (w' & E & C & O & G & B & F).
  fold c in C, B, F.
  destruct (reader_of_good w' (bf_write.m_nDataBits w) c G Hcur ltac:(lia))
    as (Rwf & Rd & Rc & RD).
  set (r := reader_of w' c) in *.
  destruct (ReadBits_spec r pOut (nBytes * 8) Rwf ltac:(lia) ltac:(lia) ltac:(lia) Hidx
              ltac:(lia) IsPCr fuel ltac:(lia)) as (out & E' & HL & HB & _ & _).
  exists w', out. fold r. unfold bf_write.WriteBytes, bf_read.ReadBytes.
  split; [exact E|]. rewrite E'. cbn [mbind option_bind].
  split.
  { unfold bf_read.IsOverflowed. cbn [bf_read.m_bOverflow bf_read.with_cur].
    unfold r at 1. rewrite reader_of_not_overflowed. cbn [negb].
    rewrite Rc, C. reflexivity. }
  split; [exact HL|].
  intros k Hk. apply Z.bits_inj'. intros j Hj.
  rewrite (byte_of_testbit out), (byte_of_testbit (in_bytes pIn)).
  destruct (Z.leb_spec 0 j); [|lia]. destruct (Z.ltb_spec j 8); cbn [andb]; [|reflexivity].
  specialize (HB (8 * Z.of_nat k + j) ltac:(lia)).
  rewrite Rc, Rd, B in HB by lia.
  unfold in_bit in HB.
  assert (E1 : (8 * out_index pOut + (8 * Z.of_nat k + j)) / 8 = out_index pOut + Z.of_nat k)
    by (clear - Hj H0; Z.div_mod_to_equations; lia).
  assert (E2 : (8 * out_index pOut + (8 * Z.of_nat k + j)) mod 8 = j)
    by (clear - Hj H0; Z.div_mod_to_equations; lia).
  assert (E3 : (8 * Z.of_nat k + j) / 8 = Z.of_nat k)
    by (clear - Hj H0; Z.div_mod_to_equations; lia).
  assert (E4 : (8 * Z.of_nat k + j) mod 8 = j)
    by (clear - Hj H0; Z.div_mod_to_equations; lia).
  rewrite E1, E2, E3, E4 in HB.
  replace (Z.to_nat (out_index pOut + Z.of_nat k))
    with (Z.to_nat (out_index pOut) + k)%nat in HB by lia.
  rewrite Nat2Z.id in HB. exact HB.
Qed.

Lemma WriteBytes_then_ReadBytes_witness :
  let w := bf_write.SeekToBit (bf_write.create (repeat 0xFFFFFFFF 4) 16 (-1)) 8 in
  let pIn := mk_inptr 0x1000 [0x12; 0x34; 0x56; 0x78; 0x9A; 0xBC; 0xDE] in
  let pOut := mk_outptr 0x2001 1 (repeat 0xAA 9) in
  exists w' out,
    bf_write.WriteBytes true 7 w pIn 6 = Some (negb (bf_write.m_bOverflow w), w') /\
    bf_read.ReadBytes false 7 (reader_of w' (bf_write.m_iCurBit w)) pOut 6
    = Some (true, out,
            bf_read.with_cur (reader_of w' (bf_write.m_iCurBit w)) (bf_write.m_iCurBit w')) /\
    length out = length (out_bytes pOut) /\
    forall k : nat, Z.of_nat k < 6 ->
      byte_of out (Z.to_nat (out_index pOut) + k) = byte_of (in_bytes pIn) k.
Proof.
  intros w pIn pOut.
  apply (WriteBytes_then_ReadBytes true false 7 w pIn pOut 6).
  - wf_by_compute.
  - vm_compute. discriminate.
  - vm_compute. discriminate.
  - vm_compute. discriminate.
  - vm_compute. discriminate.
  - vm_compute. discriminate.
  - vm_compute. discriminate.
  - vm_compute. discriminate.
  - vm_compute. reflexivity.
Defined.

(** ** The Bitbuf class *)

Lemma usize_small (x : Z) : 0 <= x < 2 ^ 64 -> Bitbuf.usize x = x.
Proof. intros H. unfold Bitbuf.usize. apply Z.mod_small. exact H. Qed.

Lemma byte_high_bit (x j : Z) : 0 <= x < 2 ^ 8 -> 8 <= j -> Z.testbit x j = false.
Proof. intros Hx Hj. apply (bits_of_range x 8 j); auto. Qed.

Lemma set_bit_range (n pos set : Z) : 0 <= Bitbuf.set_bit n pos set < 2 ^ 8.
Proof. unfold Bitbuf.set_bit. cbv zeta. destruct (truthy set); apply u8_range. Qed.

Lemma set_bit_testbit (n pos : Z) (bit : bool) (j : Z) :
  0 <= n < 2 ^ 8 -> 0 <= pos < 8 -> 0 <= j ->
  Z.testbit (Bitbuf.set_bit n pos (b2z bit)) j = if j =? pos then bit else Z.testbit n j.
Proof.
  intros Hn Hpos Hj. unfold Bitbuf.set_bit. cbv zeta. rewrite b2z_truthy.
  rewrite Z.shiftl_1_l.
  destruct bit.
  - rewrite u8_testbit, Z.lor_spec, u32_testbit, Z.pow2_bits_eqb by lia.
    destruct (Z.eqb_spec j pos) as [->|Hne].
    + rewrite Z.eqb_refl. replace (pos <? 8) with true by lia.
      replace (pos <? 32) with true by lia. cbn [andb]. apply orb_true_r.
    + replace (pos =? j) with false by lia. rewrite andb_false_r, orb_false_r.
      destruct (Z.ltb_spec j 8); cbn [andb]; [reflexivity|].
      symmetry. apply byte_high_bit; auto.
  - rewrite u8_testbit, Z.land_spec, u32_testbit, Z.lnot_spec, u32_testbit,
      Z.pow2_bits_eqb by lia.
    destruct (Z.eqb_spec j pos) as [->|Hne].
    + rewrite Z.eqb_refl. replace (pos <? 32) with true by lia.
      cbn [andb negb]. rewrite !andb_false_r. reflexivity.
    + replace (pos =? j) with false by lia. rewrite andb_false_r. cbn [negb].
      rewrite andb_true_r.
      destruct (Z.ltb_spec j 8); cbn [andb].
      * replace (j <? 32) with true by lia. apply andb_true_r.
      * symmetry. apply byte_high_bit; auto.
Qed.

Lemma map_seqZ_eq (f : Z -> bool) (l : list bool) :
  forall m, (forall (k : nat) x, l !! k = Some x -> f (m + Z.of_nat k) = x) ->
            map f (seqZ m (Z.of_nat (length l))) = l.
Proof.
  induction l as [|a l IH]; intros m H; [reflexivity|].
  rewrite seqZ_cons by (cbn [length]; lia).
  replace (Z.pred (Z.of_nat (length (a :: l)))) with (Z.of_nat (length l))
    by (cbn [length]; lia).
  cbn [map]. f_equal.
  - rewrite <- (H 0%nat a eq_refl). f_equal. lia.
  - apply IH. intros k x Hk. rewrite <- (H (S k) x Hk). f_equal. lia.
Qed.

Lemma Bitbuf_bits_extend (b b' : Bitbuf.t) (l : list bool) :
  0 <= Bitbuf.len b ->
  Bitbuf.len b' = Bitbuf.len b + Z.of_nat (length l) ->
  (forall i, 0 <= i < Bitbuf.len b -> Bitbuf_bit b' i = Bitbuf_bit b i) ->
  (forall (k : nat) x, l !! k = Some x -> Bitbuf_bit b' (Bitbuf.len b + Z.of_nat k) = x) ->
  Bitbuf_bits b' = Bitbuf_bits b ++ l.
Proof.
  intros Hl E Hold Hnew. unfold Bitbuf_bits.
  rewrite E, seqZ_app, map_app by lia. f_equal.
  - apply map_ext_in. intros i Hi. apply list_elem_of_In, elem_of_seqZ in Hi.
    apply Hold. lia.
  - rewrite Z.add_0_l. apply map_seqZ_eq. exact Hnew.
Qed.

Lemma push_back_spec (b : Bitbuf.t) (bit : bool) :
  Bitbuf_inv b -> Bitbuf.len b + 8 < 2 ^ 64 ->
  exists b',
    Bitbuf.push_back b bit = Some b' /\
    Bitbuf_inv b' /\
    Bitbuf.len b' = Bitbuf.len b + 1 /\
    (forall i, 0 <= i < Bitbuf.len b -> Bitbuf_bit b' i = Bitbuf_bit b i) /\
    Bitbuf_bit b' (Bitbuf.len b) = bit.
Proof.
  intros (Hl & HL & HB) Hbound. unfold Bitbuf.push_back. cbv zeta.
  set (n := Bitbuf.len b) in *. set (l := Bitbuf.buf b) in *.
  assert (Hs : 0 <= n mod 8 < 8) by (apply Z.mod_pos_bound; lia).
  assert (Hq : 0 <= n / 8) by (apply Z.div_pos; lia).
  rewrite (usize_small (7 - n mod 8)) by lia.
  rewrite (i32_small (7 - n mod 8)) by lia.
  rewrite (usize_small (n + 1)) by lia.
  unfold Bitbuf.capacity. fold l. rewrite HL.
  rewrite usize_small by (clear - Hl Hbound; Z.div_mod_to_equations; lia).
  set (base := if n =? (n + 7) / 8 * 8 then l ++ [0] else l).
  assert (Hbase : length base = Z.to_nat (n / 8 + 1) /\
                  Forall (fun x => 0 <= x < 2 ^ 8) base /\
                  (forall k : nat, (k < length l)%nat -> base !! k = l !! k) /\
                  (n mod 8 = 0 -> base !! Z.to_nat (n / 8) = Some 0) /\
                  (n mod 8 <> 0 -> base = l)).
  { unfold base. destruct (Z.eqb_spec n ((n + 7) / 8 * 8)) as [E|E].
    - assert (E0 : n mod 8 = 0) by (clear - E Hl; Z.div_mod_to_equations; lia).
      assert (EL : Z.of_nat (length l) = n / 8)
        by (rewrite HL; clear - E0 Hl; Z.div_mod_to_equations; lia).
      split; [rewrite length_app; cbn [length]; lia|].
      split; [apply Forall_app; split; [exact HB | repeat constructor; lia]|].
      split; [intros k Hk; apply lookup_app_l; exact Hk|].
      split; [intros _; apply list_lookup_middle; lia | intros H; contradiction].
    - assert (E0 : n mod 8 <> 0) by (clear - E Hl; Z.div_mod_to_equations; lia).
      assert (EL : Z.of_nat (length l) = n / 8 + 1)
        by (rewrite HL; clear - E0 Hl; Z.div_mod_to_equations; lia).
      split; [lia|]. split; [exact HB|]. split; [reflexivity|].
      split; [intros H; contradiction | reflexivity]. }
  destruct Hbase as (HbL & HbB & Hbl & Hb0 & Hbne).
  destruct (base !! Z.to_nat (n / 8)) as [x|] eqn:Ex.
  2:{ apply lookup_ge_None in Ex. lia. }
  assert (Hx : 0 <= x < 2 ^ 8).
  { rewrite Forall_lookup in HbB. exact (HbB _ _ Ex). }
  cbn [mbind option_bind].
  eexists. split; [reflexivity|].
  split.
  { unfold Bitbuf_inv. cbn [Bitbuf.len Bitbuf.buf].
    split; [lia|]. split.
    - rewrite length_insert, HbL. clear - Hl. Z.div_mod_to_equations. lia.
    - apply Forall_insert; [exact HbB | apply set_bit_range]. }
  split; [reflexivity|].
  split.
  - intros i Hi. unfold Bitbuf_bit. cbn [Bitbuf.buf]. fold l.
    assert (Hi8 : 0 <= i / 8 <= n / 8) by (clear - Hi; Z.div_mod_to_equations; lia).
    destruct (Z.eq_dec (i / 8) (n / 8)) as [E|E].
    + assert (Hne : n mod 8 <> 0) by (clear - Hi E; Z.div_mod_to_equations; lia).
      rewrite E, list_lookup_insert_eq by lia.
      rewrite (Hbne Hne) in Ex. rewrite Ex. cbn [default from_option id].
      rewrite set_bit_testbit
        by (auto; try lia; pose proof (Z.mod_pos_bound i 8 ltac:(lia)); lia).
      destruct (Z.eqb_spec (7 - i mod 8) (7 - n mod 8)) as [E'|E']; [|reflexivity].
      clear - Hi E E'. Z.div_mod_to_equations. lia.
    + rewrite list_lookup_insert_ne by lia.
      rewrite Hbl; [reflexivity|].
      assert (i / 8 < Z.of_nat (length l))
        by (rewrite HL; clear - Hi8 E Hl; Z.div_mod_to_equations; lia).
      lia.
  - unfold Bitbuf_bit. cbn [Bitbuf.buf]. rewrite list_lookup_insert_eq by lia.
    cbn [default from_option id].
    rewrite set_bit_testbit by (auto; lia). rewrite Z.eqb_refl. reflexivity.
Qed.

(** X20.  [Bitbuf::push_back] appends one bit: on a buffer that holds
    exactly the bytes its length needs, the call grows the vector by a
    zero byte when the last byte is full, stores the bit at the next
    position (the most significant free bit of the last byte) and leaves
    every earlier bit as it was; the buffer still holds exactly the bytes
    its new length needs. *)
Theorem Bitbuf_push_back_appends (b : Bitbuf.t) (bit : bool) :
  Bitbuf_inv b -> Bitbuf.len b + 8 < 2 ^ 64 ->
  exists b',
    Bitbuf.push_back b bit = Some b' /\
    Bitbuf_inv b' /\
    Bitbuf.size_in_bits b' = Bitbuf.size_in_bits b + 1 /\
    Bitbuf_bits b' = Bitbuf_bits b ++ [bit].
Proof.
  intros Hinv Hbound.
  destruct (push_back_spec b bit Hinv Hbound) as (b' & E & Hinv' & HL & Hold & Hnew).
  exists b'. split; [exact E|]. split; [exact Hinv'|]. split; [exact HL|].
  apply Bitbuf_bits_extend; [destruct Hinv as (? & _); lia | cbn [length]; lia | exact Hold |].
  intros [|k] x Hk; [|destruct k; discriminate].
  injection Hk as <-. rewrite Z.add_0_r. exact Hnew.
Qed.

Lemma Bitbuf_push_back_appends_witness :
  let b := Bitbuf.mk [0xB4; 0xA0] 11 in
  exists b',
    Bitbuf.push_back b true = Some b' /\
    Bitbuf_inv b' /\
    Bitbuf.size_in_bits b' = Bitbuf.size_in_bits b + 1 /\
    Bitbuf_bits b' = Bitbuf_bits b ++ [true].
Proof.
  intros b.
  apply (Bitbuf_push_back_appends b true).
  - unfold Bitbuf_inv. cbn [Bitbuf.len Bitbuf.buf b].
    split; [lia|]. split; [reflexivity|]. repeat constructor; lia.
  - vm_compute. reflexivity.
Defined.

Lemma Bitbuf_inv_length (b : Bitbuf.t) :
  Bitbuf_inv b ->
  (Bitbuf.len b mod 8 = 0 -> Z.of_nat (length (Bitbuf.buf b)) = Bitbuf.len b / 8) /\
  (Bitbuf.len b mod 8 <> 0 -> Z.of_nat (length (Bitbuf.buf b)) = Bitbuf.len b / 8 + 1).
Proof.
  intros (Hl & HL & _). rewrite HL.
  split; intros H; clear - H Hl; Z.div_mod_to_equations; lia.
Qed.

Lemma append_byte_spec (b : Bitbuf.t) (v : Z) :
  Bitbuf_inv b -> 0 <= v < 2 ^ 8 -> Bitbuf.len b + 8 < 2 ^ 34 ->
  exists b',
    Bitbuf.append_byte b v = Some b' /\
    Bitbuf_inv b' /\
    Bitbuf.len b' = Bitbuf.len b + 8 /\
    (forall i, 0 <= i < Bitbuf.len b -> Bitbuf_bit b' i = Bitbuf_bit b i) /\
    (forall k, 0 <= k < 8 -> Bitbuf_bit b' (Bitbuf.len b + k) = Z.testbit v (7 - k)).
Proof.
  intros Hinv Hv Hbound.
  pose proof (Bitbuf_inv_length b Hinv) as [HL0 HL1].
  destruct Hinv as (Hl & HL & HB).
  unfold Bitbuf.append_byte. cbv zeta.
  set (n := Bitbuf.len b) in *. set (l := Bitbuf.buf b) in *.
  assert (Hs : 0 <= n mod 8 < 8) by (apply Z.mod_pos_bound; lia).
  assert (Hq : 0 <= n / 8 < 2 ^ 31) by (clear - Hl Hbound; Z.div_mod_to_equations; lia).
  rewrite (i32_small (n mod 8)) by lia.
  rewrite (i32_small (n / 8)) by lia.
  rewrite (usize_small (n / 8)) by lia.
  rewrite (usize_small (n + 8)) by lia.
  destruct (Z.eqb_spec (n mod 8) 0) as [E0|E0].
  - (* the last byte is full: the byte is pushed whole *)
    specialize (HL0 E0).
    eexists. split; [reflexivity|].
    split.
    { unfold Bitbuf_inv. cbn [Bitbuf.len Bitbuf.buf]. split; [lia|]. split.
      - rewrite length_app. cbn [length]. rewrite Nat2Z.inj_add, HL0.
        clear - E0 Hl. Z.div_mod_to_equations. lia.
      - apply Forall_app. split; [exact HB | repeat constructor; lia]. }
    split; [reflexivity|].
    split.
    + intros i Hi. unfold Bitbuf_bit. cbn [Bitbuf.buf]. fold l.
      rewrite lookup_app_l; [reflexivity|].
      assert (i / 8 < n / 8) by (clear - Hi E0; Z.div_mod_to_equations; lia).
      assert (0 <= i / 8) by (apply Z.div_pos; lia). lia.
    + intros k Hk. unfold Bitbuf_bit. cbn [Bitbuf.buf].
      assert (E1 : (n + k) / 8 = n / 8) by (clear - Hk E0; Z.div_mod_to_equations; lia).
      assert (E2 : (n + k) mod 8 = k) by (clear - Hk E0; Z.div_mod_to_equations; lia).
      rewrite E1, E2, list_lookup_middle by lia. reflexivity.
  - (* the byte is split over the last byte and a new one *)
    specialize (HL1 E0).
    destruct (l !! Z.to_nat (n / 8)) as [x|] eqn:Ex.
    2:{ apply lookup_ge_None in Ex. lia. }
    assert (Hx : 0 <= x < 2 ^ 8) by (rewrite Forall_lookup in HB; exact (HB _ _ Ex)).
    cbn [mbind option_bind].
    set (s := n mod 8) in *.
    set (merged := Z.lor (u8 (Z.shiftl (Z.shiftr x (8 - s)) (8 - s))) (u8 (Z.shiftr v s))).
    eexists. split; [reflexivity|].
    assert (Hmerged : forall j, 0 <= j ->
              Z.testbit merged j
              = (j <? 8) && (if 8 - s <=? j then Z.testbit x j else Z.testbit v (j + s))).
    { intros j Hj. unfold merged.
      rewrite Z.lor_spec, !u8_testbit, Z.shiftr_spec by lia.
      destruct (Z.ltb_spec j 8); cbn [andb]; [|reflexivity].
      destruct (Z.leb_spec (8 - s) j).
      - rewrite Z.shiftl_spec, Z.shiftr_spec by lia.
        replace (j - (8 - s) + (8 - s)) with j by lia.
        rewrite (byte_high_bit v (j + s)) by (auto; lia). apply orb_false_r.
      - rewrite Z.shiftl_spec_low by lia. reflexivity. }
    split.
    { unfold Bitbuf_inv. cbn [Bitbuf.len Bitbuf.buf]. split; [lia|]. split.
      - rewrite length_app, length_insert. cbn [length]. rewrite Nat2Z.inj_add, HL1.
        clear - E0 Hl. fold s in E0. Z.div_mod_to_equations. lia.
      - apply Forall_app. split.
        + apply Forall_insert; [exact HB|].
          apply range_of_bits; [lia|]. intros j Hj. rewrite Hmerged by lia.
          destruct (j <? 8); reflexivity.
        + repeat constructor; apply u8_range. }
    split; [reflexivity|].
    split.
    + intros i Hi. unfold Bitbuf_bit. cbn [Bitbuf.buf]. fold l.
      assert (Hi8 : 0 <= i / 8 <= n / 8) by (clear - Hi; Z.div_mod_to_equations; lia).
      rewrite lookup_app_l by (rewrite length_insert; lia).
      destruct (Z.eq_dec (i / 8) (n / 8)) as [E|E].
      * rewrite E, list_lookup_insert_eq by lia. rewrite Ex.
        cbn [default from_option id].
        assert (Him : 0 <= i mod 8 < s)
          by (clear - Hi E Hl; subst s; Z.div_mod_to_equations; lia).
        rewrite Hmerged by lia.
        replace (7 - i mod 8 <? 8) with true by lia.
        replace (8 - s <=? 7 - i mod 8) with true by lia. reflexivity.
      * rewrite list_lookup_insert_ne by lia. reflexivity.
    + intros k Hk. unfold Bitbuf_bit. cbn [Bitbuf.buf].
      destruct (Z.ltb_spec (s + k) 8) as [Hlt|Hge].
      * assert (E1 : (n + k) / 8 = n / 8)
          by (clear - Hk Hlt Hl; subst s; Z.div_mod_to_equations; lia).
        assert (E2 : (n + k) mod 8 = s + k)
          by (clear - Hk Hlt Hl; subst s; Z.div_mod_to_equations; lia).
        rewrite E1, E2, lookup_app_l by (rewrite length_insert; lia).
        rewrite list_lookup_insert_eq by lia. cbn [default from_option id].
        rewrite Hmerged by lia.
        replace (7 - (s + k) <? 8) with true by lia.
        replace (8 - s <=? 7 - (s + k)) with false by lia. cbn [andb].
        f_equal. lia.
      * assert (E1 : (n + k) / 8 = n / 8 + 1)
          by (clear - Hk Hge Hl Hs; subst s; Z.div_mod_to_equations; lia).
        assert (E2 : (n + k) mod 8 = s + k - 8)
          by (clear - Hk Hge Hl Hs; subst s; Z.div_mod_to_equations; lia).
        rewrite E1, E2, list_lookup_middle by (rewrite length_insert; lia).
        cbn [default from_option id].
        rewrite u8_testbit, Z.shiftl_spec by lia.
        replace (7 - (s + k - 8) <? 8) with true by lia. cbn [andb].
        f_equal. lia.
Qed.

(** X21.  [Bitbuf::append_byte] appends the eight bits of a byte, most
    significant first, whether or not the buffer ends on a byte boundary:
    on a buffer that holds exactly the bytes its length needs (and whose
    byte count fits the [int] the function computes it in), the bits
    already stored are unchanged, the eight new bits follow them, and the
    buffer again holds exactly the bytes its length needs. *)
Theorem Bitbuf_append_byte_appends (b : Bitbuf.t) (v : Z) :
  Bitbuf_inv b -> 0 <= v < 2 ^ 8 -> Bitbuf.len b + 8 < 2 ^ 34 ->
  exists b',
    Bitbuf.append_byte b v = Some b' /\
    Bitbuf_inv b' /\
    Bitbuf.size_in_bits b' = Bitbuf.size_in_bits b + 8 /\
    Bitbuf_bits b'
    = Bitbuf_bits b ++ map (fun k => Z.testbit v (7 - k)) (seqZ 0 8).
Proof.
  intros Hinv Hv Hbound.
  destruct (append_byte_spec b v Hinv Hv Hbound) as (b' & E & Hinv' & HL & Hold & Hnew).
  exists b'. split; [exact E|]. split; [exact Hinv'|]. split; [exact HL|].
  apply Bitbuf_bits_extend; [destruct Hinv as (? & _); lia | rewrite HL; reflexivity
                            | exact Hold |].
  intros k x Hk.
  assert (Hk8 : (k < 8)%nat).
  { apply lookup_lt_Some in Hk. rewrite length_map, length_seqZ in Hk. lia. }
  rewrite Hnew by lia.
  do 8 (destruct k as [|k]; [injection Hk as <-; reflexivity|]). lia.
Qed.

Lemma Bitbuf_append_byte_appends_witness :
  let b := Bitbuf.mk [0xB4; 0xA0] 11 in
  exists b',
    Bitbuf.append_byte b 0xC5 = Some b' /\
    Bitbuf_inv b' /\
    Bitbuf.size_in_bits b' = Bitbuf.size_in_bits b + 8 /\
    Bitbuf_bits b'
    = Bitbuf_bits b ++ map (fun k => Z.testbit 0xC5 (7 - k)) (seqZ 0 8).
Proof.
  intros b.
  apply (Bitbuf_append_byte_appends b 0xC5).
  - unfold Bitbuf_inv. cbn [Bitbuf.len Bitbuf.buf b].
    split; [lia|]. split; [reflexivity|]. repeat constructor; lia.
  - vm_compute. split; [discriminate | reflexivity].
  - vm_compute. reflexivity.
Defined.

(** X22.  [Bitbuf::byte_at_pos_offset] returns the eight bits that start
    [offset] bits into byte [pos], most significant first; the bits it
    would need from beyond the last byte of the vector read as zero. *)
Theorem Bitbuf_byte_at_pos_offset_bits (b : Bitbuf.t) (pos offset : Z) :
  Forall (fun x => 0 <= x < 2 ^ 8) (Bitbuf.buf b) ->
  0 <= pos < Z.of_nat (length (Bitbuf.buf b)) ->
  Z.of_nat (length (Bitbuf.buf b)) < 2 ^ 64 ->
  0 <= offset < 8 ->
  exists v,
    Bitbuf.byte_at_pos_offset b pos offset = Some v /\
    0 <= v < 2 ^ 8 /\
    forall k, 0 <= k < 8 -> Z.testbit v (7 - k) = Bitbuf_bit b (8 * pos + offset + k).
Proof.
  intros HB Hpos Hsz Hoff. unfold Bitbuf.byte_at_pos_offset.
  set (l := Bitbuf.buf b) in *.
  destruct (l !! Z.to_nat pos) as [x|] eqn:Ex.
  2:{ apply lookup_ge_None in Ex. lia. }
  assert (Hx : 0 <= x < 2 ^ 8) by (rewrite Forall_lookup in HB; exact (HB _ _ Ex)).
  destruct (Z.eqb_spec offset 0) as [->|Hne].
  - exists x. split; [reflexivity|]. split; [exact Hx|].
    intros k Hk. unfold Bitbuf_bit. fold l.
    assert (E1 : (8 * pos + 0 + k) / 8 = pos) by (clear - Hk; Z.div_mod_to_equations; lia).
    assert (E2 : (8 * pos + 0 + k) mod 8 = k) by (clear - Hk; Z.div_mod_to_equations; lia).
    rewrite E1, E2, Ex. reflexivity.
  - cbn [mbind option_bind]. rewrite (usize_small (pos + 1)) by lia.
    set (y := default 0 (l !! Z.to_nat (pos + 1))).
    assert (Hy : 0 <= y < 2 ^ 8).
    { unfold y. destruct (l !! Z.to_nat (pos + 1)) as [y0|] eqn:Ey;
        cbn [default from_option id]; [|lia].
      rewrite Forall_lookup in HB. exact (HB _ _ Ey). }
    assert (Hbits : forall k, 0 <= k < 8 ->
              Z.testbit (u8 (Z.lor (u8 (Z.shiftl x offset)) (Z.shiftr y (8 - offset)))) (7 - k)
              = Bitbuf_bit b (8 * pos + offset + k)).
    { intros k Hk. unfold Bitbuf_bit. fold l.
      rewrite u8_testbit, Z.lor_spec, u8_testbit, Z.shiftr_spec by lia.
      replace (7 - k <? 8) with true by lia. cbn [andb].
      destruct (Z.ltb_spec (offset + k) 8) as [Hlt|Hge].
      - assert (E1 : (8 * pos + offset + k) / 8 = pos)
          by (clear - Hk Hlt Hoff; Z.div_mod_to_equations; lia).
        assert (E2 : (8 * pos + offset + k) mod 8 = offset + k)
          by (clear - Hk Hlt Hoff; Z.div_mod_to_equations; lia).
        rewrite E1, E2, Ex. cbn [default from_option id].
        rewrite Z.shiftl_spec by lia.
        rewrite (byte_high_bit y (7 - k + (8 - offset))) by (auto; lia).
        rewrite orb_false_r. f_equal. lia.
      - assert (E1 : (8 * pos + offset + k) / 8 = pos + 1)
          by (clear - Hk Hge Hoff; Z.div_mod_to_equations; lia).
        assert (E2 : (8 * pos + offset + k) mod 8 = offset + k - 8)
          by (clear - Hk Hge Hoff; Z.div_mod_to_equations; lia).
        rewrite E1, E2. fold y.
        rewrite Z.shiftl_spec_low by lia. cbn [orb]. f_equal. lia. }
    destruct (Z.ltb_spec (pos + 1) (Z.of_nat (length l))) as [Hin|Hout].
    + destruct (l !! Z.to_nat (pos + 1)) as [y0|] eqn:Ey.
      2:{ apply lookup_ge_None in Ey. lia. }
      cbn [mbind option_bind].
      eexists. split; [reflexivity|]. split; [apply u8_range|].
      intros k Hk. rewrite <- (Hbits k Hk). unfold y. reflexivity.
    + assert (Ey : l !! Z.to_nat (pos + 1) = None) by (apply lookup_ge_None; lia).
      eexists. split; [reflexivity|]. split; [apply u8_range|].
      intros k Hk. rewrite <- (Hbits k Hk). unfold y. rewrite Ey.
      cbn [default from_option id]. rewrite Z.shiftr_0_l, Z.lor_0_r.
      rewrite (u8_testbit (u8 _)). replace (7 - k <? 8) with true by lia. reflexivity.
Qed.

Lemma Bitbuf_byte_at_pos_offset_bits_witness :
  let b := Bitbuf.mk [0xB4; 0xA7] 16 in
  exists v,
    Bitbuf.byte_at_pos_offset b 1 3 = Some v /\
    0 <= v < 2 ^ 8 /\
    forall k, 0 <= k < 8 -> Z.testbit v (7 - k) = Bitbuf_bit b (8 * 1 + 3 + k).
Proof.
  intros b.
  apply (Bitbuf_byte_at_pos_offset_bits b 1 3).
  - repeat constructor; cbn; lia.
  - vm_compute. split; [discriminate | reflexivity].
  - vm_compute. reflexivity.
  - vm_compute. split; [discriminate | reflexivity].
Defined.

Lemma substring_length_le (s : string) :
  forall n m, (String.length (String.substring n m s) <= m)%nat.
Proof.
  induction s as [|c s IH]; intros [|n] [|m]; cbn [String.substring String.length];
    try lia.
  - specialize (IH 0%nat m). lia.
  - apply IH.
  - apply IH.
Qed.

Lemma length_append_char (cur : string) (c : Ascii.ascii) :
  String.length (cur ++ String c EmptyString) = S (String.length cur).
Proof.
  induction cur as [|a cur IH]; cbn [String.append String.length]; [reflexivity|].
  rewrite IH. reflexivity.
Qed.

Lemma words_of_total_length (s : string) :
  forall cur,
    (list_sum (map String.length (Bitbuf.words_of s cur))
     <= String.length s + String.length cur)%nat.
Proof.
  induction s as [|c s IH]; intros cur; cbn [Bitbuf.words_of String.length].
  - destruct cur; simpl; lia.
  - destruct (Bitbuf.is_space c).
    + destruct cur as [|a cur].
      * specialize (IH EmptyString). simpl in *. lia.
      * specialize (IH EmptyString). simpl in *. lia.
    + specialize (IH (cur ++ String c EmptyString)%string).
      rewrite length_append_char in IH. lia.
Qed.

Lemma push_chars_spec (s : string) :
  forall b,
    Bitbuf_inv b -> Bitbuf.len b + Z.of_nat (String.length s) + 8 < 2 ^ 64 ->
    exists b',
      Bitbuf.push_chars b s = Some b' /\
      Bitbuf_inv b' /\
      Bitbuf.len b' = Bitbuf.len b + Z.of_nat (String.length s) /\
      Bitbuf_bits b' = Bitbuf_bits b ++ map Bitbuf.bit_of_char (list_ascii_of_string s).
Proof.
  induction s as [|c s IH]; intros b Hinv Hbound.
  - exists b. cbn [Bitbuf.push_chars String.length list_ascii_of_string map].
    split; [reflexivity|]. split; [exact Hinv|]. split; [lia|].
    rewrite app_nil_r. reflexivity.
  - cbn [String.length] in Hbound. cbn [Bitbuf.push_chars].
    destruct (push_back_spec b (Bitbuf.bit_of_char c) Hinv ltac:(lia))
      as (b1 & E1 & Hinv1 & HL1 & Hold & Hnew).
    rewrite E1. cbn [mbind option_bind].
    assert (Hbits1 : Bitbuf_bits b1 = Bitbuf_bits b ++ [Bitbuf.bit_of_char c]).
    { apply Bitbuf_bits_extend;
        [destruct Hinv as (? & _); lia | cbn [length]; lia | exact Hold |].
      intros [|k] x Hk; [|destruct k; discriminate].
      injection Hk as <-. rewrite Z.add_0_r. exact Hnew. }
    destruct (IH b1 Hinv1 ltac:(lia)) as (b' & E' & Hinv' & HL' & Hbits').
    exists b'. split; [exact E'|]. split; [exact Hinv'|].
    split; [cbn [String.length]; lia|].
    rewrite Hbits', Hbits1. cbn [list_ascii_of_string map].
    rewrite <- app_assoc. reflexivity.
Qed.

Lemma append_binary_str_spec (b : Bitbuf.t) (w : string) :
  Bitbuf_inv b -> Bitbuf.len b + Z.of_nat (String.length w) + 8 < 2 ^ 64 ->
  exists b',
    Bitbuf.append_binary_str b w = Some b' /\
    Bitbuf_inv b' /\
    Bitbuf.len b <= Bitbuf.len b' <= Bitbuf.len b + Z.of_nat (String.length w) /\
    Bitbuf_bits b' = Bitbuf_bits b ++ Bitbuf_word_bits w.
Proof.
  intros Hinv Hbound. unfold Bitbuf.append_binary_str, Bitbuf_word_bits. cbv zeta.
  set (start := if String.prefix "0b" w then 2%nat else 0%nat).
  pose proof (substring_length_le w start (String.length w - start)) as Hle.
  destruct (push_chars_spec (String.substring start (String.length w - start) w) b Hinv
              ltac:(lia)) as (b' & E & Hinv' & HL & Hbits).
  exists b'. split; [exact E|]. split; [exact Hinv'|]. split; [lia | exact Hbits].
Qed.

Lemma append_words_spec (ws : list string) :
  forall b,
    Bitbuf_inv b ->
    Bitbuf.len b + Z.of_nat (list_sum (map String.length ws)) + 8 < 2 ^ 64 ->
    exists b',
      Bitbuf.append_words b ws = Some b' /\
      Bitbuf_inv b' /\
      Bitbuf_bits b' = Bitbuf_bits b ++ flat_map Bitbuf_word_bits ws.
Proof.
  induction ws as [|w ws IH]; intros b Hinv Hbound.
  - exists b. cbn [Bitbuf.append_words flat_map]. rewrite app_nil_r. auto.
  - assert (Hsum : list_sum (map String.length (w :: ws))
                 = (String.length w + list_sum (map String.length ws))%nat) by reflexivity.
    rewrite Hsum in Hbound. cbn [Bitbuf.append_words].
    destruct (append_binary_str_spec b w Hinv ltac:(lia)) as (b1 & E1 & Hinv1 & HL1 & Hbits1).
    rewrite E1. cbn [mbind option_bind].
    destruct (IH b1 Hinv1 ltac:(lia)) as (b' & E' & Hinv' & Hbits').
    exists b'. split; [exact E'|]. split; [exact Hinv'|].
    rewrite Hbits', Hbits1. cbn [flat_map]. rewrite <- app_assoc. reflexivity.
Qed.

(** X23.  The constructor [Bitbuf(const std::string&)] builds the bits
    of the string's whitespace-separated words in order: each word gives
    one bit per character after an optional 0b prefix, 0 for the
    character 0 and 1 for every other character, and the words are
    concatenated.  The constructor always succeeds, and the buffer it
    builds holds exactly the bytes its length needs. *)
Theorem Bitbuf_of_string_bits (s : string) :
  Z.of_nat (String.length s) + 8 < 2 ^ 64 ->
  exists b,
    Bitbuf.of_string s = Some b /\
    Bitbuf_inv b /\
    Bitbuf_bits b = flat_map Bitbuf_word_bits (Bitbuf.words_of s EmptyString).
Proof.
  intros Hbound. unfold Bitbuf.of_string.
  pose proof (words_of_total_length s EmptyString) as Hle. cbn [String.length] in Hle.
  assert (Hinit : Bitbuf_inv Bitbuf.init).
  { unfold Bitbuf_inv, Bitbuf.init. cbn [Bitbuf.len Bitbuf.buf length].
    split; [lia|]. split; [reflexivity | constructor]. }
  destruct (append_words_spec (Bitbuf.words_of s EmptyString) Bitbuf.init Hinit)
    as (b & E & Hinv & Hbits).
  { cbn [Bitbuf.len Bitbuf.init]. lia. }
  exists b. split; [exact E|]. split; [exact Hinv|]. exact Hbits.
Qed.

Lemma Bitbuf_of_string_bits_witness :
  exists b,
    Bitbuf.of_string "0b101 11x0  0b" = Some b /\
    Bitbuf_inv b /\
    Bitbuf_bits b = flat_map Bitbuf_word_bits (Bitbuf.words_of "0b101 11x0  0b" EmptyString).
Proof.
  apply (Bitbuf_of_string_bits "0b101 11x0  0b").
  vm_compute. reflexivity.
Defined.

(** X24.  The aligned path of [Bitbuf::append]: when the buffer ends on
    a byte boundary and [start] is a multiple of 8, the bits [start] to
    [end) of the other buffer are appended: the bits already stored are
    unchanged, the length grows by [end - start], and the buffer again
    holds exactly the bytes its length needs. *)
Theorem Bitbuf_append_aligned (b ba : Bitbuf.t) (start end_ : Z) :
  Bitbuf_inv b -> Bitbuf_inv ba ->
  Bitbuf.len b mod 8 = 0 -> start mod 8 = 0 ->
  0 <= start <= end_ -> end_ <= Bitbuf.len ba ->
  Bitbuf.len ba + 8 < 2 ^ 64 ->
  Bitbuf.len b + (end_ - start) + 8 < 2 ^ 64 ->
  exists b',
    Bitbuf.append b ba start end_ = Some b' /\
    Bitbuf_inv b' /\
    Bitbuf.size_in_bits b' = Bitbuf.size_in_bits b + (end_ - start) /\
    Bitbuf_bits b' = Bitbuf_bits b ++ map (Bitbuf_bit ba) (seqZ start (end_ - start)).
Proof.
  intros Hinv Hinva Hal Hsal Hse Hend Hba Hbound.
  pose proof (Bitbuf_inv_length b Hinv) as [HL0 _]. specialize (HL0 Hal).
  destruct Hinv as (Hl & HL & HB). destruct Hinva as (Hla & HLa & HBa).
  unfold Bitbuf.append. cbv zeta.
  set (n := Bitbuf.len b) in *. set (l := Bitbuf.buf b) in *.
  set (la := Bitbuf.buf ba) in *. set (gap := end_ - start) in *.
  rewrite (usize_small gap) by (unfold gap; lia).
  unfold Bitbuf.byte_count. rewrite (usize_small (gap + 7)) by (unfold gap; lia).
  assert (Hnb : 0 <= (gap + 7) / 8)
    by (unfold gap; clear - Hse; Z.div_mod_to_equations; lia).
  assert (Hfirst : 0 <= start / 8) by (apply Z.div_pos; lia).
  assert (Hlast : start / 8 + (gap + 7) / 8 <= Z.of_nat (length la)).
  { rewrite HLa. unfold gap. clear - Hse Hend Hsal. Z.div_mod_to_equations. lia. }
  assert (Hsz : Z.of_nat (length la) < 2 ^ 64)
    by (rewrite HLa; clear - Hla Hba; Z.div_mod_to_equations; lia).
  rewrite (usize_small (start / 8 + (gap + 7) / 8)) by lia.
  rewrite (usize_small (n + gap)) by (unfold gap; lia).
  replace ((n mod 8 =? 0) && (start mod 8 =? 0)) with true
    by (rewrite Hal, Hsal; reflexivity).
  replace ((start / 8 <=? start / 8 + (gap + 7) / 8) &&
           (start / 8 + (gap + 7) / 8 <=? Z.of_nat (length la))) with true
    by (symmetry; apply andb_true_iff; split; apply Z.leb_le; lia).
  replace (start / 8 + (gap + 7) / 8 - start / 8) with ((gap + 7) / 8) by lia.
  set (chunk := take (Z.to_nat ((gap + 7) / 8)) (drop (Z.to_nat (start / 8)) la)).
  assert (Hchunk : length chunk = Z.to_nat ((gap + 7) / 8)).
  { unfold chunk. rewrite length_take, length_drop. lia. }
  eexists. split; [reflexivity|].
  split.
  { unfold Bitbuf_inv. cbn [Bitbuf.len Bitbuf.buf]. split; [unfold gap; lia|]. split.
    - rewrite length_app, Nat2Z.inj_add, Hchunk, HL0, Z2Nat.id by lia.
      clear - Hal Hnb. Z.div_mod_to_equations. lia.
    - apply Forall_app. split; [exact HB|]. apply Forall_take, Forall_drop. exact HBa. }
  split; [reflexivity|].
  apply Bitbuf_bits_extend.
  - exact Hl.
  - cbn [Bitbuf.len]. fold n. rewrite length_map, length_seqZ, Z2Nat.id by (unfold gap; lia).
    reflexivity.
  - intros i Hi. unfold Bitbuf_bit. cbn [Bitbuf.buf]. fold l.
    rewrite lookup_app_l; [reflexivity|].
    assert (0 <= i / 8 < n / 8) by (clear - Hi Hal; Z.div_mod_to_equations; lia). lia.
  - intros k x Hk. fold n.
    assert (Hk' : Z.of_nat k < gap).
    { apply lookup_lt_Some in Hk. rewrite length_map, length_seqZ in Hk.
      unfold gap in *. lia. }
    change (map (Bitbuf_bit ba) (seqZ start gap)) with (Bitbuf_bit ba <$> seqZ start gap) in Hk.
    rewrite list_lookup_fmap in Hk.
    destruct (seqZ start gap !! k) as [z|] eqn:Ez; [|discriminate].
    apply lookup_seqZ in Ez as [-> _]. cbn in Hk. injection Hk as <-.
    unfold Bitbuf_bit. cbn [Bitbuf.buf]. fold l la.
    assert (E1 : (n + Z.of_nat k) / 8 = n / 8 + Z.of_nat k / 8)
      by (clear - Hal Hl; Z.div_mod_to_equations; lia).
    assert (E2 : (n + Z.of_nat k) mod 8 = Z.of_nat k mod 8)
      by (clear - Hal Hl; Z.div_mod_to_equations; lia).
    assert (E3 : (start + Z.of_nat k) / 8 = start / 8 + Z.of_nat k / 8)
      by (clear - Hsal Hse; Z.div_mod_to_equations; lia).
    assert (E4 : (start + Z.of_nat k) mod 8 = Z.of_nat k mod 8)
      by (clear - Hsal Hse; Z.div_mod_to_equations; lia).
    assert (Hk8 : 0 <= Z.of_nat k / 8 < (gap + 7) / 8)
      by (clear - Hk'; Z.div_mod_to_equations; lia).
    rewrite E1, E2, E3, E4.
    rewrite lookup_app_r by lia.
    unfold chunk. rewrite lookup_take_lt by lia. rewrite lookup_drop.
    do 3 f_equal. lia.
Qed.

Lemma Bitbuf_append_aligned_witness :
  let b := Bitbuf.mk [0xB4] 8 in
  let ba := Bitbuf.mk [0x12; 0x34; 0x56; 0x70] 28 in
  exists b',
    Bitbuf.append b ba 8 27 = Some b' /\
    Bitbuf_inv b' /\
    Bitbuf.size_in_bits b' = Bitbuf.size_in_bits b + (27 - 8) /\
    Bitbuf_bits b' = Bitbuf_bits b ++ map (Bitbuf_bit ba) (seqZ 8 (27 - 8)).
Proof.
  intros b ba.
  apply (Bitbuf_append_aligned b ba 8 27).
  - unfold Bitbuf_inv. cbn [Bitbuf.len Bitbuf.buf b].
    split; [lia|]. split; [reflexivity|]. repeat constructor; lia.
  - unfold Bitbuf_inv. cbn [Bitbuf.len Bitbuf.buf ba].
    split; [lia|]. split; [reflexivity|]. repeat constructor; lia.
  - reflexivity.
  - reflexivity.
  - lia.
  - vm_compute. discriminate.
  - vm_compute. reflexivity.
  - vm_compute. reflexivity.
Defined.
